(** * Larus flight sensor: AHRS, flight observer and NMEA formatter

    A shallow embedding of [NAV_Algorithms/AHRS.cpp],
    [NAV_Algorithms/flight_observer.cpp] and
    [Output_Formatter/NMEA_format.cpp], and the properties of the
    specification that can be settled on it. *)

From Stdlib Require Import ZArith Bool List String Ascii Lia.
From Stdlib Require Reals Lra.
From Stdlib Require Import Floats.SpecFloat.
Import ListNotations.

Local Open Scope Z_scope.

(* ================================================================== *)
(** * IEEE-754 single precision ([float])

    The firmware computes in C [float]: binary32, round to nearest even.
    The Standard Library's [SpecFloat] gives the operations for any
    precision; they are taken here at 24 bits of mantissa and infinities
    at exponent 128. *)

Module F32.

Definition prec : Z := 24.
Definition emax : Z := 128.

Definition float : Type := spec_float.

Definition add : float -> float -> float := SFadd prec emax.
Definition sub : float -> float -> float := SFsub prec emax.
Definition mul : float -> float -> float := SFmul prec emax.
Definition div : float -> float -> float := SFdiv prec emax.
Definition sqrt : float -> float := SFsqrt prec emax.
Definition neg : float -> float := SFopp.
Definition abs : float -> float := SFabs.

(** [a < b], [a > b], [a <= b] of C: false when an operand is NaN. *)
Definition ltb (a b : float) : bool := SFltb a b.
Definition gtb (a b : float) : bool := SFltb b a.
Definition leb (a b : float) : bool := SFleb a b.

(** A value of the format: mantissa of at most 24 bits at the exponent
    the format prescribes. Every value the hardware holds is one. *)
Definition valid (x : float) : bool := valid_binary prec emax x.

(** Conversion of an integer, rounded to nearest even. *)
Definition of_Z (z : Z) : float := binary_normalize prec emax z 0 false.

(** The literal [m * 2^e], for a mantissa that fits the format. *)
Definition of_bits (m e : Z) : float := binary_normalize prec emax m e false.

(** The decimal literal [n / 10^k] for [n] and [10^k] below [2^24]: both
    integers convert exactly, so the quotient is the literal correctly
    rounded, as the compiler produces it. *)
Definition decimal (n : Z) (k : Z) : float := div (of_Z n) (of_Z (10 ^ k)).

Definition zero : float := S754_zero false.

(** A value of the format of magnitude at most [B]: neither NaN nor an
    infinity, and between [-B] and [B]. *)
Definition within (B : Z) (x : float) : bool :=
  valid x && leb (of_Z (- B)) x && leb x (of_Z B).

(** The integer part of a finite value, rounded toward zero. *)
Definition trunc (x : float) : Z :=
  match x with
  | S754_finite s m e =>
      let a := match e with
               | Zneg p => Z.shiftr (Zpos m) (Zpos p)
               | _ => Z.shiftl (Zpos m) e
               end in
      if s then - a else a
  | _ => 0
  end.

Definition INT32_MIN : Z := - 2 ^ 31.
Definition INT32_MAX : Z := 2 ^ 31 - 1.

(** The C conversion [(int) x]: truncation toward zero.  Outside the
    range of [int] and for NaN the C standard leaves the behaviour
    undefined; the conversion instruction of the target saturates and
    maps NaN to 0, which is what is modelled.  The properties of the
    sentences below are stated for values inside the range of [int],
    where the result is [trunc x] whatever the target. *)
Definition to_int (x : float) : Z :=
  match x with
  | S754_nan => 0
  | S754_infinity s => if s then INT32_MIN else INT32_MAX
  | _ => Z.max INT32_MIN (Z.min INT32_MAX (trunc x))
  end.

(** The values at which [(int) x] is defined by the C standard and is not
    the smallest [int], whose negative is not an [int]: the integer part
    lies strictly between [-2^31] and [2^31], and it is the result. *)
Definition inside_int (x : float) : Prop :=
  to_int x = trunc x /\ - 2 ^ 31 < trunc x < 2 ^ 31.

(** The magnitude [m * 2^e] as an integer, scaled by [2^200]: no exponent
    of the format, nor of a product of two values, is below -200.  The
    properties of rounding compare magnitudes in this form. *)
Definition scaled (m e : Z) : Z := m * 2 ^ (e + 200).

(** The record of [SpecFloat]'s right shift after [k] shifts of the
    integer [m0]: the quotient, and neither round nor sticky bit when
    nothing was shifted out. *)
Definition shifted (m0 k : Z) (rec : shr_record) : Prop :=
  shr_m rec = m0 / 2 ^ k
  /\ (m0 mod 2 ^ k = 0 -> shr_r rec = false /\ shr_s rec = false).

(** A result of sign [s] whose magnitude is at most [K * 2^g], at an
    exponent of at most [g]: zero, or finite and no larger. *)
Definition bounded_by (K : positive) (g : Z) (s : bool) (x : float) : Prop :=
  x = S754_zero s
  \/ exists (m : positive) (e : Z),
       x = S754_finite s m e /\ -200 <= e <= g
       /\ scaled (Z.pos m) e <= scaled (Z.pos K) g.

End F32.

Abbreviation float := F32.float.

Declare Scope f32_scope.
Delimit Scope f32_scope with f32.
Infix "+" := F32.add : f32_scope.
Infix "-" := F32.sub : f32_scope.
Infix "*" := F32.mul : f32_scope.
Infix "/" := F32.div : f32_scope.
Notation "- x" := (F32.neg x) : f32_scope.
Infix "<?" := F32.ltb : f32_scope.
Infix ">?" := F32.gtb : f32_scope.
Infix "<=?" := F32.leb : f32_scope.

(** [M_PI_F] of [embedded_math.h]: the single-precision value nearest to
    pi, 0x40490FDB. *)
Definition M_PI_F : float := F32.of_bits 13176795 (-22).

(* ================================================================== *)
(** * The real number a floating-point value stands for

    The properties that bound a rounding error or a magnitude are stated on
    the real numbers: a finite value [m * 2^e] with its sign stands for
    that number, a zero for 0. *)

Module Exact.

Import Stdlib.Reals.Reals.

Local Open Scope R_scope.

(** A zero or a finite value: neither an infinity nor NaN. *)
Definition is_finite (x : spec_float) : bool :=
  match x with
  | S754_zero _ | S754_finite _ _ _ => true
  | _ => false
  end.

(** The number [x] stands for; an infinity and NaN, which the statements
    exclude by [is_finite], are given 0. *)
Definition value (x : spec_float) : R :=
  match x with
  | S754_finite s m e =>
      (if s then - IZR (Z.pos m) else IZR (Z.pos m)) * powerRZ 2 e
  | _ => 0
  end.

End Exact.

Local Open Scope f32_scope.

(* ================================================================== *)
(** * Vectors and matrices

    [float3vector] and [float3matrix] come from the firmware's generic
    vector and matrix headers, which are not part of the sources at hand. *)

(** A C array of three elements, read and written by index. *)
Record array3 (A : Type) : Type := mk3 { a0 : A; a1 : A; a2 : A }.
Arguments mk3 {A} _ _ _.
Arguments a0 {A} _.
Arguments a1 {A} _.
Arguments a2 {A} _.

Inductive index3 : Type := I0 | I1 | I2.

(** The index names of [system_configuration.h]: navigation frame, body
    frame and rotation axes share the three positions. *)
Definition NORTH : index3 := I0.
Definition EAST : index3 := I1.
Definition DOWN : index3 := I2.
Definition FRONT : index3 := I0.
Definition RIGHT : index3 := I1.
Definition ROLL : index3 := I0.
Definition NICK : index3 := I1.
Definition YAW : index3 := I2.

Definition get3 {A : Type} (v : array3 A) (i : index3) : A :=
  match i with I0 => a0 v | I1 => a1 v | I2 => a2 v end.

Definition put3 {A : Type} (v : array3 A) (i : index3) (x : A) : array3 A :=
  match i with
  | I0 => mk3 x (a1 v) (a2 v)
  | I1 => mk3 (a0 v) x (a2 v)
  | I2 => mk3 (a0 v) (a1 v) x
  end.

Definition map3 {A B : Type} (f : A -> B) (v : array3 A) : array3 B :=
  mk3 (f (a0 v)) (f (a1 v)) (f (a2 v)).

Definition zip3 {A B C : Type} (f : A -> B -> C) (v : array3 A)
  (w : array3 B) : array3 C :=
  mk3 (f (a0 v) (a0 w)) (f (a1 v) (a1 w)) (f (a2 v) (a2 w)).

Definition float3vector : Type := array3 float.

(** Modelled from the spec: the element-wise operators of [float3vector]
    (the vector header is missing): sum, difference, scaling by a float. *)
Definition vadd (v w : float3vector) : float3vector := zip3 F32.add v w.
Definition vsub (v w : float3vector) : float3vector := zip3 F32.sub v w.
Definition vscale (v : float3vector) (k : float) : float3vector :=
  map3 (fun x => x * k) v.

(** Modelled from the spec: the scalar product [v * w] of [float3vector]
    (the vector header is missing), summed from the first element on. *)
Definition vdot (v w : float3vector) : float :=
  a0 v * a0 w + a1 v * a1 w + a2 v * a2 w.

(** Modelled from the spec: [float3vector::abs], the Euclidean length. *)
Definition vabs (v : float3vector) : float := F32.sqrt (vdot v v).

(** Modelled from the spec: [float3vector::normalize], division by the
    length. *)
Definition vnormalize (v : float3vector) : float3vector :=
  map3 (fun x => x / vabs v) v.

(** A 3x3 matrix as its three rows. *)
Definition float3matrix : Type := array3 float3vector.

(** Modelled from the spec: [float3matrix * float3vector] (the matrix
    header is missing), each row times the vector. *)
Definition mat_mul (m : float3matrix) (v : float3vector) : float3vector :=
  map3 (fun row => vdot row v) m.

(** Modelled from the spec: [float3matrix::reverse_map], the product with
    the transposed matrix (the inverse of a rotation). *)
Definition reverse_map (m : float3matrix) (v : float3vector) : float3vector :=
  mk3 (a0 (a0 m) * a0 v + a0 (a1 m) * a1 v + a0 (a2 m) * a2 v)
      (a1 (a0 m) * a0 v + a1 (a1 m) * a1 v + a1 (a2 m) * a2 v)
      (a2 (a0 m) * a0 v + a2 (a1 m) * a1 v + a2 (a2 m) * a2 v).

(** Euler angles: roll, nick (pitch) and yaw. *)
Record eulerangle : Type := mk_euler { r : float; n : float; y : float }.

(* ================================================================== *)
(** * AHRS: attitude and heading reference system ([AHRS.cpp]) *)

Inductive circle_state_t : Type := STRAIGHT_FLIGHT | TRANSITION | CIRCLING.

Definition circle_state_eqb (a b : circle_state_t) : bool :=
  match a, b with
  | STRAIGHT_FLIGHT, STRAIGHT_FLIGHT => true
  | TRANSITION, TRANSITION => true
  | CIRCLING, CIRCLING => true
  | _, _ => false
  end.

(** The constants of [NAV_tuning_parameters.h] and the build switches of
    [system_configuration.h] that [AHRS.cpp] reads.  Neither header is
    among the sources, so the values are parameters. *)
Class Tuning : Type := {
  CIRCLE_LIMIT : Z;
  HIGH_TURN_RATE : float;
  LOW_TURN_RATE : float;
  P_GAIN : float;
  I_GAIN : float;
  H_GAIN : float;
  M_H_GAIN : float;
  CROSS_GAIN : float;
  NAV_CORRECTION_LIMIT : float;
  MAG_SCALE : float;
  INDUCTION_STD_DEVIATION_LIMIT : float;
  DISABLE_CIRCLING_STATE : bool;
  CROSS_GAIN_ONLY : bool
}.

(** The classes and functions [AHRS.cpp] calls but does not define: the
    quaternion, the averaging filter, the compass calibration with its
    data collectors, the earth induction observer, the math library and
    the gain formula of [AHRS.h].  Each is an abstract type with the
    operations the code uses, in state-passing form. *)
Class Collaborators : Type := {
  (* quaternion<float> *)
  quaternion : Type;
  q_rotate : quaternion -> float -> float -> float -> quaternion;
  q_normalize : quaternion -> quaternion;
  q_get_rotation_matrix : quaternion -> float3matrix;
  q_to_euler : quaternion -> eulerangle;
  (* the averaging filter: respond takes a sample, get_output reads *)
  averager : Type;
  respond : averager -> float -> averager;
  get_output : averager -> float;
  (* compass_calibration_t *)
  compass_calibration_t : Type;
  single_axis_calibration_t : Type;
  collector : Type;
  isCalibrationDone : compass_calibration_t -> bool;
  calibrate : compass_calibration_t -> float3vector -> float3vector;
  set_calibration_if_changed :
    compass_calibration_t -> array3 collector -> float -> bool ->
    compass_calibration_t * array3 collector * bool;
  get_calibration : compass_calibration_t -> array3 single_axis_calibration_t;
  (* linear_least_square_fit *)
  add_value : collector -> float -> float -> collector;
  (* the earth induction data collector *)
  induction_observer_t : Type;
  feed : induction_observer_t -> float3vector -> bool -> induction_observer_t;
  data_valid : induction_observer_t -> bool;
  get_variance : induction_observer_t -> float;
  get_estimated_induction : induction_observer_t -> float3vector;
  reset : induction_observer_t -> induction_observer_t;
  (* AHRS_type::update_magnetic_loop_gain of AHRS.h: the gain as a
     function of the expected induction *)
  magnetic_loop_gain : float3vector -> float;
  (* embedded_math.h *)
  SIN : float -> float;
  COS : float -> float;
  ATAN2 : float -> float -> float
}.

(** [magnetic_induction_report_t], handed to
    [report_magnetic_calibration_has_changed]. *)
Record magnetic_induction_report_t `{Collaborators} : Type := {
  calibration : array3 single_axis_calibration_t;
  nav_induction : float3vector;
  nav_induction_std_deviation : float
}.

Section AHRS.
Context `{Tuning} `{Collaborators}.

(** The object state of [AHRS_type], as far as [AHRS.cpp] reads and writes
    it.  [reports] is the sequence of calls made so far to the external
    [report_magnetic_calibration_has_changed], latest first, each with its
    report and its type character. *)
Record AHRS_type : Type := {
  Ts : float;
  Ts_div_2 : float;
  attitude : quaternion;
  body2nav : float3matrix;
  euler : eulerangle;
  acceleration_nav_frame : float3vector;
  induction_nav_frame : float3vector;
  nav_correction : float3vector;
  gyro_correction : float3vector;
  gyro_integrator : float3vector;
  circling_counter : Z;
  circling_state : circle_state_t;
  slip_angle_averager : averager;
  nick_angle_averager : averager;
  turn_rate_averager : averager;
  G_load_averager : averager;
  antenna_DOWN_correction : float;
  antenna_RIGHT_correction : float;
  heading_difference_AHRS_DGNSS : float;
  magnetic_disturbance : float;
  automatic_magnetic_calibration : bool;
  automatic_earth_field_parameters : bool;
  expected_nav_induction : float3vector;
  magnetic_control_gain : float;
  compass_calibration : compass_calibration_t;
  mag_calibration_data_collector : array3 collector;
  earth_induction_data_collector : induction_observer_t;
  reports : list (magnetic_induction_report_t * ascii)
}.

Definition set_attitude (v : quaternion) (st : AHRS_type) : AHRS_type :=
  {| Ts := Ts st; Ts_div_2 := Ts_div_2 st; attitude := v; body2nav := body2nav
     st; euler := euler st; acceleration_nav_frame := acceleration_nav_frame st;
     induction_nav_frame := induction_nav_frame st; nav_correction :=
     nav_correction st; gyro_correction := gyro_correction st; gyro_integrator :=
     gyro_integrator st; circling_counter := circling_counter st; circling_state
     := circling_state st; slip_angle_averager := slip_angle_averager st;
     nick_angle_averager := nick_angle_averager st; turn_rate_averager :=
     turn_rate_averager st; G_load_averager := G_load_averager st;
     antenna_DOWN_correction := antenna_DOWN_correction st;
     antenna_RIGHT_correction := antenna_RIGHT_correction st;
     heading_difference_AHRS_DGNSS := heading_difference_AHRS_DGNSS st;
     magnetic_disturbance := magnetic_disturbance st;
     automatic_magnetic_calibration := automatic_magnetic_calibration st;
     automatic_earth_field_parameters := automatic_earth_field_parameters st;
     expected_nav_induction := expected_nav_induction st; magnetic_control_gain
     := magnetic_control_gain st; compass_calibration := compass_calibration st;
     mag_calibration_data_collector := mag_calibration_data_collector st;
     earth_induction_data_collector := earth_induction_data_collector st; reports
     := reports st |}.

Definition set_body2nav (v : float3matrix) (st : AHRS_type) : AHRS_type :=
  {| Ts := Ts st; Ts_div_2 := Ts_div_2 st; attitude := attitude st; body2nav
     := v; euler := euler st; acceleration_nav_frame := acceleration_nav_frame
     st; induction_nav_frame := induction_nav_frame st; nav_correction :=
     nav_correction st; gyro_correction := gyro_correction st; gyro_integrator :=
     gyro_integrator st; circling_counter := circling_counter st; circling_state
     := circling_state st; slip_angle_averager := slip_angle_averager st;
     nick_angle_averager := nick_angle_averager st; turn_rate_averager :=
     turn_rate_averager st; G_load_averager := G_load_averager st;
     antenna_DOWN_correction := antenna_DOWN_correction st;
     antenna_RIGHT_correction := antenna_RIGHT_correction st;
     heading_difference_AHRS_DGNSS := heading_difference_AHRS_DGNSS st;
     magnetic_disturbance := magnetic_disturbance st;
     automatic_magnetic_calibration := automatic_magnetic_calibration st;
     automatic_earth_field_parameters := automatic_earth_field_parameters st;
     expected_nav_induction := expected_nav_induction st; magnetic_control_gain
     := magnetic_control_gain st; compass_calibration := compass_calibration st;
     mag_calibration_data_collector := mag_calibration_data_collector st;
     earth_induction_data_collector := earth_induction_data_collector st; reports
     := reports st |}.

Definition set_euler (v : eulerangle) (st : AHRS_type) : AHRS_type :=
  {| Ts := Ts st; Ts_div_2 := Ts_div_2 st; attitude := attitude st; body2nav
     := body2nav st; euler := v; acceleration_nav_frame := acceleration_nav_frame
     st; induction_nav_frame := induction_nav_frame st; nav_correction :=
     nav_correction st; gyro_correction := gyro_correction st; gyro_integrator :=
     gyro_integrator st; circling_counter := circling_counter st; circling_state
     := circling_state st; slip_angle_averager := slip_angle_averager st;
     nick_angle_averager := nick_angle_averager st; turn_rate_averager :=
     turn_rate_averager st; G_load_averager := G_load_averager st;
     antenna_DOWN_correction := antenna_DOWN_correction st;
     antenna_RIGHT_correction := antenna_RIGHT_correction st;
     heading_difference_AHRS_DGNSS := heading_difference_AHRS_DGNSS st;
     magnetic_disturbance := magnetic_disturbance st;
     automatic_magnetic_calibration := automatic_magnetic_calibration st;
     automatic_earth_field_parameters := automatic_earth_field_parameters st;
     expected_nav_induction := expected_nav_induction st; magnetic_control_gain
     := magnetic_control_gain st; compass_calibration := compass_calibration st;
     mag_calibration_data_collector := mag_calibration_data_collector st;
     earth_induction_data_collector := earth_induction_data_collector st; reports
     := reports st |}.

Definition set_acceleration_nav_frame (v : float3vector) (st : AHRS_type) : AHRS_type :=
  {| Ts := Ts st; Ts_div_2 := Ts_div_2 st; attitude := attitude st; body2nav
     := body2nav st; euler := euler st; acceleration_nav_frame := v;
     induction_nav_frame := induction_nav_frame st; nav_correction :=
     nav_correction st; gyro_correction := gyro_correction st; gyro_integrator :=
     gyro_integrator st; circling_counter := circling_counter st; circling_state
     := circling_state st; slip_angle_averager := slip_angle_averager st;
     nick_angle_averager := nick_angle_averager st; turn_rate_averager :=
     turn_rate_averager st; G_load_averager := G_load_averager st;
     antenna_DOWN_correction := antenna_DOWN_correction st;
     antenna_RIGHT_correction := antenna_RIGHT_correction st;
     heading_difference_AHRS_DGNSS := heading_difference_AHRS_DGNSS st;
     magnetic_disturbance := magnetic_disturbance st;
     automatic_magnetic_calibration := automatic_magnetic_calibration st;
     automatic_earth_field_parameters := automatic_earth_field_parameters st;
     expected_nav_induction := expected_nav_induction st; magnetic_control_gain
     := magnetic_control_gain st; compass_calibration := compass_calibration st;
     mag_calibration_data_collector := mag_calibration_data_collector st;
     earth_induction_data_collector := earth_induction_data_collector st; reports
     := reports st |}.

Definition set_induction_nav_frame (v : float3vector) (st : AHRS_type) : AHRS_type :=
  {| Ts := Ts st; Ts_div_2 := Ts_div_2 st; attitude := attitude st; body2nav
     := body2nav st; euler := euler st; acceleration_nav_frame :=
     acceleration_nav_frame st; induction_nav_frame := v; nav_correction :=
     nav_correction st; gyro_correction := gyro_correction st; gyro_integrator :=
     gyro_integrator st; circling_counter := circling_counter st; circling_state
     := circling_state st; slip_angle_averager := slip_angle_averager st;
     nick_angle_averager := nick_angle_averager st; turn_rate_averager :=
     turn_rate_averager st; G_load_averager := G_load_averager st;
     antenna_DOWN_correction := antenna_DOWN_correction st;
     antenna_RIGHT_correction := antenna_RIGHT_correction st;
     heading_difference_AHRS_DGNSS := heading_difference_AHRS_DGNSS st;
     magnetic_disturbance := magnetic_disturbance st;
     automatic_magnetic_calibration := automatic_magnetic_calibration st;
     automatic_earth_field_parameters := automatic_earth_field_parameters st;
     expected_nav_induction := expected_nav_induction st; magnetic_control_gain
     := magnetic_control_gain st; compass_calibration := compass_calibration st;
     mag_calibration_data_collector := mag_calibration_data_collector st;
     earth_induction_data_collector := earth_induction_data_collector st; reports
     := reports st |}.

Definition set_nav_correction (v : float3vector) (st : AHRS_type) : AHRS_type :=
  {| Ts := Ts st; Ts_div_2 := Ts_div_2 st; attitude := attitude st; body2nav
     := body2nav st; euler := euler st; acceleration_nav_frame :=
     acceleration_nav_frame st; induction_nav_frame := induction_nav_frame st;
     nav_correction := v; gyro_correction := gyro_correction st; gyro_integrator
     := gyro_integrator st; circling_counter := circling_counter st;
     circling_state := circling_state st; slip_angle_averager :=
     slip_angle_averager st; nick_angle_averager := nick_angle_averager st;
     turn_rate_averager := turn_rate_averager st; G_load_averager :=
     G_load_averager st; antenna_DOWN_correction := antenna_DOWN_correction st;
     antenna_RIGHT_correction := antenna_RIGHT_correction st;
     heading_difference_AHRS_DGNSS := heading_difference_AHRS_DGNSS st;
     magnetic_disturbance := magnetic_disturbance st;
     automatic_magnetic_calibration := automatic_magnetic_calibration st;
     automatic_earth_field_parameters := automatic_earth_field_parameters st;
     expected_nav_induction := expected_nav_induction st; magnetic_control_gain
     := magnetic_control_gain st; compass_calibration := compass_calibration st;
     mag_calibration_data_collector := mag_calibration_data_collector st;
     earth_induction_data_collector := earth_induction_data_collector st; reports
     := reports st |}.

Definition set_gyro_correction (v : float3vector) (st : AHRS_type) : AHRS_type :=
  {| Ts := Ts st; Ts_div_2 := Ts_div_2 st; attitude := attitude st; body2nav
     := body2nav st; euler := euler st; acceleration_nav_frame :=
     acceleration_nav_frame st; induction_nav_frame := induction_nav_frame st;
     nav_correction := nav_correction st; gyro_correction := v; gyro_integrator
     := gyro_integrator st; circling_counter := circling_counter st;
     circling_state := circling_state st; slip_angle_averager :=
     slip_angle_averager st; nick_angle_averager := nick_angle_averager st;
     turn_rate_averager := turn_rate_averager st; G_load_averager :=
     G_load_averager st; antenna_DOWN_correction := antenna_DOWN_correction st;
     antenna_RIGHT_correction := antenna_RIGHT_correction st;
     heading_difference_AHRS_DGNSS := heading_difference_AHRS_DGNSS st;
     magnetic_disturbance := magnetic_disturbance st;
     automatic_magnetic_calibration := automatic_magnetic_calibration st;
     automatic_earth_field_parameters := automatic_earth_field_parameters st;
     expected_nav_induction := expected_nav_induction st; magnetic_control_gain
     := magnetic_control_gain st; compass_calibration := compass_calibration st;
     mag_calibration_data_collector := mag_calibration_data_collector st;
     earth_induction_data_collector := earth_induction_data_collector st; reports
     := reports st |}.

Definition set_gyro_integrator (v : float3vector) (st : AHRS_type) : AHRS_type :=
  {| Ts := Ts st; Ts_div_2 := Ts_div_2 st; attitude := attitude st; body2nav
     := body2nav st; euler := euler st; acceleration_nav_frame :=
     acceleration_nav_frame st; induction_nav_frame := induction_nav_frame st;
     nav_correction := nav_correction st; gyro_correction := gyro_correction st;
     gyro_integrator := v; circling_counter := circling_counter st;
     circling_state := circling_state st; slip_angle_averager :=
     slip_angle_averager st; nick_angle_averager := nick_angle_averager st;
     turn_rate_averager := turn_rate_averager st; G_load_averager :=
     G_load_averager st; antenna_DOWN_correction := antenna_DOWN_correction st;
     antenna_RIGHT_correction := antenna_RIGHT_correction st;
     heading_difference_AHRS_DGNSS := heading_difference_AHRS_DGNSS st;
     magnetic_disturbance := magnetic_disturbance st;
     automatic_magnetic_calibration := automatic_magnetic_calibration st;
     automatic_earth_field_parameters := automatic_earth_field_parameters st;
     expected_nav_induction := expected_nav_induction st; magnetic_control_gain
     := magnetic_control_gain st; compass_calibration := compass_calibration st;
     mag_calibration_data_collector := mag_calibration_data_collector st;
     earth_induction_data_collector := earth_induction_data_collector st; reports
     := reports st |}.

Definition set_circling_counter (v : Z) (st : AHRS_type) : AHRS_type :=
  {| Ts := Ts st; Ts_div_2 := Ts_div_2 st; attitude := attitude st; body2nav
     := body2nav st; euler := euler st; acceleration_nav_frame :=
     acceleration_nav_frame st; induction_nav_frame := induction_nav_frame st;
     nav_correction := nav_correction st; gyro_correction := gyro_correction st;
     gyro_integrator := gyro_integrator st; circling_counter := v; circling_state
     := circling_state st; slip_angle_averager := slip_angle_averager st;
     nick_angle_averager := nick_angle_averager st; turn_rate_averager :=
     turn_rate_averager st; G_load_averager := G_load_averager st;
     antenna_DOWN_correction := antenna_DOWN_correction st;
     antenna_RIGHT_correction := antenna_RIGHT_correction st;
     heading_difference_AHRS_DGNSS := heading_difference_AHRS_DGNSS st;
     magnetic_disturbance := magnetic_disturbance st;
     automatic_magnetic_calibration := automatic_magnetic_calibration st;
     automatic_earth_field_parameters := automatic_earth_field_parameters st;
     expected_nav_induction := expected_nav_induction st; magnetic_control_gain
     := magnetic_control_gain st; compass_calibration := compass_calibration st;
     mag_calibration_data_collector := mag_calibration_data_collector st;
     earth_induction_data_collector := earth_induction_data_collector st; reports
     := reports st |}.

Definition set_circling_state (v : circle_state_t) (st : AHRS_type) : AHRS_type :=
  {| Ts := Ts st; Ts_div_2 := Ts_div_2 st; attitude := attitude st; body2nav
     := body2nav st; euler := euler st; acceleration_nav_frame :=
     acceleration_nav_frame st; induction_nav_frame := induction_nav_frame st;
     nav_correction := nav_correction st; gyro_correction := gyro_correction st;
     gyro_integrator := gyro_integrator st; circling_counter := circling_counter
     st; circling_state := v; slip_angle_averager := slip_angle_averager st;
     nick_angle_averager := nick_angle_averager st; turn_rate_averager :=
     turn_rate_averager st; G_load_averager := G_load_averager st;
     antenna_DOWN_correction := antenna_DOWN_correction st;
     antenna_RIGHT_correction := antenna_RIGHT_correction st;
     heading_difference_AHRS_DGNSS := heading_difference_AHRS_DGNSS st;
     magnetic_disturbance := magnetic_disturbance st;
     automatic_magnetic_calibration := automatic_magnetic_calibration st;
     automatic_earth_field_parameters := automatic_earth_field_parameters st;
     expected_nav_induction := expected_nav_induction st; magnetic_control_gain
     := magnetic_control_gain st; compass_calibration := compass_calibration st;
     mag_calibration_data_collector := mag_calibration_data_collector st;
     earth_induction_data_collector := earth_induction_data_collector st; reports
     := reports st |}.

Definition set_slip_angle_averager (v : averager) (st : AHRS_type) : AHRS_type :=
  {| Ts := Ts st; Ts_div_2 := Ts_div_2 st; attitude := attitude st; body2nav
     := body2nav st; euler := euler st; acceleration_nav_frame :=
     acceleration_nav_frame st; induction_nav_frame := induction_nav_frame st;
     nav_correction := nav_correction st; gyro_correction := gyro_correction st;
     gyro_integrator := gyro_integrator st; circling_counter := circling_counter
     st; circling_state := circling_state st; slip_angle_averager := v;
     nick_angle_averager := nick_angle_averager st; turn_rate_averager :=
     turn_rate_averager st; G_load_averager := G_load_averager st;
     antenna_DOWN_correction := antenna_DOWN_correction st;
     antenna_RIGHT_correction := antenna_RIGHT_correction st;
     heading_difference_AHRS_DGNSS := heading_difference_AHRS_DGNSS st;
     magnetic_disturbance := magnetic_disturbance st;
     automatic_magnetic_calibration := automatic_magnetic_calibration st;
     automatic_earth_field_parameters := automatic_earth_field_parameters st;
     expected_nav_induction := expected_nav_induction st; magnetic_control_gain
     := magnetic_control_gain st; compass_calibration := compass_calibration st;
     mag_calibration_data_collector := mag_calibration_data_collector st;
     earth_induction_data_collector := earth_induction_data_collector st; reports
     := reports st |}.

Definition set_nick_angle_averager (v : averager) (st : AHRS_type) : AHRS_type :=
  {| Ts := Ts st; Ts_div_2 := Ts_div_2 st; attitude := attitude st; body2nav
     := body2nav st; euler := euler st; acceleration_nav_frame :=
     acceleration_nav_frame st; induction_nav_frame := induction_nav_frame st;
     nav_correction := nav_correction st; gyro_correction := gyro_correction st;
     gyro_integrator := gyro_integrator st; circling_counter := circling_counter
     st; circling_state := circling_state st; slip_angle_averager :=
     slip_angle_averager st; nick_angle_averager := v; turn_rate_averager :=
     turn_rate_averager st; G_load_averager := G_load_averager st;
     antenna_DOWN_correction := antenna_DOWN_correction st;
     antenna_RIGHT_correction := antenna_RIGHT_correction st;
     heading_difference_AHRS_DGNSS := heading_difference_AHRS_DGNSS st;
     magnetic_disturbance := magnetic_disturbance st;
     automatic_magnetic_calibration := automatic_magnetic_calibration st;
     automatic_earth_field_parameters := automatic_earth_field_parameters st;
     expected_nav_induction := expected_nav_induction st; magnetic_control_gain
     := magnetic_control_gain st; compass_calibration := compass_calibration st;
     mag_calibration_data_collector := mag_calibration_data_collector st;
     earth_induction_data_collector := earth_induction_data_collector st; reports
     := reports st |}.

Definition set_turn_rate_averager (v : averager) (st : AHRS_type) : AHRS_type :=
  {| Ts := Ts st; Ts_div_2 := Ts_div_2 st; attitude := attitude st; body2nav
     := body2nav st; euler := euler st; acceleration_nav_frame :=
     acceleration_nav_frame st; induction_nav_frame := induction_nav_frame st;
     nav_correction := nav_correction st; gyro_correction := gyro_correction st;
     gyro_integrator := gyro_integrator st; circling_counter := circling_counter
     st; circling_state := circling_state st; slip_angle_averager :=
     slip_angle_averager st; nick_angle_averager := nick_angle_averager st;
     turn_rate_averager := v; G_load_averager := G_load_averager st;
     antenna_DOWN_correction := antenna_DOWN_correction st;
     antenna_RIGHT_correction := antenna_RIGHT_correction st;
     heading_difference_AHRS_DGNSS := heading_difference_AHRS_DGNSS st;
     magnetic_disturbance := magnetic_disturbance st;
     automatic_magnetic_calibration := automatic_magnetic_calibration st;
     automatic_earth_field_parameters := automatic_earth_field_parameters st;
     expected_nav_induction := expected_nav_induction st; magnetic_control_gain
     := magnetic_control_gain st; compass_calibration := compass_calibration st;
     mag_calibration_data_collector := mag_calibration_data_collector st;
     earth_induction_data_collector := earth_induction_data_collector st; reports
     := reports st |}.

Definition set_G_load_averager (v : averager) (st : AHRS_type) : AHRS_type :=
  {| Ts := Ts st; Ts_div_2 := Ts_div_2 st; attitude := attitude st; body2nav
     := body2nav st; euler := euler st; acceleration_nav_frame :=
     acceleration_nav_frame st; induction_nav_frame := induction_nav_frame st;
     nav_correction := nav_correction st; gyro_correction := gyro_correction st;
     gyro_integrator := gyro_integrator st; circling_counter := circling_counter
     st; circling_state := circling_state st; slip_angle_averager :=
     slip_angle_averager st; nick_angle_averager := nick_angle_averager st;
     turn_rate_averager := turn_rate_averager st; G_load_averager := v;
     antenna_DOWN_correction := antenna_DOWN_correction st;
     antenna_RIGHT_correction := antenna_RIGHT_correction st;
     heading_difference_AHRS_DGNSS := heading_difference_AHRS_DGNSS st;
     magnetic_disturbance := magnetic_disturbance st;
     automatic_magnetic_calibration := automatic_magnetic_calibration st;
     automatic_earth_field_parameters := automatic_earth_field_parameters st;
     expected_nav_induction := expected_nav_induction st; magnetic_control_gain
     := magnetic_control_gain st; compass_calibration := compass_calibration st;
     mag_calibration_data_collector := mag_calibration_data_collector st;
     earth_induction_data_collector := earth_induction_data_collector st; reports
     := reports st |}.

Definition set_heading_difference_AHRS_DGNSS (v : float) (st : AHRS_type) : AHRS_type :=
  {| Ts := Ts st; Ts_div_2 := Ts_div_2 st; attitude := attitude st; body2nav
     := body2nav st; euler := euler st; acceleration_nav_frame :=
     acceleration_nav_frame st; induction_nav_frame := induction_nav_frame st;
     nav_correction := nav_correction st; gyro_correction := gyro_correction st;
     gyro_integrator := gyro_integrator st; circling_counter := circling_counter
     st; circling_state := circling_state st; slip_angle_averager :=
     slip_angle_averager st; nick_angle_averager := nick_angle_averager st;
     turn_rate_averager := turn_rate_averager st; G_load_averager :=
     G_load_averager st; antenna_DOWN_correction := antenna_DOWN_correction st;
     antenna_RIGHT_correction := antenna_RIGHT_correction st;
     heading_difference_AHRS_DGNSS := v; magnetic_disturbance :=
     magnetic_disturbance st; automatic_magnetic_calibration :=
     automatic_magnetic_calibration st; automatic_earth_field_parameters :=
     automatic_earth_field_parameters st; expected_nav_induction :=
     expected_nav_induction st; magnetic_control_gain := magnetic_control_gain
     st; compass_calibration := compass_calibration st;
     mag_calibration_data_collector := mag_calibration_data_collector st;
     earth_induction_data_collector := earth_induction_data_collector st; reports
     := reports st |}.

Definition set_magnetic_disturbance (v : float) (st : AHRS_type) : AHRS_type :=
  {| Ts := Ts st; Ts_div_2 := Ts_div_2 st; attitude := attitude st; body2nav
     := body2nav st; euler := euler st; acceleration_nav_frame :=
     acceleration_nav_frame st; induction_nav_frame := induction_nav_frame st;
     nav_correction := nav_correction st; gyro_correction := gyro_correction st;
     gyro_integrator := gyro_integrator st; circling_counter := circling_counter
     st; circling_state := circling_state st; slip_angle_averager :=
     slip_angle_averager st; nick_angle_averager := nick_angle_averager st;
     turn_rate_averager := turn_rate_averager st; G_load_averager :=
     G_load_averager st; antenna_DOWN_correction := antenna_DOWN_correction st;
     antenna_RIGHT_correction := antenna_RIGHT_correction st;
     heading_difference_AHRS_DGNSS := heading_difference_AHRS_DGNSS st;
     magnetic_disturbance := v; automatic_magnetic_calibration :=
     automatic_magnetic_calibration st; automatic_earth_field_parameters :=
     automatic_earth_field_parameters st; expected_nav_induction :=
     expected_nav_induction st; magnetic_control_gain := magnetic_control_gain
     st; compass_calibration := compass_calibration st;
     mag_calibration_data_collector := mag_calibration_data_collector st;
     earth_induction_data_collector := earth_induction_data_collector st; reports
     := reports st |}.

Definition set_expected_nav_induction (v : float3vector) (st : AHRS_type) : AHRS_type :=
  {| Ts := Ts st; Ts_div_2 := Ts_div_2 st; attitude := attitude st; body2nav
     := body2nav st; euler := euler st; acceleration_nav_frame :=
     acceleration_nav_frame st; induction_nav_frame := induction_nav_frame st;
     nav_correction := nav_correction st; gyro_correction := gyro_correction st;
     gyro_integrator := gyro_integrator st; circling_counter := circling_counter
     st; circling_state := circling_state st; slip_angle_averager :=
     slip_angle_averager st; nick_angle_averager := nick_angle_averager st;
     turn_rate_averager := turn_rate_averager st; G_load_averager :=
     G_load_averager st; antenna_DOWN_correction := antenna_DOWN_correction st;
     antenna_RIGHT_correction := antenna_RIGHT_correction st;
     heading_difference_AHRS_DGNSS := heading_difference_AHRS_DGNSS st;
     magnetic_disturbance := magnetic_disturbance st;
     automatic_magnetic_calibration := automatic_magnetic_calibration st;
     automatic_earth_field_parameters := automatic_earth_field_parameters st;
     expected_nav_induction := v; magnetic_control_gain := magnetic_control_gain
     st; compass_calibration := compass_calibration st;
     mag_calibration_data_collector := mag_calibration_data_collector st;
     earth_induction_data_collector := earth_induction_data_collector st; reports
     := reports st |}.

Definition set_magnetic_control_gain (v : float) (st : AHRS_type) : AHRS_type :=
  {| Ts := Ts st; Ts_div_2 := Ts_div_2 st; attitude := attitude st; body2nav
     := body2nav st; euler := euler st; acceleration_nav_frame :=
     acceleration_nav_frame st; induction_nav_frame := induction_nav_frame st;
     nav_correction := nav_correction st; gyro_correction := gyro_correction st;
     gyro_integrator := gyro_integrator st; circling_counter := circling_counter
     st; circling_state := circling_state st; slip_angle_averager :=
     slip_angle_averager st; nick_angle_averager := nick_angle_averager st;
     turn_rate_averager := turn_rate_averager st; G_load_averager :=
     G_load_averager st; antenna_DOWN_correction := antenna_DOWN_correction st;
     antenna_RIGHT_correction := antenna_RIGHT_correction st;
     heading_difference_AHRS_DGNSS := heading_difference_AHRS_DGNSS st;
     magnetic_disturbance := magnetic_disturbance st;
     automatic_magnetic_calibration := automatic_magnetic_calibration st;
     automatic_earth_field_parameters := automatic_earth_field_parameters st;
     expected_nav_induction := expected_nav_induction st; magnetic_control_gain
     := v; compass_calibration := compass_calibration st;
     mag_calibration_data_collector := mag_calibration_data_collector st;
     earth_induction_data_collector := earth_induction_data_collector st; reports
     := reports st |}.

Definition set_compass_calibration (v : compass_calibration_t) (st : AHRS_type) : AHRS_type :=
  {| Ts := Ts st; Ts_div_2 := Ts_div_2 st; attitude := attitude st; body2nav
     := body2nav st; euler := euler st; acceleration_nav_frame :=
     acceleration_nav_frame st; induction_nav_frame := induction_nav_frame st;
     nav_correction := nav_correction st; gyro_correction := gyro_correction st;
     gyro_integrator := gyro_integrator st; circling_counter := circling_counter
     st; circling_state := circling_state st; slip_angle_averager :=
     slip_angle_averager st; nick_angle_averager := nick_angle_averager st;
     turn_rate_averager := turn_rate_averager st; G_load_averager :=
     G_load_averager st; antenna_DOWN_correction := antenna_DOWN_correction st;
     antenna_RIGHT_correction := antenna_RIGHT_correction st;
     heading_difference_AHRS_DGNSS := heading_difference_AHRS_DGNSS st;
     magnetic_disturbance := magnetic_disturbance st;
     automatic_magnetic_calibration := automatic_magnetic_calibration st;
     automatic_earth_field_parameters := automatic_earth_field_parameters st;
     expected_nav_induction := expected_nav_induction st; magnetic_control_gain
     := magnetic_control_gain st; compass_calibration := v;
     mag_calibration_data_collector := mag_calibration_data_collector st;
     earth_induction_data_collector := earth_induction_data_collector st; reports
     := reports st |}.

Definition set_mag_calibration_data_collector (v : array3 collector) (st : AHRS_type) : AHRS_type :=
  {| Ts := Ts st; Ts_div_2 := Ts_div_2 st; attitude := attitude st; body2nav
     := body2nav st; euler := euler st; acceleration_nav_frame :=
     acceleration_nav_frame st; induction_nav_frame := induction_nav_frame st;
     nav_correction := nav_correction st; gyro_correction := gyro_correction st;
     gyro_integrator := gyro_integrator st; circling_counter := circling_counter
     st; circling_state := circling_state st; slip_angle_averager :=
     slip_angle_averager st; nick_angle_averager := nick_angle_averager st;
     turn_rate_averager := turn_rate_averager st; G_load_averager :=
     G_load_averager st; antenna_DOWN_correction := antenna_DOWN_correction st;
     antenna_RIGHT_correction := antenna_RIGHT_correction st;
     heading_difference_AHRS_DGNSS := heading_difference_AHRS_DGNSS st;
     magnetic_disturbance := magnetic_disturbance st;
     automatic_magnetic_calibration := automatic_magnetic_calibration st;
     automatic_earth_field_parameters := automatic_earth_field_parameters st;
     expected_nav_induction := expected_nav_induction st; magnetic_control_gain
     := magnetic_control_gain st; compass_calibration := compass_calibration st;
     mag_calibration_data_collector := v; earth_induction_data_collector :=
     earth_induction_data_collector st; reports := reports st |}.

Definition set_earth_induction_data_collector (v : induction_observer_t) (st : AHRS_type) : AHRS_type :=
  {| Ts := Ts st; Ts_div_2 := Ts_div_2 st; attitude := attitude st; body2nav
     := body2nav st; euler := euler st; acceleration_nav_frame :=
     acceleration_nav_frame st; induction_nav_frame := induction_nav_frame st;
     nav_correction := nav_correction st; gyro_correction := gyro_correction st;
     gyro_integrator := gyro_integrator st; circling_counter := circling_counter
     st; circling_state := circling_state st; slip_angle_averager :=
     slip_angle_averager st; nick_angle_averager := nick_angle_averager st;
     turn_rate_averager := turn_rate_averager st; G_load_averager :=
     G_load_averager st; antenna_DOWN_correction := antenna_DOWN_correction st;
     antenna_RIGHT_correction := antenna_RIGHT_correction st;
     heading_difference_AHRS_DGNSS := heading_difference_AHRS_DGNSS st;
     magnetic_disturbance := magnetic_disturbance st;
     automatic_magnetic_calibration := automatic_magnetic_calibration st;
     automatic_earth_field_parameters := automatic_earth_field_parameters st;
     expected_nav_induction := expected_nav_induction st; magnetic_control_gain
     := magnetic_control_gain st; compass_calibration := compass_calibration st;
     mag_calibration_data_collector := mag_calibration_data_collector st;
     earth_induction_data_collector := v; reports := reports st |}.

Definition set_reports (v : list (magnetic_induction_report_t * ascii)) (st : AHRS_type) : AHRS_type :=
  {| Ts := Ts st; Ts_div_2 := Ts_div_2 st; attitude := attitude st; body2nav
     := body2nav st; euler := euler st; acceleration_nav_frame :=
     acceleration_nav_frame st; induction_nav_frame := induction_nav_frame st;
     nav_correction := nav_correction st; gyro_correction := gyro_correction st;
     gyro_integrator := gyro_integrator st; circling_counter := circling_counter
     st; circling_state := circling_state st; slip_angle_averager :=
     slip_angle_averager st; nick_angle_averager := nick_angle_averager st;
     turn_rate_averager := turn_rate_averager st; G_load_averager :=
     G_load_averager st; antenna_DOWN_correction := antenna_DOWN_correction st;
     antenna_RIGHT_correction := antenna_RIGHT_correction st;
     heading_difference_AHRS_DGNSS := heading_difference_AHRS_DGNSS st;
     magnetic_disturbance := magnetic_disturbance st;
     automatic_magnetic_calibration := automatic_magnetic_calibration st;
     automatic_earth_field_parameters := automatic_earth_field_parameters st;
     expected_nav_induction := expected_nav_induction st; magnetic_control_gain
     := magnetic_control_gain st; compass_calibration := compass_calibration st;
     mag_calibration_data_collector := mag_calibration_data_collector st;
     earth_induction_data_collector := earth_induction_data_collector st; reports
     := v |}.


(** ** [AHRS_type::update_circling_state]

    [abs] is the [float] overload: the magnitude of the filtered turn
    rate. *)
Definition update_circling_state (st : AHRS_type) : AHRS_type * circle_state_t :=
  if DISABLE_CIRCLING_STATE then (st, STRAIGHT_FLIGHT)
  else
    let turn_rate_abs := F32.abs (get_output (turn_rate_averager st)) in
    let st :=
      if (circling_counter st <? CIRCLE_LIMIT)%Z
      then if turn_rate_abs >? HIGH_TURN_RATE
           then set_circling_counter (circling_counter st + 1)%Z st
           else st
      else st in
    let st :=
      if (circling_counter st >? 0)%Z
      then if turn_rate_abs <? LOW_TURN_RATE
           then set_circling_counter (circling_counter st - 1)%Z st
           else st
      else st in
    let st :=
      if (circling_counter st =? 0)%Z
      then set_circling_state STRAIGHT_FLIGHT st
      else if (circling_counter st =? CIRCLE_LIMIT)%Z
           then set_circling_state CIRCLING st
           else set_circling_state TRANSITION st in
    (st, circling_state st).

(** ** [AHRS_type::feed_magnetic_induction_observer] *)
Definition feed_magnetic_induction_observer (st : AHRS_type)
  (mag_sensor : float3vector) : AHRS_type :=
  let expected_body_induction :=
    reverse_map (body2nav st) (expected_nav_induction st) in
  let st :=
    set_mag_calibration_data_collector
      (zip3 (fun c xy => add_value c (fst xy) (snd xy))
         (mag_calibration_data_collector st)
         (zip3 (fun x y => (MAG_SCALE * x, MAG_SCALE * y))
            expected_body_induction mag_sensor))
      st in
  set_earth_induction_data_collector
    (feed (earth_induction_data_collector st) (induction_nav_frame st)
       (get_output (turn_rate_averager st) >? F32.zero))
    st.

(** ** [AHRS_type::update_attitude]: the generic update *)
Definition update_attitude (st : AHRS_type) (acc gyro mag : float3vector)
  : AHRS_type :=
  let st :=
    set_attitude
      (q_rotate (attitude st) (get3 gyro ROLL * Ts_div_2 st)
         (get3 gyro NICK * Ts_div_2 st) (get3 gyro YAW * Ts_div_2 st))
      st in
  let st := set_attitude (q_normalize (attitude st)) st in
  let st := set_body2nav (q_get_rotation_matrix (attitude st)) st in
  let st := set_acceleration_nav_frame (mat_mul (body2nav st) acc) st in
  let st := set_induction_nav_frame (mat_mul (body2nav st) mag) st in
  let st := set_euler (q_to_euler (attitude st)) st in
  let nav_rotation := mat_mul (body2nav st) gyro in
  let st :=
    set_turn_rate_averager
      (respond (turn_rate_averager st) (get3 nav_rotation DOWN)) st in
  let st :=
    set_slip_angle_averager
      (respond (slip_angle_averager st)
         (ATAN2 (- get3 acc RIGHT) (- get3 acc DOWN))) st in
  let st :=
    set_nick_angle_averager
      (respond (nick_angle_averager st)
         (ATAN2 (get3 acc FRONT) (- get3 acc DOWN))) st in
  let st := set_G_load_averager (respond (G_load_averager st) (vabs acc)) st in
  set_magnetic_disturbance
    (vabs (vsub (induction_nav_frame st) (expected_nav_induction st))) st.

(** ** [AHRS_type::handle_magnetic_calibration] *)
Definition handle_magnetic_calibration (st : AHRS_type) (type : ascii)
  : AHRS_type :=
  let '(cal, collectors, calibration_changed) :=
    set_calibration_if_changed (compass_calibration st)
      (mag_calibration_data_collector st) MAG_SCALE
      (get_output (turn_rate_averager st) >? F32.zero) in
  let st :=
    set_mag_calibration_data_collector collectors
      (set_compass_calibration cal st) in
  let induction_error := F32.zero in
  let '(st, induction_error, calibration_changed) :=
    if data_valid (earth_induction_data_collector st)
    then
      let induction_error :=
        F32.sqrt (get_variance (earth_induction_data_collector st)) in
      let '(st, calibration_changed) :=
        if automatic_earth_field_parameters st
           && (induction_error <? INDUCTION_STD_DEVIATION_LIMIT)
        then
          let st :=
            set_expected_nav_induction
              (get_estimated_induction (earth_induction_data_collector st))
              st in
          let st :=
            set_expected_nav_induction
              (vnormalize (expected_nav_induction st)) st in
          let st :=
            set_magnetic_control_gain
              (magnetic_loop_gain (expected_nav_induction st)) st in
          (st, true)
        else (st, calibration_changed) in
      (set_earth_induction_data_collector
         (reset (earth_induction_data_collector st)) st,
       induction_error, calibration_changed)
    else (st, induction_error, calibration_changed) in
  if calibration_changed
  then
    let magnetic_induction_report :=
      {| calibration := get_calibration (compass_calibration st);
         nav_induction := expected_nav_induction st;
         nav_induction_std_deviation := induction_error |} in
    set_reports ((magnetic_induction_report, type) :: reports st) st
  else st.

(** The correction of the D-GNSS heading for the antenna alignment, less
    the present yaw: [heading_gnss_work] before it is mapped into range. *)
Definition heading_difference_raw (st : AHRS_type) (GNSS_heading : float)
  : float :=
  let heading_gnss_work :=
    GNSS_heading
    + antenna_DOWN_correction st * SIN (r (euler st))
    - antenna_RIGHT_correction st * COS (r (euler st)) in
  heading_gnss_work - y (euler st).

(** The two conditional steps that map [heading_gnss_work] into range. *)
Definition map_into_PI_range (heading_gnss_work : float) : float :=
  let heading_gnss_work :=
    if heading_gnss_work >? M_PI_F
    then heading_gnss_work - F32.of_Z 2 * M_PI_F
    else heading_gnss_work in
  if heading_gnss_work <? - M_PI_F
  then heading_gnss_work + F32.of_Z 2 * M_PI_F
  else heading_gnss_work.

(** The part all three fusion modes share after the heading error is
    known: the proportional correction in the body frame. *)
Definition proportional_correction (st : AHRS_type) : float3vector :=
  vscale (reverse_map (body2nav st) (nav_correction st)) P_GAIN.

(** ** [AHRS_type::update_diff_GNSS]: IMU data and D-GNSS compass *)
Definition update_diff_GNSS (st : AHRS_type)
  (gyro acc mag_sensor GNSS_acceleration : float3vector)
  (GNSS_heading : float) : AHRS_type :=
  let old_circle_state := circling_state st in
  let st := fst (update_circling_state st) in
  let mag :=
    if isCalibrationDone (compass_calibration st)
    then calibrate (compass_calibration st) mag_sensor
    else mag_sensor in
  let nav_acceleration := mat_mul (body2nav st) acc in
  let nav_induction := mat_mul (body2nav st) mag in
  let heading_gnss_work :=
    map_into_PI_range (heading_difference_raw st GNSS_heading) in
  let st := set_heading_difference_AHRS_DGNSS heading_gnss_work st in
  let st :=
    set_nav_correction
      (put3 (nav_correction st) NORTH
         (- get3 nav_acceleration EAST + get3 GNSS_acceleration EAST)) st in
  let st :=
    set_nav_correction
      (put3 (nav_correction st) EAST
         (get3 nav_acceleration NORTH - get3 GNSS_acceleration NORTH)) st in
  let st :=
    if circle_state_eqb (circling_state st) CIRCLING
    then
      let cross_correction :=
        get3 nav_acceleration NORTH * get3 GNSS_acceleration EAST
        - get3 nav_acceleration EAST * get3 GNSS_acceleration NORTH in
      if CROSS_GAIN_ONLY
      then
        set_nav_correction
          (put3 (nav_correction st) DOWN (cross_correction * CROSS_GAIN)) st
      else
        let mag_correction :=
          get3 nav_induction NORTH * get3 (expected_nav_induction st) EAST
          - get3 nav_induction EAST * get3 (expected_nav_induction st) NORTH in
        set_nav_correction
          (put3 (nav_correction st) DOWN
             (cross_correction * CROSS_GAIN
              + mag_correction * magnetic_control_gain st)) st
    else
      set_nav_correction
        (put3 (nav_correction st) DOWN (heading_gnss_work * H_GAIN)) st in
  let st := set_gyro_correction (proportional_correction st) st in
  let st :=
    if circle_state_eqb (circling_state st) STRAIGHT_FLIGHT
    then set_gyro_integrator (vadd (gyro_integrator st) (gyro_correction st)) st
    else st in
  let st :=
    set_gyro_correction
      (vadd (gyro_correction st) (vscale (gyro_integrator st) I_GAIN)) st in
  let st := update_attitude st acc (vadd gyro (gyro_correction st)) mag in
  let st :=
    if circle_state_eqb (circling_state st) CIRCLING
       && (vabs (nav_correction st) <? NAV_CORRECTION_LIMIT)
    then feed_magnetic_induction_observer st mag_sensor
    else st in
  if automatic_magnetic_calibration st
     && circle_state_eqb old_circle_state CIRCLING
     && circle_state_eqb (circling_state st) TRANSITION
  then handle_magnetic_calibration st "s"%char
  else st.

(** ** [AHRS_type::update_compass]: IMU data and magnetometer *)
Definition update_compass (st : AHRS_type)
  (gyro acc mag_sensor GNSS_acceleration : float3vector) : AHRS_type :=
  let mag :=
    if isCalibrationDone (compass_calibration st)
    then calibrate (compass_calibration st) mag_sensor
    else mag_sensor in
  let nav_acceleration := mat_mul (body2nav st) acc in
  let nav_induction := mat_mul (body2nav st) mag in
  let st :=
    set_nav_correction
      (put3 (nav_correction st) NORTH
         (- get3 nav_acceleration EAST + get3 GNSS_acceleration EAST)) st in
  let st :=
    set_nav_correction
      (put3 (nav_correction st) EAST
         (get3 nav_acceleration NORTH - get3 GNSS_acceleration NORTH)) st in
  let old_circle_state := circling_state st in
  let st := fst (update_circling_state st) in
  let mag_correction :=
    get3 nav_induction NORTH * get3 (expected_nav_induction st) EAST
    - get3 nav_induction EAST * get3 (expected_nav_induction st) NORTH in
  let st :=
    match circling_state st with
    | STRAIGHT_FLIGHT | TRANSITION =>
        let st :=
          set_nav_correction
            (put3 (nav_correction st) DOWN
               (magnetic_control_gain st * mag_correction)) st in
        let st := set_gyro_correction (proportional_correction st) st in
        set_gyro_integrator (vadd (gyro_integrator st) (gyro_correction st)) st
    | CIRCLING =>
        let cross_correction :=
          get3 nav_acceleration NORTH * get3 GNSS_acceleration EAST
          - get3 nav_acceleration EAST * get3 GNSS_acceleration NORTH in
        let st :=
          if CROSS_GAIN_ONLY
          then
            set_nav_correction
              (put3 (nav_correction st) DOWN (cross_correction * CROSS_GAIN))
              st
          else
            set_nav_correction
              (put3 (nav_correction st) DOWN
                 (cross_correction * CROSS_GAIN + mag_correction * M_H_GAIN))
              st in
        set_gyro_correction (proportional_correction st) st
    end in
  let st :=
    set_gyro_correction
      (vadd (gyro_correction st) (vscale (gyro_integrator st) I_GAIN)) st in
  let st := update_attitude st acc (vadd gyro (gyro_correction st)) mag in
  let st :=
    if circle_state_eqb (circling_state st) CIRCLING
       && (vabs (nav_correction st) <? NAV_CORRECTION_LIMIT)
    then feed_magnetic_induction_observer st mag_sensor
    else st in
  if automatic_magnetic_calibration st
     && circle_state_eqb old_circle_state CIRCLING
     && circle_state_eqb (circling_state st) TRANSITION
  then handle_magnetic_calibration st "m"%char
  else st.

(** ** [AHRS_type::update_ACC_only]: IMU data without magnetometer or
    D-GNSS *)
Definition update_ACC_only (st : AHRS_type)
  (gyro acc mag GNSS_acceleration : float3vector) : AHRS_type :=
  let nav_acceleration := mat_mul (body2nav st) acc in
  let st :=
    set_nav_correction
      (put3 (nav_correction st) NORTH
         (- get3 nav_acceleration EAST + get3 GNSS_acceleration EAST)) st in
  let st :=
    set_nav_correction
      (put3 (nav_correction st) EAST
         (get3 nav_acceleration NORTH - get3 GNSS_acceleration NORTH)) st in
  let st := fst (update_circling_state st) in
  let cross_correction :=
    get3 nav_acceleration NORTH * get3 GNSS_acceleration EAST
    - get3 nav_acceleration EAST * get3 GNSS_acceleration NORTH in
  let cross_correction :=
    if circle_state_eqb (circling_state st) STRAIGHT_FLIGHT
    then cross_correction * F32.of_Z 40
    else cross_correction in
  let st :=
    set_nav_correction
      (put3 (nav_correction st) DOWN (cross_correction * CROSS_GAIN)) st in
  let st := set_gyro_correction (proportional_correction st) st in
  let st :=
    set_gyro_integrator (vadd (gyro_integrator st) (gyro_correction st)) st in
  let st :=
    set_gyro_correction
      (vadd (gyro_correction st) (vscale (gyro_integrator st) I_GAIN)) st in
  update_attitude st acc (vadd gyro (gyro_correction st)) mag.

(** ** [AHRS_type::update]: the mode is chosen by the validity of the
    D-GNSS heading *)
Definition update (st : AHRS_type)
  (gyro acc mag GNSS_acceleration : float3vector) (GNSS_heading : float)
  (GNSS_heading_valid : bool) : AHRS_type :=
  if GNSS_heading_valid
  then update_diff_GNSS st gyro acc mag GNSS_acceleration GNSS_heading
  else update_compass st gyro acc mag GNSS_acceleration.

End AHRS.

(* ================================================================== *)
(** * Flight observer ([flight_observer.cpp]) *)

(** The state components [get_x] reads from the two kinds of Kalman
    filter. *)
Inductive KalmanVario_PVA_index : Type :=
  ALTITUDE | VARIO | ACCELERATION_OBSERVED.

Inductive Kalman_V_A_Aoff_index : Type :=
  VELOCITY | ACCELERATION | ACCELERATION_OFFSET.

(** The filter classes [flight_observer.cpp] uses but does not define, in
    state-passing form: an operation that returns a value and changes the
    object returns both. *)
Class ObserverCollaborators : Type := {
  (* KalmanVario_PVA_t: update from altitude and acceleration, and from
     altitude, velocity and acceleration *)
  KalmanVario_PVA_t : Type;
  KalmanVario_update2 :
    KalmanVario_PVA_t -> float -> float -> KalmanVario_PVA_t * float;
  KalmanVario_update3 :
    KalmanVario_PVA_t -> float -> float -> float -> KalmanVario_PVA_t * float;
  KalmanVario_get_x : KalmanVario_PVA_t -> KalmanVario_PVA_index -> float;
  (* Kalman_V_A_Aoff_observer_t *)
  Kalman_V_A_Aoff_observer_t : Type;
  Kalman_V_A_Aoff_update :
    Kalman_V_A_Aoff_observer_t -> float -> float -> Kalman_V_A_Aoff_observer_t;
  Kalman_V_A_Aoff_get_x :
    Kalman_V_A_Aoff_observer_t -> Kalman_V_A_Aoff_index -> float;
  (* differentiator, averager, decimator, blending filter *)
  differentiator : Type;
  differentiator_respond : differentiator -> float -> differentiator * float;
  vario_averager : Type;
  vario_averager_respond : vario_averager -> float -> vario_averager;
  decimator : Type;
  decimator_respond : decimator -> float3vector -> decimator;
  fusioner : Type;
  fusioner_respond : fusioner -> float -> float -> fusioner * float
}.

(** [#define ONE_DIV_BY_GRAVITY_TIMES_2 0.0509684f] *)
Definition ONE_DIV_BY_GRAVITY_TIMES_2 : float := F32.decimal 509684 7.

(** [#define RECIP_GRAVITY 0.1094f] *)
Definition RECIP_GRAVITY : float := F32.decimal 1094 4.

(** Modelled from the spec: the macro [SQR] of [embedded_math.h], the
    square of its argument. *)
Definition SQR (x : float) : float := x * x.

Section FlightObserver.
Context `{ObserverCollaborators}.

(** The object state of [flight_observer_t]. *)
Record flight_observer_t : Type := {
  vario_uncompensated_pressure : float;
  speed_compensation_IAS : float;
  vario_averager_pressure : vario_averager;
  vario_uncompensated_GNSS : float;
  speed_compensation_GNSS : float;
  vario_averager_GNSS : vario_averager;
  windspeed_decimator_100Hz_10Hz : decimator;
  KalmanVario_GNSS : KalmanVario_PVA_t;
  KalmanVario_pressure : KalmanVario_PVA_t;
  Kalman_v_a_observer_N : Kalman_V_A_Aoff_observer_t;
  Kalman_v_a_observer_E : Kalman_V_A_Aoff_observer_t;
  speed_compensation_INS_GNSS_1 : float;
  speed_compensation_kalman_2 : float;
  speed_compensation_energy_3 : float;
  specific_energy : float;
  kinetic_energy_differentiator : differentiator;
  specific_energy_differentiator : differentiator;
  GNSS_INS_speedcomp_fusioner : fusioner;
  vertical_energy_tuning_factor : float
}.

Definition set_vario_uncompensated_pressure (v : float) (st : flight_observer_t) : flight_observer_t :=
  {| vario_uncompensated_pressure := v; speed_compensation_IAS :=
     speed_compensation_IAS st; vario_averager_pressure :=
     vario_averager_pressure st; vario_uncompensated_GNSS :=
     vario_uncompensated_GNSS st; speed_compensation_GNSS :=
     speed_compensation_GNSS st; vario_averager_GNSS := vario_averager_GNSS st;
     windspeed_decimator_100Hz_10Hz := windspeed_decimator_100Hz_10Hz st;
     KalmanVario_GNSS := KalmanVario_GNSS st; KalmanVario_pressure :=
     KalmanVario_pressure st; Kalman_v_a_observer_N := Kalman_v_a_observer_N st;
     Kalman_v_a_observer_E := Kalman_v_a_observer_E st;
     speed_compensation_INS_GNSS_1 := speed_compensation_INS_GNSS_1 st;
     speed_compensation_kalman_2 := speed_compensation_kalman_2 st;
     speed_compensation_energy_3 := speed_compensation_energy_3 st;
     specific_energy := specific_energy st; kinetic_energy_differentiator :=
     kinetic_energy_differentiator st; specific_energy_differentiator :=
     specific_energy_differentiator st; GNSS_INS_speedcomp_fusioner :=
     GNSS_INS_speedcomp_fusioner st; vertical_energy_tuning_factor :=
     vertical_energy_tuning_factor st |}.

Definition set_speed_compensation_IAS (v : float) (st : flight_observer_t) : flight_observer_t :=
  {| vario_uncompensated_pressure := vario_uncompensated_pressure st;
     speed_compensation_IAS := v; vario_averager_pressure :=
     vario_averager_pressure st; vario_uncompensated_GNSS :=
     vario_uncompensated_GNSS st; speed_compensation_GNSS :=
     speed_compensation_GNSS st; vario_averager_GNSS := vario_averager_GNSS st;
     windspeed_decimator_100Hz_10Hz := windspeed_decimator_100Hz_10Hz st;
     KalmanVario_GNSS := KalmanVario_GNSS st; KalmanVario_pressure :=
     KalmanVario_pressure st; Kalman_v_a_observer_N := Kalman_v_a_observer_N st;
     Kalman_v_a_observer_E := Kalman_v_a_observer_E st;
     speed_compensation_INS_GNSS_1 := speed_compensation_INS_GNSS_1 st;
     speed_compensation_kalman_2 := speed_compensation_kalman_2 st;
     speed_compensation_energy_3 := speed_compensation_energy_3 st;
     specific_energy := specific_energy st; kinetic_energy_differentiator :=
     kinetic_energy_differentiator st; specific_energy_differentiator :=
     specific_energy_differentiator st; GNSS_INS_speedcomp_fusioner :=
     GNSS_INS_speedcomp_fusioner st; vertical_energy_tuning_factor :=
     vertical_energy_tuning_factor st |}.

Definition set_vario_averager_pressure (v : vario_averager) (st : flight_observer_t) : flight_observer_t :=
  {| vario_uncompensated_pressure := vario_uncompensated_pressure st;
     speed_compensation_IAS := speed_compensation_IAS st; vario_averager_pressure
     := v; vario_uncompensated_GNSS := vario_uncompensated_GNSS st;
     speed_compensation_GNSS := speed_compensation_GNSS st; vario_averager_GNSS
     := vario_averager_GNSS st; windspeed_decimator_100Hz_10Hz :=
     windspeed_decimator_100Hz_10Hz st; KalmanVario_GNSS := KalmanVario_GNSS st;
     KalmanVario_pressure := KalmanVario_pressure st; Kalman_v_a_observer_N :=
     Kalman_v_a_observer_N st; Kalman_v_a_observer_E := Kalman_v_a_observer_E st;
     speed_compensation_INS_GNSS_1 := speed_compensation_INS_GNSS_1 st;
     speed_compensation_kalman_2 := speed_compensation_kalman_2 st;
     speed_compensation_energy_3 := speed_compensation_energy_3 st;
     specific_energy := specific_energy st; kinetic_energy_differentiator :=
     kinetic_energy_differentiator st; specific_energy_differentiator :=
     specific_energy_differentiator st; GNSS_INS_speedcomp_fusioner :=
     GNSS_INS_speedcomp_fusioner st; vertical_energy_tuning_factor :=
     vertical_energy_tuning_factor st |}.

Definition set_vario_uncompensated_GNSS (v : float) (st : flight_observer_t) : flight_observer_t :=
  {| vario_uncompensated_pressure := vario_uncompensated_pressure st;
     speed_compensation_IAS := speed_compensation_IAS st; vario_averager_pressure
     := vario_averager_pressure st; vario_uncompensated_GNSS := v;
     speed_compensation_GNSS := speed_compensation_GNSS st; vario_averager_GNSS
     := vario_averager_GNSS st; windspeed_decimator_100Hz_10Hz :=
     windspeed_decimator_100Hz_10Hz st; KalmanVario_GNSS := KalmanVario_GNSS st;
     KalmanVario_pressure := KalmanVario_pressure st; Kalman_v_a_observer_N :=
     Kalman_v_a_observer_N st; Kalman_v_a_observer_E := Kalman_v_a_observer_E st;
     speed_compensation_INS_GNSS_1 := speed_compensation_INS_GNSS_1 st;
     speed_compensation_kalman_2 := speed_compensation_kalman_2 st;
     speed_compensation_energy_3 := speed_compensation_energy_3 st;
     specific_energy := specific_energy st; kinetic_energy_differentiator :=
     kinetic_energy_differentiator st; specific_energy_differentiator :=
     specific_energy_differentiator st; GNSS_INS_speedcomp_fusioner :=
     GNSS_INS_speedcomp_fusioner st; vertical_energy_tuning_factor :=
     vertical_energy_tuning_factor st |}.

Definition set_speed_compensation_GNSS (v : float) (st : flight_observer_t) : flight_observer_t :=
  {| vario_uncompensated_pressure := vario_uncompensated_pressure st;
     speed_compensation_IAS := speed_compensation_IAS st; vario_averager_pressure
     := vario_averager_pressure st; vario_uncompensated_GNSS :=
     vario_uncompensated_GNSS st; speed_compensation_GNSS := v;
     vario_averager_GNSS := vario_averager_GNSS st;
     windspeed_decimator_100Hz_10Hz := windspeed_decimator_100Hz_10Hz st;
     KalmanVario_GNSS := KalmanVario_GNSS st; KalmanVario_pressure :=
     KalmanVario_pressure st; Kalman_v_a_observer_N := Kalman_v_a_observer_N st;
     Kalman_v_a_observer_E := Kalman_v_a_observer_E st;
     speed_compensation_INS_GNSS_1 := speed_compensation_INS_GNSS_1 st;
     speed_compensation_kalman_2 := speed_compensation_kalman_2 st;
     speed_compensation_energy_3 := speed_compensation_energy_3 st;
     specific_energy := specific_energy st; kinetic_energy_differentiator :=
     kinetic_energy_differentiator st; specific_energy_differentiator :=
     specific_energy_differentiator st; GNSS_INS_speedcomp_fusioner :=
     GNSS_INS_speedcomp_fusioner st; vertical_energy_tuning_factor :=
     vertical_energy_tuning_factor st |}.

Definition set_vario_averager_GNSS (v : vario_averager) (st : flight_observer_t) : flight_observer_t :=
  {| vario_uncompensated_pressure := vario_uncompensated_pressure st;
     speed_compensation_IAS := speed_compensation_IAS st; vario_averager_pressure
     := vario_averager_pressure st; vario_uncompensated_GNSS :=
     vario_uncompensated_GNSS st; speed_compensation_GNSS :=
     speed_compensation_GNSS st; vario_averager_GNSS := v;
     windspeed_decimator_100Hz_10Hz := windspeed_decimator_100Hz_10Hz st;
     KalmanVario_GNSS := KalmanVario_GNSS st; KalmanVario_pressure :=
     KalmanVario_pressure st; Kalman_v_a_observer_N := Kalman_v_a_observer_N st;
     Kalman_v_a_observer_E := Kalman_v_a_observer_E st;
     speed_compensation_INS_GNSS_1 := speed_compensation_INS_GNSS_1 st;
     speed_compensation_kalman_2 := speed_compensation_kalman_2 st;
     speed_compensation_energy_3 := speed_compensation_energy_3 st;
     specific_energy := specific_energy st; kinetic_energy_differentiator :=
     kinetic_energy_differentiator st; specific_energy_differentiator :=
     specific_energy_differentiator st; GNSS_INS_speedcomp_fusioner :=
     GNSS_INS_speedcomp_fusioner st; vertical_energy_tuning_factor :=
     vertical_energy_tuning_factor st |}.

Definition set_windspeed_decimator_100Hz_10Hz (v : decimator) (st : flight_observer_t) : flight_observer_t :=
  {| vario_uncompensated_pressure := vario_uncompensated_pressure st;
     speed_compensation_IAS := speed_compensation_IAS st; vario_averager_pressure
     := vario_averager_pressure st; vario_uncompensated_GNSS :=
     vario_uncompensated_GNSS st; speed_compensation_GNSS :=
     speed_compensation_GNSS st; vario_averager_GNSS := vario_averager_GNSS st;
     windspeed_decimator_100Hz_10Hz := v; KalmanVario_GNSS := KalmanVario_GNSS
     st; KalmanVario_pressure := KalmanVario_pressure st; Kalman_v_a_observer_N
     := Kalman_v_a_observer_N st; Kalman_v_a_observer_E := Kalman_v_a_observer_E
     st; speed_compensation_INS_GNSS_1 := speed_compensation_INS_GNSS_1 st;
     speed_compensation_kalman_2 := speed_compensation_kalman_2 st;
     speed_compensation_energy_3 := speed_compensation_energy_3 st;
     specific_energy := specific_energy st; kinetic_energy_differentiator :=
     kinetic_energy_differentiator st; specific_energy_differentiator :=
     specific_energy_differentiator st; GNSS_INS_speedcomp_fusioner :=
     GNSS_INS_speedcomp_fusioner st; vertical_energy_tuning_factor :=
     vertical_energy_tuning_factor st |}.

Definition set_KalmanVario_GNSS (v : KalmanVario_PVA_t) (st : flight_observer_t) : flight_observer_t :=
  {| vario_uncompensated_pressure := vario_uncompensated_pressure st;
     speed_compensation_IAS := speed_compensation_IAS st; vario_averager_pressure
     := vario_averager_pressure st; vario_uncompensated_GNSS :=
     vario_uncompensated_GNSS st; speed_compensation_GNSS :=
     speed_compensation_GNSS st; vario_averager_GNSS := vario_averager_GNSS st;
     windspeed_decimator_100Hz_10Hz := windspeed_decimator_100Hz_10Hz st;
     KalmanVario_GNSS := v; KalmanVario_pressure := KalmanVario_pressure st;
     Kalman_v_a_observer_N := Kalman_v_a_observer_N st; Kalman_v_a_observer_E :=
     Kalman_v_a_observer_E st; speed_compensation_INS_GNSS_1 :=
     speed_compensation_INS_GNSS_1 st; speed_compensation_kalman_2 :=
     speed_compensation_kalman_2 st; speed_compensation_energy_3 :=
     speed_compensation_energy_3 st; specific_energy := specific_energy st;
     kinetic_energy_differentiator := kinetic_energy_differentiator st;
     specific_energy_differentiator := specific_energy_differentiator st;
     GNSS_INS_speedcomp_fusioner := GNSS_INS_speedcomp_fusioner st;
     vertical_energy_tuning_factor := vertical_energy_tuning_factor st |}.

Definition set_KalmanVario_pressure (v : KalmanVario_PVA_t) (st : flight_observer_t) : flight_observer_t :=
  {| vario_uncompensated_pressure := vario_uncompensated_pressure st;
     speed_compensation_IAS := speed_compensation_IAS st; vario_averager_pressure
     := vario_averager_pressure st; vario_uncompensated_GNSS :=
     vario_uncompensated_GNSS st; speed_compensation_GNSS :=
     speed_compensation_GNSS st; vario_averager_GNSS := vario_averager_GNSS st;
     windspeed_decimator_100Hz_10Hz := windspeed_decimator_100Hz_10Hz st;
     KalmanVario_GNSS := KalmanVario_GNSS st; KalmanVario_pressure := v;
     Kalman_v_a_observer_N := Kalman_v_a_observer_N st; Kalman_v_a_observer_E :=
     Kalman_v_a_observer_E st; speed_compensation_INS_GNSS_1 :=
     speed_compensation_INS_GNSS_1 st; speed_compensation_kalman_2 :=
     speed_compensation_kalman_2 st; speed_compensation_energy_3 :=
     speed_compensation_energy_3 st; specific_energy := specific_energy st;
     kinetic_energy_differentiator := kinetic_energy_differentiator st;
     specific_energy_differentiator := specific_energy_differentiator st;
     GNSS_INS_speedcomp_fusioner := GNSS_INS_speedcomp_fusioner st;
     vertical_energy_tuning_factor := vertical_energy_tuning_factor st |}.

Definition set_Kalman_v_a_observer_N (v : Kalman_V_A_Aoff_observer_t) (st : flight_observer_t) : flight_observer_t :=
  {| vario_uncompensated_pressure := vario_uncompensated_pressure st;
     speed_compensation_IAS := speed_compensation_IAS st; vario_averager_pressure
     := vario_averager_pressure st; vario_uncompensated_GNSS :=
     vario_uncompensated_GNSS st; speed_compensation_GNSS :=
     speed_compensation_GNSS st; vario_averager_GNSS := vario_averager_GNSS st;
     windspeed_decimator_100Hz_10Hz := windspeed_decimator_100Hz_10Hz st;
     KalmanVario_GNSS := KalmanVario_GNSS st; KalmanVario_pressure :=
     KalmanVario_pressure st; Kalman_v_a_observer_N := v; Kalman_v_a_observer_E
     := Kalman_v_a_observer_E st; speed_compensation_INS_GNSS_1 :=
     speed_compensation_INS_GNSS_1 st; speed_compensation_kalman_2 :=
     speed_compensation_kalman_2 st; speed_compensation_energy_3 :=
     speed_compensation_energy_3 st; specific_energy := specific_energy st;
     kinetic_energy_differentiator := kinetic_energy_differentiator st;
     specific_energy_differentiator := specific_energy_differentiator st;
     GNSS_INS_speedcomp_fusioner := GNSS_INS_speedcomp_fusioner st;
     vertical_energy_tuning_factor := vertical_energy_tuning_factor st |}.

Definition set_Kalman_v_a_observer_E (v : Kalman_V_A_Aoff_observer_t) (st : flight_observer_t) : flight_observer_t :=
  {| vario_uncompensated_pressure := vario_uncompensated_pressure st;
     speed_compensation_IAS := speed_compensation_IAS st; vario_averager_pressure
     := vario_averager_pressure st; vario_uncompensated_GNSS :=
     vario_uncompensated_GNSS st; speed_compensation_GNSS :=
     speed_compensation_GNSS st; vario_averager_GNSS := vario_averager_GNSS st;
     windspeed_decimator_100Hz_10Hz := windspeed_decimator_100Hz_10Hz st;
     KalmanVario_GNSS := KalmanVario_GNSS st; KalmanVario_pressure :=
     KalmanVario_pressure st; Kalman_v_a_observer_N := Kalman_v_a_observer_N st;
     Kalman_v_a_observer_E := v; speed_compensation_INS_GNSS_1 :=
     speed_compensation_INS_GNSS_1 st; speed_compensation_kalman_2 :=
     speed_compensation_kalman_2 st; speed_compensation_energy_3 :=
     speed_compensation_energy_3 st; specific_energy := specific_energy st;
     kinetic_energy_differentiator := kinetic_energy_differentiator st;
     specific_energy_differentiator := specific_energy_differentiator st;
     GNSS_INS_speedcomp_fusioner := GNSS_INS_speedcomp_fusioner st;
     vertical_energy_tuning_factor := vertical_energy_tuning_factor st |}.

Definition set_speed_compensation_INS_GNSS_1 (v : float) (st : flight_observer_t) : flight_observer_t :=
  {| vario_uncompensated_pressure := vario_uncompensated_pressure st;
     speed_compensation_IAS := speed_compensation_IAS st; vario_averager_pressure
     := vario_averager_pressure st; vario_uncompensated_GNSS :=
     vario_uncompensated_GNSS st; speed_compensation_GNSS :=
     speed_compensation_GNSS st; vario_averager_GNSS := vario_averager_GNSS st;
     windspeed_decimator_100Hz_10Hz := windspeed_decimator_100Hz_10Hz st;
     KalmanVario_GNSS := KalmanVario_GNSS st; KalmanVario_pressure :=
     KalmanVario_pressure st; Kalman_v_a_observer_N := Kalman_v_a_observer_N st;
     Kalman_v_a_observer_E := Kalman_v_a_observer_E st;
     speed_compensation_INS_GNSS_1 := v; speed_compensation_kalman_2 :=
     speed_compensation_kalman_2 st; speed_compensation_energy_3 :=
     speed_compensation_energy_3 st; specific_energy := specific_energy st;
     kinetic_energy_differentiator := kinetic_energy_differentiator st;
     specific_energy_differentiator := specific_energy_differentiator st;
     GNSS_INS_speedcomp_fusioner := GNSS_INS_speedcomp_fusioner st;
     vertical_energy_tuning_factor := vertical_energy_tuning_factor st |}.

Definition set_speed_compensation_kalman_2 (v : float) (st : flight_observer_t) : flight_observer_t :=
  {| vario_uncompensated_pressure := vario_uncompensated_pressure st;
     speed_compensation_IAS := speed_compensation_IAS st; vario_averager_pressure
     := vario_averager_pressure st; vario_uncompensated_GNSS :=
     vario_uncompensated_GNSS st; speed_compensation_GNSS :=
     speed_compensation_GNSS st; vario_averager_GNSS := vario_averager_GNSS st;
     windspeed_decimator_100Hz_10Hz := windspeed_decimator_100Hz_10Hz st;
     KalmanVario_GNSS := KalmanVario_GNSS st; KalmanVario_pressure :=
     KalmanVario_pressure st; Kalman_v_a_observer_N := Kalman_v_a_observer_N st;
     Kalman_v_a_observer_E := Kalman_v_a_observer_E st;
     speed_compensation_INS_GNSS_1 := speed_compensation_INS_GNSS_1 st;
     speed_compensation_kalman_2 := v; speed_compensation_energy_3 :=
     speed_compensation_energy_3 st; specific_energy := specific_energy st;
     kinetic_energy_differentiator := kinetic_energy_differentiator st;
     specific_energy_differentiator := specific_energy_differentiator st;
     GNSS_INS_speedcomp_fusioner := GNSS_INS_speedcomp_fusioner st;
     vertical_energy_tuning_factor := vertical_energy_tuning_factor st |}.

Definition set_speed_compensation_energy_3 (v : float) (st : flight_observer_t) : flight_observer_t :=
  {| vario_uncompensated_pressure := vario_uncompensated_pressure st;
     speed_compensation_IAS := speed_compensation_IAS st; vario_averager_pressure
     := vario_averager_pressure st; vario_uncompensated_GNSS :=
     vario_uncompensated_GNSS st; speed_compensation_GNSS :=
     speed_compensation_GNSS st; vario_averager_GNSS := vario_averager_GNSS st;
     windspeed_decimator_100Hz_10Hz := windspeed_decimator_100Hz_10Hz st;
     KalmanVario_GNSS := KalmanVario_GNSS st; KalmanVario_pressure :=
     KalmanVario_pressure st; Kalman_v_a_observer_N := Kalman_v_a_observer_N st;
     Kalman_v_a_observer_E := Kalman_v_a_observer_E st;
     speed_compensation_INS_GNSS_1 := speed_compensation_INS_GNSS_1 st;
     speed_compensation_kalman_2 := speed_compensation_kalman_2 st;
     speed_compensation_energy_3 := v; specific_energy := specific_energy st;
     kinetic_energy_differentiator := kinetic_energy_differentiator st;
     specific_energy_differentiator := specific_energy_differentiator st;
     GNSS_INS_speedcomp_fusioner := GNSS_INS_speedcomp_fusioner st;
     vertical_energy_tuning_factor := vertical_energy_tuning_factor st |}.

Definition set_specific_energy (v : float) (st : flight_observer_t) : flight_observer_t :=
  {| vario_uncompensated_pressure := vario_uncompensated_pressure st;
     speed_compensation_IAS := speed_compensation_IAS st; vario_averager_pressure
     := vario_averager_pressure st; vario_uncompensated_GNSS :=
     vario_uncompensated_GNSS st; speed_compensation_GNSS :=
     speed_compensation_GNSS st; vario_averager_GNSS := vario_averager_GNSS st;
     windspeed_decimator_100Hz_10Hz := windspeed_decimator_100Hz_10Hz st;
     KalmanVario_GNSS := KalmanVario_GNSS st; KalmanVario_pressure :=
     KalmanVario_pressure st; Kalman_v_a_observer_N := Kalman_v_a_observer_N st;
     Kalman_v_a_observer_E := Kalman_v_a_observer_E st;
     speed_compensation_INS_GNSS_1 := speed_compensation_INS_GNSS_1 st;
     speed_compensation_kalman_2 := speed_compensation_kalman_2 st;
     speed_compensation_energy_3 := speed_compensation_energy_3 st;
     specific_energy := v; kinetic_energy_differentiator :=
     kinetic_energy_differentiator st; specific_energy_differentiator :=
     specific_energy_differentiator st; GNSS_INS_speedcomp_fusioner :=
     GNSS_INS_speedcomp_fusioner st; vertical_energy_tuning_factor :=
     vertical_energy_tuning_factor st |}.

Definition set_kinetic_energy_differentiator (v : differentiator) (st : flight_observer_t) : flight_observer_t :=
  {| vario_uncompensated_pressure := vario_uncompensated_pressure st;
     speed_compensation_IAS := speed_compensation_IAS st; vario_averager_pressure
     := vario_averager_pressure st; vario_uncompensated_GNSS :=
     vario_uncompensated_GNSS st; speed_compensation_GNSS :=
     speed_compensation_GNSS st; vario_averager_GNSS := vario_averager_GNSS st;
     windspeed_decimator_100Hz_10Hz := windspeed_decimator_100Hz_10Hz st;
     KalmanVario_GNSS := KalmanVario_GNSS st; KalmanVario_pressure :=
     KalmanVario_pressure st; Kalman_v_a_observer_N := Kalman_v_a_observer_N st;
     Kalman_v_a_observer_E := Kalman_v_a_observer_E st;
     speed_compensation_INS_GNSS_1 := speed_compensation_INS_GNSS_1 st;
     speed_compensation_kalman_2 := speed_compensation_kalman_2 st;
     speed_compensation_energy_3 := speed_compensation_energy_3 st;
     specific_energy := specific_energy st; kinetic_energy_differentiator := v;
     specific_energy_differentiator := specific_energy_differentiator st;
     GNSS_INS_speedcomp_fusioner := GNSS_INS_speedcomp_fusioner st;
     vertical_energy_tuning_factor := vertical_energy_tuning_factor st |}.

Definition set_specific_energy_differentiator (v : differentiator) (st : flight_observer_t) : flight_observer_t :=
  {| vario_uncompensated_pressure := vario_uncompensated_pressure st;
     speed_compensation_IAS := speed_compensation_IAS st; vario_averager_pressure
     := vario_averager_pressure st; vario_uncompensated_GNSS :=
     vario_uncompensated_GNSS st; speed_compensation_GNSS :=
     speed_compensation_GNSS st; vario_averager_GNSS := vario_averager_GNSS st;
     windspeed_decimator_100Hz_10Hz := windspeed_decimator_100Hz_10Hz st;
     KalmanVario_GNSS := KalmanVario_GNSS st; KalmanVario_pressure :=
     KalmanVario_pressure st; Kalman_v_a_observer_N := Kalman_v_a_observer_N st;
     Kalman_v_a_observer_E := Kalman_v_a_observer_E st;
     speed_compensation_INS_GNSS_1 := speed_compensation_INS_GNSS_1 st;
     speed_compensation_kalman_2 := speed_compensation_kalman_2 st;
     speed_compensation_energy_3 := speed_compensation_energy_3 st;
     specific_energy := specific_energy st; kinetic_energy_differentiator :=
     kinetic_energy_differentiator st; specific_energy_differentiator := v;
     GNSS_INS_speedcomp_fusioner := GNSS_INS_speedcomp_fusioner st;
     vertical_energy_tuning_factor := vertical_energy_tuning_factor st |}.

Definition set_GNSS_INS_speedcomp_fusioner (v : fusioner) (st : flight_observer_t) : flight_observer_t :=
  {| vario_uncompensated_pressure := vario_uncompensated_pressure st;
     speed_compensation_IAS := speed_compensation_IAS st; vario_averager_pressure
     := vario_averager_pressure st; vario_uncompensated_GNSS :=
     vario_uncompensated_GNSS st; speed_compensation_GNSS :=
     speed_compensation_GNSS st; vario_averager_GNSS := vario_averager_GNSS st;
     windspeed_decimator_100Hz_10Hz := windspeed_decimator_100Hz_10Hz st;
     KalmanVario_GNSS := KalmanVario_GNSS st; KalmanVario_pressure :=
     KalmanVario_pressure st; Kalman_v_a_observer_N := Kalman_v_a_observer_N st;
     Kalman_v_a_observer_E := Kalman_v_a_observer_E st;
     speed_compensation_INS_GNSS_1 := speed_compensation_INS_GNSS_1 st;
     speed_compensation_kalman_2 := speed_compensation_kalman_2 st;
     speed_compensation_energy_3 := speed_compensation_energy_3 st;
     specific_energy := specific_energy st; kinetic_energy_differentiator :=
     kinetic_energy_differentiator st; specific_energy_differentiator :=
     specific_energy_differentiator st; GNSS_INS_speedcomp_fusioner := v;
     vertical_energy_tuning_factor := vertical_energy_tuning_factor st |}.


(** ** [flight_observer_t::update_every_10ms]

    In [0.5 * (...)] the factor is a [double], so the product is formed in
    double precision and rounded to [float] when it is passed on; halving
    is exact there, so the rounded value is the single-precision product. *)
Definition update_every_10ms (st : flight_observer_t)
  (gnss_velocity gnss_acceleration ahrs_acceleration heading_vector
     : float3vector)
  (GNSS_negative_altitude pressure_altitude TAS IAS : float)
  (circle_state : circle_state_t) (wind_average : float3vector)
  (GNSS_fix_avaliable : bool) : flight_observer_t :=
  let '(k, v) :=
    KalmanVario_update2 (KalmanVario_pressure st) pressure_altitude
      (get3 ahrs_acceleration DOWN) in
  let st := set_vario_uncompensated_pressure v (set_KalmanVario_pressure k st) in
  let '(d, v) :=
    differentiator_respond (kinetic_energy_differentiator st)
      (IAS * IAS * ONE_DIV_BY_GRAVITY_TIMES_2) in
  let st :=
    set_speed_compensation_IAS v (set_kinetic_energy_differentiator d st) in
  let st :=
    set_vario_averager_pressure
      (vario_averager_respond (vario_averager_pressure st)
         (speed_compensation_IAS st - vario_uncompensated_pressure st)) st in
  if negb GNSS_fix_avaliable
  then
    let st :=
      set_vario_uncompensated_GNSS (vario_uncompensated_pressure st) st in
    let st := set_speed_compensation_GNSS (speed_compensation_IAS st) st in
    set_vario_averager_GNSS
      (vario_averager_respond (vario_averager_GNSS st)
         (speed_compensation_IAS st - vario_uncompensated_pressure st)) st
  else
    let air_velocity := vscale heading_vector TAS in
    let st :=
      set_windspeed_decimator_100Hz_10Hz
        (decimator_respond (windspeed_decimator_100Hz_10Hz st)
           (vsub gnss_velocity air_velocity)) st in
    let '(k, v) :=
      KalmanVario_update3 (KalmanVario_GNSS st) GNSS_negative_altitude
        (get3 gnss_velocity DOWN) (get3 ahrs_acceleration DOWN) in
    let st := set_vario_uncompensated_GNSS (- v) (set_KalmanVario_GNSS k st) in
    let air_velocity := vsub gnss_velocity wind_average in
    let air_velocity :=
      put3 air_velocity DOWN (KalmanVario_get_x (KalmanVario_GNSS st) VARIO) in
    let acceleration := ahrs_acceleration in
    let acceleration :=
      put3 acceleration DOWN
        (KalmanVario_get_x (KalmanVario_GNSS st) ACCELERATION_OBSERVED) in
    let st :=
      set_speed_compensation_INS_GNSS_1
        (vdot air_velocity acceleration * RECIP_GRAVITY) st in
    let st :=
      set_Kalman_v_a_observer_N
        (Kalman_V_A_Aoff_update (Kalman_v_a_observer_N st)
           (get3 gnss_velocity NORTH - get3 wind_average NORTH)
           (get3 ahrs_acceleration NORTH)) st in
    let st :=
      set_Kalman_v_a_observer_E
        (Kalman_V_A_Aoff_update (Kalman_v_a_observer_E st)
           (get3 gnss_velocity EAST - get3 wind_average EAST)
           (get3 ahrs_acceleration EAST)) st in
    let st :=
      set_speed_compensation_kalman_2
        ((Kalman_V_A_Aoff_get_x (Kalman_v_a_observer_N st) VELOCITY
          * Kalman_V_A_Aoff_get_x (Kalman_v_a_observer_N st) ACCELERATION
          + Kalman_V_A_Aoff_get_x (Kalman_v_a_observer_E st) VELOCITY
            * Kalman_V_A_Aoff_get_x (Kalman_v_a_observer_E st) ACCELERATION
          + KalmanVario_get_x (KalmanVario_GNSS st) VARIO
            * KalmanVario_get_x (KalmanVario_GNSS st) ACCELERATION_OBSERVED
            * vertical_energy_tuning_factor st)
         * RECIP_GRAVITY) st in
    let st :=
      set_specific_energy
        ((SQR (get3 gnss_velocity NORTH - get3 wind_average NORTH)
          + SQR (get3 gnss_velocity EAST - get3 wind_average EAST)
          + SQR (get3 gnss_velocity DOWN) * vertical_energy_tuning_factor st)
         * ONE_DIV_BY_GRAVITY_TIMES_2) st in
    let '(d, v) :=
      differentiator_respond (specific_energy_differentiator st)
        (specific_energy st) in
    let st :=
      set_speed_compensation_energy_3 v
        (set_specific_energy_differentiator d st) in
    let '(f, v) :=
      fusioner_respond (GNSS_INS_speedcomp_fusioner st)
        (F32.decimal 5 1
         * (speed_compensation_INS_GNSS_1 st + speed_compensation_kalman_2 st))
        (speed_compensation_energy_3 st) in
    let st :=
      set_speed_compensation_GNSS v (set_GNSS_INS_speedcomp_fusioner f st) in
    set_vario_averager_GNSS
      (vario_averager_respond (vario_averager_GNSS st)
         (vario_uncompensated_GNSS st + speed_compensation_GNSS st)) st.

End FlightObserver.

(* ================================================================== *)
(** * NMEA formatter ([NMEA_format.cpp])

    A [char *] into the output buffer is modelled by the C string that
    starts there: the characters before the terminating NUL.  A function
    that writes at [p] and returns the new end returns the characters it
    wrote. *)

Local Open Scope Z_scope.
Local Open Scope string_scope.

Definition Z_of_char (c : ascii) : Z := Z.of_N (N_of_ascii c).

(** Conversion of an integer to [char]: the low eight bits. *)
Definition char_of_Z (z : Z) : ascii := ascii_of_N (Z.to_N (z mod 256)).

Definition NUL : ascii := "000"%char.

(** [s[i]]: the character at an index of a C string.  The terminator reads
    as NUL.  A read outside the array is undefined in C and is given NUL
    here: the two functions that write decimals have a negative index
    into [HEX] for the smallest [int], whose negative is not an [int].
    The properties of the sentences are stated for conversions inside the
    range of [int], where every index lies within [HEX]. *)
Definition char_at (s : string) (i : Z) : ascii :=
  if (i <? 0)%Z then NUL
  else match String.get (Z.to_nat i) s with Some c => c | None => NUL end.

(** [ROM char HEX[]="0123456789ABCDEF";] *)
Definition HEX : string := "0123456789ABCDEF".

(** Wrap-around of the fixed-width integer types. *)
Definition wrap_uint32 (z : Z) : Z := z mod 2 ^ 32.
Definition wrap_int32 (z : Z) : Z := (z + 2 ^ 31) mod 2 ^ 32 - 2 ^ 31.
Definition wrap_uint8 (z : Z) : Z := Z.land z 255.

(** ** [format_integer]: integer to ASCII

    The function calls itself on [value / 10] and on [value % 10].  The
    depth of these calls is the number of decimal digits, at most ten for a
    [uint32_t]; [depth] bounds it, and [format_integer_depth] below shows
    that the result does not depend on the bound. *)
Fixpoint format_integer_rec (depth : nat) (value : Z) : string :=
  match depth with
  | O => EmptyString
  | S depth' =>
      if (value <? 10)%Z
      then String (char_of_Z (value + Z_of_char "0")) EmptyString
      else format_integer_rec depth' (value / 10)
           ++ format_integer_rec depth' (value mod 10)
  end.

Definition format_integer (value : Z) : string :=
  format_integer_rec 11 (wrap_uint32 value).

(** ** [integer_to_ascii_2_decimals]: exactly two digits after the point *)
Definition integer_to_ascii_2_decimals (number : Z) : string :=
  let sign := if (number <? 0)%Z then "-" else "" in
  let number := if (number <? 0)%Z then wrap_int32 (- number) else number in
  let s := format_integer (Z.quot number 100) in
  let s1 := char_at HEX (Z.rem number 10) in
  let number := Z.quot number 10 in
  let s0 := char_at HEX (Z.rem number 10) in
  sign ++ s ++ "." ++ String s0 (String s1 EmptyString).

(** ** [integer_to_ascii_1_decimal]: one digit after the point *)
Definition integer_to_ascii_1_decimal (number : Z) : string :=
  let sign := if (number <? 0)%Z then "-" else "" in
  let number := if (number <? 0)%Z then wrap_int32 (- number) else number in
  let s := format_integer (Z.quot number 10) in
  let s0 := char_at HEX (Z.rem number 10) in
  sign ++ s ++ "." ++ String s0 EmptyString.

(** ** [append_string]: copy up to the terminator of the source *)
Fixpoint c_str (source : string) : string :=
  match source with
  | EmptyString => EmptyString
  | String c rest =>
      if Ascii.eqb c NUL then EmptyString else String c (c_str rest)
  end.

Definition append_string (target source : string) : string :=
  target ++ c_str source.

Definition POV : string := "$POV".

(** ** [format_POV]: TAS, pressures and TEK variometer

    The characters written to the buffer, in the order of the writes.
    They are the sentence, read as a C string, when there is no NUL
    among them. *)
Definition format_POV (TAS pabs pitot TEK_vario voltage : float)
  (airdata_available : bool) (humidity temperature : float) : string :=
  let p := append_string "" POV in
  let p := append_string p ",E," in
  let p :=
    p ++ integer_to_ascii_2_decimals
           (F32.to_int (F32.mul TEK_vario (F32.of_Z 100))) in
  let p := append_string p ",P," in
  let p := p ++ integer_to_ascii_2_decimals (F32.to_int pabs) in
  let pitot := if F32.ltb pitot F32.zero then F32.zero else pitot in
  let p := append_string p ",R," in
  let p := p ++ integer_to_ascii_2_decimals (F32.to_int pitot) in
  let p := append_string p ",S," in
  let p :=
    p ++ integer_to_ascii_2_decimals (F32.to_int (F32.mul TAS (F32.of_Z 360))) in
  let p := append_string p ",V," in
  let p :=
    p ++ integer_to_ascii_1_decimal
           (F32.to_int (F32.mul voltage (F32.of_Z 10))) in
  if airdata_available
  then
    let p := append_string p ",H," in
    let p :=
      p ++ integer_to_ascii_2_decimals
             (F32.to_int (F32.mul humidity (F32.of_Z 100))) in
    let p := append_string p ",T," in
    p ++ integer_to_ascii_2_decimals
           (F32.to_int (F32.mul temperature (F32.of_Z 100)))
  else p.

Definition HCHDT : string := "$HCHDT,".

(** The heading in tenths of a degree as [format_HCHDT] computes it. *)
Definition HCHDT_heading (true_heading : float) : Z :=
  let heading := F32.to_int (F32.mul true_heading (F32.of_Z 573)) in
  if (heading <? 0)%Z then heading + 3600 else heading.

(** ** [format_HCHDT]: the sentence that reports the true heading *)
Definition format_HCHDT (true_heading : float) : string :=
  let heading := HCHDT_heading true_heading in
  let p := append_string "" HCHDT in
  let p := p ++ integer_to_ascii_1_decimal heading in
  p ++ ",T".

(** [p + 1]: the string one character further on. *)
Definition next (p : string) : string :=
  match p with
  | EmptyString => EmptyString
  | String _ rest => rest
  end.

(** ** [hex4] *)
Definition hex4 (data : Z) : ascii := char_at HEX data.

(** The loop [for (p = line + 1; *p && *p != '*'; ++p) checksum ^= *p;]
    shared by [NMEA_checksum] and [NMEA_append_tail]: the characters
    passed over, the checksum, and the string at the final [p]. *)
Fixpoint checksum_loop (p : string) (checksum : Z) : string * Z * string :=
  match p with
  | EmptyString => (EmptyString, checksum, EmptyString)
  | String c rest =>
      if Ascii.eqb c NUL || Ascii.eqb c "*"
      then (EmptyString, checksum, p)
      else
        let '(passed, checksum', p') :=
          checksum_loop rest (wrap_uint8 (Z.lxor checksum (Z_of_char c))) in
        (String c passed, checksum', p')
  end.

(** ** [NMEA_checksum]: test a line for a valid checksum *)
Definition NMEA_checksum (line : string) : bool :=
  if negb (Ascii.eqb (char_at line 0) "$") then false
  else
    let '(_, checksum, p) := checksum_loop (next line) 0 in
    Ascii.eqb (char_at p 0) "*"
    && Ascii.eqb (hex4 (Z.shiftr checksum 4)) (char_at p 1)
    && Ascii.eqb (hex4 (Z.land checksum 15)) (char_at p 2)
    && Ascii.eqb (char_at p 3) NUL.

Definition CR : ascii := "013"%char.
Definition LF : ascii := "010"%char.

(** ** [NMEA_append_tail]: end delimiter, checksum, CR and LF

    [None] is the null pointer returned for a line that does not start
    with a dollar sign; otherwise the result is the string that the
    buffer holds from the start of the line on. *)
Definition NMEA_append_tail (line : string) : option string :=
  if negb (Ascii.eqb (char_at line 0) "$") then None
  else
    let '(passed, checksum, _) := checksum_loop (next line) 0 in
    Some (String "$" passed
          ++ String "*"
               (String (hex4 (Z.shiftr checksum 4))
                  (String (hex4 (Z.land checksum 15))
                     (String CR (String LF EmptyString))))).

(* ================================================================== *)
(** * IEEE-754 double precision ([double])

    [NMEA_format.cpp] scales its angles with constants of type [double]:
    the [float] operand is converted and the arithmetic is done in
    binary64. *)

Module F64.

Definition prec : Z := 53.
Definition emax : Z := 1024.

Definition double : Type := spec_float.

Definition add : double -> double -> double := SFadd prec emax.
Definition mul : double -> double -> double := SFmul prec emax.
Definition div : double -> double -> double := SFdiv prec emax.

Definition of_Z (z : Z) : double := binary_normalize prec emax z 0 false.

(** The decimal literal [n / 10^k], correctly rounded. *)
Definition decimal (n : Z) (k : Z) : double := div (of_Z n) (of_Z (10 ^ k)).

(** The conversion of a [float].  Every value of binary32 is a value of
    binary64; the mantissa is brought to the 53 bits of the format. *)
Definition of_float (x : float) : double :=
  match x with
  | S754_finite s m e => binary_normalize prec emax (cond_Zopp s (Z.pos m)) e s
  | _ => x
  end.

(** [(int) x] for a [double]: truncation toward zero, saturating. *)
Definition to_int (x : double) : Z := F32.to_int x.

End F64.

Abbreviation double := F64.double.

(** [#define RAD_TO_DEGREE_10 572.958] *)
Definition RAD_TO_DEGREE_10 : double := F64.decimal 572958 3.

(** [(int)(angle * RAD_TO_DEGREE_10 + 0.5)]: the angle in tenths of a
    degree.  The product and the sum are formed in double precision. *)
Definition tenths_of_degree (angle : float) : Z :=
  F64.to_int
    (F64.add (F64.mul (F64.of_float angle) RAD_TO_DEGREE_10)
       (F64.decimal 5 1)).

(** ** [format_POV_RNY]: roll, nick and yaw angle

    The characters written to the buffer, in the order of the writes.
    They are the sentence, read as a C string, when there is no NUL
    among them. *)
Definition format_POV_RNY (roll nick yaw : float) : string :=
  let p := append_string "" POV in
  let p := append_string p ",B," in
  let p := (p ++ integer_to_ascii_1_decimal (tenths_of_degree roll))%string in
  let p := append_string p ",N," in
  let p := (p ++ integer_to_ascii_1_decimal (tenths_of_degree nick))%string in
  let yaw :=
    if F32.ltb yaw F32.zero then F32.add yaw (F32.decimal 62832 4) else yaw in
  let p := append_string p ",Y," in
  (p ++ integer_to_ascii_1_decimal (tenths_of_degree yaw))%string.

(** [x < 0] does not hold: [x] is zero, above zero or NaN. *)
Definition not_negative (x : spec_float) : Prop := F32.ltb x F32.zero = false.

(* ================================================================== *)
(** * Reference definitions from the specification *)

Section CirclingReference.
Context `{Tuning}.

(** The step function of section 4.1 on the counter [c], both conditions
    read on the counter before the step: "If [c < CIRCLE_LIMIT] and
    [|turn_rate| > HIGH_TURN_RATE]: [c += 1].  If [c > 0] and
    [|turn_rate| < LOW_TURN_RATE]: [c -= 1]." *)
Definition reference_counter_step (c : Z) (turn_rate_abs : float) : Z :=
  if (c <? CIRCLE_LIMIT)%Z && F32.gtb turn_rate_abs HIGH_TURN_RATE
  then (c + 1)%Z
  else if (0 <? c)%Z && F32.ltb turn_rate_abs LOW_TURN_RATE
       then (c - 1)%Z
       else c.

(** "[c == 0] => [STRAIGHT_FLIGHT]; [c == CIRCLE_LIMIT] => [CIRCLING];
    otherwise [TRANSITION]." *)
Definition reference_state (c : Z) : circle_state_t :=
  if (c =? 0)%Z then STRAIGHT_FLIGHT
  else if (c =? CIRCLE_LIMIT)%Z then CIRCLING
       else TRANSITION.

End CirclingReference.

Section AttitudeReference.
Context `{Tuning} `{Collaborators}.

(** The prediction of section 4.2: the "small-angle rotation by
    [(gyro * Ts/2)] on each axis; then re-normalize", for the rotation
    rate [rotation]. *)
Definition rotated_and_normalized (st : AHRS_type) (rotation : float3vector)
  : quaternion :=
  q_normalize
    (q_rotate (attitude st)
       (get3 rotation ROLL * Ts_div_2 st)%f32
       (get3 rotation NICK * Ts_div_2 st)%f32
       (get3 rotation YAW * Ts_div_2 st)%f32).

End AttitudeReference.

(** The step of the heading wrap, two times [M_PI_F] as the code computes
    it, and three times [M_PI_F]: the widest raw heading difference that
    one such step takes into the range. *)
Definition TWO_PI_F : float := F32.mul (F32.of_Z 2) M_PI_F.
Definition THREE_PI_F : float := F32.mul (F32.of_Z 3) M_PI_F.

(** The specific energy of section 4.7, in its words: "[specific_energy =
    (V_N^2 + V_E^2 + v_gnss.DOWN^2 * k_v) / (2g)]", with [g] the
    gravitational acceleration of 9.81 m/s^2. *)
Definition reference_specific_energy (V_N V_E v_down k_v : float) : float :=
  ((V_N * V_N + V_E * V_E + v_down * v_down * k_v)
   / (F32.of_Z 2 * F32.decimal 981 2))%f32.

Local Open Scope Z_scope.
Local Open Scope string_scope.

(** "Checksum: 8-bit XOR of all bytes strictly between [$] and [*]": the
    XOR of the bytes of the sentence body. *)
Fixpoint xor_bytes (body : string) (acc : Z) : Z :=
  match body with
  | EmptyString => acc
  | String c rest => xor_bytes rest (Z.lxor acc (Z_of_char c))
  end.

(** The value of an uppercase hexadecimal digit. *)
Definition hex_value (c : ascii) : option Z :=
  let k := Z_of_char c in
  if (48 <=? k)%Z && (k <=? 57)%Z then Some (k - 48)
  else if (65 <=? k)%Z && (k <=? 70)%Z then Some (k - 55)
  else None.

(** The fields of a sentence: the pieces between its commas. *)
Fixpoint split_fields (s : string) : list string :=
  match s with
  | EmptyString => [EmptyString]
  | String c rest =>
      if Ascii.eqb c ","
      then EmptyString :: split_fields rest
      else match split_fields rest with
           | f :: fs => String c f :: fs
           | [] => [String c EmptyString]
           end
  end.

(** Every character of a string satisfies a test. *)
Fixpoint all_chars (test : ascii -> bool) (s : string) : bool :=
  match s with
  | EmptyString => true
  | String c rest => test c && all_chars test rest
  end.

Definition is_digit (c : ascii) : bool :=
  let k := Z_of_char c in (48 <=? k)%Z && (k <=? 57)%Z.

(** An unsigned decimal number: digits and a decimal point, no sign. *)
Definition is_unsigned_decimal (s : string) : bool :=
  all_chars (fun c => is_digit c || Ascii.eqb c ".") s.

(** The value of a string of decimal digits. *)
Fixpoint digits_value (s : string) (acc : Z) : Z :=
  match s with
  | EmptyString => acc
  | String c rest => digits_value rest (10 * acc + (Z_of_char c - 48))
  end.

(** The bytes the checksum loop passes over: neither NUL nor a star. *)
Definition body_char (c : ascii) : bool :=
  negb (Ascii.eqb c NUL) && negb (Ascii.eqb c "*").

(** Where the checksum loop stops: at the terminator or at a star. *)
Definition stops (p : string) : Prop :=
  match p with
  | EmptyString => True
  | String c _ => Ascii.eqb c NUL || Ascii.eqb c "*" = true
  end.


(* ================================================================== *)
(** * Reading what the formatter writes *)

Local Open Scope Z_scope.
Local Open Scope string_scope.

(** The text before and the text after the first decimal point. *)
Fixpoint split_at_point (s : string) : option (string * string) :=
  match s with
  | EmptyString => None
  | String c rest =>
      if Ascii.eqb c "."
      then Some (EmptyString, rest)
      else match split_at_point rest with
           | Some (i, f) => Some (String c i, f)
           | None => None
           end
  end.

(** A fixed-point number as a reader of the sentences takes it: an
    optional minus sign, at least one digit, a decimal point and exactly
    [decimals] digits.  The value is given in units of the last decimal. *)
Definition read_fixed_point (decimals : nat) (s : string) : option Z :=
  let '(negative, t) :=
    match s with
    | String c rest => if Ascii.eqb c "-" then (true, rest) else (false, s)
    | EmptyString => (false, s)
    end in
  match split_at_point t with
  | Some (i, f) =>
      if all_chars is_digit i && all_chars is_digit f
         && negb (Nat.eqb (String.length i) 0)
         && Nat.eqb (String.length f) decimals
      then Some ((if negative then -1 else 1)
                 * (digits_value i 0 * 10 ^ Z.of_nat decimals
                    + digits_value f 0))
      else None
  | None => None
  end.

(** [*p == 0]: the string ends at [p]. *)
Definition ends_here (p : string) : bool := Ascii.eqb (char_at p 0) NUL.

(** A sentence with its checksum: the dollar sign, the body, the star and
    two characters, and what follows them. *)
Definition with_checksum (body : string) (hi lo : ascii) (rest : string)
  : string :=
  String "$" body ++ String "*" (String hi (String lo rest)).

(** The two characters of the checksum of a body. *)
Definition checksum_hi (body : string) : ascii :=
  hex4 (Z.shiftr (xor_bytes body 0) 4).
Definition checksum_lo (body : string) : ascii :=
  hex4 (Z.land (xor_bytes body 0) 15).

(** The string holds no NUL: the buffer, read as a C string, is the whole
    of it. *)
Definition is_C_string (s : string) : bool :=
  all_chars (fun c => negb (Ascii.eqb c NUL)) s.

(** The inputs of [format_POV] for which every conversion to [int] in the
    function is inside the range of [int], by a bound on each input: the
    scaled values stay below 2^31 in magnitude.  A pitot pressure below
    zero of any size is in range, as it is set to zero before it is
    converted; humidity and temperature count when they are written. *)
Definition POV_in_range (TAS pabs pitot TEK_vario voltage : float)
  (airdata_available : bool) (humidity temperature : float) : bool :=
  F32.within 20000000 TEK_vario
  && F32.within 2000000000 pabs
  && (F32.valid pitot && F32.leb pitot (F32.of_Z 2000000000))
  && F32.within 5000000 TAS
  && F32.within 200000000 voltage
  && (negb airdata_available
      || (F32.within 20000000 humidity && F32.within 20000000 temperature)).

(* ================================================================== *)
(** * AHRS: a sequence of ticks *)

Section Ticks.
Context `{Tuning} `{Collaborators}.

(** The arguments of one call of [AHRS_type::update]. *)
Record AHRS_input : Type := {
  input_gyro : float3vector;
  input_acc : float3vector;
  input_mag : float3vector;
  input_GNSS_acceleration : float3vector;
  input_GNSS_heading : float;
  input_GNSS_heading_valid : bool
}.

(** [update] called once for each set of arguments, in order. *)
Fixpoint updates (st : AHRS_type) (inputs : list AHRS_input) : AHRS_type :=
  match inputs with
  | [] => st
  | i :: rest =>
      updates
        (update st (input_gyro i) (input_acc i) (input_mag i)
           (input_GNSS_acceleration i) (input_GNSS_heading i)
           (input_GNSS_heading_valid i))
        rest
  end.

(** The state that is derived from the attitude quaternion: the rotation
    matrix and the Euler angles of the quaternion, and the acceleration
    [acc] of the tick in the navigation frame. *)
Definition derived_from_attitude (acc : float3vector) (st : AHRS_type) : Prop :=
  body2nav st = q_get_rotation_matrix (attitude st)
  /\ euler st = q_to_euler (attitude st)
  /\ acceleration_nav_frame st = mat_mul (body2nav st) acc.

(** The end of a tick of the D-GNSS and the magnetometer mode, from the
    state [pre] in which the corrections are set: the attitude update, the
    feeding of the induction observer while circling with a small
    correction, and the calibration at the end of circling, reported with
    the letter [type]. *)
Definition finish_tick (old_circle_state : circle_state_t) (type : ascii)
  (pre : AHRS_type) (acc gyro mag mag_sensor : float3vector) : AHRS_type :=
  let st := update_attitude pre acc (vadd gyro (gyro_correction pre)) mag in
  let st :=
    if circle_state_eqb (circling_state st) CIRCLING
       && (vabs (nav_correction st) <? NAV_CORRECTION_LIMIT)%f32
    then feed_magnetic_induction_observer st mag_sensor
    else st in
  if automatic_magnetic_calibration st
     && circle_state_eqb old_circle_state CIRCLING
     && circle_state_eqb (circling_state st) TRANSITION
  then handle_magnetic_calibration st type
  else st.

(** The magnetometer reading a tick works with. *)
Definition calibrated (st : AHRS_type) (mag_sensor : float3vector)
  : float3vector :=
  if isCalibrationDone (compass_calibration st)
  then calibrate (compass_calibration st) mag_sensor
  else mag_sensor.

End Ticks.

(* ================================================================== *)
(** * A test bench

    Values for the constants and small implementations of the classes
    that are not among the sources, so that the functions above can be
    run on concrete inputs.  The theorems below hold for every choice of
    them; the bench only supplies the inputs of the examples. *)

Module Bench.

Local Open Scope f32_scope.

Definition tuning : Tuning := {|
  CIRCLE_LIMIT := 1000;
  HIGH_TURN_RATE := F32.decimal 15 2;
  LOW_TURN_RATE := F32.decimal 7 2;
  P_GAIN := F32.decimal 3 2;
  I_GAIN := F32.decimal 6 5;
  H_GAIN := F32.of_Z 38;
  M_H_GAIN := F32.of_Z 6;
  CROSS_GAIN := F32.decimal 5 2;
  NAV_CORRECTION_LIMIT := F32.of_Z 5;
  MAG_SCALE := F32.of_Z 10000;
  INDUCTION_STD_DEVIATION_LIMIT := F32.decimal 3 2;
  DISABLE_CIRCLING_STATE := false;
  CROSS_GAIN_ONLY := false
|}.

Definition one : float := F32.of_Z 1.
Definition two : float := F32.of_Z 2.
Definition vzero : float3vector := mk3 F32.zero F32.zero F32.zero.
Definition identity : float3matrix :=
  mk3 (mk3 one F32.zero F32.zero) (mk3 F32.zero one F32.zero)
      (mk3 F32.zero F32.zero one).

(** Modelled from the spec: the quaternion with its first-order rotation
    by three half angles, normalisation and rotation matrix. *)
Record quat : Type := mk_quat { q0 : float; q1 : float; q2 : float; q3 : float }.

(** Modelled from the spec: the "small-angle rotation by [(gyro * Ts/2)]
    on each axis", the quaternion product with [(1, p_, q_, r_)] in single
    precision. *)
Definition quat_rotate (q : quat) (p_ q_ r_ : float) : quat :=
  mk_quat (q0 q + (- q1 q * p_ - q2 q * q_ - q3 q * r_))
          (q1 q + (q0 q * p_ + q2 q * r_ - q3 q * q_))
          (q2 q + (q0 q * q_ - q1 q * r_ + q3 q * p_))
          (q3 q + (q0 q * r_ + q1 q * q_ - q2 q * p_)).

(** Modelled from the spec: the norm, the square root of the sum of the
    squares of the components, in single precision. *)
Definition quat_abs (q : quat) : float :=
  F32.sqrt (q0 q * q0 q + q1 q * q1 q + q2 q * q2 q + q3 q * q3 q).

(** Modelled from the spec: "re-normalize", each component divided by the
    norm. *)
Definition quat_normalize (q : quat) : quat :=
  mk_quat (q0 q / quat_abs q) (q1 q / quat_abs q) (q2 q / quat_abs q)
          (q3 q / quat_abs q).

Definition quat_matrix (q : quat) : float3matrix :=
  mk3 (mk3 (q0 q * q0 q + q1 q * q1 q - q2 q * q2 q - q3 q * q3 q)
           (two * (q1 q * q2 q - q0 q * q3 q))
           (two * (q1 q * q3 q + q0 q * q2 q)))
      (mk3 (two * (q1 q * q2 q + q0 q * q3 q))
           (q0 q * q0 q - q1 q * q1 q + q2 q * q2 q - q3 q * q3 q)
           (two * (q2 q * q3 q - q0 q * q1 q)))
      (mk3 (two * (q1 q * q3 q - q0 q * q2 q))
           (two * (q2 q * q3 q + q0 q * q1 q))
           (q0 q * q0 q - q1 q * q1 q - q2 q * q2 q + q3 q * q3 q)).

(** Stand-ins for the math library: the first terms of the series, exact
    at the angle zero that the examples use. *)
Definition sin_series (x : float) : float := x - x * x * x / F32.of_Z 6.
Definition cos_series (x : float) : float := one - x * x / two.
Definition atan2_small (y x : float) : float := y / x.

Definition quat_euler (q : quat) : eulerangle :=
  mk_euler
    (atan2_small (two * (q0 q * q1 q + q2 q * q3 q))
       (one - two * (q1 q * q1 q + q2 q * q2 q)))
    (two * (q0 q * q2 q - q3 q * q1 q))
    (atan2_small (two * (q0 q * q3 q + q1 q * q2 q))
       (one - two * (q2 q * q2 q + q3 q * q3 q))).

(** Modelled from the spec: the averager, a first-order filter with a
    fixed coefficient; the state is the coefficient and the output. *)
Definition iir_respond (a : float * float) (x : float) : float * float :=
  (fst a, snd a + fst a * (x - snd a)).

(** Modelled from the spec: the regression collector and the calibration,
    one bias and one scale for each axis.  The bench collector keeps the
    sums of its samples and their number; the bench calibration takes the
    mean difference as the new bias once every axis holds samples. *)
Definition sums : Type := (float * float * Z)%type.

Definition sums_add (c : sums) (x y : float) : sums :=
  let '(sx, sy, k) := c in (sx + x, sy + y, (k + 1)%Z).

Definition sums_empty : sums := (F32.zero, F32.zero, 0%Z).

Definition axis_fit (scale : float) (c : sums) : float * float :=
  let '(sx, sy, k) := c in ((sy - sx) / (F32.of_Z k * scale), one).

Definition bench_set_calibration (cal : option (array3 (float * float)))
  (c : array3 sums) (scale : float) (turning_right : bool)
  : option (array3 (float * float)) * array3 sums * bool :=
  if ((0 <? snd (a0 c)) && (0 <? snd (a1 c)) && (0 <? snd (a2 c)))%Z
  then (Some (map3 (axis_fit scale) c), mk3 sums_empty sums_empty sums_empty,
        true)
  else (cal, c, false).

Definition bench_calibrate (cal : option (array3 (float * float)))
  (v : float3vector) : float3vector :=
  match cal with
  | Some k => zip3 (fun bs x => (x - fst bs) * snd bs) k v
  | None => v
  end.

Definition collaborators : Collaborators := {|
  quaternion := quat;
  q_rotate := quat_rotate;
  q_normalize := quat_normalize;
  q_get_rotation_matrix := quat_matrix;
  q_to_euler := quat_euler;
  averager := float * float;
  respond := iir_respond;
  get_output := snd;
  compass_calibration_t := option (array3 (float * float));
  single_axis_calibration_t := float * float;
  collector := sums;
  isCalibrationDone := fun c => match c with Some _ => true | None => false end;
  calibrate := bench_calibrate;
  set_calibration_if_changed := bench_set_calibration;
  get_calibration := fun c =>
    match c with
    | Some k => k
    | None => mk3 (F32.zero, one) (F32.zero, one) (F32.zero, one)
    end;
  add_value := sums_add;
  induction_observer_t := list float3vector;
  feed := fun o v _ => v :: o;
  data_valid := fun o => match o with nil => false | _ => true end;
  get_variance := fun _ => F32.zero;
  get_estimated_induction := fun o => hd (mk3 one F32.zero F32.zero) o;
  reset := fun _ => nil;
  magnetic_loop_gain := fun v => one / F32.sqrt (a0 v * a0 v + a1 v * a1 v);
  SIN := sin_series;
  COS := cos_series;
  ATAN2 := atan2_small
|}.

#[local] Existing Instance tuning.
#[local] Existing Instance collaborators.

(** Level flight on a northerly heading, at rest in the filter: the state
    after construction and attitude setup, with the filtered turn rate and
    the circling counter given. *)
Definition level_state (turn_rate : float) (counter : Z)
  (state : circle_state_t) : AHRS_type := {|
  Ts := F32.decimal 1 2;
  Ts_div_2 := F32.decimal 5 3;
  attitude := mk_quat one F32.zero F32.zero F32.zero;
  body2nav := identity;
  euler := mk_euler F32.zero F32.zero F32.zero;
  acceleration_nav_frame := vzero;
  induction_nav_frame := vzero;
  nav_correction := vzero;
  gyro_correction := vzero;
  gyro_integrator := vzero;
  circling_counter := counter;
  circling_state := state;
  slip_angle_averager := (F32.decimal 1 2, F32.zero);
  nick_angle_averager := (F32.decimal 1 2, F32.zero);
  turn_rate_averager := (F32.decimal 1 2, turn_rate);
  G_load_averager := (F32.decimal 1 2, F32.zero);
  antenna_DOWN_correction := F32.zero;
  antenna_RIGHT_correction := F32.zero;
  heading_difference_AHRS_DGNSS := F32.zero;
  magnetic_disturbance := F32.zero;
  automatic_magnetic_calibration := true;
  automatic_earth_field_parameters := false;
  expected_nav_induction := mk3 one F32.zero F32.zero;
  magnetic_control_gain := one;
  compass_calibration := None;
  mag_calibration_data_collector := mk3 sums_empty sums_empty sums_empty;
  earth_induction_data_collector := nil;
  reports := nil
|}.

(** Sensor readings of level, unaccelerated flight. *)
Definition gravity : float3vector :=
  mk3 F32.zero F32.zero (- F32.decimal 981 2).
Definition mag_north : float3vector := mk3 one F32.zero F32.zero.

(** The aircraft circles (counter at [CIRCLE_LIMIT], turn rate 0.3 rad/s)
    and the accelerometer shows one m/s^2 forward that the GNSS does not:
    the proportional correction is not zero. *)
Definition circling : AHRS_type := level_state (F32.decimal 3 1) 1000 CIRCLING.
Definition acc_forward : float3vector := mk3 one F32.zero (- F32.decimal 981 2).

(** Leaving the turn: the counter stands at [CIRCLE_LIMIT], the turn rate
    has dropped to zero and the collectors hold samples. *)
Definition leaving_turn : AHRS_type :=
  set_mag_calibration_data_collector
    (mk3 (one, two, 1%Z) (one, two, 1%Z) (one, two, 1%Z))
    (level_state F32.zero 1000 CIRCLING).

(** Straight flight to the north, the filter at rest. *)
Definition straight : AHRS_type := level_state F32.zero 0 STRAIGHT_FLIGHT.

(** Modelled from the spec: the two Kalman filters with their three
    states.  The bench filters predict over one sample time and correct
    each state by one half of its innovation: constant gains in place of
    the gains the covariances give. *)
Definition sample_time : float := F32.decimal 1 2.
Definition half : float := F32.decimal 5 1.

Definition vario_update2 (x : float3vector) (altitude acceleration : float)
  : float3vector * float :=
  let p := a0 x + a1 x * sample_time in
  let v := a1 x + a2 x * sample_time in
  let x' :=
    mk3 (p + half * (altitude - p)) v
        (a2 x + half * (acceleration - a2 x)) in
  (x', a1 x').

Definition vario_update3 (x : float3vector)
  (altitude velocity acceleration : float) : float3vector * float :=
  let p := a0 x + a1 x * sample_time in
  let v := a1 x + a2 x * sample_time in
  let x' :=
    mk3 (p + half * (altitude - p)) (v + half * (velocity - v))
        (a2 x + half * (acceleration - a2 x)) in
  (x', a1 x').

Definition vario_get_x (x : float3vector) (i : KalmanVario_PVA_index) : float :=
  match i with
  | ALTITUDE => a0 x
  | VARIO => a1 x
  | ACCELERATION_OBSERVED => a2 x
  end.

Definition v_a_update (x : float3vector) (velocity acceleration : float)
  : float3vector :=
  let v := a0 x + a1 x * sample_time in
  let a := a1 x + half * (acceleration - a2 x - a1 x) in
  mk3 (v + half * (velocity - v)) a
      (a2 x + half * (acceleration - a - a2 x)).

Definition v_a_get_x (x : float3vector) (i : Kalman_V_A_Aoff_index) : float :=
  match i with
  | VELOCITY => a0 x
  | ACCELERATION => a1 x
  | ACCELERATION_OFFSET => a2 x
  end.

(** Modelled from the spec: the differentiator (difference to the last
    sample over the sample time), the averager as above, a decimator that
    sums its samples, and a blending filter that takes the mean of the
    two channels. *)
Definition observer_collaborators : ObserverCollaborators := {|
  KalmanVario_PVA_t := float3vector;
  KalmanVario_update2 := vario_update2;
  KalmanVario_update3 := vario_update3;
  KalmanVario_get_x := vario_get_x;
  Kalman_V_A_Aoff_observer_t := float3vector;
  Kalman_V_A_Aoff_update := v_a_update;
  Kalman_V_A_Aoff_get_x := v_a_get_x;
  differentiator := float;
  differentiator_respond := fun last x => (x, (x - last) / sample_time);
  vario_averager := float * float;
  vario_averager_respond := iir_respond;
  decimator := float3vector * Z;
  decimator_respond := fun d v => (vadd (fst d) v, (snd d + 1)%Z);
  fusioner := unit;
  fusioner_respond := fun f fast slow => (f, half * (fast + slow))
|}.

#[local] Existing Instance observer_collaborators.

(** The flight observer at rest on the ground, at altitude zero. *)
Definition observer_at_rest : flight_observer_t := {|
  vario_uncompensated_pressure := F32.zero;
  speed_compensation_IAS := F32.zero;
  vario_averager_pressure := (F32.decimal 1 2, F32.zero);
  vario_uncompensated_GNSS := F32.zero;
  speed_compensation_GNSS := F32.zero;
  vario_averager_GNSS := (F32.decimal 1 2, F32.zero);
  windspeed_decimator_100Hz_10Hz := (vzero, 0%Z);
  KalmanVario_GNSS := vzero;
  KalmanVario_pressure := vzero;
  Kalman_v_a_observer_N := vzero;
  Kalman_v_a_observer_E := vzero;
  speed_compensation_INS_GNSS_1 := F32.zero;
  speed_compensation_kalman_2 := F32.zero;
  speed_compensation_energy_3 := F32.zero;
  specific_energy := F32.zero;
  kinetic_energy_differentiator := F32.zero;
  specific_energy_differentiator := F32.zero;
  GNSS_INS_speedcomp_fusioner := tt;
  vertical_energy_tuning_factor := one
|}.

(** Ten metres per second over ground to the north, no wind, a GNSS fix:
    the northern Kalman filter, started at rest, estimates 5 m/s after
    this tick, while the specific energy is that of 10 m/s. *)
Definition north_10 : float3vector := mk3 (F32.of_Z 10) F32.zero F32.zero.

Definition first_tick : flight_observer_t :=
  update_every_10ms observer_at_rest north_10 vzero gravity
    (mk3 one F32.zero F32.zero) F32.zero F32.zero (F32.of_Z 10) (F32.of_Z 10)
    STRAIGHT_FLIGHT vzero true.

End Bench.

(* ================================================================== *)
(** * The norm of the attitude quaternion

    The norm is taken on the real numbers that the four components stand
    for, without rounding. *)

Module Norm.

Import Stdlib.Reals.Reals.
Import Bench.

Local Open Scope R_scope.

(** The square of the norm, [q0^2 + q1^2 + q2^2 + q3^2]. *)
Definition quat_norm_square (q : quat) : R :=
  Exact.value (q0 q) * Exact.value (q0 q)
  + Exact.value (q1 q) * Exact.value (q1 q)
  + Exact.value (q2 q) * Exact.value (q2 q)
  + Exact.value (q3 q) * Exact.value (q3 q).

Definition quat_norm (q : quat) : R := sqrt (quat_norm_square q).

(** "[| ||q|| - 1 | < 1e-6]", for a quaternion whose components are
    finite. *)
Definition unit_quaternion (q : quat) : Prop :=
  Exact.is_finite (q0 q) && Exact.is_finite (q1 q)
  && Exact.is_finite (q2 q) && Exact.is_finite (q3 q) = true
  /\ Rabs (quat_norm q - 1) < / 1000000.

(** The four components are values of the format. *)
Definition quat_valid (q : quat) : bool :=
  F32.valid (q0 q) && F32.valid (q1 q) && F32.valid (q2 q) && F32.valid (q3 q).

(** A magnitude below [2^k], and one of [2^k] at least, read off the
    number of digits of the mantissa and the exponent. *)
Definition magnitude_below (k : Z) (x : float) : bool :=
  match x with
  | S754_zero _ => true
  | S754_finite _ m e => (Z.pos (digits2_pos m) + e <=? k)%Z
  | _ => false
  end.

Definition magnitude_from (k : Z) (x : float) : bool :=
  match x with
  | S754_finite _ m e => (k <? Z.pos (digits2_pos m) + e)%Z
  | _ => false
  end.

(** A quaternion that [normalize] can handle without overflow and without
    loss of precision: values of the format, each below [2^60] in
    magnitude and one of them of [2^-60] at least. *)
Definition moderate (q : quat) : bool :=
  F32.valid (q0 q) && F32.valid (q1 q) && F32.valid (q2 q) && F32.valid (q3 q)
  && magnitude_below 60 (q0 q) && magnitude_below 60 (q1 q)
  && magnitude_below 60 (q2 q) && magnitude_below 60 (q3 q)
  && (magnitude_from (-60) (q0 q) || magnitude_from (-60) (q1 q)
      || magnitude_from (-60) (q2 q) || magnitude_from (-60) (q3 q)).

End Norm.

(* ================================================================== *)
(** * Properties of the single-precision comparisons *)

Module F32Facts.

Local Open Scope Z_scope.

Ltac cmp_cases :=
  repeat match goal with
    | |- context [Z.compare ?a ?b] => destruct (Z.compare_spec a b)
    | H : context [Z.compare ?a ?b] |- _ => destruct (Z.compare_spec a b)
    | |- context [Pos.compare_cont Eq ?a ?b] =>
        change (Pos.compare_cont Eq a b) with (Pos.compare a b);
        destruct (Pos.compare_spec a b)
    | H : context [Pos.compare_cont Eq ?a ?b] |- _ =>
        change (Pos.compare_cont Eq a b) with (Pos.compare a b) in H;
        destruct (Pos.compare_spec a b)
    end.

Ltac by_cases_on_floats :=
  simpl in *; cmp_cases; simpl in *; subst;
  try discriminate; try reflexivity; try congruence; try lia.

Lemma SFcompare_refl (x : float) :
  SFcompare x x = Some Eq \/ SFcompare x x = None.
Proof.
  destruct x as [s|s| |s m e]; simpl; auto; destruct s; auto;
    rewrite Z.compare_refl;
    change (Pos.compare_cont Eq m m) with (Pos.compare m m);
    rewrite Pos.compare_refl; auto.
Qed.

Lemma SFcompare_antisym (x y : float) (c : comparison) :
  SFcompare x y = Some c -> SFcompare y x = Some (CompOpp c).
Proof.
  destruct x as [sx|sx| |sx mx ex], y as [sy|sy| |sy my ey];
    try destruct sx; try destruct sy; intros Hc;
    by_cases_on_floats; inversion Hc; subst; reflexivity.
Qed.

Lemma SFcompare_trans_lt (x y z : float) :
  SFcompare x y = Some Lt -> SFcompare y z = Some Lt ->
  SFcompare x z = Some Lt.
Proof.
  destruct x as [sx|sx| |sx mx ex], y as [sy|sy| |sy my ey],
    z as [sz|sz| |sz mz ez];
    try destruct sx; try destruct sy; try destruct sz; intros Hxy Hyz;
    by_cases_on_floats.
Qed.

Lemma SFcompare_trans_lt_eq (x y z : float) :
  SFcompare x y = Some Lt -> SFcompare y z = Some Eq ->
  SFcompare x z = Some Lt.
Proof.
  destruct x as [sx|sx| |sx mx ex], y as [sy|sy| |sy my ey],
    z as [sz|sz| |sz mz ez];
    try destruct sx; try destruct sy; try destruct sz; intros Hxy Hyz;
    by_cases_on_floats.
Qed.

Lemma SFcompare_trans_eq_lt (x y z : float) :
  SFcompare x y = Some Eq -> SFcompare y z = Some Lt ->
  SFcompare x z = Some Lt.
Proof.
  destruct x as [sx|sx| |sx mx ex], y as [sy|sy| |sy my ey],
    z as [sz|sz| |sz mz ez];
    try destruct sx; try destruct sy; try destruct sz; intros Hxy Hyz;
    by_cases_on_floats.
Qed.

(** No value is below itself: a comparison at the threshold is false. *)
Lemma ltb_irrefl (x : float) : F32.ltb x x = false.
Proof.
  unfold F32.ltb, SFltb.
  destruct (SFcompare_refl x) as [E|E]; rewrite E; reflexivity.
Qed.

Lemma gtb_irrefl (x : float) : F32.gtb x x = false.
Proof. apply ltb_irrefl. Qed.

Lemma ltb_Lt (a b : float) : F32.ltb a b = true <-> SFcompare a b = Some Lt.
Proof.
  unfold F32.ltb, SFltb.
  destruct (SFcompare a b) as [[ | | ]|]; split; congruence.
Qed.

Lemma leb_cases (a b : float) :
  F32.leb a b = true <-> SFcompare a b = Some Lt \/ SFcompare a b = Some Eq.
Proof.
  unfold F32.leb, SFleb.
  destruct (SFcompare a b) as [[ | | ]|]; split; intros; auto;
    try discriminate; destruct H; discriminate.
Qed.

Lemma ltb_asym (a b : float) : F32.ltb a b = true -> F32.ltb b a = false.
Proof.
  rewrite ltb_Lt. intros E. apply SFcompare_antisym in E.
  unfold F32.ltb, SFltb. rewrite E. reflexivity.
Qed.

Lemma ltb_leb_trans (a b c : float) :
  F32.ltb a b = true -> F32.leb b c = true -> F32.ltb a c = true.
Proof.
  rewrite !ltb_Lt, leb_cases. intros Hab [Hbc|Hbc].
  - eapply SFcompare_trans_lt; eauto.
  - eapply SFcompare_trans_lt_eq; eauto.
Qed.

Lemma leb_ltb_trans (a b c : float) :
  F32.leb a b = true -> F32.ltb b c = true -> F32.ltb a c = true.
Proof.
  rewrite !ltb_Lt, leb_cases. intros [Hab|Hab] Hbc.
  - eapply SFcompare_trans_lt; eauto.
  - eapply SFcompare_trans_eq_lt; eauto.
Qed.

(** A value within [lo <= x <= hi] is neither above [hi] nor below [lo]. *)
Lemma leb_not_gtb (x hi : float) : F32.leb x hi = true -> F32.gtb x hi = false.
Proof.
  intros Hle. change (F32.ltb hi x = false).
  destruct (F32.ltb hi x) eqn:E; [|reflexivity].
  pose proof (ltb_leb_trans _ _ _ E Hle) as C.
  rewrite ltb_irrefl in C. discriminate.
Qed.

Lemma leb_not_ltb (lo x : float) : F32.leb lo x = true -> F32.ltb x lo = false.
Proof.
  intros Hle.
  destruct (F32.ltb x lo) eqn:E; [|reflexivity].
  pose proof (ltb_leb_trans _ _ _ E Hle) as C.
  rewrite ltb_irrefl in C. discriminate.
Qed.

End F32Facts.

(* ================================================================== *)
(** * AHRS: the circling state machine *)

Section CirclingState.
Context `{Tuning} `{Collaborators}.

Local Open Scope Z_scope.

(** C2. With the circling state enabled, a positive [CIRCLE_LIMIT] and
    [LOW_TURN_RATE <= HIGH_TURN_RATE], [update_circling_state] is the
    reference step function of section 4.1.  For a counter [c] in
    [0 .. CIRCLE_LIMIT] and the magnitude [t] of the filtered turn rate:
    the counter is incremented exactly when [c < CIRCLE_LIMIT] and
    [t > HIGH_TURN_RATE], decremented exactly when [c > 0] and
    [t < LOW_TURN_RATE], and stays in [0 .. CIRCLE_LIMIT]; a turn rate equal
    to a threshold neither increments nor decrements; the resulting state
    is [STRAIGHT_FLIGHT] exactly at 0, [CIRCLING] exactly at
    [CIRCLE_LIMIT] and [TRANSITION] in between, and it is the value
    returned. *)
Theorem update_circling_state_reference (st : AHRS_type) :
  DISABLE_CIRCLING_STATE = false ->
  0 < CIRCLE_LIMIT ->
  F32.leb LOW_TURN_RATE HIGH_TURN_RATE = true ->
  0 <= circling_counter st <= CIRCLE_LIMIT ->
  let c := circling_counter st in
  let t := F32.abs (get_output (turn_rate_averager st)) in
  let st' := fst (update_circling_state st) in
  let c' := circling_counter st' in
  c' = reference_counter_step c t
  /\ (c' = c + 1 <-> c < CIRCLE_LIMIT /\ F32.gtb t HIGH_TURN_RATE = true)
  /\ (c' = c - 1 <-> 0 < c /\ F32.ltb t LOW_TURN_RATE = true)
  /\ (t = HIGH_TURN_RATE -> c' <= c)
  /\ (t = LOW_TURN_RATE -> c <= c')
  /\ 0 <= c' <= CIRCLE_LIMIT
  /\ circling_state st' = reference_state c'
  /\ snd (update_circling_state st) = circling_state st'
  /\ (circling_state st' = STRAIGHT_FLIGHT <-> c' = 0)
  /\ (circling_state st' = CIRCLING <-> c' = CIRCLE_LIMIT)
  /\ (circling_state st' = TRANSITION <-> 0 < c' < CIRCLE_LIMIT).
Proof.
  intros Hen Hlim Hband Hc c t st' c'.
  assert (Hexcl : F32.gtb t HIGH_TURN_RATE = true ->
                  F32.ltb t LOW_TURN_RATE = true -> False).
  { intros Hhi Hlo. change (F32.ltb HIGH_TURN_RATE t = true) in Hhi.
    pose proof (F32Facts.ltb_leb_trans _ _ _ Hlo Hband) as Hlt.
    apply F32Facts.ltb_asym in Hlt. rewrite Hlt in Hhi. discriminate. }
  assert (Hgt_irrefl : t = HIGH_TURN_RATE -> F32.gtb t HIGH_TURN_RATE = false).
  { intros ->. apply F32Facts.gtb_irrefl. }
  assert (Hlt_irrefl : t = LOW_TURN_RATE -> F32.ltb t LOW_TURN_RATE = false).
  { intros ->. apply F32Facts.ltb_irrefl. }
  subst st' c'. unfold update_circling_state, reference_counter_step,
    reference_state.
  rewrite Hen. fold t. fold c.
  destruct (c <? CIRCLE_LIMIT) eqn:E1; [apply Z.ltb_lt in E1|apply Z.ltb_ge in E1];
    destruct (F32.gtb t HIGH_TURN_RATE) eqn:E2;
    destruct (F32.ltb t LOW_TURN_RATE) eqn:E3;
    try (exfalso; apply Hexcl; reflexivity);
    cbn [andb fst snd circling_counter circling_state set_circling_counter
           set_circling_state];
    fold c;
    repeat match goal with
      | |- context [(?a >? ?b)] => rewrite (Z.gtb_ltb a b)
      end;
    repeat match goal with
      | |- context [(?a <? ?b)] =>
          let E := fresh "E" in
          destruct (a <? b) eqn:E;
          [apply Z.ltb_lt in E|apply Z.ltb_ge in E]
      end;
    cbn [andb fst snd circling_counter circling_state set_circling_counter
           set_circling_state];
    fold c;
    repeat match goal with
      | |- context [(?a =? ?b)] =>
          let E := fresh "E" in
          destruct (a =? b) eqn:E;
          [apply Z.eqb_eq in E|apply Z.eqb_neq in E];
          cbn [andb fst snd circling_counter circling_state
                 set_circling_counter set_circling_state]
      end;
    try lia;
    repeat split; intros; try lia; try discriminate; try congruence;
    try (split; [lia | congruence]);
    try (match goal with
         | Ht : t = HIGH_TURN_RATE |- _ =>
             specialize (Hgt_irrefl Ht); discriminate
         | Ht : t = LOW_TURN_RATE |- _ =>
             specialize (Hlt_irrefl Ht); discriminate
         end).
Qed.

End CirclingState.

(* ================================================================== *)
(** * AHRS: what a tick of each fusion mode changes *)

(** One step through a sequence of [let]s: the outermost binding becomes a
    local definition; a binding of a state whose value is a conditional is
    first decided by case analysis, and one whose value is itself a
    sequence of [let]s is first flattened. *)
Ltac let_step state :=
  match goal with
  | |- context C [let y := ?a in @?b y] =>
      first
        [ lazymatch type of a with state => idtac end;
          lazymatch a with
          | (if ?c then _ else _) =>
              let E := fresh "Hc" in destruct c eqn:E; cbv iota
          | (match ?c with _ => _ end) =>
              let E := fresh "Hc" in destruct c eqn:E; cbv iota
          | (let x := ?a1 in @?b1 x) =>
              let x' := fresh x in
              pose (x' := a1);
              let g := context C [let y := b1 x' in b y] in
              change g; cbv beta
          end
        | let y' := fresh y in
          pose (y' := a);
          let g := context C [b y'] in
          change g; cbv beta ]
  end.

(** One step past a call that returns a pair: names for both parts. *)
Ltac pair_step :=
  match goal with
  | |- context [match ?e with (_, _) => _ end] =>
      let E := fresh "Hcall" in destruct e eqn:E; cbv beta iota
  end.

Section FusionModes.
Context `{Tuning} `{Collaborators}.

(** [handle_magnetic_calibration] leaves the circling state, the switch
    for the automatic calibration, the corrections and the gyro
    integrator alone. *)
Lemma handle_magnetic_calibration_frame (st : AHRS_type) (type : ascii) :
  circling_state (handle_magnetic_calibration st type) = circling_state st
  /\ automatic_magnetic_calibration (handle_magnetic_calibration st type)
     = automatic_magnetic_calibration st
  /\ gyro_integrator (handle_magnetic_calibration st type) = gyro_integrator st
  /\ nav_correction (handle_magnetic_calibration st type) = nav_correction st
  /\ heading_difference_AHRS_DGNSS (handle_magnetic_calibration st type)
     = heading_difference_AHRS_DGNSS st.
Proof.
  unfold handle_magnetic_calibration.
  destruct (set_calibration_if_changed _ _ _ _) as [[cal collectors] changed].
  destruct (data_valid _);
    [destruct (automatic_earth_field_parameters _ && _)|];
    destruct changed; repeat split; reflexivity.
Qed.

(** [update_circling_state] writes the counter and the state only. *)
Lemma update_circling_state_frame (st : AHRS_type) :
  let st' := fst (update_circling_state st) in
  compass_calibration st' = compass_calibration st
  /\ reports st' = reports st
  /\ automatic_magnetic_calibration st' = automatic_magnetic_calibration st
  /\ gyro_integrator st' = gyro_integrator st
  /\ nav_correction st' = nav_correction st
  /\ body2nav st' = body2nav st
  /\ euler st' = euler st
  /\ antenna_DOWN_correction st' = antenna_DOWN_correction st
  /\ antenna_RIGHT_correction st' = antenna_RIGHT_correction st.
Proof.
  unfold update_circling_state.
  destruct DISABLE_CIRCLING_STATE; [repeat split; reflexivity|].
  cbv zeta.
  repeat match goal with
    | |- context [if ?b then _ else _] =>
        lazymatch b with
        | context [if _ then _ else _] => fail
        | _ => destruct b
        end
    end; repeat split; reflexivity.
Qed.

(** The circling state does not depend on the correction vector. *)
Lemma update_circling_state_set_nav_correction (st : AHRS_type)
  (v : float3vector) :
  circling_state (fst (update_circling_state (set_nav_correction v st)))
  = circling_state (fst (update_circling_state st)).
Proof.
  unfold update_circling_state.
  destruct DISABLE_CIRCLING_STATE; [reflexivity|].
  cbv zeta.
  change (circling_counter (set_nav_correction v st)) with (circling_counter st).
  change (turn_rate_averager (set_nav_correction v st))
    with (turn_rate_averager st).
  destruct (circling_counter st <? CIRCLE_LIMIT)%Z;
    destruct (F32.gtb (F32.abs (get_output (turn_rate_averager st)))
                HIGH_TURN_RATE);
    destruct (F32.ltb (F32.abs (get_output (turn_rate_averager st)))
                LOW_TURN_RATE);
    repeat (cbn [circling_counter set_circling_counter set_nav_correction
                   set_circling_state fst];
            match goal with
            | |- context [if ?b then _ else _] =>
                lazymatch b with
                | context [if _ then _ else _] => fail
                | _ => destruct b
                end
            end); reflexivity.
Qed.

(** A tick of the D-GNSS mode, taken apart: the state [st1] that the
    attitude update and the feeding of the induction observer leave, and
    the calibration handling at the edge from [CIRCLING] to [TRANSITION]. *)
Lemma update_diff_GNSS_summary (st : AHRS_type)
  (gyro acc mag_sensor GNSS_acceleration : float3vector) (GNSS_heading : float) :
  let s0 := fst (update_circling_state st) in
  exists st1 : AHRS_type,
    update_diff_GNSS st gyro acc mag_sensor GNSS_acceleration GNSS_heading
    = (if automatic_magnetic_calibration st
          && circle_state_eqb (circling_state st) CIRCLING
          && circle_state_eqb (circling_state s0) TRANSITION
       then handle_magnetic_calibration st1 "s"%char
       else st1)
    /\ circling_state st1 = circling_state s0
    /\ compass_calibration st1 = compass_calibration st
    /\ reports st1 = reports st
    /\ heading_difference_AHRS_DGNSS st1
       = map_into_PI_range (heading_difference_raw st GNSS_heading)
    /\ gyro_integrator st1
       = (if circle_state_eqb (circling_state s0) STRAIGHT_FLIGHT
          then vadd (gyro_integrator st)
                 (vscale (reverse_map (body2nav st) (nav_correction st1))
                    P_GAIN)
          else gyro_integrator st).
Proof.
  intros s0.
  destruct (update_circling_state_frame st)
    as (Hcal & Hrep & Haut & Hgi & Hnc & Hb2n & Heul & Hadc & Harc).
  fold s0 in Hcal, Hrep, Haut, Hgi, Hnc, Hb2n, Heul, Hadc, Harc.
  cbv beta delta [update_diff_GNSS]. fold s0.
  destruct CROSS_GAIN_ONLY; repeat let_step AHRS_type;
    match goal with
    | |- exists _, (if _ then handle_magnetic_calibration ?s _ else _) = _ /\ _ =>
        exists s
    end;
    (split;
     [ rewrite <- Haut; reflexivity
     | split; [reflexivity|];
       split; [exact Hcal|];
       split; [exact Hrep|];
       split;
       [ unfold heading_difference_raw; rewrite <- Heul, <- Hadc, <- Harc;
         reflexivity
       | match goal with
         | Hs : circle_state_eqb (circling_state _) STRAIGHT_FLIGHT = ?b |- _ =>
             change (circle_state_eqb (circling_state s0) STRAIGHT_FLIGHT = b)
               in Hs;
             rewrite Hs
         end;
         rewrite <- ?Hgi, <- ?Hb2n; reflexivity ] ]).
Qed.

(** A tick of the magnetometer mode, taken apart in the same way. *)
Lemma update_compass_summary (st : AHRS_type)
  (gyro acc mag_sensor GNSS_acceleration : float3vector) :
  let s0 := fst (update_circling_state st) in
  exists st1 : AHRS_type,
    update_compass st gyro acc mag_sensor GNSS_acceleration
    = (if automatic_magnetic_calibration st
          && circle_state_eqb (circling_state st) CIRCLING
          && circle_state_eqb (circling_state s0) TRANSITION
       then handle_magnetic_calibration st1 "m"%char
       else st1)
    /\ circling_state st1 = circling_state s0
    /\ compass_calibration st1 = compass_calibration st
    /\ reports st1 = reports st
    /\ gyro_integrator st1
       = match circling_state s0 with
         | CIRCLING => gyro_integrator st
         | _ =>
             vadd (gyro_integrator st)
               (vscale (reverse_map (body2nav st) (nav_correction st1)) P_GAIN)
         end.
Proof.
  intros s0.
  cbv beta delta [update_compass].
  destruct CROSS_GAIN_ONLY; repeat let_step AHRS_type.
  all: match goal with
       | st2 := fst (update_circling_state ?s) |- _ =>
           destruct (update_circling_state_frame s)
             as (Hcal & Hrep & Haut & Hgi & Hnc & Hb2n & _);
           fold st2 in Hcal, Hrep, Haut, Hgi, Hnc, Hb2n
       end.
  all: assert (Hcs : circling_state st2 = circling_state s0)
         by (subst s0 st2 st1 st0;
             rewrite !update_circling_state_set_nav_correction;
             reflexivity).
  all: match goal with
       | |- exists _,
           (if _ then handle_magnetic_calibration ?t _ else _) = _ /\ _ =>
           exists t;
           change (automatic_magnetic_calibration t)
             with (automatic_magnetic_calibration st2);
           change (circling_state t) with (circling_state st2);
           change (compass_calibration t) with (compass_calibration st2);
           change (reports t) with (reports st2)
       end.
  all: rewrite <- Hcs.
  all: split; [rewrite Haut; reflexivity|].
  all: split; [reflexivity|].
  all: split; [exact Hcal|].
  all: split; [exact Hrep|].
  all: rewrite Hc.
  all: change (gyro_integrator st2 = gyro_integrator st) in Hgi;
       change (body2nav st2 = body2nav st) in Hb2n.
  all: first [exact Hgi | rewrite <- Hgi, <- Hb2n; reflexivity].
Qed.

(** The circling state after a tick is the one [update_circling_state]
    has set from the state before. *)
Lemma update_diff_GNSS_circling_state (st : AHRS_type)
  (gyro acc mag_sensor GNSS_acceleration : float3vector) (GNSS_heading : float) :
  circling_state
    (update_diff_GNSS st gyro acc mag_sensor GNSS_acceleration GNSS_heading)
  = circling_state (fst (update_circling_state st)).
Proof.
  destruct (update_diff_GNSS_summary st gyro acc mag_sensor GNSS_acceleration
              GNSS_heading) as (st1 & -> & Hcs & _).
  destruct (_ && _ && _); [|exact Hcs].
  destruct (handle_magnetic_calibration_frame st1 "s"%char) as (-> & _).
  exact Hcs.
Qed.

Lemma update_compass_circling_state (st : AHRS_type)
  (gyro acc mag_sensor GNSS_acceleration : float3vector) :
  circling_state (update_compass st gyro acc mag_sensor GNSS_acceleration)
  = circling_state (fst (update_circling_state st)).
Proof.
  destruct (update_compass_summary st gyro acc mag_sensor GNSS_acceleration)
    as (st1 & -> & Hcs & _).
  destruct (_ && _ && _); [|exact Hcs].
  destruct (handle_magnetic_calibration_frame st1 "m"%char) as (-> & _).
  exact Hcs.
Qed.

(** A tick of the acceleration-only mode: the calibration and the
    reports are not touched, and the integrator takes the proportional
    correction. *)
Lemma update_ACC_only_summary (st : AHRS_type)
  (gyro acc mag GNSS_acceleration : float3vector) :
  exists st' : AHRS_type,
    update_ACC_only st gyro acc mag GNSS_acceleration = st'
    /\ circling_state st' = circling_state (fst (update_circling_state st))
    /\ compass_calibration st' = compass_calibration st
    /\ reports st' = reports st
    /\ gyro_integrator st'
       = vadd (gyro_integrator st)
           (vscale (reverse_map (body2nav st) (nav_correction st')) P_GAIN).
Proof.
  cbv beta delta [update_ACC_only].
  repeat let_step AHRS_type.
  match goal with
  | st2 := fst (update_circling_state ?s) |- _ =>
      destruct (update_circling_state_frame s)
        as (Hcal & Hrep & Haut & Hgi & Hnc & Hb2n & _);
      fold st2 in Hcal, Hrep, Haut, Hgi, Hnc, Hb2n
  end.
  assert (Hcs : circling_state st2
                = circling_state (fst (update_circling_state st)))
    by (subst st2 st1 st0;
        rewrite !update_circling_state_set_nav_correction;
        reflexivity).
  change (gyro_integrator st2 = gyro_integrator st) in Hgi.
  change (body2nav st2 = body2nav st) in Hb2n.
  eexists. split; [reflexivity|].
  rewrite <- Hcs.
  split; [reflexivity|].
  split; [exact Hcal|].
  split; [exact Hrep|].
  rewrite <- Hgi, <- Hb2n; reflexivity.
Qed.

End FusionModes.

(* ================================================================== *)
(** * AHRS: gyro integrator and magnetometer calibration *)

Section IntegratorAndCalibration.
Context `{Tuning} `{Collaborators}.

(** C3 (as amended).  The gyro integrator after a tick, by fusion mode.
    With [P] the proportional correction of the tick, that is
    [reverse_map body2nav nav_correction * P_GAIN]: in the D-GNSS mode
    the integrator takes [P] when the circling state of the tick is
    [STRAIGHT_FLIGHT] and is unchanged otherwise; in the magnetometer mode
    it takes [P] in [STRAIGHT_FLIGHT] and [TRANSITION] and is unchanged in
    [CIRCLING]; in the acceleration-only mode it takes [P] on every tick. *)
Theorem gyro_integrator_advance_rule (st : AHRS_type)
  (gyro acc mag GNSS_acceleration : float3vector) (GNSS_heading : float) :
  (let st' := update_diff_GNSS st gyro acc mag GNSS_acceleration GNSS_heading in
   gyro_integrator st'
   = if circle_state_eqb (circling_state st') STRAIGHT_FLIGHT
     then vadd (gyro_integrator st)
            (vscale (reverse_map (body2nav st) (nav_correction st')) P_GAIN)
     else gyro_integrator st)
  /\ (let st' := update_compass st gyro acc mag GNSS_acceleration in
      gyro_integrator st'
      = match circling_state st' with
        | CIRCLING => gyro_integrator st
        | _ =>
            vadd (gyro_integrator st)
              (vscale (reverse_map (body2nav st) (nav_correction st')) P_GAIN)
        end)
  /\ (let st' := update_ACC_only st gyro acc mag GNSS_acceleration in
      gyro_integrator st'
      = vadd (gyro_integrator st)
          (vscale (reverse_map (body2nav st) (nav_correction st')) P_GAIN)).
Proof.
  split; [|split].
  - destruct (update_diff_GNSS_summary st gyro acc mag GNSS_acceleration
                GNSS_heading) as (st1 & -> & Hcs & _ & _ & _ & Hgi).
    cbv zeta.
    destruct (_ && _ && _).
    + destruct (handle_magnetic_calibration_frame st1 "s"%char)
        as (-> & _ & -> & -> & _).
      rewrite Hcs. exact Hgi.
    + rewrite Hcs. exact Hgi.
  - destruct (update_compass_summary st gyro acc mag GNSS_acceleration)
      as (st1 & -> & Hcs & _ & _ & Hgi).
    cbv zeta.
    destruct (_ && _ && _).
    + destruct (handle_magnetic_calibration_frame st1 "m"%char)
        as (-> & _ & -> & -> & _).
      rewrite Hcs. exact Hgi.
    + rewrite Hcs. exact Hgi.
  - destruct (update_ACC_only_summary st gyro acc mag GNSS_acceleration)
      as (st' & -> & _ & _ & _ & Hgi).
    exact Hgi.
Qed.

(** C4.  The stored magnetometer calibration and the sequence of
    calibration reports change only through
    [handle_magnetic_calibration], and a tick calls it exactly when the
    automatic calibration is enabled, the circling state before the tick
    was [CIRCLING] and the state after it is [TRANSITION].  This holds in
    the D-GNSS and in the magnetometer mode; the acceleration-only mode
    never calls it. *)
Theorem magnetic_calibration_only_at_edge (st : AHRS_type)
  (gyro acc mag GNSS_acceleration : float3vector) (GNSS_heading : float) :
  (let st' := update_diff_GNSS st gyro acc mag GNSS_acceleration GNSS_heading in
   let edge :=
     automatic_magnetic_calibration st
     && circle_state_eqb (circling_state st) CIRCLING
     && circle_state_eqb (circling_state st') TRANSITION in
   (exists st1 : AHRS_type,
       compass_calibration st1 = compass_calibration st
       /\ reports st1 = reports st
       /\ st' = if edge then handle_magnetic_calibration st1 "s"%char else st1)
   /\ (edge = false ->
       compass_calibration st' = compass_calibration st
       /\ reports st' = reports st))
  /\ (let st' := update_compass st gyro acc mag GNSS_acceleration in
      let edge :=
        automatic_magnetic_calibration st
        && circle_state_eqb (circling_state st) CIRCLING
        && circle_state_eqb (circling_state st') TRANSITION in
      (exists st1 : AHRS_type,
          compass_calibration st1 = compass_calibration st
          /\ reports st1 = reports st
          /\ st' = if edge then handle_magnetic_calibration st1 "m"%char
                   else st1)
      /\ (edge = false ->
          compass_calibration st' = compass_calibration st
          /\ reports st' = reports st))
  /\ (let st' := update_ACC_only st gyro acc mag GNSS_acceleration in
      compass_calibration st' = compass_calibration st
      /\ reports st' = reports st).
Proof.
  split; [|split].
  - pose proof (update_diff_GNSS_circling_state st gyro acc mag
                  GNSS_acceleration GNSS_heading) as Hst.
    destruct (update_diff_GNSS_summary st gyro acc mag GNSS_acceleration
                GNSS_heading) as (st1 & Heq & Hcs & Hcal & Hrep & _).
    cbv zeta. rewrite Hst. split.
    + exists st1. auto.
    + intros Hedge. rewrite Heq, Hedge. auto.
  - pose proof (update_compass_circling_state st gyro acc mag
                  GNSS_acceleration) as Hst.
    destruct (update_compass_summary st gyro acc mag GNSS_acceleration)
      as (st1 & Heq & Hcs & Hcal & Hrep & _).
    cbv zeta. rewrite Hst. split.
    + exists st1. auto.
    + intros Hedge. rewrite Heq, Hedge. auto.
  - destruct (update_ACC_only_summary st gyro acc mag GNSS_acceleration)
      as (st' & -> & _ & Hcal & Hrep & _).
    auto.
Qed.

End IntegratorAndCalibration.

(* ================================================================== *)
(** * AHRS: the fusion modes on the test bench *)

Module BenchAHRS.

Import Bench.
#[local] Existing Instance Bench.tuning.
#[local] Existing Instance Bench.collaborators.

Local Open Scope f32_scope.

(** Entry into a turn: the counter stands at 5, the filtered turn rate is
    0.3 rad/s, above [HIGH_TURN_RATE]; the counter moves to 6 and the
    state is [TRANSITION]. *)
Lemma update_circling_state_reference_witness :
  let st := level_state (F32.decimal 3 1) 5 TRANSITION in
  circling_counter (fst (update_circling_state st)) = 6%Z
  /\ circling_state (fst (update_circling_state st)) = TRANSITION.
Proof.
  cbv zeta.
  destruct (update_circling_state_reference
              (level_state (F32.decimal 3 1) 5 TRANSITION))
    as (Hstep & _ & _ & _ & _ & _ & Hstate & _).
  - reflexivity.
  - reflexivity.
  - vm_compute. reflexivity.
  - vm_compute. split; discriminate.
  - split.
    + rewrite Hstep. vm_compute. reflexivity.
    + rewrite Hstate, Hstep. vm_compute. reflexivity.
Defined.

(** Counterexample to C3 as stated: in the magnetometer mode a tick in
    [CIRCLING], with a proportional correction that is not zero, leaves the gyro integrator as it was, although the
    proportional correction of the tick is not zero. *)
Lemma update_compass_integrator_not_advanced :
  let st' := update_compass circling vzero acc_forward mag_north vzero in
  circling_state st' = CIRCLING
  /\ gyro_integrator st' = gyro_integrator circling
  /\ gyro_integrator st'
     <> vadd (gyro_integrator circling)
          (vscale (reverse_map (body2nav circling) (nav_correction st'))
             P_GAIN).
Proof.
  vm_compute. repeat split; discriminate.
Qed.

(** The same tick in the acceleration-only mode does advance the
    integrator. *)
Example update_ACC_only_integrator_advanced :
  gyro_integrator (update_ACC_only circling vzero acc_forward mag_north vzero)
  = mk3 F32.zero (F32.decimal 3 2) F32.zero.
Proof. vm_compute. reflexivity. Qed.

(** Leaving the turn: the tick moves the state to [TRANSITION] and the
    calibration is set. *)
Example calibration_set_at_edge :
  let st' := update_compass leaving_turn vzero gravity mag_north vzero in
  circling_state st' = TRANSITION
  /\ compass_calibration leaving_turn = None
  /\ isCalibrationDone (compass_calibration st') = true
  /\ List.length (reports st') = 1%nat.
Proof. vm_compute. repeat split. Qed.

End BenchAHRS.

(* ================================================================== *)
(** * Flight observer *)

Section FlightObserverTick.
Context `{ObserverCollaborators}.

Local Open Scope f32_scope.

(** C6.  Without a GNSS fix, [update_every_10ms] copies the pressure
    variometer and the airspeed compensation into the GNSS outputs, the
    very same values, and leaves the GNSS Kalman filter, the two
    horizontal Kalman filters and the wind decimator as they were. *)
Theorem update_every_10ms_without_fix (st : flight_observer_t)
  (gnss_velocity gnss_acceleration ahrs_acceleration heading_vector
     : float3vector)
  (GNSS_negative_altitude pressure_altitude TAS IAS : float)
  (circle_state : circle_state_t) (wind_average : float3vector) :
  let st' :=
    update_every_10ms st gnss_velocity gnss_acceleration ahrs_acceleration
      heading_vector GNSS_negative_altitude pressure_altitude TAS IAS
      circle_state wind_average false in
  vario_uncompensated_GNSS st' = vario_uncompensated_pressure st'
  /\ speed_compensation_GNSS st' = speed_compensation_IAS st'
  /\ vario_uncompensated_pressure st'
     = snd (KalmanVario_update2 (KalmanVario_pressure st) pressure_altitude
              (get3 ahrs_acceleration DOWN))
  /\ KalmanVario_GNSS st' = KalmanVario_GNSS st
  /\ Kalman_v_a_observer_N st' = Kalman_v_a_observer_N st
  /\ Kalman_v_a_observer_E st' = Kalman_v_a_observer_E st
  /\ windspeed_decimator_100Hz_10Hz st' = windspeed_decimator_100Hz_10Hz st.
Proof.
  cbv beta iota delta [update_every_10ms negb].
  repeat let_step flight_observer_t.
  repeat split; reflexivity.
Qed.

(** C7 (as amended).  With a GNSS fix, the specific energy is computed
    from the GNSS velocity less the average wind, north and east, that is
    from the measurements this tick hands to the two horizontal Kalman
    filters and not from the velocities these filters estimate; the sum
    with the squared vertical GNSS velocity times the tuning factor is
    multiplied by the constant [ONE_DIV_BY_GRAVITY_TIMES_2]. *)
Theorem specific_energy_with_fix (st : flight_observer_t)
  (gnss_velocity gnss_acceleration ahrs_acceleration heading_vector
     : float3vector)
  (GNSS_negative_altitude pressure_altitude TAS IAS : float)
  (circle_state : circle_state_t) (wind_average : float3vector) :
  let st' :=
    update_every_10ms st gnss_velocity gnss_acceleration ahrs_acceleration
      heading_vector GNSS_negative_altitude pressure_altitude TAS IAS
      circle_state wind_average true in
  let V_N := get3 gnss_velocity NORTH - get3 wind_average NORTH in
  let V_E := get3 gnss_velocity EAST - get3 wind_average EAST in
  specific_energy st'
  = (V_N * V_N + V_E * V_E
     + get3 gnss_velocity DOWN * get3 gnss_velocity DOWN
       * vertical_energy_tuning_factor st)
    * ONE_DIV_BY_GRAVITY_TIMES_2
  /\ Kalman_v_a_observer_N st'
     = Kalman_V_A_Aoff_update (Kalman_v_a_observer_N st) V_N
         (get3 ahrs_acceleration NORTH)
  /\ Kalman_v_a_observer_E st'
     = Kalman_V_A_Aoff_update (Kalman_v_a_observer_E st) V_E
         (get3 ahrs_acceleration EAST).
Proof.
  cbv beta iota delta [update_every_10ms negb].
  repeat let_step flight_observer_t.
  repeat split; reflexivity.
Qed.

End FlightObserverTick.

Module BenchObserver.

Import Bench.
#[local] Existing Instance Bench.observer_collaborators.

Local Open Scope f32_scope.

(** Counterexample to C7 as stated: the specific energy is not the one of
    the velocities the horizontal Kalman filters hold, neither with the
    division by [2g] nor with the constant of the code. *)
Lemma specific_energy_not_from_kalman_velocities :
  let V_N := Kalman_V_A_Aoff_get_x (Kalman_v_a_observer_N first_tick) VELOCITY in
  let V_E := Kalman_V_A_Aoff_get_x (Kalman_v_a_observer_E first_tick) VELOCITY in
  V_N = F32.of_Z 5
  /\ V_E = F32.zero
  /\ specific_energy first_tick = F32.of_Z 100 * ONE_DIV_BY_GRAVITY_TIMES_2
  /\ specific_energy first_tick
     <> reference_specific_energy V_N V_E (get3 north_10 DOWN)
          (vertical_energy_tuning_factor observer_at_rest)
  /\ specific_energy first_tick
     <> (V_N * V_N + V_E * V_E
         + get3 north_10 DOWN * get3 north_10 DOWN
           * vertical_energy_tuning_factor observer_at_rest)
        * ONE_DIV_BY_GRAVITY_TIMES_2.
Proof.
  vm_compute. repeat split; discriminate.
Qed.

(** Without a fix the same tick leaves the GNSS side to the pressure
    side. *)
Example without_fix_mirrors_pressure :
  let st' :=
    update_every_10ms observer_at_rest north_10 vzero gravity
      (mk3 one F32.zero F32.zero) F32.zero (F32.of_Z 100) (F32.of_Z 10)
      (F32.of_Z 10) STRAIGHT_FLIGHT vzero false in
  vario_uncompensated_GNSS st' = vario_uncompensated_pressure st'
  /\ specific_energy st' = F32.zero.
Proof. vm_compute. split; reflexivity. Qed.

End BenchObserver.

(* ================================================================== *)
(** * NMEA formatter: strings, digits and checksum *)

Section Strings.

Local Open Scope string_scope.

Lemma append_assoc (a b c : string) : (a ++ b) ++ c = a ++ (b ++ c).
Proof. induction a as [|x a IH]; simpl; [reflexivity|now rewrite IH]. Qed.

Lemma append_empty_r (a : string) : a ++ "" = a.
Proof. induction a as [|x a IH]; simpl; [reflexivity|now rewrite IH]. Qed.

Lemma all_chars_append (test : ascii -> bool) (a b : string) :
  all_chars test (a ++ b) = all_chars test a && all_chars test b.
Proof.
  induction a as [|x a IH]; simpl; [reflexivity|].
  rewrite IH. apply andb_assoc.
Qed.

Lemma all_chars_weaken (p q : ascii -> bool) (s : string) :
  (forall c, p c = true -> q c = true) ->
  all_chars p s = true -> all_chars q s = true.
Proof.
  intros Hpq. induction s as [|x s IH]; simpl; [reflexivity|].
  intros Hs. apply andb_true_iff in Hs. destruct Hs as [Hx Hs].
  rewrite (Hpq _ Hx), (IH Hs). reflexivity.
Qed.

(** A piece without a comma, followed by a comma, is the first field. *)
Lemma split_fields_first (a b : string) :
  all_chars (fun c => negb (Ascii.eqb c ",")) a = true ->
  split_fields (a ++ String "," b) = a :: split_fields b.
Proof.
  induction a as [|x a IH]; simpl; [reflexivity|].
  intros Hs. apply andb_true_iff in Hs. destruct Hs as [Hx Hs].
  apply negb_true_iff in Hx. rewrite Hx, (IH Hs). reflexivity.
Qed.

End Strings.

Section Digits.

Local Open Scope Z_scope.

Lemma Z_of_char_range (c : ascii) : 0 <= Z_of_char c < 256.
Proof.
  unfold Z_of_char. pose proof (N_ascii_bounded c). lia.
Qed.

Lemma digit_char (v : Z) :
  0 <= v < 10 -> is_digit (char_of_Z (v + Z_of_char "0")) = true
                 /\ Z_of_char (char_of_Z (v + Z_of_char "0")) - 48 = v.
Proof.
  intros Hv.
  assert (C : v = 0 \/ v = 1 \/ v = 2 \/ v = 3 \/ v = 4 \/ v = 5 \/ v = 6
              \/ v = 7 \/ v = 8 \/ v = 9) by lia.
  repeat (destruct C as [->|C]; [split; reflexivity|]).
  subst v. split; reflexivity.
Qed.

Lemma HEX_digit (v : Z) :
  0 <= v < 10 -> is_digit (char_at HEX v) = true
                 /\ Z_of_char (char_at HEX v) - 48 = v.
Proof.
  intros Hv.
  assert (C : v = 0 \/ v = 1 \/ v = 2 \/ v = 3 \/ v = 4 \/ v = 5 \/ v = 6
              \/ v = 7 \/ v = 8 \/ v = 9) by lia.
  repeat (destruct C as [->|C]; [split; reflexivity|]).
  subst v. split; reflexivity.
Qed.

(** [hex4] of a nibble is the uppercase hexadecimal digit of its value. *)
Lemma hex4_value (v : Z) : 0 <= v < 16 -> hex_value (hex4 v) = Some v.
Proof.
  intros Hv.
  assert (C : v = 0 \/ v = 1 \/ v = 2 \/ v = 3 \/ v = 4 \/ v = 5 \/ v = 6
              \/ v = 7 \/ v = 8 \/ v = 9 \/ v = 10 \/ v = 11 \/ v = 12
              \/ v = 13 \/ v = 14 \/ v = 15) by lia.
  repeat (destruct C as [->|C]; [reflexivity|]).
  subst v. reflexivity.
Qed.

(** Whatever the index, [HEX] yields no comma. *)
Lemma HEX_no_comma (v : Z) : Ascii.eqb (char_at HEX v) "," = false.
Proof.
  unfold char_at. destruct (v <? 0) eqn:E; [reflexivity|].
  apply Z.ltb_ge in E.
  destruct (Z.to_nat v) as [|[|[|[|[|[|[|[|[|[|[|[|[|[|[|[|k]]]]]]]]]]]]]]]];
    reflexivity.
Qed.

Lemma digits_value_append (a b : string) (acc : Z) :
  digits_value (a ++ b) acc = digits_value b (digits_value a acc).
Proof.
  revert acc. induction a as [|x a IH]; intros acc; simpl; [reflexivity|].
  apply IH.
Qed.

Lemma format_integer_rec_small (depth : nat) (value : Z) :
  0 <= value < 10 ->
  format_integer_rec (S depth) value
  = String (char_of_Z (value + Z_of_char "0")) EmptyString.
Proof.
  intros Hv. simpl.
  destruct (value <? 10) eqn:E; [reflexivity|].
  apply Z.ltb_ge in E. lia.
Qed.

(** The digits of [format_integer_rec]: with enough depth for the value,
    the characters are decimal digits and read back as the value. *)
Lemma format_integer_rec_digits (depth : nat) :
  forall value : Z,
    0 <= value < 10 ^ Z.of_nat depth -> (0 < depth)%nat ->
    all_chars is_digit (format_integer_rec depth value) = true
    /\ digits_value (format_integer_rec depth value) 0 = value.
Proof.
  induction depth as [|depth IH]; intros value Hv Hd; [lia|].
  destruct (Z_lt_dec value 10) as [Hs|Hl].
  - rewrite format_integer_rec_small by lia.
    destruct (digit_char value) as [D V]; [lia|].
    cbn [all_chars digits_value]. rewrite D, V. split; [reflexivity|lia].
  - assert (Hpos : (0 < depth)%nat).
    { destruct depth; [|lia]. simpl in Hv. lia. }
    assert (Hq : 0 <= value / 10 < 10 ^ Z.of_nat depth).
    { rewrite Nat2Z.inj_succ, Z.pow_succ_r in Hv by lia.
      split; [apply Z.div_pos; lia|].
      apply Z.div_lt_upper_bound; lia. }
    assert (Hr : 0 <= value mod 10 < 10) by (apply Z.mod_pos_bound; lia).
    destruct (IH (value / 10) Hq Hpos) as [Dq Vq].
    simpl. destruct (value <? 10) eqn:E; [apply Z.ltb_lt in E; lia|].
    destruct depth as [|depth']; [lia|].
    rewrite (format_integer_rec_small depth' (value mod 10)) by lia.
    destruct (digit_char (value mod 10)) as [D V]; [lia|].
    rewrite all_chars_append, digits_value_append, Dq, Vq.
    cbn [all_chars digits_value]. rewrite D, V. split; [reflexivity|].
    pose proof (Z.div_mod value 10). lia.
Qed.

(** The result of [format_integer_rec] does not depend on its depth, once
    the depth covers the digits of the value. *)
Lemma format_integer_rec_depth (depth : nat) :
  forall (value : Z) (more : nat),
    0 <= value < 10 ^ Z.of_nat depth -> (0 < depth)%nat ->
    format_integer_rec (depth + more) value = format_integer_rec depth value.
Proof.
  induction depth as [|depth IH]; intros value more Hv Hd; [lia|].
  destruct (Z_lt_dec value 10) as [Hs|Hl].
  - change (S depth + more)%nat with (S (depth + more)).
    rewrite !format_integer_rec_small by lia. reflexivity.
  - assert (Hpos : (0 < depth)%nat).
    { destruct depth; [|lia]. simpl in Hv. lia. }
    assert (Hq : 0 <= value / 10 < 10 ^ Z.of_nat depth).
    { rewrite Nat2Z.inj_succ, Z.pow_succ_r in Hv by lia.
      split; [apply Z.div_pos; lia|].
      apply Z.div_lt_upper_bound; lia. }
    assert (Hr : 0 <= value mod 10 < 10 ^ Z.of_nat depth).
    { pose proof (Z.mod_pos_bound value 10).
      assert (10 ^ 1 <= 10 ^ Z.of_nat depth)
        by (apply Z.pow_le_mono_r; lia).
      lia. }
    simpl. destruct (value <? 10) eqn:E; [apply Z.ltb_lt in E; lia|].
    rewrite !IH by assumption. reflexivity.
Qed.

Lemma wrap_uint32_range (z : Z) : 0 <= wrap_uint32 z < 10 ^ Z.of_nat 11.
Proof.
  unfold wrap_uint32. pose proof (Z.mod_pos_bound z (2 ^ 32)).
  change (10 ^ Z.of_nat 11) with 100000000000.
  change (2 ^ 32) with 4294967296 in *. lia.
Qed.

(** [format_integer] returns: any depth from eleven on gives its result,
    which is the decimal notation of the value as a [uint32_t]. *)
Lemma format_integer_depth (value : Z) (more : nat) :
  format_integer_rec (11 + more) (wrap_uint32 value) = format_integer value.
Proof.
  unfold format_integer.
  apply format_integer_rec_depth; [apply wrap_uint32_range|lia].
Qed.

Lemma format_integer_digits (value : Z) :
  all_chars is_digit (format_integer value) = true
  /\ digits_value (format_integer value) 0 = wrap_uint32 value.
Proof.
  unfold format_integer.
  apply format_integer_rec_digits; [apply wrap_uint32_range|lia].
Qed.

Lemma is_digit_no_comma (c : ascii) :
  is_digit c = true -> negb (Ascii.eqb c ",") = true.
Proof.
  unfold is_digit. intros Hd.
  destruct (Ascii.eqb_spec c ","); [subst c; discriminate Hd|reflexivity].
Qed.

Lemma is_digit_unsigned (c : ascii) :
  is_digit c = true -> is_digit c || Ascii.eqb c "." = true.
Proof. intros ->. reflexivity. Qed.

(** Neither of the two number formats writes a comma. *)
Lemma integer_to_ascii_2_decimals_no_comma (number : Z) :
  all_chars (fun c => negb (Ascii.eqb c ","))
    (integer_to_ascii_2_decimals number) = true.
Proof.
  unfold integer_to_ascii_2_decimals.
  rewrite !all_chars_append. simpl.
  rewrite !HEX_no_comma. simpl.
  rewrite (all_chars_weaken _ _ _ is_digit_no_comma
             (proj1 (format_integer_digits _))).
  destruct (number <? 0); reflexivity.
Qed.

Lemma integer_to_ascii_1_decimal_no_comma (number : Z) :
  all_chars (fun c => negb (Ascii.eqb c ","))
    (integer_to_ascii_1_decimal number) = true.
Proof.
  unfold integer_to_ascii_1_decimal.
  rewrite !all_chars_append. simpl.
  rewrite !HEX_no_comma. simpl.
  rewrite (all_chars_weaken _ _ _ is_digit_no_comma
             (proj1 (format_integer_digits _))).
  destruct (number <? 0); reflexivity.
Qed.

(** A number that is not negative is written without a sign: the digits
    of the hundreds, a point and two digits. *)
Lemma integer_to_ascii_2_decimals_unsigned (number : Z) :
  0 <= number ->
  integer_to_ascii_2_decimals number
  = (format_integer (number / 100) ++ "."
     ++ String (char_at HEX (number / 10 mod 10))
          (String (char_at HEX (number mod 10)) EmptyString))%string
  /\ is_unsigned_decimal (integer_to_ascii_2_decimals number) = true.
Proof.
  intros Hn. unfold integer_to_ascii_2_decimals, is_unsigned_decimal.
  destruct (number <? 0) eqn:E; [apply Z.ltb_lt in E; lia|].
  rewrite !Z.quot_div_nonneg, !Z.rem_mod_nonneg
    by (try apply Z.div_pos; lia).
  split; [reflexivity|].
  simpl. rewrite !all_chars_append. simpl.
  destruct (HEX_digit (number / 10 mod 10)) as [D1 _];
    [apply Z.mod_pos_bound; lia|].
  destruct (HEX_digit (number mod 10)) as [D0 _];
    [apply Z.mod_pos_bound; lia|].
  rewrite D1, D0.
  rewrite (all_chars_weaken _ _ _ is_digit_unsigned
             (proj1 (format_integer_digits _))).
  reflexivity.
Qed.

(** The same for one decimal: the digits of the tens, a point and one
    digit. *)
Lemma integer_to_ascii_1_decimal_unsigned (number : Z) :
  0 <= number ->
  integer_to_ascii_1_decimal number
  = (format_integer (number / 10) ++ "."
     ++ String (char_at HEX (number mod 10)) EmptyString)%string
  /\ is_unsigned_decimal (integer_to_ascii_1_decimal number) = true.
Proof.
  intros Hn. unfold integer_to_ascii_1_decimal, is_unsigned_decimal.
  destruct (number <? 0) eqn:E; [apply Z.ltb_lt in E; lia|].
  rewrite !Z.quot_div_nonneg, !Z.rem_mod_nonneg
    by (try apply Z.div_pos; lia).
  split; [reflexivity|].
  simpl. rewrite !all_chars_append. simpl.
  destruct (HEX_digit (number mod 10)) as [D0 _];
    [apply Z.mod_pos_bound; lia|].
  rewrite D0.
  rewrite (all_chars_weaken _ _ _ is_digit_unsigned
             (proj1 (format_integer_digits _))).
  reflexivity.
Qed.

End Digits.

(* ================================================================== *)
(** * NMEA formatter: checksum and tail *)

Section Checksum.

Local Open Scope Z_scope.
Local Open Scope string_scope.

Lemma lxor_byte (a : Z) (c : ascii) :
  0 <= a < 256 ->
  wrap_uint8 (Z.lxor a (Z_of_char c)) = Z.lxor a (Z_of_char c)
  /\ 0 <= Z.lxor a (Z_of_char c) < 256.
Proof.
  intros Ha. pose proof (Z_of_char_range c) as Hc.
  assert (Hx : 0 <= Z.lxor a (Z_of_char c)) by (apply Z.lxor_nonneg; lia).
  assert (Hlt : Z.lxor a (Z_of_char c) < 2 ^ 8).
  { destruct (Z.eq_dec (Z.lxor a (Z_of_char c)) 0) as [->|Hnz]; [lia|].
    apply Z.log2_lt_pow2; [lia|].
    pose proof (Z.log2_lxor a (Z_of_char c) ltac:(lia) ltac:(lia)) as Hl.
    assert (Z.log2 a < 8).
    { destruct (Z.eq_dec a 0) as [->|]; [simpl; lia|].
      apply Z.log2_lt_pow2; lia. }
    assert (Z.log2 (Z_of_char c) < 8).
    { destruct (Z.eq_dec (Z_of_char c) 0) as [->|]; [simpl; lia|].
      apply Z.log2_lt_pow2; lia. }
    lia. }
  split; [|lia].
  unfold wrap_uint8. change 255 with (Z.ones 8).
  rewrite Z.land_ones by lia. apply Z.mod_small. lia.
Qed.

Lemma xor_bytes_range (body : string) :
  forall acc : Z, 0 <= acc < 256 -> 0 <= xor_bytes body acc < 256.
Proof.
  induction body as [|c body IH]; intros acc Ha; simpl; [exact Ha|].
  apply IH. apply lxor_byte. exact Ha.
Qed.

(** The loop passes over the body, folds its bytes into the checksum and
    stops in front of what follows. *)
Lemma checksum_loop_body (body rest : string) :
  all_chars body_char body = true -> stops rest ->
  forall acc : Z, 0 <= acc < 256 ->
    checksum_loop (body ++ rest) acc = (body, xor_bytes body acc, rest).
Proof.
  intros Hb Hrest. induction body as [|c body IH]; intros acc Ha.
  - simpl. destruct rest as [|c rest]; [reflexivity|].
    simpl in Hrest. simpl. rewrite Hrest. reflexivity.
  - simpl in Hb. apply andb_true_iff in Hb. destruct Hb as [Hc Hb].
    unfold body_char in Hc. apply andb_true_iff in Hc.
    destruct Hc as [Hc1 Hc2].
    apply negb_true_iff in Hc1. apply negb_true_iff in Hc2.
    simpl. rewrite Hc1, Hc2. simpl.
    destruct (lxor_byte acc c Ha) as [-> Hr].
    rewrite (IH Hb _ Hr). reflexivity.
Qed.

(** The two nibbles of a byte. *)
Lemma nibbles (checksum : Z) :
  0 <= checksum < 256 ->
  0 <= Z.shiftr checksum 4 < 16
  /\ 0 <= Z.land checksum 15 < 16
  /\ 16 * Z.shiftr checksum 4 + Z.land checksum 15 = checksum.
Proof.
  intros Hc. rewrite Z.shiftr_div_pow2 by lia.
  change 15 with (Z.ones 4). rewrite Z.land_ones by lia.
  change (2 ^ 4) with 16.
  pose proof (Z.div_mod checksum 16 ltac:(lia)).
  pose proof (Z.mod_pos_bound checksum 16 ltac:(lia)).
  assert (0 <= checksum / 16) by (apply Z.div_pos; lia).
  assert (checksum / 16 < 16) by (apply Z.div_lt_upper_bound; lia).
  lia.
Qed.

Lemma hex4_not_NUL (v : Z) : 0 <= v < 16 -> Ascii.eqb (hex4 v) NUL = false.
Proof.
  intros Hv.
  assert (C : v = 0 \/ v = 1 \/ v = 2 \/ v = 3 \/ v = 4 \/ v = 5 \/ v = 6
              \/ v = 7 \/ v = 8 \/ v = 9 \/ v = 10 \/ v = 11 \/ v = 12
              \/ v = 13 \/ v = 14 \/ v = 15) by lia.
  repeat (destruct C as [->|C]; [reflexivity|]).
  subst v. reflexivity.
Qed.

(** C8 (as amended).  For a sentence that consists of a dollar sign and a
    body without star and NUL, [NMEA_append_tail] appends a star, the
    8-bit XOR of the bytes of the body as two uppercase hexadecimal
    digits, high nibble first, and CR LF.  The sentence up to and
    including the two digits passes [NMEA_checksum]; with CR LF attached
    it does not, since [NMEA_checksum] requires the line to end after the
    second digit. *)
Theorem NMEA_append_tail_checksum (body : string) :
  all_chars body_char body = true ->
  let checksum := xor_bytes body 0 in
  let hi := hex4 (Z.shiftr checksum 4) in
  let lo := hex4 (Z.land checksum 15) in
  let sentence :=
    String "$" body ++ String "*" (String hi (String lo EmptyString)) in
  let tail := String CR (String LF EmptyString) in
  0 <= checksum < 256
  /\ (exists h l : Z,
         hex_value hi = Some h /\ hex_value lo = Some l
         /\ 16 * h + l = checksum)
  /\ NMEA_append_tail (String "$" body) = Some (sentence ++ tail)
  /\ NMEA_checksum sentence = true
  /\ NMEA_checksum (sentence ++ tail) = false.
Proof.
  intros Hb checksum hi lo sentence tail.
  assert (Hc : 0 <= checksum < 256) by (apply xor_bytes_range; lia).
  destruct (nibbles checksum Hc) as (Hhi & Hlo & Hsum).
  assert (Hloop : forall rest, stops rest ->
            checksum_loop (body ++ rest) 0 = (body, checksum, rest)).
  { intros rest Hr. apply checksum_loop_body; [assumption..|lia]. }
  split; [exact Hc|]. split.
  { exists (Z.shiftr checksum 4), (Z.land checksum 15).
    subst hi lo. rewrite !hex4_value by assumption. auto. }
  split.
  { unfold NMEA_append_tail. cbn [char_at next negb].
    change (negb (Ascii.eqb (char_at (String "$" body) 0) "$")) with false.
    cbv iota.
    rewrite <- (append_empty_r body) at 1.
    rewrite (Hloop EmptyString I).
    subst sentence tail. cbn [append]. rewrite append_assoc. reflexivity. }
  split.
  { unfold NMEA_checksum.
    change (negb (Ascii.eqb (char_at sentence 0) "$")) with false.
    cbv iota. subst sentence. cbn [append next].
    rewrite Hloop by reflexivity.
    fold hi lo.
    change (char_at (String "*" (String hi (String lo "")))%string 0)
      with "*"%char.
    change (char_at (String "*" (String hi (String lo "")))%string 1) with hi.
    change (char_at (String "*" (String hi (String lo "")))%string 2) with lo.
    change (char_at (String "*" (String hi (String lo "")))%string 3) with NUL.
    rewrite !Ascii.eqb_refl. reflexivity. }
  { unfold NMEA_checksum.
    change (negb (Ascii.eqb (char_at (sentence ++ tail) 0) "$")) with false.
    cbv iota. subst sentence tail. cbn [append next].
    rewrite append_assoc. rewrite Hloop by reflexivity.
    cbn [append].
    change (char_at
              (String "*" (String hi (String lo (String CR (String LF "")))))
              3) with CR.
    rewrite (andb_comm _ (Ascii.eqb CR NUL)). reflexivity. }
Qed.

End Checksum.

(* ================================================================== *)
(** * NMEA formatter: the fields of the sentences *)

Section Fields.

Local Open Scope Z_scope.
Local Open Scope string_scope.


End Fields.

(* ================================================================== *)
(** * Properties of single-precision rounding

    What the proofs below need of [SFmul], [SFadd] and [SFsub]: a result
    is never larger in magnitude than a value of the format that bounds
    the exact result.  Magnitudes [m * 2^e] are compared as integers,
    scaled by [2^200]; no exponent here is below -200. *)

Module F32Round.

Local Open Scope Z_scope.

Import F32.

Abbreviation fexp := (SpecFloat.fexp F32.prec F32.emax).
Abbreviation digits m := (Z.pos (digits2_pos m)).

Lemma fexp_spec (e : Z) : fexp e = Z.max (e - 24) (-149).
Proof. reflexivity. Qed.

Lemma fexp_mono (a b : Z) : a <= b -> fexp a <= fexp b.
Proof. rewrite !fexp_spec. lia. Qed.

Lemma digits_bounds (m : positive) :
  2 ^ (digits m - 1) <= Z.pos m < 2 ^ digits m.
Proof.
  induction m as [m IH|m IH|]; cbn [digits2_pos].
  - rewrite Pos2Z.inj_succ.
    replace (Z.succ (Z.pos (digits2_pos m)) - 1)
      with (Z.succ (Z.pos (digits2_pos m) - 1)) by lia.
    rewrite !Z.pow_succ_r by lia. lia.
  - rewrite Pos2Z.inj_succ.
    replace (Z.succ (Z.pos (digits2_pos m)) - 1)
      with (Z.succ (Z.pos (digits2_pos m) - 1)) by lia.
    rewrite !Z.pow_succ_r by lia. lia.
  - cbn. lia.
Qed.

Lemma scaled_pos (m : positive) (e : Z) : -200 <= e -> 0 < scaled (Z.pos m) e.
Proof.
  intros He. unfold scaled.
  apply Z.mul_pos_pos; [lia|]. apply Z.pow_pos_nonneg; lia.
Qed.

(** A magnitude with [d] digits at exponent [e] lies between [2^(d+e-1)]
    and [2^(d+e)]. *)
Lemma scaled_digits (m : positive) (e : Z) :
  -200 <= e ->
  2 ^ (digits m + e + 199) <= scaled (Z.pos m) e < 2 ^ (digits m + e + 200).
Proof.
  intros He. unfold scaled. pose proof (digits_bounds m) as [Hlo Hhi].
  assert (Hp : 0 < 2 ^ (e + 200)) by (apply Z.pow_pos_nonneg; lia).
  replace (digits m + e + 199) with ((digits m - 1) + (e + 200)) by lia.
  replace (digits m + e + 200) with (digits m + (e + 200)) by lia.
  rewrite (Z.pow_add_r 2 (digits m - 1) (e + 200)),
    (Z.pow_add_r 2 (digits m) (e + 200)) by lia.
  split; nia.
Qed.

(** A magnitude below a value of the format has its exponent of the
    format at most at that of the value. *)
Lemma fexp_le_bound (m K : positive) (e g : Z) :
  -200 <= e -> -200 <= g ->
  canonical_mantissa F32.prec F32.emax K g = true ->
  scaled (Z.pos m) e <= scaled (Z.pos K) g ->
  fexp (digits m + e) <= g.
Proof.
  intros He Hg Hcan Hle.
  unfold canonical_mantissa in Hcan. apply Z.eqb_eq in Hcan.
  rewrite <- Hcan. apply fexp_mono.
  pose proof (scaled_digits m e He) as [Hlo _].
  pose proof (scaled_digits K g Hg) as [_ Hhi].
  assert (Hlt : 2 ^ (digits m + e + 199) < 2 ^ (digits K + g + 200)) by lia.
  apply Z.pow_lt_mono_r_iff in Hlt; lia.
Qed.

(** ** Shifting right *)

Lemma shr_1_spec (m : Z) (r s : bool) :
  0 <= m ->
  shr_m (shr_1 (Build_shr_record m r s)) = m / 2
  /\ shr_r (shr_1 (Build_shr_record m r s)) = Z.odd m
  /\ shr_s (shr_1 (Build_shr_record m r s)) = r || s.
Proof.
  intros Hm. rewrite <- Z.div2_div.
  destruct m as [|[p|p|]|]; try lia; cbn; auto.
Qed.

Lemma shr_1_shifted (m0 k : Z) (rec : shr_record) :
  0 <= m0 -> 0 <= k -> shifted m0 k rec -> shifted m0 (k + 1) (shr_1 rec).
Proof.
  intros Hm Hk [Hq Hz]. destruct rec as [m r s]. cbn in Hq, Hz.
  assert (Hp : 0 < 2 ^ k) by (apply Z.pow_pos_nonneg; lia).
  assert (Hm' : 0 <= m) by (subst m; apply Z.div_pos; lia).
  destruct (shr_1_spec m r s Hm') as (Em & Er & Es).
  split.
  - rewrite Em, Hq, Z.pow_add_r, Z.div_div by lia. reflexivity.
  - intros Hmod. rewrite Er, Es.
    rewrite Z.pow_add_r, Z.rem_mul_r in Hmod by lia.
    change (2 ^ 1) with 2 in Hmod.
    pose proof (Z.mod_pos_bound m0 (2 ^ k) Hp).
    pose proof (Z.mod_pos_bound (m0 / 2 ^ k) 2 ltac:(lia)).
    assert (Hz0 : m0 mod 2 ^ k = 0) by nia.
    assert (Hz1 : (m0 / 2 ^ k) mod 2 = 0) by nia.
    destruct (Hz Hz0) as [-> ->].
    rewrite <- Hq in Hz1. rewrite Zmod_odd in Hz1.
    destruct (Z.odd m); [discriminate|auto].
Qed.

Lemma iter_pos_shifted (m0 : Z) (p : positive) :
  0 <= m0 ->
  forall (k : Z) (rec : shr_record),
    0 <= k -> shifted m0 k rec ->
    shifted m0 (k + Z.pos p) (iter_pos shr_1 p rec).
Proof.
  intros Hm. induction p as [p IH|p IH|]; intros k rec Hk Hs; cbn [iter_pos].
  - replace (k + Z.pos p~1) with (k + 1 + Z.pos p + Z.pos p) by lia.
    apply IH; [lia|]. apply IH; [lia|]. apply shr_1_shifted; assumption.
  - replace (k + Z.pos p~0) with (k + Z.pos p + Z.pos p) by lia.
    apply IH; [lia|]. apply IH; assumption.
  - apply shr_1_shifted; assumption.
Qed.

(** [shr_fexp] on an exact integer: either nothing is shifted, or the
    exponent becomes that of the format and the mantissa the quotient. *)
Lemma shr_fexp_spec (m e : Z) :
  0 <= m ->
  let n := fexp (Zdigits2 m + e) - e in
  (n <= 0 /\ shr_fexp F32.prec F32.emax m e loc_Exact
             = (Build_shr_record m false false, e))
  \/ (0 < n /\ exists rec : shr_record,
         shr_fexp F32.prec F32.emax m e loc_Exact = (rec, e + n)
         /\ shifted m n rec).
Proof.
  intros Hm n. unfold shr_fexp, shr. fold n.
  destruct n as [|p|p] eqn:En.
  - left. split; [lia|reflexivity].
  - right. split; [lia|]. eexists. split; [reflexivity|].
    change (Z.pos p) with (0 + Z.pos p).
    apply iter_pos_shifted; [assumption|lia|].
    split; cbn; [rewrite Z.div_1_r; reflexivity|auto].
  - left. split; [lia|reflexivity].
Qed.

Lemma round_nearest_even_spec (rec : shr_record) :
  let m := round_nearest_even (shr_m rec) (loc_of_shr_record rec) in
  shr_m rec <= m <= shr_m rec + 1
  /\ (shr_r rec = false /\ shr_s rec = false -> m = shr_m rec).
Proof.
  destruct rec as [m [|] [|]]; cbn; try destruct (Z.even m);
    split; try lia; intros [? ?]; congruence.
Qed.

(** ** Rounding a magnitude that a value of the format bounds *)

Lemma bounded_exponent (K : positive) (g : Z) :
  bounded F32.prec F32.emax K g = true ->
  canonical_mantissa F32.prec F32.emax K g = true /\ -149 <= g <= 104.
Proof.
  unfold bounded. intros Hb. apply andb_true_iff in Hb.
  destruct Hb as [Hcan Hle]. split; [exact Hcan|].
  apply Z.leb_le in Hle. unfold canonical_mantissa in Hcan.
  apply Z.eqb_eq in Hcan. rewrite fexp_spec in Hcan.
  change (F32.emax - F32.prec) with 104 in Hle. lia.
Qed.

(** The second half of [binary_round_aux]: the renormalisation of the
    rounded mantissa. *)
Lemma renormalise_upper (s : bool) (m2 e' : Z) (K : positive) (g : Z) :
  bounded F32.prec F32.emax K g = true ->
  -200 <= e' -> 0 <= m2 -> e' <= g ->
  scaled m2 e' <= scaled (Z.pos K) g ->
  bounded_by K g s
    (let '(mrs'', e'') := shr_fexp F32.prec F32.emax m2 e' loc_Exact in
     match shr_m mrs'' with
     | Z0 => S754_zero s
     | Zpos m =>
         if e'' <=? F32.emax - F32.prec
         then S754_finite s m e'' else S754_infinity s
     | _ => S754_nan
     end).
Proof.
  intros Hb He Hm Heg Hle.
  destruct (bounded_exponent K g Hb) as [Hcan Hg].
  destruct (shr_fexp_spec m2 e' Hm) as [[Hn ->]|[Hn (rec & -> & Hq & _)]].
  - cbn [shr_m]. destruct m2 as [|p|p]; [left; reflexivity| |lia].
    replace (e' <=? F32.emax - F32.prec) with true
      by (symmetry; apply Z.leb_le; change (F32.emax - F32.prec) with 104;
          lia).
    right. exists p, e'. repeat split; auto.
  - set (n := fexp (Zdigits2 m2 + e') - e') in *.
    assert (Hp : 0 < 2 ^ n) by (apply Z.pow_pos_nonneg; lia).
    assert (Hm3 : 0 <= shr_m rec) by (rewrite Hq; apply Z.div_pos; lia).
    destruct (shr_m rec) as [|p|p] eqn:Em3; [left; reflexivity| |lia].
    destruct m2 as [|p2|p2];
      [rewrite Z.div_0_l in Hq by lia; discriminate| |lia].
    assert (Heg' : e' + n <= g).
    { subst n. replace (e' + (fexp (Zdigits2 (Z.pos p2) + e') - e'))
        with (fexp (digits p2 + e')) by (cbn [Zdigits2]; lia).
      apply (fexp_le_bound p2 K e' g); assumption || lia. }
    replace (e' + n <=? F32.emax - F32.prec) with true
      by (symmetry; apply Z.leb_le; change (F32.emax - F32.prec) with 104;
          lia).
    right. exists p, (e' + n). split; [reflexivity|]. split; [lia|].
    eapply Z.le_trans; [|exact Hle]. unfold scaled.
    replace (e' + n + 200) with (n + (e' + 200)) by lia.
    rewrite Z.pow_add_r by lia.
    assert (0 < 2 ^ (e' + 200)) by (apply Z.pow_pos_nonneg; lia).
    pose proof (Z.mul_div_le (Z.pos p2) (2 ^ n) Hp) as Hd.
    rewrite <- Hq in Hd. nia.
Qed.

(** [binary_round_aux] on an exact magnitude [M * 2^E] whose exponent is
    not above that of the format: the result is bounded by every value of
    the format that bounds the magnitude. *)
Lemma binary_round_aux_upper (s : bool) (M K : positive) (E g : Z) :
  bounded F32.prec F32.emax K g = true ->
  -200 <= E -> E <= fexp (digits M + E) ->
  scaled (Z.pos M) E <= scaled (Z.pos K) g ->
  bounded_by K g s
    (binary_round_aux F32.prec F32.emax s (Z.pos M) E loc_Exact).
Proof.
  intros Hb HE Hal Hle.
  destruct (bounded_exponent K g Hb) as [Hcan Hg].
  pose proof (fexp_le_bound M K E g HE ltac:(lia) Hcan Hle) as He1.
  unfold binary_round_aux.
  destruct (shr_fexp_spec (Z.pos M) E ltac:(lia))
    as [[Hn ->]|[Hn (rec & -> & Hq & Hz)]]; cbn [Zdigits2] in Hn.
  - cbn [shr_m loc_of_shr_record round_nearest_even].
    apply renormalise_upper; try assumption; lia.
  - set (n := fexp (Zdigits2 (Z.pos M) + E) - E) in *.
    cbn [Zdigits2] in n.
    destruct (round_nearest_even_spec rec) as [Hr Hex].
    set (m2 := round_nearest_even (shr_m rec) (loc_of_shr_record rec)) in *.
    assert (Hp : 0 < 2 ^ n) by (apply Z.pow_pos_nonneg; lia).
    assert (Hm1 : 0 <= shr_m rec) by (rewrite Hq; apply Z.div_pos; lia).
    assert (Hen : E + n = fexp (digits M + E)) by (subst n; lia).
    apply renormalise_upper; try assumption; try lia.
    unfold scaled in *.
    assert (HP : 0 < 2 ^ (E + 200)) by (apply Z.pow_pos_nonneg; lia).
    assert (HG : 0 < 2 ^ (g - (E + n))) by (apply Z.pow_pos_nonneg; lia).
    assert (Hsplit1 : 2 ^ (E + n + 200) = 2 ^ n * 2 ^ (E + 200)).
    { rewrite <- Z.pow_add_r by lia. f_equal. lia. }
    assert (Hsplit2 : 2 ^ (g + 200)
                      = 2 ^ (g - (E + n)) * (2 ^ n * 2 ^ (E + 200))).
    { rewrite <- !Z.pow_add_r by lia. f_equal. lia. }
    rewrite Hsplit1. rewrite Hsplit2 in Hle |- *.
    set (P := 2 ^ (E + 200)) in *.
    set (G := 2 ^ (g - (E + n))) in *.
    assert (HM : Z.pos M <= Z.pos K * G * 2 ^ n) by nia.
    pose proof (Z.div_mod (Z.pos M) (2 ^ n) ltac:(lia)) as Hdm.
    pose proof (Z.mod_pos_bound (Z.pos M) (2 ^ n) Hp) as Hmod.
    rewrite <- Hq in Hdm.
    assert (Hm2 : m2 <= Z.pos K * G).
    { destruct (Z.eq_dec (Z.pos M mod 2 ^ n) 0) as [Hz0|Hnz].
      - rewrite (Hex (Hz Hz0)). nia.
      - assert (shr_m rec < Z.pos K * G) by nia. lia. }
    nia.
Qed.

Lemma digits_mono (a b : positive) :
  Z.pos a <= Z.pos b -> digits a <= digits b.
Proof.
  intros Hab. pose proof (digits_bounds a) as [Ha _].
  pose proof (digits_bounds b) as [_ Hb].
  assert (Hlt : 2 ^ (digits a - 1) < 2 ^ digits b) by lia.
  apply Z.pow_lt_mono_r_iff in Hlt; lia.
Qed.

(** ** Product *)

(** The product of a finite value and a normal one, when a value of the
    format bounds the exact product. *)
Lemma mul_upper (sx sy : bool) (mx my K : positive) (ex ey g : Z) :
  bounded F32.prec F32.emax K g = true ->
  digits my = 24 -> -200 <= ex + ey ->
  scaled (Z.pos (mx * my)) (ex + ey) <= scaled (Z.pos K) g ->
  bounded_by K g (xorb sx sy)
    (F32.mul (S754_finite sx mx ex) (S754_finite sy my ey)).
Proof.
  intros Hb Hd HE Hle. unfold F32.mul, SFmul.
  apply binary_round_aux_upper; try assumption.
  assert (digits my <= digits (mx * my)).
  { apply digits_mono. rewrite Pos2Z.inj_mul. nia. }
  rewrite fexp_spec. lia.
Qed.

(** ** Integer part *)

Lemma trunc_upper (K : positive) (g : Z) (s : bool) (x : float) (N : Z) :
  bounded_by K g s x -> 0 <= N ->
  scaled (Z.pos K) g < scaled (N + 1) 0 ->
  - N <= F32.trunc x <= N.
Proof.
  intros [->|(m & e & -> & He & Hle)] HN Hlt; [cbn; lia|].
  assert (Hmag : match e with
                 | Z.neg p => Z.shiftr (Z.pos m) (Z.pos p)
                 | _ => Z.shiftl (Z.pos m) e
                 end <= N
                 /\ 0 <= match e with
                         | Z.neg p => Z.shiftr (Z.pos m) (Z.pos p)
                         | _ => Z.shiftl (Z.pos m) e
                         end).
  { unfold scaled in *. change (0 + 200) with 200 in Hlt.
    assert (H200 : 0 < 2 ^ 200) by (apply Z.pow_pos_nonneg; lia).
    destruct e as [|p|p].
    - rewrite Z.shiftl_0_r. change (0 + 200) with 200 in Hle. split; nia.
    - rewrite Z.shiftl_mul_pow2 by lia.
      rewrite Z.pow_add_r in Hle by lia.
      assert (0 < 2 ^ Z.pos p) by (apply Z.pow_pos_nonneg; lia).
      split; nia.
    - rewrite Z.shiftr_div_pow2 by lia.
      assert (Hp : 0 < 2 ^ Z.pos p) by (apply Z.pow_pos_nonneg; lia).
      assert (Hs : 2 ^ 200 = 2 ^ Z.pos p * 2 ^ (Z.neg p + 200)).
      { rewrite <- Z.pow_add_r by lia. f_equal. lia. }
      assert (0 < 2 ^ (Z.neg p + 200)) by (apply Z.pow_pos_nonneg; lia).
      pose proof (Z.mul_div_le (Z.pos m) (2 ^ Z.pos p) Hp).
      assert (0 <= Z.pos m / 2 ^ Z.pos p) by (apply Z.div_pos; lia).
      rewrite Hs in Hlt. split; nia. }
  cbn [F32.trunc]. destruct s; lia.
Qed.

(** ** Sum and difference *)

Lemma iter_xO (m d : positive) :
  Z.pos (Pos.iter xO m d) = Z.pos m * 2 ^ Z.pos d.
Proof.
  rewrite <- Z.shiftl_mul_pow2 by lia. cbn [Z.shiftl].
  apply (Pos.iter_swap_gen _ _ Z.pos xO (Z.mul 2)). reflexivity.
Qed.

Lemma shl_align_fst (mx : positive) (ex ez : Z) :
  ez <= ex -> Z.pos (fst (shl_align mx ex ez)) = Z.pos mx * 2 ^ (ex - ez).
Proof.
  intros Hle. unfold shl_align.
  destruct (ez - ex) as [|d|d] eqn:E; cbn [fst]; try lia.
  - replace (ex - ez) with 0 by lia. lia.
  - rewrite iter_xO. f_equal. f_equal. lia.
Qed.

(** [shl_align] keeps the magnitude and leaves an exponent that is not
    above the one asked for. *)
Lemma shl_align_scaled (mx : positive) (ex t : Z) :
  -200 <= ex -> -200 <= t ->
  scaled (Z.pos (fst (shl_align mx ex t))) (snd (shl_align mx ex t))
  = scaled (Z.pos mx) ex
  /\ -200 <= snd (shl_align mx ex t)
  /\ snd (shl_align mx ex t) <= t.
Proof.
  intros Hex Ht. unfold shl_align.
  destruct (t - ex) as [|d|d] eqn:E; cbn [fst snd].
  - split; [reflexivity|]. split; lia.
  - split; [reflexivity|]. split; lia.
  - split; [|split; lia].
    unfold scaled. rewrite iter_xO.
    replace (ex + 200) with (Z.pos d + (t + 200)) by lia.
    rewrite (Z.pow_add_r 2 (Z.pos d) (t + 200)) by lia. ring.
Qed.

Lemma digits_exponent (a b : positive) (e1 e2 : Z) :
  -200 <= e1 -> -200 <= e2 ->
  scaled (Z.pos a) e1 = scaled (Z.pos b) e2 ->
  digits a + e1 = digits b + e2.
Proof.
  intros H1 H2 Heq.
  pose proof (scaled_digits a e1 H1) as [La Ua].
  pose proof (scaled_digits b e2 H2) as [Lb Ub].
  assert (Hab : 2 ^ (digits a + e1 + 199) < 2 ^ (digits b + e2 + 200)) by lia.
  assert (Hba : 2 ^ (digits b + e2 + 199) < 2 ^ (digits a + e1 + 200)) by lia.
  apply Z.pow_lt_mono_r_iff in Hab; [|lia|lia].
  apply Z.pow_lt_mono_r_iff in Hba; lia.
Qed.

(** [binary_round]: alignment, then rounding. *)
Lemma binary_round_upper (s : bool) (mx K : positive) (ex g : Z) :
  bounded F32.prec F32.emax K g = true ->
  -200 <= ex ->
  scaled (Z.pos mx) ex <= scaled (Z.pos K) g ->
  bounded_by K g s (binary_round F32.prec F32.emax s mx ex).
Proof.
  intros Hb Hex Hle. unfold binary_round.
  set (t := fexp (digits mx + ex)).
  assert (Ht : -200 <= t) by (subst t; rewrite fexp_spec; lia).
  destruct (shl_align_scaled mx ex t Hex Ht) as (Hsc & Hlo & Hez).
  destruct (shl_align mx ex t) as [mz ez]. cbn [fst snd] in *.
  pose proof (digits_exponent mz mx ez ex Hlo Hex Hsc) as Hd.
  apply binary_round_aux_upper; try assumption.
  - rewrite Hd. exact Hez.
  - rewrite Hsc. exact Hle.
Qed.

(** [binary_normalize] of an integer [D] at exponent [e]: the sign is that
    of [D]. *)
Lemma binary_normalize_upper (D e : Z) (K : positive) (g : Z) :
  bounded F32.prec F32.emax K g = true ->
  -200 <= e ->
  scaled (Z.abs D) e <= scaled (Z.pos K) g ->
  exists s : bool,
    bounded_by K g s (binary_normalize F32.prec F32.emax D e false).
Proof.
  intros Hb He Hle. destruct D as [|p|p]; cbn [binary_normalize].
  - exists false. left. reflexivity.
  - exists false. apply binary_round_upper; assumption.
  - exists true. apply binary_round_upper; assumption.
Qed.

(** The difference and the sum of two finite values: the exact integer
    at the smaller exponent, normalised. *)
Lemma sub_finite (sx sy : bool) (mx my : positive) (ex ey : Z) :
  F32.sub (S754_finite sx mx ex) (S754_finite sy my ey)
  = binary_normalize F32.prec F32.emax
      (cond_Zopp sx (Z.pos mx * 2 ^ (ex - Z.min ex ey))
       - cond_Zopp sy (Z.pos my * 2 ^ (ey - Z.min ex ey)))
      (Z.min ex ey) false.
Proof.
  unfold F32.sub, SFsub. cbv zeta.
  rewrite !shl_align_fst by lia. reflexivity.
Qed.

Lemma add_finite (sx sy : bool) (mx my : positive) (ex ey : Z) :
  F32.add (S754_finite sx mx ex) (S754_finite sy my ey)
  = binary_normalize F32.prec F32.emax
      (cond_Zopp sx (Z.pos mx * 2 ^ (ex - Z.min ex ey))
       + cond_Zopp sy (Z.pos my * 2 ^ (ey - Z.min ex ey)))
      (Z.min ex ey) false.
Proof.
  unfold F32.add, SFadd. cbv zeta.
  rewrite !shl_align_fst by lia. reflexivity.
Qed.

(** ** Order *)

(** A result bounded by [K * 2^g] lies between the values [-K * 2^g] and
    [K * 2^g] of the format. *)
Lemma bounded_by_within (K : positive) (g : Z) (s : bool) (x : float) :
  bounded_by K g s x ->
  F32.leb (S754_finite true K g) x = true
  /\ F32.leb x (S754_finite false K g) = true.
Proof.
  intros [->|(m & e & -> & He & Hle)].
  - destruct s; split; reflexivity.
  - assert (Hcase : e < g \/ (e = g /\ Z.pos m <= Z.pos K)).
    { destruct (Z.eq_dec e g) as [->|Hne]; [right|left; lia].
      split; [reflexivity|]. unfold scaled in Hle.
      assert (0 < 2 ^ (g + 200)) by (apply Z.pow_pos_nonneg; lia). nia. }
    unfold F32.leb, SFleb, SFcompare.
    destruct s; split; try reflexivity.
    + destruct (Z.compare_spec g e); try lia; try reflexivity.
      change (Pos.compare_cont Eq K m) with (Pos.compare K m).
      destruct (Pos.compare_spec K m); try reflexivity; lia.
    + destruct (Z.compare_spec e g); try lia; try reflexivity.
      change (Pos.compare_cont Eq m K) with (Pos.compare m K).
      destruct (Pos.compare_spec m K); try reflexivity; lia.
Qed.

End F32Round.

(* ================================================================== *)
(** * NMEA formatter: the heading sentence *)

Section Heading.

Import F32Round.

Local Open Scope Z_scope.

(** Comparison of two finite values of the same sign, by exponent and
    mantissa. *)
Lemma leb_finite_pos (m K : positive) (e g : Z) :
  F32.leb (S754_finite false m e) (S754_finite false K g) = true ->
  e < g \/ (e = g /\ Z.pos m <= Z.pos K).
Proof.
  unfold F32.leb, SFleb, SFcompare.
  destruct (Z.compare_spec e g); [|left; lia|discriminate].
  change (Pos.compare_cont Eq m K) with (Pos.compare m K).
  destruct (Pos.compare_spec m K); try discriminate; intros _; right; lia.
Qed.

Lemma leb_finite_neg (m K : positive) (e g : Z) :
  F32.leb (S754_finite true K g) (S754_finite true m e) = true ->
  e < g \/ (e = g /\ Z.pos m <= Z.pos K).
Proof.
  unfold F32.leb, SFleb, SFcompare.
  destruct (Z.compare_spec g e); [|discriminate|left; lia].
  change (Pos.compare_cont Eq K m) with (Pos.compare K m).
  destruct (Pos.compare_spec K m); try discriminate; intros _; right; lia.
Qed.

(** A value of the format has at most 24 digits, at an exponent of -149
    at least, and exactly 24 digits above that exponent. *)
Lemma valid_finite (s : bool) (m : positive) (e : Z) :
  F32.valid (S754_finite s m e) = true ->
  -149 <= e <= 104 /\ Z.pos m < 2 ^ 24
  /\ (-149 < e -> 2 ^ 23 <= Z.pos m).
Proof.
  unfold F32.valid, valid_binary, bounded, canonical_mantissa.
  intros Hv. apply andb_true_iff in Hv. destruct Hv as [Hc Hl].
  apply Z.eqb_eq in Hc. apply Z.leb_le in Hl.
  change (F32.emax - F32.prec) with 104 in Hl.
  rewrite fexp_spec in Hc. pose proof (digits_bounds m) as [Hlo Hhi].
  assert (Hd : digits m <= 24) by lia.
  split; [lia|]. split.
  - assert (2 ^ digits m <= 2 ^ 24) by (apply Z.pow_le_mono_r; lia). lia.
  - intros He. assert (Hd24 : digits m = 24) by lia.
    rewrite Hd24 in Hlo. exact Hlo.
Qed.

(** A valid value between [-M_PI_F] and [M_PI_F] has a magnitude of at
    most [M_PI_F]. *)
Lemma magnitude_within_PI (s : bool) (m : positive) (e : Z) :
  F32.valid (S754_finite s m e) = true ->
  F32.leb (F32.neg M_PI_F) (S754_finite s m e) = true ->
  F32.leb (S754_finite s m e) M_PI_F = true ->
  -149 <= e /\ Z.pos m < 2 ^ 24
  /\ (e < -22 \/ (e = -22 /\ Z.pos m <= 13176795)).
Proof.
  intros Hv Hlo Hhi. destruct (valid_finite s m e Hv) as (He & Hm & _).
  split; [lia|]. split; [exact Hm|].
  change M_PI_F with (S754_finite false 13176795 (-22)) in *.
  change (F32.neg (S754_finite false 13176795 (-22)))
    with (S754_finite true 13176795 (-22)) in Hlo.
  destruct s.
  - apply (leb_finite_neg m 13176795 e (-22)). exact Hlo.
  - apply (leb_finite_pos m 13176795 e (-22)). exact Hhi.
Qed.

(** The product of such a value with 573 is 1800.25 at most in
    magnitude. *)
Lemma mul_573_bounded (s : bool) (m : positive) (e : Z) :
  F32.valid (S754_finite s m e) = true ->
  F32.leb (F32.neg M_PI_F) (S754_finite s m e) = true ->
  F32.leb (S754_finite s m e) M_PI_F = true ->
  F32.bounded_by 14747648 (-13) s
    (F32.mul (S754_finite s m e) (F32.of_Z 573)).
Proof.
  intros Hv Hlo Hhi.
  destruct (magnitude_within_PI s m e Hv Hlo Hhi) as (He & Hm & Hmag).
  change (F32.of_Z 573) with (S754_finite false 9388032 (-14)).
  replace s with (xorb s false) at 1 by (destruct s; reflexivity).
  apply mul_upper; [reflexivity|reflexivity|lia|].
  unfold F32.scaled. rewrite Pos2Z.inj_mul.
  assert (Hsplit : 2 ^ (-13 + 200)
                   = 2 ^ (-22 - e) * 8388608 * 2 ^ (e + -14 + 200)).
  { change 8388608 with (2 ^ 23). rewrite <- !Z.pow_add_r by lia.
    f_equal. lia. }
  rewrite Hsplit.
  assert (0 < 2 ^ (e + -14 + 200)) by (apply Z.pow_pos_nonneg; lia).
  change (2 ^ 24) with 16777216 in Hm.
  destruct Hmag as [Hlt|[-> Hle]].
  - assert (Hq2 : 2 <= 2 ^ (-22 - e)).
    { change 2 with (2 ^ 1) at 1. apply Z.pow_le_mono_r; lia. }
    nia.
  - change (2 ^ (-22 - -22)) with 1. nia.
Qed.

Lemma HCHDT_heading_range (true_heading : float) :
  F32.valid true_heading = true ->
  F32.leb (F32.neg M_PI_F) true_heading = true ->
  F32.leb true_heading M_PI_F = true ->
  0 <= HCHDT_heading true_heading < 3600.
Proof.
  intros Hv Hlo Hhi. unfold HCHDT_heading.
  assert (Hint : -1800 <= F32.to_int (F32.mul true_heading (F32.of_Z 573))
                 <= 1800).
  { destruct true_heading as [s|s| |s m e].
    - destruct s; cbn; lia.
    - destruct s; discriminate.
    - discriminate.
    - pose proof (mul_573_bounded s m e Hv Hlo Hhi) as Hb.
      pose proof (trunc_upper _ _ _ _ 1800 Hb ltac:(lia) eq_refl) as Ht.
      destruct Hb as [Hz|(m' & e' & Hf & _)]; rewrite Hz || rewrite Hf;
        rewrite Hz in Ht || rewrite Hf in Ht;
        unfold F32.to_int, F32.INT32_MIN, F32.INT32_MAX; lia. }
  destruct (_ <? 0) eqn:E;
    [apply Z.ltb_lt in E|apply Z.ltb_ge in E]; lia.
Qed.

Local Open Scope string_scope.

(** C9.  For every heading of the format between [-M_PI_F] and [M_PI_F],
    which covers the interval from -pi (exclusive) to pi, [format_HCHDT]
    writes the heading times 573, as an integer number of tenths of a
    degree, with 3600 added when it is negative: the number lies in
    [0 .. 3599], and the heading field is its notation with one decimal,
    without a sign, so a heading of at least 0 and below 360.0 degrees.
    For a yaw of -0.01 rad the number is 3595, the field reads [359.5],
    and this is within one tenth of a degree of 3594.3. *)
Theorem format_HCHDT_heading :
  (forall true_heading : float,
      F32.valid true_heading = true ->
      F32.leb (F32.neg M_PI_F) true_heading = true ->
      F32.leb true_heading M_PI_F = true ->
      let scaled_heading :=
        F32.to_int (F32.mul true_heading (F32.of_Z 573)) in
      let heading := HCHDT_heading true_heading in
      let field := nth 1 (split_fields (format_HCHDT true_heading)) "" in
      heading
      = (if (scaled_heading <? 0)%Z then scaled_heading + 3600
         else scaled_heading)
      /\ 0 <= heading < 3600
      /\ format_HCHDT true_heading = "$HCHDT," ++ field ++ ",T"
      /\ field
         = format_integer (heading / 10) ++ "."
           ++ String (char_at HEX (heading mod 10)) EmptyString
      /\ is_unsigned_decimal field = true
      /\ digits_value (format_integer (heading / 10)) 0 = heading / 10
      /\ 0 <= heading / 10 < 360)
  /\ (let yaw := F32.neg (F32.decimal 1 2) in
      HCHDT_heading yaw = 3595
      /\ format_HCHDT yaw = "$HCHDT,359.5,T"
      /\ Z.abs (10 * HCHDT_heading yaw - 35943) < 10).
Proof.
  split; [|vm_compute; repeat split; reflexivity].
  intros true_heading Hv Hlo Hhi scaled_heading heading field.
  pose proof (HCHDT_heading_range true_heading Hv Hlo Hhi) as Hr.
  fold heading in Hr.
  destruct (integer_to_ascii_1_decimal_unsigned heading ltac:(lia))
    as [Hshape Hun].
  assert (Hfield : field = integer_to_ascii_1_decimal heading).
  { subst field. unfold format_HCHDT, append_string. fold heading.
    change (c_str HCHDT) with "$HCHDT,".
    cbn [append split_fields Ascii.eqb Bool.eqb].
    change (integer_to_ascii_1_decimal heading ++ ",T")
      with (integer_to_ascii_1_decimal heading ++ String "," "T").
    rewrite (split_fields_first _ _
               (integer_to_ascii_1_decimal_no_comma _)).
    reflexivity. }
  assert (Hq : 0 <= heading / 10 < 360).
  { split; [apply Z.div_pos; lia|apply Z.div_lt_upper_bound; lia]. }
  split; [reflexivity|]. split; [exact Hr|].
  split; [rewrite Hfield; reflexivity|].
  split; [rewrite Hfield; exact Hshape|].
  split; [rewrite Hfield; exact Hun|].
  split; [|exact Hq].
  rewrite (proj2 (format_integer_digits _)).
  unfold wrap_uint32. apply Z.mod_small.
  change (2 ^ 32) with 4294967296. lia.
Qed.

End Heading.

(* ================================================================== *)
(** * AHRS: the range of the heading difference *)

Section HeadingDifference.

Import F32Round.

Local Open Scope Z_scope.

(** Two finite values compare one way or the other. *)
Lemma leb_of_not_ltb (sx sy : bool) (mx my : positive) (ex ey : Z) :
  F32.ltb (S754_finite sy my ey) (S754_finite sx mx ex) = false ->
  F32.leb (S754_finite sx mx ex) (S754_finite sy my ey) = true.
Proof.
  unfold F32.ltb, F32.leb, SFltb, SFleb.
  destruct (SFcompare (S754_finite sx mx ex) (S754_finite sy my ey))
    as [c|] eqn:E; [|discriminate E].
  rewrite (F32Facts.SFcompare_antisym _ _ _ E).
  destruct c; cbn; congruence.
Qed.

Lemma ltb_finite_pos (m K : positive) (e g : Z) :
  F32.ltb (S754_finite false K g) (S754_finite false m e) = true ->
  g < e \/ (e = g /\ Z.pos K < Z.pos m).
Proof.
  unfold F32.ltb, SFltb, SFcompare.
  destruct (Z.compare_spec g e); [|left; lia|discriminate].
  change (Pos.compare_cont Eq K m) with (Pos.compare K m).
  destruct (Pos.compare_spec K m); try discriminate; intros _; right; lia.
Qed.

Lemma ltb_finite_neg (m K : positive) (e g : Z) :
  F32.ltb (S754_finite true m e) (S754_finite true K g) = true ->
  g < e \/ (e = g /\ Z.pos K < Z.pos m).
Proof.
  unfold F32.ltb, SFltb, SFcompare.
  destruct (Z.compare_spec e g); [|discriminate|left; lia].
  change (Pos.compare_cont Eq m K) with (Pos.compare m K).
  destruct (Pos.compare_spec m K); try discriminate; intros _; right; lia.
Qed.

(** The magnitudes between [M_PI_F] (exclusive) and [THREE_PI_F], less
    two times [M_PI_F], are at most [M_PI_F]: the exact difference at the
    smaller exponent, case by case on the exponent of the value. *)
Lemma beyond_PI_difference (m : positive) (e : Z) :
  F32.valid (S754_finite false m e) = true ->
  -22 < e \/ (e = -22 /\ 13176795 < Z.pos m) ->
  e < -20 \/ (e = -20 /\ Z.pos m <= 9882596) ->
  F32.scaled
    (Z.abs (Z.pos m * 2 ^ (e - Z.min e (-21))
            - 13176795 * 2 ^ (-21 - Z.min e (-21))))
    (Z.min e (-21))
  <= F32.scaled 13176795 (-22).
Proof.
  intros Hv Hlo Hhi.
  destruct (valid_finite false m e Hv) as (He & Hm & Hnorm).
  change (2 ^ 24) with 16777216 in Hm.
  assert (Hcase : e = -22 \/ e = -21 \/ e = -20) by lia.
  unfold F32.scaled.
  destruct Hcase as [->|[->| ->]].
  - change (Z.min (-22) (-21)) with (-22).
    change (2 ^ (-22 - -22)) with 1. change (2 ^ (-21 - -22)) with 2.
    assert (0 < 2 ^ (-22 + 200)) by (apply Z.pow_pos_nonneg; lia).
    nia.
  - specialize (Hnorm ltac:(lia)). change (2 ^ 23) with 8388608 in Hnorm.
    change (Z.min (-21) (-21)) with (-21).
    change (2 ^ (-21 - -21)) with 1.
    change (2 ^ (-21 + 200)) with (2 * 2 ^ (-22 + 200)).
    assert (0 < 2 ^ (-22 + 200)) by (apply Z.pow_pos_nonneg; lia).
    nia.
  - specialize (Hnorm ltac:(lia)). change (2 ^ 23) with 8388608 in Hnorm.
    change (Z.min (-20) (-21)) with (-21).
    change (2 ^ (-20 - -21)) with 2. change (2 ^ (-21 - -21)) with 1.
    change (2 ^ (-21 + 200)) with (2 * 2 ^ (-22 + 200)).
    assert (0 < 2 ^ (-22 + 200)) by (apply Z.pow_pos_nonneg; lia).
    nia.
Qed.

Lemma beyond_PI_step (s : bool) (m : positive) (e : Z) :
  F32.valid (S754_finite s m e) = true ->
  -22 < e \/ (e = -22 /\ 13176795 < Z.pos m) ->
  e < -20 \/ (e = -20 /\ Z.pos m <= 9882596) ->
  let stepped :=
    if s then F32.add (S754_finite s m e) TWO_PI_F
    else F32.sub (S754_finite s m e) TWO_PI_F in
  F32.leb (F32.neg M_PI_F) stepped = true
  /\ F32.leb stepped M_PI_F = true.
Proof.
  intros Hv Hlo Hhi stepped.
  pose proof (beyond_PI_difference m e) as Hd.
  assert (Hv' : F32.valid (S754_finite false m e) = true) by exact Hv.
  specialize (Hd Hv' Hlo Hhi).
  destruct (valid_finite s m e Hv) as (He & _ & _).
  change M_PI_F with (S754_finite false 13176795 (-22)).
  change (F32.neg (S754_finite false 13176795 (-22)))
    with (S754_finite true 13176795 (-22)).
  assert (Hb : exists s' : bool, F32.bounded_by 13176795 (-22) s' stepped).
  { unfold stepped.
    change TWO_PI_F with (S754_finite false 13176795 (-21)).
    destruct s.
    - rewrite add_finite. apply binary_normalize_upper;
        [reflexivity|lia|]. cbn [cond_Zopp].
      replace (Z.abs (- (Z.pos m * 2 ^ (e - Z.min e (-21)))
                      + 13176795 * 2 ^ (-21 - Z.min e (-21))))
        with (Z.abs (Z.pos m * 2 ^ (e - Z.min e (-21))
                     - 13176795 * 2 ^ (-21 - Z.min e (-21)))) by lia.
      exact Hd.
    - rewrite sub_finite. apply binary_normalize_upper;
        [reflexivity|lia|]. cbn [cond_Zopp]. exact Hd. }
  destruct Hb as (s' & Hb). exact (bounded_by_within _ _ _ _ Hb).
Qed.

(** [map_into_PI_range] on a raw difference of at most [THREE_PI_F] in
    magnitude: the result lies between [-M_PI_F] and [M_PI_F], both
    included. *)
Lemma map_into_PI_range_within (raw : float) :
  F32.valid raw = true ->
  F32.leb (F32.neg THREE_PI_F) raw = true ->
  F32.leb raw THREE_PI_F = true ->
  F32.leb (F32.neg M_PI_F) (map_into_PI_range raw) = true
  /\ F32.leb (map_into_PI_range raw) M_PI_F = true.
Proof.
  intros Hv Hlo Hhi. unfold map_into_PI_range.
  change (F32.mul (F32.of_Z 2) M_PI_F) with TWO_PI_F.
  change THREE_PI_F with (S754_finite false 9882596 (-20)) in Hlo, Hhi.
  change (F32.neg (S754_finite false 9882596 (-20)))
    with (S754_finite true 9882596 (-20)) in Hlo.
  destruct raw as [s|s| |s m e].
  - destruct s; split; reflexivity.
  - destruct s; discriminate.
  - discriminate.
  - destruct s.
    + (* below zero: only the second step can apply *)
      change (F32.gtb (S754_finite true m e) M_PI_F) with false.
      cbv iota.
      destruct (F32.ltb (S754_finite true m e) (F32.neg M_PI_F)) eqn:Hlt.
      * apply (beyond_PI_step true m e Hv).
        -- apply (ltb_finite_neg m 13176795 e (-22)). exact Hlt.
        -- apply (leb_finite_neg m 9882596 e (-20)). exact Hlo.
      * split; [|reflexivity].
        apply leb_of_not_ltb. exact Hlt.
    + destruct (F32.gtb (S754_finite false m e) M_PI_F) eqn:Hgt.
      * assert (Hstep := beyond_PI_step false m e Hv).
        cbv zeta iota in Hstep.
        destruct Hstep as [H1 H2].
        -- apply (ltb_finite_pos m 13176795 e (-22)). exact Hgt.
        -- apply (leb_finite_pos m 9882596 e (-20)). exact Hhi.
        -- rewrite (F32Facts.leb_not_ltb _ _ H1). split; assumption.
      * change (F32.ltb (S754_finite false m e) (F32.neg M_PI_F)) with false.
        cbv iota. split; [reflexivity|].
        apply leb_of_not_ltb. exact Hgt.
Qed.

(** A raw difference already between [-M_PI_F] and [M_PI_F] is kept. *)
Lemma map_into_PI_range_inside (raw : float) :
  F32.leb (F32.neg M_PI_F) raw = true ->
  F32.leb raw M_PI_F = true ->
  map_into_PI_range raw = raw.
Proof.
  intros Hlo Hhi. unfold map_into_PI_range.
  rewrite (F32Facts.leb_not_gtb _ _ Hhi).
  rewrite (F32Facts.leb_not_ltb _ _ Hlo). reflexivity.
Qed.

(** One step is taken above [M_PI_F], and one below [-M_PI_F]. *)
Lemma map_into_PI_range_above (raw : float) :
  F32.valid raw = true ->
  F32.gtb raw M_PI_F = true ->
  F32.leb raw THREE_PI_F = true ->
  map_into_PI_range raw = F32.sub raw TWO_PI_F.
Proof.
  intros Hv Hgt Hhi. unfold map_into_PI_range.
  change (F32.mul (F32.of_Z 2) M_PI_F) with TWO_PI_F.
  rewrite Hgt.
  change THREE_PI_F with (S754_finite false 9882596 (-20)) in Hhi.
  destruct raw as [s|s| |s m e]; try (destruct s; discriminate);
    try discriminate.
  destruct s; [discriminate|].
  destruct (beyond_PI_step false m e Hv) as [H1 _].
  - apply (ltb_finite_pos m 13176795 e (-22)). exact Hgt.
  - apply (leb_finite_pos m 9882596 e (-20)). exact Hhi.
  - rewrite (F32Facts.leb_not_ltb _ _ H1). reflexivity.
Qed.

Lemma map_into_PI_range_below (raw : float) :
  F32.valid raw = true ->
  F32.ltb raw (F32.neg M_PI_F) = true ->
  F32.leb (F32.neg THREE_PI_F) raw = true ->
  map_into_PI_range raw = F32.add raw TWO_PI_F.
Proof.
  intros Hv Hlt Hlo. unfold map_into_PI_range.
  change (F32.mul (F32.of_Z 2) M_PI_F) with TWO_PI_F.
  change (F32.neg THREE_PI_F) with (S754_finite true 9882596 (-20)) in Hlo.
  destruct raw as [s|s| |s m e]; try (destruct s; discriminate);
    try discriminate.
  destruct s; [|discriminate].
  change (F32.gtb (S754_finite true m e) M_PI_F) with false. cbv iota.
  rewrite Hlt. reflexivity.
Qed.

End HeadingDifference.

(* ================================================================== *)
(** * AHRS: the heading difference of the D-GNSS mode *)

Section HeadingDifferenceStored.
Context `{Tuning} `{Collaborators}.

(** C5 (as amended).  After a tick of the D-GNSS mode the stored heading
    difference is, for every raw difference (the GNSS heading, corrected
    for the antenna alignment, less the estimated yaw), the raw difference
    after one conditional step of two times [M_PI_F] down and one up: the
    step down is taken when the raw difference is above [M_PI_F], the step
    up when the result is below [-M_PI_F].  A raw difference below
    [-M_PI_F] is stored with [TWO_PI_F] added, one between [-M_PI_F] and
    [M_PI_F], both ends included, as it is.  For a raw difference of the
    format of at most three times [M_PI_F] in magnitude the stored value
    lies between [-M_PI_F] and [M_PI_F], both ends included, and above
    [M_PI_F] it is the raw difference less [TWO_PI_F]. *)
Theorem heading_difference_range (st : AHRS_type)
  (gyro acc mag_sensor GNSS_acceleration : float3vector)
  (GNSS_heading : float) :
  let raw := heading_difference_raw st GNSS_heading in
  let stored :=
    heading_difference_AHRS_DGNSS
      (update_diff_GNSS st gyro acc mag_sensor GNSS_acceleration
         GNSS_heading) in
  let stepped_down :=
    if F32.gtb raw M_PI_F then F32.sub raw TWO_PI_F else raw in
  stored = map_into_PI_range raw
  /\ stored
     = (if F32.ltb stepped_down (F32.neg M_PI_F)
        then F32.add stepped_down TWO_PI_F
        else stepped_down)
  /\ (F32.ltb raw (F32.neg M_PI_F) = true -> stored = F32.add raw TWO_PI_F)
  /\ (F32.leb (F32.neg M_PI_F) raw = true -> F32.leb raw M_PI_F = true ->
      stored = raw)
  /\ (F32.valid raw = true ->
      F32.leb (F32.neg THREE_PI_F) raw = true ->
      F32.leb raw THREE_PI_F = true ->
      F32.leb (F32.neg M_PI_F) stored = true
      /\ F32.leb stored M_PI_F = true
      /\ (F32.gtb raw M_PI_F = true -> stored = F32.sub raw TWO_PI_F)).
Proof.
  intros raw stored stepped_down.
  assert (Hst : stored = map_into_PI_range raw).
  { subst stored raw.
    destruct (update_diff_GNSS_summary st gyro acc mag_sensor
                GNSS_acceleration GNSS_heading)
      as (st1 & -> & _ & _ & _ & Hd & _).
    destruct (_ && _ && _); [|exact Hd].
    destruct (handle_magnetic_calibration_frame st1 "s"%char)
      as (_ & _ & _ & _ & ->).
    exact Hd. }
  split; [exact Hst|]. split; [rewrite Hst; reflexivity|].
  rewrite Hst. split; [|split].
  - intros Hlt. unfold map_into_PI_range.
    change (F32.mul (F32.of_Z 2) M_PI_F) with TWO_PI_F.
    assert (Hgt : F32.gtb raw M_PI_F = false).
    { destruct raw as [s|s| |s m e]; try destruct s; try discriminate Hlt;
        reflexivity. }
    rewrite Hgt, Hlt. reflexivity.
  - intros H1 H2. apply map_into_PI_range_inside; assumption.
  - intros Hv Hlo Hhi.
    destruct (map_into_PI_range_within raw Hv Hlo Hhi) as [Hin1 Hin2].
    split; [exact Hin1|]. split; [exact Hin2|].
    intros Hgt. apply map_into_PI_range_above; assumption.
Qed.

End HeadingDifferenceStored.

(* ================================================================== *)
(** * AHRS: the steps of a tick and the attitude *)

Section AttitudeAfterTick.
Context `{Tuning} `{Collaborators}.

Local Open Scope f32_scope.

(** [update_attitude] leaves the quaternion rotated by the gyro increments
    and then normalised. *)
Lemma update_attitude_attitude (st : AHRS_type) (acc gyro mag : float3vector) :
  attitude (update_attitude st acc gyro mag)
  = q_normalize
      (q_rotate (attitude st) (get3 gyro ROLL * Ts_div_2 st)
         (get3 gyro NICK * Ts_div_2 st) (get3 gyro YAW * Ts_div_2 st)).
Proof.
  cbv beta delta [update_attitude]. repeat let_step AHRS_type.
  reflexivity.
Qed.

Lemma feed_magnetic_induction_observer_attitude (st : AHRS_type)
  (mag_sensor : float3vector) :
  attitude (feed_magnetic_induction_observer st mag_sensor) = attitude st.
Proof.
  cbv beta delta [feed_magnetic_induction_observer].
  repeat let_step AHRS_type. reflexivity.
Qed.

Lemma handle_magnetic_calibration_attitude (st : AHRS_type) (type : ascii) :
  attitude (handle_magnetic_calibration st type) = attitude st.
Proof.
  unfold handle_magnetic_calibration.
  destruct (set_calibration_if_changed _ _ _ _) as [[cal collectors] changed].
  destruct (data_valid _);
    [destruct (automatic_earth_field_parameters _ && _)|];
    destruct changed; reflexivity.
Qed.

Lemma update_circling_state_attitude (st : AHRS_type) :
  attitude (fst (update_circling_state st)) = attitude st
  /\ Ts_div_2 (fst (update_circling_state st)) = Ts_div_2 st.
Proof.
  unfold update_circling_state.
  repeat match goal with
         | |- context [if ?b then _ else _] =>
             lazymatch b with
             | context [if _ then _ else _] => fail
             | _ => destruct b
             end
         end; split; reflexivity.
Qed.

End AttitudeAfterTick.

(* ================================================================== *)
(** * Rounding: the error of one operation

    [SpecFloat] rounds a magnitude given by an integer, an exponent and the
    position of the rest.  What follows holds for every precision, so for
    [float] and for [double]: a result lies within one unit of its last
    place of the exact value, which is a relative error of [2^(1 - prec)]
    or, below the normal range, an absolute error of [2^emin]. *)

Module Rounding.

Section Format.

Local Open Scope Z_scope.

Variables prec emax : Z.
Hypothesis prec_pos : 0 < prec.
Hypothesis emax_large : 2 <= emax.

Abbreviation emin := (SpecFloat.emin prec emax).
Abbreviation fexp := (SpecFloat.fexp prec emax).

Lemma fexp_max (e : Z) : fexp e = Z.max (e - prec) emin.
Proof. reflexivity. Qed.

Lemma emin_spec : emin = 3 - emax - prec.
Proof. reflexivity. Qed.

Lemma Zdigits2_bounds (m : Z) :
  0 < m -> 2 ^ (Zdigits2 m - 1) <= m < 2 ^ Zdigits2 m.
Proof.
  destruct m as [|p|p]; try lia. intros _. cbn [Zdigits2].
  apply F32Round.digits_bounds.
Qed.

Lemma Zdigits2_pos (m : Z) : 0 < m -> 0 < Zdigits2 m.
Proof. destruct m; cbn; lia. Qed.

Lemma Zdigits2_unique (m k : Z) :
  0 < m -> 2 ^ (k - 1) <= m < 2 ^ k -> Zdigits2 m = k.
Proof.
  intros Hm [Hlo Hhi]. pose proof (Zdigits2_bounds m Hm) as [Dlo Dhi].
  pose proof (Zdigits2_pos m Hm) as Dpos.
  assert (Hk : 0 < k).
  { destruct (Z_lt_le_dec 0 k) as [|Hle]; [assumption|].
    destruct (Z.eq_dec k 0) as [->|]; [cbn in Hhi; lia|].
    rewrite Z.pow_neg_r in Hhi by lia. lia. }
  assert (H1 : 2 ^ (Zdigits2 m - 1) < 2 ^ k) by lia.
  assert (H2 : 2 ^ (k - 1) < 2 ^ Zdigits2 m) by lia.
  apply Z.pow_lt_mono_r_iff in H1; [|lia|lia].
  apply Z.pow_lt_mono_r_iff in H2; lia.
Qed.

(** ** Shifting right *)

Lemma shr_1_m (rec : shr_record) :
  0 <= shr_m rec -> shr_m (shr_1 rec) = shr_m rec / 2.
Proof.
  destruct rec as [m r s]. cbn [shr_m]. intros Hm.
  exact (proj1 (F32Round.shr_1_spec m r s Hm)).
Qed.

Lemma iter_shr_m (p : positive) :
  forall rec : shr_record,
    0 <= shr_m rec ->
    shr_m (iter_pos shr_1 p rec) = shr_m rec / 2 ^ Z.pos p.
Proof.
  assert (Hstep : forall (rec : shr_record) (k : Z),
             0 <= shr_m rec -> 0 <= k -> 0 <= shr_m rec / 2 ^ k).
  { intros rec k Hm Hk. apply Z.div_pos; [assumption|].
    apply Z.pow_pos_nonneg; lia. }
  induction p as [p IH|p IH|]; intros rec Hm; cbn [iter_pos].
  - assert (H1 : 0 <= shr_m (shr_1 rec))
      by (rewrite shr_1_m by assumption; apply Z.div_pos; lia).
    assert (H2 : 0 <= shr_m (iter_pos shr_1 p (shr_1 rec)))
      by (rewrite IH by assumption; apply Hstep; [assumption|lia]).
    rewrite (IH _ H2), (IH _ H1), shr_1_m by assumption.
    rewrite !Z.div_div
      by first [apply Z.pow_pos_nonneg; lia|apply Z.pow_nonzero; lia|lia].
    f_equal. rewrite <- Z.pow_add_r by lia.
    change 2 with (2 ^ 1) at 1. rewrite <- Z.pow_add_r by lia.
    f_equal. lia.
  - assert (H2 : 0 <= shr_m (iter_pos shr_1 p rec))
      by (rewrite IH by assumption; apply Hstep; [assumption|lia]).
    rewrite (IH _ H2), (IH _ Hm).
    rewrite Z.div_div
      by first [apply Z.pow_pos_nonneg; lia|apply Z.pow_nonzero; lia|lia].
    f_equal. rewrite <- Z.pow_add_r by lia. f_equal. lia.
  - rewrite shr_1_m by assumption. reflexivity.
Qed.

Lemma shr_record_of_loc_m (m : Z) (l : location) :
  shr_m (shr_record_of_loc m l) = m.
Proof. destruct l as [|[]]; reflexivity. Qed.

(** [shr_fexp]: nothing is shifted, or the exponent becomes that of the
    format and the mantissa the quotient. *)
Lemma shr_fexp_cases (m e : Z) (l : location) :
  0 <= m ->
  let n := fexp (Zdigits2 m + e) - e in
  (n <= 0 /\ shr_fexp prec emax m e l = (shr_record_of_loc m l, e))
  \/ (0 < n /\ exists rec : shr_record,
         shr_fexp prec emax m e l = (rec, e + n)
         /\ shr_m rec = m / 2 ^ n).
Proof.
  intros Hm n. unfold shr_fexp, shr. fold n.
  destruct n as [|p|p] eqn:En.
  - left. split; [lia|reflexivity].
  - right. split; [lia|]. eexists. split; [reflexivity|].
    rewrite iter_shr_m by (rewrite shr_record_of_loc_m; assumption).
    rewrite shr_record_of_loc_m. reflexivity.
  - left. split; [lia|reflexivity].
Qed.

Lemma round_nearest_even_range (m : Z) (l : location) :
  m <= round_nearest_even m l <= m + 1.
Proof.
  destruct l as [|[]]; cbn; try destruct (Z.even m); lia.
Qed.

(** ** [binary_round_aux] on integers

    The magnitude has the integer part [m] at the exponent [e], which is
    not above the exponent the format gives it.  The result is zero, or
    the mantissa [m3] at the exponent [e3], both read off the truncated
    mantissa [m1] at the exponent [e1] of the format and its successor. *)
Lemma binary_round_aux_integers_bounded (s : bool) (m e : Z) (l : location) :
  0 <= m -> e <= fexp (Zdigits2 m + e) ->
  exists m1 m2 e1 : Z,
    e <= e1 /\ emin <= e1 /\ 0 <= m1
    /\ m1 * 2 ^ (e1 - e) <= m < (m1 + 1) * 2 ^ (e1 - e)
    /\ m1 <= m2 <= m1 + 1
    /\ (e1 = emin \/ 2 ^ (prec - 1) <= m1)
    /\ ((m2 = 0 /\ binary_round_aux prec emax s m e l = S754_zero s)
        \/ exists (m3 : positive) (e3 : Z),
             e1 <= e3 /\ Z.pos m3 * 2 ^ (e3 - e1) = m2
             /\ (e3 = emin \/ 2 ^ (prec - 1) <= Z.pos m3)
             /\ Z.pos m3 < 2 ^ prec
             /\ binary_round_aux prec emax s m e l
                = (if e3 <=? emax - prec
                   then S754_finite s m3 e3 else S754_infinity s)).
Proof.
  intros Hm Hal.
  set (d := Zdigits2 m) in *. set (E := fexp (d + e)) in *.
  set (n := E - e).
  assert (Hn : 0 <= n) by (subst n; lia).
  assert (HE : E = Z.max (d + e - prec) emin) by reflexivity.
  assert (Hp : 0 < 2 ^ n) by (apply Z.pow_pos_nonneg; lia).
  (* the first shift *)
  assert (Hfirst : exists rec : shr_record,
             shr_fexp prec emax m e l = (rec, E) /\ shr_m rec = m / 2 ^ n).
  { destruct (shr_fexp_cases m e l Hm) as [[Hle Heq]|[Hlt (rec & Heq & Hq)]];
      fold d in Hle || fold d in Hlt; fold E in Hle || fold E in Hlt.
    - exists (shr_record_of_loc m l). fold d E in Heq.
      replace E with e by lia. split; [try exact Heq|].
      + rewrite shr_record_of_loc_m. replace n with 0 by lia.
        rewrite Z.div_1_r. reflexivity.
    - exists rec. fold d E in Heq, Hq. fold n in Heq, Hq.
      replace (e + n) with E in Heq by lia. split; assumption. }
  destruct Hfirst as (rec & Hshr & Hq).
  set (m1 := m / 2 ^ n) in *.
  assert (Hm1 : 0 <= m1) by (apply Z.div_pos; lia).
  assert (Hdiv : m1 * 2 ^ n <= m < (m1 + 1) * 2 ^ n).
  { pose proof (Z.div_mod m (2 ^ n) ltac:(lia)) as Hdm.
    pose proof (Z.mod_pos_bound m (2 ^ n) Hp) as Hmod.
    fold m1 in Hdm. lia. }
  set (m2 := round_nearest_even (shr_m rec) (loc_of_shr_record rec)).
  pose proof (round_nearest_even_range (shr_m rec) (loc_of_shr_record rec))
    as Hr. fold m2 in Hr. rewrite Hq in Hr.
  assert (Hemin : emin <= E) by lia.
  (* the truncated mantissa has at most [prec] digits *)
  assert (Hdm : m = 0 \/ (0 < m /\ 2 ^ (d - 1) <= m < 2 ^ d /\ 0 < d)).
  { destruct (Z.eq_dec m 0) as [|Hnz]; [left; assumption|right].
    assert (0 < m) by lia. split; [assumption|]. split.
    - apply Zdigits2_bounds. assumption.
    - apply Zdigits2_pos. assumption. }
  assert (Hupper : m1 < 2 ^ prec).
  { destruct Hdm as [->|(Hpos & [_ Hhi] & Hd)].
    - unfold m1. rewrite Z.div_0_l by lia. apply Z.pow_pos_nonneg; lia.
    - assert (Hle : 2 ^ d <= 2 ^ (prec + n))
        by (apply Z.pow_le_mono_r; lia).
      rewrite Z.pow_add_r in Hle by lia.
      assert (0 < 2 ^ prec) by (apply Z.pow_pos_nonneg; lia). nia. }
  assert (Hnormal : E = emin \/ 2 ^ (prec - 1) <= m1).
  { destruct (Z.eq_dec E emin) as [|Hne]; [left; assumption|right].
    destruct Hdm as [->|(Hpos & [Hlo _] & Hd)].
    - exfalso. change (Zdigits2 0) with 0 in d. subst d. lia.
    - assert (Hnd : n = d - prec) by lia.
      unfold m1. apply Z.div_le_lower_bound; [lia|].
      rewrite <- Z.pow_add_r by lia.
      replace (n + (prec - 1)) with (d - 1) by lia. exact Hlo. }
  exists m1, m2, E.
  split; [lia|]. split; [exact Hemin|]. split; [exact Hm1|].
  split; [fold n; exact Hdiv|]. split; [exact Hr|]. split; [exact Hnormal|].
  unfold binary_round_aux. rewrite Hshr. fold m2.
  destruct (Z.eq_dec m2 0) as [Hz|Hnz].
  { left. split; [exact Hz|]. rewrite Hz.
    destruct (shr_fexp_cases 0 E loc_Exact ltac:(lia))
      as [[_ ->]|[Hlt _]]; [reflexivity|].
    exfalso. change (Zdigits2 0) with 0 in Hlt. cbn [Z.add] in Hlt.
    rewrite fexp_max in Hlt. lia. }
  right.
  assert (Hm2 : 0 < m2) by lia.
  pose proof (Zdigits2_bounds m2 Hm2) as [D2lo D2hi].
  pose proof (Zdigits2_pos m2 Hm2) as D2pos.
  assert (Hp2 : 0 < 2 ^ prec) by (apply Z.pow_pos_nonneg; lia).
  assert (Hd2 : Zdigits2 m2 <= prec \/ (Zdigits2 m2 = prec + 1 /\ m2 = 2 ^ prec)).
  { destruct (Z_le_gt_dec (Zdigits2 m2) prec) as [|Hgt]; [left; assumption|].
    right.
    assert (Hle : 2 ^ prec <= 2 ^ (Zdigits2 m2 - 1))
      by (apply Z.pow_le_mono_r; lia).
    assert (Heq : m2 = 2 ^ prec) by lia. split; [|exact Heq].
    apply Zdigits2_unique; [assumption|].
    replace (prec + 1 - 1) with prec by lia. rewrite Z.pow_add_r by lia.
    lia. }
  destruct (shr_fexp_cases m2 E loc_Exact ltac:(lia))
    as [[Hle ->]|[Hlt (rec2 & -> & Hq2)]].
  - cbn [shr_record_of_loc shr_m].
    destruct m2 as [|p2|p2]; try lia.
    exists p2, E. split; [lia|]. split; [rewrite Z.sub_diag; lia|].
    split; [destruct Hnormal as [|Hn1]; [left; assumption|right; lia]|].
    split; [|reflexivity].
    destruct Hd2 as [Hd2|[Hd2 _]].
    + apply Z.lt_le_trans with (1 := D2hi). apply Z.pow_le_mono_r; lia.
    + exfalso. rewrite Hd2, fexp_max in Hle. lia.
  - destruct Hd2 as [Hd2|[Hd2 Heq2]].
    + exfalso. rewrite fexp_max in Hlt. lia.
    + rewrite Hd2, fexp_max in Hlt, Hq2 |- *.
      replace (Z.max (prec + 1 + E - prec) emin - E) with 1 in * by lia.
      assert (Hhalf : m2 / 2 ^ 1 = 2 ^ (prec - 1)).
      { rewrite Heq2.
        replace (2 ^ prec) with (2 ^ (prec - 1) * 2 ^ 1)
          by (rewrite <- Z.pow_add_r by lia; f_equal; lia).
        apply Z.div_mul. discriminate. }
      rewrite Hhalf in Hq2. rewrite Hq2.
      assert (Hpp : 0 < 2 ^ (prec - 1)) by (apply Z.pow_pos_nonneg; lia).
      assert (Hbelow : 2 ^ (prec - 1) < 2 ^ prec)
        by (apply Z.pow_lt_mono_r; lia).
      destruct (2 ^ (prec - 1)) as [|p3|p3] eqn:E3; try lia.
      exists p3, (E + 1). split; [lia|]. split.
      * replace (E + 1 - E) with 1 by lia. rewrite Heq2.
        replace (2 ^ prec) with (2 ^ (prec - 1) * 2 ^ 1)
          by (rewrite <- Z.pow_add_r by lia; f_equal; lia).
        rewrite E3. reflexivity.
      * split; [right; lia|]. split; [exact Hbelow|reflexivity].
Qed.

Lemma binary_round_aux_integers (s : bool) (m e : Z) (l : location) :
  0 <= m -> e <= fexp (Zdigits2 m + e) ->
  exists m1 m2 e1 : Z,
    e <= e1 /\ emin <= e1 /\ 0 <= m1
    /\ m1 * 2 ^ (e1 - e) <= m < (m1 + 1) * 2 ^ (e1 - e)
    /\ m1 <= m2 <= m1 + 1
    /\ (e1 = emin \/ 2 ^ (prec - 1) <= m1)
    /\ ((m2 = 0 /\ binary_round_aux prec emax s m e l = S754_zero s)
        \/ exists (m3 : positive) (e3 : Z),
             e1 <= e3 /\ Z.pos m3 * 2 ^ (e3 - e1) = m2
             /\ (e3 = emin \/ 2 ^ (prec - 1) <= Z.pos m3)
             /\ binary_round_aux prec emax s m e l
                = (if e3 <=? emax - prec
                   then S754_finite s m3 e3 else S754_infinity s)).
Proof.
  intros Hm Hal.
  destruct (binary_round_aux_integers_bounded s m e l Hm Hal)
    as (m1 & m2 & e1 & H1 & H2 & H3 & H4 & H5 & H6 & Hres).
  exists m1, m2, e1. repeat (split; [assumption|]).
  destruct Hres as [Hz|(m3 & e3 & G1 & G2 & G3 & _ & G4)];
    [left; exact Hz|right].
  exists m3, e3. repeat (split; [assumption|]). exact G4.
Qed.

(** The result of [binary_round_aux] is a value of the format. *)
Lemma binary_round_aux_valid (s : bool) (m e : Z) (l : location) :
  0 <= m -> e <= fexp (Zdigits2 m + e) ->
  valid_binary prec emax (binary_round_aux prec emax s m e l) = true.
Proof.
  intros Hm Hal.
  destruct (binary_round_aux_integers_bounded s m e l Hm Hal)
    as (m1 & m2 & e1 & _ & He1 & _ & _ & _ & _ & Hres).
  destruct Hres as [[_ ->]|(m3 & e3 & G1 & _ & G3 & G4 & ->)];
    [reflexivity|].
  destruct (e3 <=? emax - prec) eqn:Hfit; [|reflexivity].
  cbn [valid_binary]. unfold bounded, canonical_mantissa.
  rewrite Hfit, Bool.andb_true_r. apply Z.eqb_eq.
  change (Z.pos (digits2_pos m3)) with (Zdigits2 (Z.pos m3)).
  pose proof (Zdigits2_bounds (Z.pos m3) ltac:(lia)) as [Dlo Dhi].
  pose proof (Zdigits2_pos (Z.pos m3) ltac:(lia)) as Dpos.
  assert (Hd : Zdigits2 (Z.pos m3) <= prec).
  { destruct (Z_le_gt_dec (Zdigits2 (Z.pos m3)) prec) as [|Hgt];
      [assumption|exfalso].
    assert (2 ^ prec <= 2 ^ (Zdigits2 (Z.pos m3) - 1))
      by (apply Z.pow_le_mono_r; lia).
    lia. }
  rewrite fexp_max.
  destruct G3 as [->|Hnorm]; [lia|].
  assert (Hd' : prec <= Zdigits2 (Z.pos m3)).
  { destruct (Z_le_gt_dec prec (Zdigits2 (Z.pos m3))) as [|Hgt];
      [assumption|exfalso].
    assert (2 ^ (Zdigits2 (Z.pos m3)) <= 2 ^ (prec - 1))
      by (apply Z.pow_le_mono_r; lia).
    lia. }
  lia.
Qed.



(** ** The error of [binary_round_aux] *)

Import Stdlib.Reals.Reals Stdlib.micromega.Lra.

Local Open Scope R_scope.

Abbreviation pow2 e := (powerRZ 2 e).
Abbreviation rel := (powerRZ 2 (1 - prec)).
Abbreviation tiny := (powerRZ 2 emin).

Lemma pow2_pos (e : Z) : 0 < pow2 e.
Proof. apply powerRZ_lt. lra. Qed.

Lemma pow2_add (a b : Z) : pow2 (a + b) = pow2 a * pow2 b.
Proof. apply powerRZ_add. lra. Qed.

Lemma pow2_IZR (k : Z) : (0 <= k)%Z -> pow2 k = IZR (2 ^ k).
Proof.
  intros Hk. destruct k as [|p|p]; try lia; [reflexivity|].
  cbn [powerRZ]. rewrite pow_IZR. f_equal.
  rewrite positive_nat_Z. reflexivity.
Qed.

Lemma pow2_le (a b : Z) : (a <= b)%Z -> pow2 a <= pow2 b.
Proof.
  intros Hab. replace b with (a + (b - a))%Z by lia. rewrite pow2_add.
  pose proof (pow2_pos a) as Pa.
  assert (H1 : 1 <= pow2 (b - a)).
  { rewrite pow2_IZR by lia. apply IZR_le.
    assert (0 < 2 ^ (b - a))%Z by (apply Z.pow_pos_nonneg; lia). lia. }
  rewrite <- (Rmult_1_r (pow2 a)) at 1.
  apply Rmult_le_compat_l; lra.
Qed.

(** A magnitude at a higher exponent. *)
Lemma IZR_shift (a b : Z) (e1 e : Z) :
  (e <= e1)%Z -> (a * 2 ^ (e1 - e) = b)%Z ->
  IZR a * pow2 e1 = IZR b * pow2 e.
Proof.
  intros He <-. rewrite mult_IZR, <- pow2_IZR by lia.
  replace e1 with ((e1 - e) + e)%Z at 1 by lia.
  rewrite pow2_add. ring.
Qed.

Lemma binary_round_aux_error (s : bool) (m e : Z) (l : location) (x : R) :
  (0 <= m)%Z -> (e <= fexp (Zdigits2 m + e))%Z ->
  IZR m * pow2 e <= x < (IZR m + 1) * pow2 e ->
  x * (1 + rel) + tiny < pow2 emax ->
  exists y : R,
    0 <= y
    /\ Exact.is_finite (binary_round_aux prec emax s m e l) = true
    /\ Exact.value (binary_round_aux prec emax s m e l)
       = (if s then - y else y)
    /\ Rabs (y - x) <= rel * x + tiny.
Proof.
  intros Hm Hal [Hlo Hhi] Hover.
  destruct (binary_round_aux_integers s m e l Hm Hal)
    as (m1 & m2 & e1 & He1 & Hemin & Hm1 & [Hd1 Hd2] & Hr & Hnormal & Hres).
  pose proof (pow2_pos e) as Pe. pose proof (pow2_pos e1) as Pe1.
  pose proof (pow2_pos emin) as Pmin.
  pose proof (pow2_pos (1 - prec)) as Prel.
  assert (Hx0 : 0 <= x).
  { apply Rle_trans with (2 := Hlo). apply Rmult_le_pos; [|lra].
    apply IZR_le. assumption. }
  (* the exact value between the truncated mantissa and its successor *)
  assert (Hx1 : IZR m1 * pow2 e1 <= x < (IZR m1 + 1) * pow2 e1).
  { split.
    - rewrite (IZR_shift m1 _ e1 e He1 eq_refl).
      apply Rle_trans with (2 := Hlo). apply Rmult_le_compat_r; [lra|].
      apply IZR_le. assumption.
    - rewrite <- plus_IZR. rewrite (IZR_shift (m1 + 1) _ e1 e He1 eq_refl).
      apply Rlt_le_trans with (1 := Hhi). apply Rmult_le_compat_r; [lra|].
      rewrite <- plus_IZR. apply IZR_le. lia. }
  assert (Hstep : pow2 e1 <= rel * x + tiny).
  { destruct Hnormal as [->|Hn].
    - assert (0 <= rel * x) by (apply Rmult_le_pos; lra). lra.
    - assert (Hone : pow2 e1 = rel * (pow2 (prec - 1) * pow2 e1)).
      { rewrite <- Rmult_assoc, <- pow2_add.
        replace (1 - prec + (prec - 1))%Z with 0%Z by lia.
        cbn [powerRZ]. ring. }
      rewrite Hone at 1.
      assert (pow2 (prec - 1) * pow2 e1 <= x).
      { apply Rle_trans with (2 := proj1 Hx1).
        apply Rmult_le_compat_r; [lra|].
        rewrite pow2_IZR by lia. apply IZR_le. assumption. }
      assert (rel * (pow2 (prec - 1) * pow2 e1) <= rel * x)
        by (apply Rmult_le_compat_l; lra).
      lra. }
  set (y := IZR m2 * pow2 e1).
  assert (Hy : IZR m1 * pow2 e1 <= y <= (IZR m1 + 1) * pow2 e1).
  { unfold y. split; apply Rmult_le_compat_r; try lra.
    - apply IZR_le. lia.
    - rewrite <- plus_IZR. apply IZR_le. lia. }
  assert (Hy0 : 0 <= y).
  { unfold y. apply Rmult_le_pos; [apply IZR_le; lia|lra]. }
  assert (Herr : Rabs (y - x) <= rel * x + tiny).
  { apply Rabs_le. replace ((IZR m1 + 1) * pow2 e1)
      with (IZR m1 * pow2 e1 + pow2 e1) in * by ring. lra. }
  exists y. split; [exact Hy0|].
  destruct Hres as [[Hz ->]|(m3 & e3 & He3 & Hm3 & Hn3 & ->)].
  - cbn [Exact.is_finite Exact.value]. split; [reflexivity|].
    split; [|exact Herr].
    unfold y. rewrite Hz. destruct s; ring.
  - assert (Hval : IZR (Z.pos m3) * pow2 e3 = y).
    { unfold y. apply IZR_shift; assumption. }
    assert (Hfit : (e3 <= emax - prec)%Z).
    { destruct (Z_le_gt_dec e3 (emax - prec)) as [|Hgt]; [assumption|].
      exfalso. destruct Hn3 as [->|Hn3]; [rewrite emin_spec in Hgt; lia|].
      assert (Hbig : pow2 emax <= y).
      { rewrite <- Hval.
        replace emax with ((prec - 1) + (emax - prec + 1))%Z at 1 by lia.
        rewrite pow2_add.
        apply Rmult_le_compat; try (left; apply pow2_pos).
        - rewrite pow2_IZR by lia. apply IZR_le. assumption.
        - apply pow2_le. lia. }
      replace ((IZR m1 + 1) * pow2 e1)
        with (IZR m1 * pow2 e1 + pow2 e1) in * by ring.
      assert (rel * x = x * rel) by ring. lra. }
    apply Z.leb_le in Hfit. rewrite Hfit.
    cbn [Exact.is_finite Exact.value]. split; [reflexivity|].
    split; [|exact Herr].
    rewrite <- Hval. destruct s; ring.
Qed.

(** ** The operations

    [rounds_to z t]: the result [z] is finite, within the error bound of
    the exact value [t], and on the same side of zero. *)

Abbreviation rounds_to z t :=
  (Exact.is_finite z = true
   /\ Rabs (Exact.value z - t) <= rel * Rabs t + tiny
   /\ (0 <= t -> 0 <= Exact.value z)
   /\ (t <= 0 -> Exact.value z <= 0)).

Lemma rounds_to_exact (z : spec_float) :
  Exact.is_finite z = true -> rounds_to z (Exact.value z).
Proof.
  intros Hf. split; [exact Hf|].
  pose proof (pow2_pos emin). pose proof (pow2_pos (1 - prec)).
  pose proof (Rabs_pos (Exact.value z)).
  split; [|split; intros; assumption].
  replace (Exact.value z - Exact.value z) with 0 by ring.
  rewrite Rabs_R0. assert (0 <= rel * Rabs (Exact.value z))
    by (apply Rmult_le_pos; lra). lra.
Qed.

Lemma rounds_to_zero (s : bool) (t : R) : t = 0 -> rounds_to (S754_zero s) t.
Proof. intros ->. exact (rounds_to_exact (S754_zero s) eq_refl). Qed.

Lemma rounds_to_signed (s : bool) (z : spec_float) (X y : R) :
  0 < X -> 0 <= y ->
  Exact.is_finite z = true ->
  Exact.value z = (if s then - y else y) ->
  Rabs (y - X) <= rel * X + tiny ->
  rounds_to z (if s then - X else X).
Proof.
  intros HX Hy Hf Hv Herr. split; [exact Hf|]. rewrite Hv.
  destruct s.
  - rewrite Rabs_Ropp, (Rabs_pos_eq X) by lra.
    replace (- y - - X) with (- (y - X)) by ring. rewrite Rabs_Ropp.
    split; [exact Herr|]. split; intros; lra.
  - rewrite (Rabs_pos_eq X) by lra. split; [exact Herr|].
    split; intros; lra.
Qed.

Lemma value_finite (s : bool) (m : positive) (e : Z) :
  Exact.value (S754_finite s m e)
  = (if s then - (IZR (Z.pos m) * pow2 e) else IZR (Z.pos m) * pow2 e).
Proof. cbn [Exact.value]. destruct s; ring. Qed.

Lemma magnitude_pos (m : positive) (e : Z) : 0 < IZR (Z.pos m) * pow2 e.
Proof.
  apply Rmult_lt_0_compat; [apply IZR_lt; lia|apply pow2_pos].
Qed.

Lemma fexp_monotone (a b : Z) : (a <= b)%Z -> (fexp a <= fexp b)%Z.
Proof. rewrite !fexp_max. lia. Qed.

Lemma Zdigits2_lower (m k : Z) :
  (0 <= k)%Z -> (2 ^ k <= m)%Z -> (k + 1 <= Zdigits2 m)%Z.
Proof.
  intros Hk Hle.
  assert (Hm : (0 < m)%Z).
  { assert (0 < 2 ^ k)%Z by (apply Z.pow_pos_nonneg; lia). lia. }
  pose proof (Zdigits2_bounds m Hm) as [_ Hhi].
  pose proof (Zdigits2_pos m Hm).
  assert (Hlt : (2 ^ k < 2 ^ Zdigits2 m)%Z) by lia.
  apply Z.pow_lt_mono_r_iff in Hlt; lia.
Qed.

Lemma Zdigits2_nonneg (m : Z) : (0 <= Zdigits2 m)%Z.
Proof. destruct m; cbn; lia. Qed.

(** *** Product *)

Lemma mul_error_aligned (sx sy : bool) (mx my : positive) (ex ey : Z) :
  (ex + ey <= fexp (Zdigits2 (Z.pos (mx * my)) + (ex + ey)))%Z ->
  let x := S754_finite sx mx ex in
  let y := S754_finite sy my ey in
  Rabs (Exact.value x * Exact.value y) * (1 + rel) + tiny < pow2 emax ->
  rounds_to (SFmul prec emax x y) (Exact.value x * Exact.value y).
Proof.
  intros Hal x y Hover.
  set (X := IZR (Z.pos (mx * my)) * pow2 (ex + ey)).
  assert (HX : 0 < X) by apply magnitude_pos.
  assert (Hprod : Exact.value x * Exact.value y
                  = (if xorb sx sy then - X else X)).
  { unfold x, y, X. rewrite !value_finite, Pos2Z.inj_mul, mult_IZR, pow2_add.
    destruct sx, sy; cbn [xorb]; ring. }
  rewrite Hprod in Hover |- *.
  assert (Habs : Rabs (if xorb sx sy then - X else X) = X).
  { destruct (xorb sx sy); [rewrite Rabs_Ropp|]; apply Rabs_pos_eq; lra. }
  rewrite Habs in Hover.
  destruct (binary_round_aux_error (xorb sx sy) (Z.pos (mx * my)) (ex + ey)
              loc_Exact X ltac:(lia) Hal)
    as (r & Hr & Hf & Hv & Herr).
  - fold X. pose proof (pow2_pos (ex + ey)). split; [lra|].
    unfold X. lra.
  - exact Hover.
  - unfold x, y. cbn [SFmul]. eapply rounds_to_signed; eassumption.
Qed.

(** The product of two values of the format. *)
Lemma mul_error_valid (x y : spec_float) :
  valid_binary prec emax x = true -> valid_binary prec emax y = true ->
  Exact.is_finite x = true -> Exact.is_finite y = true ->
  Rabs (Exact.value x * Exact.value y) * (1 + rel) + tiny < pow2 emax ->
  rounds_to (SFmul prec emax x y) (Exact.value x * Exact.value y).
Proof.
  intros Hvx Hvy Hfx Hfy Hover.
  destruct x as [sx|sx| |sx mx ex]; try discriminate Hfx;
    destruct y as [sy|sy| |sy my ey]; try discriminate Hfy;
    try (cbn [SFmul]; apply rounds_to_zero; cbn [Exact.value]; ring).
  apply mul_error_aligned; [|exact Hover].
  cbn [valid_binary] in Hvx, Hvy. unfold bounded, canonical_mantissa in *.
  apply andb_true_iff in Hvx. apply andb_true_iff in Hvy.
  destruct Hvx as [Hcx _]. destruct Hvy as [Hcy _].
  apply Z.eqb_eq in Hcx. apply Z.eqb_eq in Hcy.
  rewrite fexp_max in *.
  pose proof (Zdigits2_bounds (Z.pos mx) ltac:(lia)) as [Lx _].
  pose proof (Zdigits2_bounds (Z.pos my) ltac:(lia)) as [Ly _].
  pose proof (Zdigits2_pos (Z.pos mx) ltac:(lia)) as Px.
  pose proof (Zdigits2_pos (Z.pos my) ltac:(lia)) as Py.
  cbn [Zdigits2] in *.
  assert (Hd : (Z.pos (digits2_pos mx) + Z.pos (digits2_pos my) - 1
                <= Z.pos (digits2_pos (mx * my)))%Z).
  { replace (Z.pos (digits2_pos mx) + Z.pos (digits2_pos my) - 1)%Z
      with (Z.pos (digits2_pos mx) - 1 + (Z.pos (digits2_pos my) - 1) + 1)%Z
      by lia.
    apply (Zdigits2_lower (Z.pos (mx * my))); [lia|].
    rewrite Z.pow_add_r, Pos2Z.inj_mul by lia.
    apply Z.mul_le_mono_nonneg; try assumption;
      apply Z.pow_nonneg; lia. }
  rewrite emin_spec in *. lia.
Qed.

(** The product with a value of full precision, a constant of the code. *)
Lemma mul_error_full (x y : spec_float) :
  Exact.is_finite x = true -> Exact.is_finite y = true ->
  (forall (s : bool) (m : positive) (e : Z),
      y = S754_finite s m e -> (prec <= Zdigits2 (Z.pos m))%Z) ->
  Rabs (Exact.value x * Exact.value y) * (1 + rel) + tiny < pow2 emax ->
  rounds_to (SFmul prec emax x y) (Exact.value x * Exact.value y).
Proof.
  intros Hfx Hfy Hfull Hover.
  destruct x as [sx|sx| |sx mx ex]; try discriminate Hfx;
    destruct y as [sy|sy| |sy my ey]; try discriminate Hfy;
    try (cbn [SFmul]; apply rounds_to_zero; cbn [Exact.value]; ring).
  apply mul_error_aligned; [|exact Hover].
  specialize (Hfull sy my ey eq_refl).
  pose proof (Zdigits2_bounds (Z.pos my) ltac:(lia)) as [Ly _].
  assert (Hd : (Zdigits2 (Z.pos my) <= Zdigits2 (Z.pos (mx * my)))%Z).
  { replace (Zdigits2 (Z.pos my)) with (Zdigits2 (Z.pos my) - 1 + 1)%Z by lia.
    apply Zdigits2_lower; [lia|]. rewrite Pos2Z.inj_mul. nia. }
  rewrite fexp_max. lia.
Qed.

(** *** Sum and difference *)

Lemma shl_align_cases (mx : positive) (ex t : Z) :
  (ex <= t /\ shl_align mx ex t = (mx, ex))%Z
  \/ (t < ex /\ exists mz : positive,
         shl_align mx ex t = (mz, t)
         /\ Z.pos mz = Z.pos mx * 2 ^ (ex - t))%Z.
Proof.
  unfold shl_align. destruct (t - ex)%Z as [|d|d] eqn:E.
  - left. split; [lia|reflexivity].
  - left. split; [lia|reflexivity].
  - right. split; [lia|]. eexists. split; [reflexivity|].
    rewrite F32Round.iter_xO. f_equal. f_equal. lia.
Qed.

Lemma Zdigits2_shift (m : positive) (k : Z) :
  (0 <= k)%Z -> Zdigits2 (Z.pos m * 2 ^ k) = (Zdigits2 (Z.pos m) + k)%Z.
Proof.
  intros Hk.
  pose proof (Zdigits2_bounds (Z.pos m) ltac:(lia)) as [Lo Hi].
  pose proof (Zdigits2_pos (Z.pos m) ltac:(lia)) as Hd.
  assert (Hp : (0 < 2 ^ k)%Z) by (apply Z.pow_pos_nonneg; lia).
  apply Zdigits2_unique; [nia|].
  replace (Zdigits2 (Z.pos m) + k - 1)%Z
    with (Zdigits2 (Z.pos m) - 1 + k)%Z by lia.
  rewrite !Z.pow_add_r by lia. split; nia.
Qed.

(** [binary_round]: the magnitude [mx * 2^ex], aligned and rounded. *)
Lemma binary_round_error (s : bool) (mx : positive) (ex : Z) :
  let X := IZR (Z.pos mx) * pow2 ex in
  X * (1 + rel) + tiny < pow2 emax ->
  rounds_to (binary_round prec emax s mx ex) (if s then - X else X).
Proof.
  intros X Hover. unfold binary_round.
  set (t := fexp (Z.pos (digits2_pos mx) + ex)).
  assert (HX : 0 < X) by apply magnitude_pos.
  destruct (shl_align_cases mx ex t) as [[Hle ->]|[Hlt (mz & -> & Hmz)]].
  - destruct (binary_round_aux_error s (Z.pos mx) ex loc_Exact X
                ltac:(lia) Hle) as (r & Hr & Hf & Hv & Herr).
    + fold X. pose proof (pow2_pos ex). split; [lra|]. unfold X. lra.
    + exact Hover.
    + eapply rounds_to_signed; eassumption.
  - assert (Hsame : IZR (Z.pos mz) * pow2 t = X).
    { unfold X. symmetry. apply IZR_shift; [lia|]. symmetry. exact Hmz. }
    destruct (binary_round_aux_error s (Z.pos mz) t loc_Exact X
                ltac:(lia)) as (r & Hr & Hf & Hv & Herr).
    + rewrite Hmz, Zdigits2_shift by lia. cbn [Zdigits2].
      replace (Z.pos (digits2_pos mx) + (ex - t) + t)%Z
        with (Z.pos (digits2_pos mx) + ex)%Z by lia.
      fold t. lia.
    + rewrite Hsame. pose proof (pow2_pos t). split; [lra|].
      rewrite <- Hsame. lra.
    + exact Hover.
    + eapply rounds_to_signed; eassumption.
Qed.

Lemma binary_normalize_error (D e : Z) (szero : bool) :
  Rabs (IZR D * pow2 e) * (1 + rel) + tiny < pow2 emax ->
  rounds_to (binary_normalize prec emax D e szero) (IZR D * pow2 e).
Proof.
  intros Hover. pose proof (pow2_pos e) as Pe.
  destruct D as [|p|p]; cbn [binary_normalize].
  - apply rounds_to_zero. ring.
  - pose proof (magnitude_pos p e).
    rewrite Rabs_pos_eq in Hover by lra.
    exact (binary_round_error false p e Hover).
  - pose proof (magnitude_pos p e).
    assert (Hneg : IZR (Z.neg p) * pow2 e = - (IZR (Z.pos p) * pow2 e)).
    { change (Z.neg p) with (- Z.pos p)%Z. rewrite opp_IZR. ring. }
    rewrite Hneg in Hover |- *. rewrite Rabs_Ropp, Rabs_pos_eq in Hover by lra.
    exact (binary_round_error true p e Hover).
Qed.

Lemma cond_Zopp_value (s : bool) (m : positive) (e ez : Z) :
  (ez <= e)%Z ->
  IZR (cond_Zopp s (Z.pos (fst (shl_align m e ez)))) * pow2 ez
  = Exact.value (S754_finite s m e).
Proof.
  intros Hle. rewrite F32Round.shl_align_fst by assumption.
  rewrite value_finite.
  rewrite (IZR_shift (Z.pos m) _ e ez Hle eq_refl).
  destruct s; cbn [cond_Zopp]; [rewrite opp_IZR|]; ring.
Qed.

Lemma add_error (x y : spec_float) :
  Exact.is_finite x = true -> Exact.is_finite y = true ->
  Rabs (Exact.value x + Exact.value y) * (1 + rel) + tiny < pow2 emax ->
  rounds_to (SFadd prec emax x y) (Exact.value x + Exact.value y).
Proof.
  intros Hfx Hfy Hover.
  destruct x as [sx|sx| |sx mx ex]; try discriminate Hfx;
    destruct y as [sy|sy| |sy my ey]; try discriminate Hfy.
  - cbn [SFadd]. destruct sx, sy; apply rounds_to_zero; cbn; ring.
  - cbn [SFadd].
    replace (Exact.value (S754_zero sx) + Exact.value (S754_finite sy my ey))
      with (Exact.value (S754_finite sy my ey)) by (cbn; ring).
    apply rounds_to_exact. reflexivity.
  - cbn [SFadd].
    replace (Exact.value (S754_finite sx mx ex) + Exact.value (S754_zero sy))
      with (Exact.value (S754_finite sx mx ex)) by (cbn; ring).
    apply rounds_to_exact. reflexivity.
  - cbn [SFadd]. cbv zeta.
    set (ez := Z.min ex ey).
    assert (Hsum : IZR (cond_Zopp sx (Z.pos (fst (shl_align mx ex ez)))
                        + cond_Zopp sy (Z.pos (fst (shl_align my ey ez))))
                   * pow2 ez
                   = Exact.value (S754_finite sx mx ex)
                     + Exact.value (S754_finite sy my ey)).
    { rewrite plus_IZR, Rmult_plus_distr_r.
      rewrite !cond_Zopp_value by (unfold ez; lia). reflexivity. }
    rewrite <- Hsum in Hover |- *.
    apply binary_normalize_error. exact Hover.
Qed.

Lemma sub_error (x y : spec_float) :
  Exact.is_finite x = true -> Exact.is_finite y = true ->
  Rabs (Exact.value x - Exact.value y) * (1 + rel) + tiny < pow2 emax ->
  rounds_to (SFsub prec emax x y) (Exact.value x - Exact.value y).
Proof.
  intros Hfx Hfy Hover.
  destruct x as [sx|sx| |sx mx ex]; try discriminate Hfx;
    destruct y as [sy|sy| |sy my ey]; try discriminate Hfy.
  - cbn [SFsub]. destruct sx, sy; apply rounds_to_zero; cbn; ring.
  - cbn [SFsub].
    replace (Exact.value (S754_zero sx) - Exact.value (S754_finite sy my ey))
      with (Exact.value (S754_finite (negb sy) my ey))
      by (rewrite !value_finite; destruct sy; cbn; ring).
    apply rounds_to_exact. reflexivity.
  - cbn [SFsub].
    replace (Exact.value (S754_finite sx mx ex) - Exact.value (S754_zero sy))
      with (Exact.value (S754_finite sx mx ex)) by (cbn; ring).
    apply rounds_to_exact. reflexivity.
  - cbn [SFsub]. cbv zeta.
    set (ez := Z.min ex ey).
    assert (Hsum : IZR (cond_Zopp sx (Z.pos (fst (shl_align mx ex ez)))
                        - cond_Zopp sy (Z.pos (fst (shl_align my ey ez))))
                   * pow2 ez
                   = Exact.value (S754_finite sx mx ex)
                     - Exact.value (S754_finite sy my ey)).
    { rewrite minus_IZR. unfold Rminus. rewrite Rmult_plus_distr_r.
      rewrite Ropp_mult_distr_l_reverse.
      rewrite !cond_Zopp_value by (unfold ez; lia). reflexivity. }
    rewrite <- Hsum in Hover |- *.
    apply binary_normalize_error. exact Hover.
Qed.

(** *** Quotient *)

Lemma Rle_div_mult (a b c : R) : 0 < c -> a <= b * c -> a / c <= b.
Proof.
  intros Hc Hle. replace b with (b * c / c) by (field; lra).
  unfold Rdiv. apply Rmult_le_compat_r; [|exact Hle].
  left. apply Rinv_0_lt_compat. exact Hc.
Qed.

Lemma Rle_mult_div (a b c : R) : 0 < c -> a * c <= b -> a <= b / c.
Proof.
  intros Hc Hle. replace a with (a * c / c) by (field; lra).
  unfold Rdiv. apply Rmult_le_compat_r; [|exact Hle].
  left. apply Rinv_0_lt_compat. exact Hc.
Qed.

Lemma Rlt_div_mult (a b c : R) : 0 < c -> a < b * c -> a / c < b.
Proof.
  intros Hc Hlt. replace b with (b * c / c) by (field; lra).
  unfold Rdiv. apply Rmult_lt_compat_r; [|exact Hlt].
  apply Rinv_0_lt_compat. exact Hc.
Qed.

Lemma div_error (x : spec_float) (sy : bool) (my : positive) (ey : Z) :
  let y := S754_finite sy my ey in
  Exact.is_finite x = true ->
  Rabs (Exact.value x / Exact.value y) * (1 + rel) + tiny < pow2 emax ->
  rounds_to (SFdiv prec emax x y) (Exact.value x / Exact.value y).
Proof.
  intros y Hfx Hover. unfold y in *.
  pose proof (magnitude_pos my ey) as Py.
  destruct x as [sx|sx| |sx mx ex]; try discriminate Hfx.
  { cbn [SFdiv]. apply rounds_to_zero. cbn [Exact.value]. unfold Rdiv. ring. }
  pose proof (magnitude_pos mx ex) as Px.
  cbn [SFdiv]. unfold SFdiv_core_binary.
  set (d1 := Zdigits2 (Z.pos mx)). set (d2 := Zdigits2 (Z.pos my)).
  set (e' := Z.min (fexp (d1 + ex - (d2 + ey))) (ex - ey)).
  set (s := (ex - ey - e')%Z).
  assert (Hs : (0 <= s)%Z) by (unfold s, e'; lia).
  set (m' := match s with
             | 0%Z => Z.pos mx
             | Z.pos _ => Z.shiftl (Z.pos mx) s
             | Z.neg _ => 0%Z
             end).
  assert (Hm' : m' = (Z.pos mx * 2 ^ s)%Z).
  { unfold m'. destruct s as [|p|p] eqn:E; [cbn; lia| |lia].
    rewrite Z.shiftl_mul_pow2 by lia. reflexivity. }
  assert (Hp : (0 < 2 ^ s)%Z) by (apply Z.pow_pos_nonneg; lia).
  pose proof (Z_div_mod m' (Z.pos my) ltac:(lia)) as Hdm.
  destruct (Z.div_eucl m' (Z.pos my)) as [q r]. destruct Hdm as [Hdm Hr].
  assert (Hq : (0 <= q)%Z) by nia.
  set (X := IZR (Z.pos mx) * pow2 ex / (IZR (Z.pos my) * pow2 ey)).
  assert (HX : 0 < X) by (apply Rdiv_lt_0_compat; assumption).
  pose proof (pow2_pos ex) as Pex. pose proof (pow2_pos ey) as Pey.
  pose proof (pow2_pos e') as Pe'.
  assert (Hmy : 0 < IZR (Z.pos my)) by (apply IZR_lt; lia).
  assert (Hquot : Exact.value (S754_finite sx mx ex)
                  / Exact.value (S754_finite sy my ey)
                  = (if xorb sx sy then - X else X)).
  { rewrite !value_finite. unfold X.
    destruct sx, sy; cbn [xorb]; field; repeat split; lra. }
  rewrite Hquot in Hover |- *.
  assert (Habs : Rabs (if xorb sx sy then - X else X) = X).
  { destruct (xorb sx sy); [rewrite Rabs_Ropp|]; apply Rabs_pos_eq; lra. }
  rewrite Habs in Hover.
  (* the exact quotient at the exponent [e'] *)
  assert (HXe : X = IZR m' * pow2 e' / IZR (Z.pos my)).
  { unfold X. rewrite Hm', mult_IZR, <- pow2_IZR by lia.
    replace ex with (s + e' + ey)%Z at 1 by (unfold s; lia).
    rewrite !pow2_add. field. repeat split; lra. }
  assert (Hsplit : IZR m' = IZR (Z.pos my) * IZR q + IZR r).
  { rewrite Hdm, plus_IZR, mult_IZR. reflexivity. }
  assert (Hr0 : 0 <= IZR r < IZR (Z.pos my)).
  { split; [apply IZR_le; lia|apply IZR_lt; lia]. }
  assert (Hbetween : IZR q * pow2 e' <= X < (IZR q + 1) * pow2 e').
  { rewrite HXe, Hsplit. split.
    - apply Rle_mult_div; [lra|].
      assert (0 <= IZR r * pow2 e') by (apply Rmult_le_pos; lra).
      replace ((IZR (Z.pos my) * IZR q + IZR r) * pow2 e')
        with (IZR q * pow2 e' * IZR (Z.pos my) + IZR r * pow2 e') by ring.
      lra.
    - apply Rlt_div_mult; [lra|].
      assert (IZR r * pow2 e' < IZR (Z.pos my) * pow2 e')
        by (apply Rmult_lt_compat_r; lra).
      replace ((IZR (Z.pos my) * IZR q + IZR r) * pow2 e')
        with (IZR q * pow2 e' * IZR (Z.pos my) + IZR r * pow2 e') by ring.
      replace ((IZR q + 1) * pow2 e' * IZR (Z.pos my))
        with (IZR q * pow2 e' * IZR (Z.pos my) + IZR (Z.pos my) * pow2 e')
        by ring.
      lra. }
  (* the quotient has the digits the format asks for *)
  assert (Hal : (e' <= fexp (Zdigits2 q + e'))%Z).
  { assert (Hk : (d1 + s - d2 <= Zdigits2 q)%Z).
    { destruct (Z_le_gt_dec (d1 + s - d2) 0) as [Hle|Hgt];
        [pose proof (Zdigits2_nonneg q); lia|].
      replace (d1 + s - d2)%Z with (d1 + s - d2 - 1 + 1)%Z by lia.
      apply Zdigits2_lower; [lia|].
      pose proof (Zdigits2_bounds (Z.pos mx) ltac:(lia)) as [L1 _].
      pose proof (Zdigits2_bounds (Z.pos my) ltac:(lia)) as [_ H2].
      pose proof (Zdigits2_pos (Z.pos mx) ltac:(lia)) as P1.
      pose proof (Zdigits2_pos (Z.pos my) ltac:(lia)) as P2.
      fold d1 in L1, P1. fold d2 in H2, P2.
      assert (Hpk : (0 < 2 ^ (d1 + s - d2 - 1))%Z)
        by (apply Z.pow_pos_nonneg; lia).
      assert (Hle : (2 ^ (d1 + s - d2 - 1) * 2 ^ d2 <= m')%Z).
      { rewrite <- Z.pow_add_r by lia.
        replace (d1 + s - d2 - 1 + d2)%Z with (d1 - 1 + s)%Z by lia.
        rewrite Z.pow_add_r by lia. rewrite Hm'. nia. }
      nia. }
    assert (Hmono := fexp_monotone (d1 + s - d2 + e') (Zdigits2 q + e')
                       ltac:(lia)).
    replace (d1 + s - d2 + e')%Z with (d1 + ex - (d2 + ey))%Z in Hmono
      by (unfold s; lia).
    unfold e' at 1. lia. }
  destruct (binary_round_aux_error (xorb sx sy) q e'
              (new_location (Z.pos my) r) X Hq Hal Hbetween Hover)
    as (z & Hz & Hf & Hv & Herr).
  eapply rounds_to_signed; eassumption.
Qed.

(** *** Square root *)

Lemma sqrt_error (x : spec_float) :
  Exact.is_finite x = true -> 0 <= Exact.value x ->
  sqrt (Exact.value x) * (1 + rel) + tiny < pow2 emax ->
  rounds_to (SFsqrt prec emax x) (sqrt (Exact.value x)).
Proof.
  intros Hfx Hpos Hover.
  destruct x as [sx|sx| |sx mx ex]; try discriminate Hfx.
  { cbn [SFsqrt]. apply rounds_to_zero. cbn [Exact.value]. apply sqrt_0. }
  pose proof (magnitude_pos mx ex) as Px.
  destruct sx; [rewrite value_finite in Hpos; lra|].
  rewrite value_finite in Hover |- *.
  cbn [SFsqrt]. unfold SFsqrt_core_binary.
  set (d := Zdigits2 (Z.pos mx)).
  set (e' := Z.min (fexp (Z.div2 (d + ex + 1))) (Z.div2 ex)).
  set (s := (ex - 2 * e')%Z).
  assert (Hs : (0 <= s)%Z).
  { unfold s, e'. rewrite (Z.div2_div ex).
    pose proof (Z.mul_div_le ex 2 ltac:(lia)). lia. }
  set (m' := match s with
             | 0%Z => Z.pos mx
             | Z.pos _ => Z.shiftl (Z.pos mx) s
             | Z.neg _ => 0%Z
             end).
  assert (Hm' : m' = (Z.pos mx * 2 ^ s)%Z).
  { unfold m'. destruct s as [|p|p] eqn:E; [cbn; lia| |lia].
    rewrite Z.shiftl_mul_pow2 by lia. reflexivity. }
  assert (Hp : (0 < 2 ^ s)%Z) by (apply Z.pow_pos_nonneg; lia).
  assert (Hm0 : (0 < m')%Z) by (rewrite Hm'; nia).
  pose proof (Z.sqrtrem_spec m' ltac:(lia)) as Hsq.
  destruct (Z.sqrtrem m') as [q r]. destruct Hsq as [Hsq Hr].
  assert (Hq : (0 <= q)%Z) by nia.
  set (X := sqrt (IZR (Z.pos mx) * pow2 ex)) in *.
  assert (HX : 0 < X) by (apply sqrt_lt_R0; exact Px).
  pose proof (pow2_pos e') as Pe'.
  assert (HXe : X = sqrt (IZR m') * pow2 e').
  { unfold X. rewrite Hm', mult_IZR, <- pow2_IZR by lia.
    replace ex with (s + (e' + e'))%Z at 1 by (unfold s; lia).
    rewrite !pow2_add.
    replace (IZR (Z.pos mx) * (pow2 s * (pow2 e' * pow2 e')))
      with (IZR (Z.pos mx) * pow2 s * (pow2 e' * pow2 e')) by ring.
    rewrite sqrt_mult_alt.
    - rewrite sqrt_square by lra. reflexivity.
    - apply Rmult_le_pos; [apply IZR_le; lia|left; apply pow2_pos]. }
  assert (Hbetween : IZR q * pow2 e' <= X < (IZR q + 1) * pow2 e').
  { rewrite HXe. split.
    - apply Rmult_le_compat_r; [lra|].
      rewrite <- (sqrt_square (IZR q)) by (apply IZR_le; lia).
      apply sqrt_le_1_alt. rewrite <- mult_IZR. apply IZR_le. nia.
    - apply Rmult_lt_compat_r; [lra|].
      assert (H1 : 0 <= IZR q + 1).
      { assert (0 <= IZR q) by (apply IZR_le; lia). lra. }
      rewrite <- (sqrt_square (IZR q + 1)) by exact H1.
      apply sqrt_lt_1_alt. split; [apply IZR_le; lia|].
      rewrite <- plus_IZR, <- mult_IZR. apply IZR_lt. nia. }
  assert (Hal : (e' <= fexp (Zdigits2 q + e'))%Z).
  { set (j := ((d + s + 1) / 2)%Z).
    assert (Hj : (j <= Zdigits2 q)%Z).
    { destruct (Z_le_gt_dec j 0) as [Hle|Hgt];
        [pose proof (Zdigits2_nonneg q); lia|].
      replace j with (j - 1 + 1)%Z by lia.
      apply Zdigits2_lower; [lia|].
      pose proof (Zdigits2_bounds (Z.pos mx) ltac:(lia)) as [L1 _].
      pose proof (Zdigits2_pos (Z.pos mx) ltac:(lia)) as P1.
      fold d in L1, P1.
      assert (Hpj : (0 < 2 ^ (j - 1))%Z) by (apply Z.pow_pos_nonneg; lia).
      assert (Hle : (2 ^ (j - 1) * 2 ^ (j - 1) <= m')%Z).
      { rewrite <- Z.pow_add_r by lia.
        apply Z.le_trans with (2 ^ (d - 1 + s))%Z.
        - apply Z.pow_le_mono_r; [lia|]. unfold j.
          pose proof (Z.mul_div_le (d + s + 1) 2 ltac:(lia)). lia.
        - rewrite Z.pow_add_r by lia. rewrite Hm'. nia. }
      destruct (Z_le_gt_dec (2 ^ (j - 1)) q) as [|Hgt2]; [assumption|].
      exfalso. nia. }
    assert (Hje : (j + e' = Z.div2 (d + ex + 1))%Z).
    { unfold j. rewrite Z.div2_div.
      replace (d + ex + 1)%Z with (d + s + 1 + e' * 2)%Z by (unfold s; lia).
      rewrite Z.div_add by lia. reflexivity. }
    assert (Hmono := fexp_monotone (j + e') (Zdigits2 q + e') ltac:(lia)).
    rewrite Hje in Hmono. unfold e' at 1. lia. }
  destruct (binary_round_aux_error false q e'
              (if (r =? 0)%Z then loc_Exact
               else loc_Inexact (if (r <=? q)%Z then Lt else Gt))
              X Hq Hal Hbetween)
    as (z & Hz & Hf & Hv & Herr).
  - exact Hover.
  - apply (rounds_to_signed false _ X z); assumption.
Qed.

(** ** Values of the format and their order *)

Lemma valid_finite_bounds (s : bool) (m : positive) (e : Z) :
  valid_binary prec emax (S754_finite s m e) = true ->
  (emin <= e)%Z /\ (Z.pos m < 2 ^ prec)%Z
  /\ (emin < e -> 2 ^ (prec - 1) <= Z.pos m)%Z.
Proof.
  cbn [valid_binary]. unfold bounded, canonical_mantissa. intros Hv.
  apply andb_true_iff in Hv. destruct Hv as [Hc _].
  apply Z.eqb_eq in Hc. rewrite fexp_max in Hc.
  pose proof (Zdigits2_bounds (Z.pos m) ltac:(lia)) as [Lo Hi].
  cbn [Zdigits2] in Lo, Hi.
  split; [lia|]. split.
  - assert (2 ^ Z.pos (digits2_pos m) <= 2 ^ prec)%Z
      by (apply Z.pow_le_mono_r; lia). lia.
  - intros He.
    replace (prec - 1)%Z with (Z.pos (digits2_pos m) - 1)%Z by lia.
    exact Lo.
Qed.

(** The order of two magnitudes of the format is that of their exponents
    and then of their mantissas. *)
Lemma magnitude_le_of_compare (m K : positive) (e g : Z) :
  valid_binary prec emax (S754_finite false m e) = true ->
  valid_binary prec emax (S754_finite false K g) = true ->
  (e < g \/ (e = g /\ Z.pos m <= Z.pos K))%Z ->
  IZR (Z.pos m) * pow2 e <= IZR (Z.pos K) * pow2 g.
Proof.
  intros Hm HK Hcmp.
  destruct (valid_finite_bounds false m e Hm) as (He & Hhi & _).
  destruct (valid_finite_bounds false K g HK) as (Hg & _ & Hlo).
  pose proof (pow2_pos e) as Pe.
  destruct Hcmp as [Hlt|[-> Hle]].
  - specialize (Hlo ltac:(lia)).
    apply Rle_trans with (pow2 prec * pow2 e).
    + apply Rmult_le_compat_r; [lra|]. rewrite pow2_IZR by lia.
      apply IZR_le. lia.
    + rewrite <- pow2_add.
      apply Rle_trans with (pow2 (prec - 1) * pow2 g).
      * rewrite <- pow2_add. apply pow2_le. lia.
      * apply Rmult_le_compat_r; [left; apply pow2_pos|].
        rewrite pow2_IZR by lia. apply IZR_le. exact Hlo.
  - apply Rmult_le_compat_r; [lra|]. apply IZR_le. exact Hle.
Qed.

(** A value of the format between [-B] and [B] is finite, of magnitude
    at most [B]. *)
Lemma within_magnitude (x : spec_float) (K : positive) (g : Z) :
  valid_binary prec emax x = true ->
  valid_binary prec emax (S754_finite false K g) = true ->
  SFleb (S754_finite true K g) x = true ->
  SFleb x (S754_finite false K g) = true ->
  Exact.is_finite x = true
  /\ Rabs (Exact.value x) <= IZR (Z.pos K) * pow2 g.
Proof.
  intros Hv HK Hlo Hhi. pose proof (magnitude_pos K g) as PK.
  destruct x as [s|s| |s m e].
  - split; [reflexivity|]. cbn [Exact.value]. rewrite Rabs_R0. lra.
  - destruct s; discriminate.
  - discriminate.
  - split; [reflexivity|]. pose proof (magnitude_pos m e) as Pm.
    rewrite value_finite. destruct s.
    + rewrite Rabs_Ropp, Rabs_pos_eq by lra.
      apply magnitude_le_of_compare; try assumption.
      apply leb_finite_neg. exact Hlo.
    + rewrite Rabs_pos_eq by lra.
      apply magnitude_le_of_compare; try assumption.
      apply leb_finite_pos. exact Hhi.
Qed.

(** A value of the format that is not below zero and at most [B]. *)
Lemma below_magnitude (x : spec_float) (K : positive) (g : Z) :
  valid_binary prec emax x = true ->
  valid_binary prec emax (S754_finite false K g) = true ->
  SFltb x (S754_zero false) = false ->
  SFleb x (S754_finite false K g) = true ->
  Exact.is_finite x = true
  /\ 0 <= Exact.value x <= IZR (Z.pos K) * pow2 g.
Proof.
  intros Hv HK Hlo Hhi. pose proof (magnitude_pos K g) as PK.
  destruct x as [s|s| |s m e].
  - split; [reflexivity|]. cbn [Exact.value]. lra.
  - destruct s; discriminate.
  - discriminate.
  - destruct s; [discriminate|]. split; [reflexivity|].
    pose proof (magnitude_pos m e) as Pm. rewrite value_finite.
    split; [lra|].
    apply magnitude_le_of_compare; try assumption.
    apply leb_finite_pos. exact Hhi.
Qed.

(** ** The integer part *)

Lemma trunc_magnitude (x : spec_float) (N : Z) :
  Exact.is_finite x = true ->
  Rabs (Exact.value x) < IZR N ->
  (- N < F32.trunc x < N)%Z.
Proof.
  intros Hf Hlt.
  destruct x as [s|s| |s m e]; try discriminate Hf.
  - cbn [Exact.value] in Hlt. rewrite Rabs_R0 in Hlt.
    apply lt_IZR in Hlt. cbn [F32.trunc]. lia.
  - pose proof (magnitude_pos m e) as Pm.
    assert (Hmag : Rabs (Exact.value (S754_finite s m e))
                   = IZR (Z.pos m) * pow2 e).
    { rewrite value_finite. destruct s; [rewrite Rabs_Ropp|];
        apply Rabs_pos_eq; lra. }
    rewrite Hmag in Hlt.
    set (a := match e with
              | Z.neg p => Z.shiftr (Z.pos m) (Z.pos p)
              | _ => Z.shiftl (Z.pos m) e
              end).
    assert (Ha : (0 <= a)%Z /\ IZR a <= IZR (Z.pos m) * pow2 e).
    { unfold a. destruct e as [|p|p].
      - rewrite Z.shiftl_0_r. split; [lia|]. cbn [powerRZ]. lra.
      - rewrite Z.shiftl_mul_pow2 by lia. split.
        + apply Z.mul_nonneg_nonneg; [lia|]. apply Z.pow_nonneg. lia.
        + rewrite mult_IZR, <- pow2_IZR by lia. lra.
      - rewrite Z.shiftr_div_pow2 by lia.
        assert (Hp : (0 < 2 ^ Z.pos p)%Z) by (apply Z.pow_pos_nonneg; lia).
        split; [apply Z.div_pos; lia|].
        pose proof (Z.mul_div_le (Z.pos m) (2 ^ Z.pos p) Hp) as Hd.
        apply IZR_le in Hd. rewrite mult_IZR, <- pow2_IZR in Hd by lia.
        pose proof (pow2_pos (Z.pos p)) as Pp.
        pose proof (pow2_pos (Z.neg p)) as Pn.
        assert (Hinv : pow2 (Z.pos p) * pow2 (Z.neg p) = 1).
        { rewrite <- pow2_add. replace (Z.pos p + Z.neg p)%Z with 0%Z by lia.
          reflexivity. }
        set (q := IZR (Z.pos m / 2 ^ Z.pos p)) in *.
        replace q with (pow2 (Z.pos p) * q * pow2 (Z.neg p))
          by (rewrite (Rmult_comm (pow2 (Z.pos p)) q), Rmult_assoc, Hinv;
              ring).
        apply Rmult_le_compat_r; lra. }
    destruct Ha as [Ha0 Hale].
    assert (HaN : (a < N)%Z) by (apply lt_IZR; lra).
    cbn [F32.trunc]. fold a. destruct s; lia.
Qed.

(** ** Magnitudes *)

Lemma rel_le_one : rel <= 1.
Proof.
  change 1 with (pow2 0). apply pow2_le. lia.
Qed.

Lemma tiny_le_one : tiny <= 1.
Proof.
  change 1 with (pow2 0). apply pow2_le. rewrite emin_spec. lia.
Qed.

Lemma rel_le_single : (24 <= prec)%Z -> rel <= / 8388608.
Proof.
  intros Hp. apply Rle_trans with (pow2 (-23)); [apply pow2_le; lia|].
  cbn [powerRZ]. apply Req_le. f_equal.
  rewrite pow_IZR. f_equal.
Qed.

(** A result that does not overflow: the exact value is below a quarter
    of [2^emax]. *)
Lemma no_overflow (t : R) :
  Rabs t <= pow2 (emax - 2) -> Rabs t * (1 + rel) + tiny < pow2 emax.
Proof.
  intros Ht. pose proof rel_le_one. pose proof tiny_le_one.
  pose proof (Rabs_pos t) as Hpos. pose proof (pow2_pos (1 - prec)).
  assert (Hprod : Rabs t * rel <= Rabs t * 1)
    by (apply Rmult_le_compat_l; lra).
  assert (Hmax : pow2 emax = 4 * pow2 (emax - 2)).
  { replace emax with (2 + (emax - 2))%Z at 1 by lia. rewrite pow2_add.
    reflexivity || (cbn [powerRZ]; simpl; ring). }
  assert (Hone : 1 <= pow2 (emax - 2)).
  { change 1 with (pow2 0). apply pow2_le. lia. }
  rewrite Hmax. lra.
Qed.

Lemma rounds_to_bound (z : spec_float) (t B : R) :
  rounds_to z t -> Rabs t <= B ->
  Rabs (Exact.value z) <= B * (1 + rel) + tiny.
Proof.
  intros (_ & Herr & _) Ht.
  pose proof (pow2_pos (1 - prec)) as Prel.
  replace (Exact.value z) with ((Exact.value z - t) + t) by ring.
  eapply Rle_trans; [apply Rabs_triang|].
  assert (rel * Rabs t <= rel * B) by (apply Rmult_le_compat_l; lra).
  lra.
Qed.

(** The same with the error of single precision, which bounds that of
    every wider format, and an absolute error of one. *)
Lemma rounds_to_bound_coarse (z : spec_float) (t B : R) :
  (24 <= prec)%Z ->
  rounds_to z t -> Rabs t <= B ->
  Rabs (Exact.value z) <= B * (1 + / 8388608) + 1.
Proof.
  intros Hp Hr Ht. pose proof (rounds_to_bound z t B Hr Ht) as Hb.
  pose proof (rel_le_single Hp). pose proof tiny_le_one.
  assert (0 <= B) by (pose proof (Rabs_pos t); lra).
  assert (B * rel <= B * / 8388608) by (apply Rmult_le_compat_l; lra).
  lra.
Qed.

(** A bound by a power of two that the format holds. *)
Lemma below_pow2 (t : R) (k : Z) :
  (0 <= k <= emax - 2)%Z -> Rabs t <= IZR (2 ^ k) ->
  Rabs t <= pow2 (emax - 2).
Proof.
  intros Hk Ht. apply Rle_trans with (1 := Ht).
  rewrite <- pow2_IZR by lia. apply pow2_le. lia.
Qed.

(** ** The results are values of the format *)

Lemma binary_round_valid (s : bool) (mx : positive) (ex : Z) :
  valid_binary prec emax (binary_round prec emax s mx ex) = true.
Proof.
  unfold binary_round.
  set (t := fexp (Z.pos (digits2_pos mx) + ex)).
  destruct (shl_align_cases mx ex t) as [[Hle ->]|[Hlt (mz & -> & Hmz)]].
  - apply binary_round_aux_valid; [lia|exact Hle].
  - apply binary_round_aux_valid; [lia|].
    rewrite Hmz, Zdigits2_shift by lia. cbn [Zdigits2].
    replace (Z.pos (digits2_pos mx) + (ex - t) + t)%Z
      with (Z.pos (digits2_pos mx) + ex)%Z by lia.
    fold t. lia.
Qed.

Lemma binary_normalize_valid (D e : Z) (szero : bool) :
  valid_binary prec emax (binary_normalize prec emax D e szero) = true.
Proof.
  destruct D as [|p|p]; cbn [binary_normalize];
    [reflexivity|apply binary_round_valid|apply binary_round_valid].
Qed.

Lemma add_valid (x y : spec_float) :
  valid_binary prec emax x = true -> valid_binary prec emax y = true ->
  valid_binary prec emax (SFadd prec emax x y) = true.
Proof.
  intros Hx Hy.
  destruct x as [sx|sx| |sx mx ex]; destruct y as [sy|sy| |sy my ey];
    cbn [SFadd];
    try reflexivity; try assumption;
    try (destruct (Bool.eqb sx sy); reflexivity);
    try (destruct sx, sy; reflexivity).
  apply binary_normalize_valid.
Qed.

Lemma sub_valid (x y : spec_float) :
  valid_binary prec emax x = true -> valid_binary prec emax y = true ->
  valid_binary prec emax (SFsub prec emax x y) = true.
Proof.
  intros Hx Hy.
  destruct x as [sx|sx| |sx mx ex]; destruct y as [sy|sy| |sy my ey];
    cbn [SFsub];
    try reflexivity; try assumption;
    try (destruct (Bool.eqb sx (negb sy)); reflexivity);
    try (destruct sx, sy; reflexivity).
  apply binary_normalize_valid.
Qed.

Lemma mul_valid (x y : spec_float) :
  valid_binary prec emax x = true -> valid_binary prec emax y = true ->
  valid_binary prec emax (SFmul prec emax x y) = true.
Proof.
  intros Hvx Hvy.
  destruct x as [sx|sx| |sx mx ex]; destruct y as [sy|sy| |sy my ey];
    cbn [SFmul]; try reflexivity.
  apply binary_round_aux_valid; [lia|].
  cbn [valid_binary] in Hvx, Hvy. unfold bounded, canonical_mantissa in *.
  apply andb_true_iff in Hvx. apply andb_true_iff in Hvy.
  destruct Hvx as [Hcx _]. destruct Hvy as [Hcy _].
  apply Z.eqb_eq in Hcx. apply Z.eqb_eq in Hcy.
  rewrite fexp_max in *.
  pose proof (Zdigits2_bounds (Z.pos mx) ltac:(lia)) as [Lx _].
  pose proof (Zdigits2_bounds (Z.pos my) ltac:(lia)) as [Ly _].
  pose proof (Zdigits2_pos (Z.pos mx) ltac:(lia)) as Px.
  pose proof (Zdigits2_pos (Z.pos my) ltac:(lia)) as Py.
  cbn [Zdigits2] in *.
  assert (Hd : (Z.pos (digits2_pos mx) + Z.pos (digits2_pos my) - 1
                <= Z.pos (digits2_pos (mx * my)))%Z).
  { replace (Z.pos (digits2_pos mx) + Z.pos (digits2_pos my) - 1)%Z
      with (Z.pos (digits2_pos mx) - 1 + (Z.pos (digits2_pos my) - 1) + 1)%Z
      by lia.
    apply (Zdigits2_lower (Z.pos (mx * my))); [lia|].
    rewrite Z.pow_add_r, Pos2Z.inj_mul by lia.
    apply Z.mul_le_mono_nonneg; try assumption;
      apply Z.pow_nonneg; lia. }
  rewrite emin_spec in *. lia.
Qed.

(** A value below [2^k] in magnitude has at most [k] digits above the
    point. *)
Lemma magnitude_of_value (s : bool) (m : positive) (e k : Z) :
  Rabs (Exact.value (S754_finite s m e)) < pow2 k ->
  (Z.pos (digits2_pos m) + e <= k)%Z.
Proof.
  intros Hb.
  pose proof (magnitude_pos m e) as Pm.
  assert (Hmag : Rabs (Exact.value (S754_finite s m e))
                 = IZR (Z.pos m) * pow2 e).
  { rewrite value_finite. destruct s; [rewrite Rabs_Ropp|];
      apply Rabs_pos_eq; lra. }
  rewrite Hmag in Hb.
  pose proof (Zdigits2_bounds (Z.pos m) ltac:(lia)) as [Hlo _].
  cbn [Zdigits2] in Hlo.
  destruct (Z_le_gt_dec (Z.pos (digits2_pos m) + e) k) as [|Hgt];
    [assumption|exfalso].
  assert (Hle : pow2 k <= pow2 (Z.pos (digits2_pos m) - 1) * pow2 e).
  { rewrite <- pow2_add. apply pow2_le. lia. }
  assert (Hm : pow2 (Z.pos (digits2_pos m) - 1) * pow2 e
               <= IZR (Z.pos m) * pow2 e).
  { apply Rmult_le_compat_r; [left; apply pow2_pos|].
    rewrite pow2_IZR by lia. apply IZR_le. exact Hlo. }
  lra.
Qed.

Lemma div_valid (x y : spec_float) :
  valid_binary prec emax (SFdiv prec emax x y) = true.
Proof.
  destruct x as [sx|sx| |sx mx ex]; destruct y as [sy|sy| |sy my ey];
    cbn [SFdiv]; try reflexivity.
  unfold SFdiv_core_binary.
  set (d1 := Zdigits2 (Z.pos mx)). set (d2 := Zdigits2 (Z.pos my)).
  set (e' := Z.min (fexp (d1 + ex - (d2 + ey))) (ex - ey)).
  set (s := (ex - ey - e')%Z).
  assert (Hs : (0 <= s)%Z) by (unfold s, e'; lia).
  set (m' := match s with
             | 0%Z => Z.pos mx
             | Z.pos _ => Z.shiftl (Z.pos mx) s
             | Z.neg _ => 0%Z
             end).
  assert (Hm' : m' = (Z.pos mx * 2 ^ s)%Z).
  { unfold m'. destruct s as [|p|p] eqn:E; [cbn; lia| |lia].
    rewrite Z.shiftl_mul_pow2 by lia. reflexivity. }
  assert (Hp : (0 < 2 ^ s)%Z) by (apply Z.pow_pos_nonneg; lia).
  pose proof (Z_div_mod m' (Z.pos my) ltac:(lia)) as Hdm.
  destruct (Z.div_eucl m' (Z.pos my)) as [q r]. destruct Hdm as [Hdm Hr].
  assert (Hq : (0 <= q)%Z) by nia.
  apply binary_round_aux_valid; [exact Hq|].
  assert (Hk : (d1 + s - d2 <= Zdigits2 q)%Z).
  { destruct (Z_le_gt_dec (d1 + s - d2) 0) as [Hle|Hgt];
      [pose proof (Zdigits2_nonneg q); lia|].
    replace (d1 + s - d2)%Z with (d1 + s - d2 - 1 + 1)%Z by lia.
    apply Zdigits2_lower; [lia|].
    pose proof (Zdigits2_bounds (Z.pos mx) ltac:(lia)) as [L1 _].
    pose proof (Zdigits2_bounds (Z.pos my) ltac:(lia)) as [_ H2].
    pose proof (Zdigits2_pos (Z.pos mx) ltac:(lia)) as P1.
    pose proof (Zdigits2_pos (Z.pos my) ltac:(lia)) as P2.
    fold d1 in L1, P1. fold d2 in H2, P2.
    assert (Hpk : (0 < 2 ^ (d1 + s - d2 - 1))%Z)
      by (apply Z.pow_pos_nonneg; lia).
    assert (Hle : (2 ^ (d1 + s - d2 - 1) * 2 ^ d2 <= m')%Z).
    { rewrite <- Z.pow_add_r by lia.
      replace (d1 + s - d2 - 1 + d2)%Z with (d1 - 1 + s)%Z by lia.
      rewrite Z.pow_add_r by lia. rewrite Hm'. nia. }
    nia. }
  assert (Hmono := fexp_monotone (d1 + s - d2 + e') (Zdigits2 q + e')
                     ltac:(lia)).
  replace (d1 + s - d2 + e')%Z with (d1 + ex - (d2 + ey))%Z in Hmono
    by (unfold s; lia).
  unfold e' at 1. lia.
Qed.

End Format.
End Rounding.

(* ================================================================== *)
(** * Magnitudes of the values the formatter converts *)

Module Ranges.

Import Stdlib.Reals.Reals Stdlib.micromega.Lra.

Local Open Scope R_scope.

Lemma pow2_numeral_neg (e k : Z) :
  (e < 0)%Z -> (2 ^ (- e))%Z = k -> powerRZ 2 e = / IZR k.
Proof.
  intros He <-. rewrite <- Rounding.pow2_IZR by lia.
  pose proof (Rounding.pow2_pos (- e)) as P.
  apply Rmult_eq_reg_r with (powerRZ 2 (- e)); [|lra].
  rewrite <- Rounding.pow2_add. replace (e + - e)%Z with 0%Z by lia.
  rewrite Rinv_l by lra. reflexivity.
Qed.

Lemma pow2_numeral_pos (e k : Z) :
  (0 <= e)%Z -> (2 ^ e)%Z = k -> powerRZ 2 e = IZR k.
Proof. intros He <-. apply Rounding.pow2_IZR. exact He. Qed.

(** The powers of two with a literal exponent, as numerals. *)
Ltac pow2_numerals :=
  repeat match goal with
         | |- context [powerRZ 2 (Z.neg ?p)] =>
             let k := eval vm_compute in (2 ^ Z.pos p)%Z in
             rewrite (pow2_numeral_neg (Z.neg p) k ltac:(lia) eq_refl)
         | |- context [powerRZ 2 (Z.pos ?p)] =>
             let k := eval vm_compute in (2 ^ Z.pos p)%Z in
             rewrite (pow2_numeral_pos (Z.pos p) k ltac:(lia) eq_refl)
         | |- context [powerRZ 2 0] => change (powerRZ 2 0) with 1
         end.

(** A value within [B] has a magnitude of at most [B], for a bound [B]
    that the format holds exactly. *)
Lemma within_value (B : Z) (K : positive) (g : Z) (x : float) :
  F32.of_Z B = S754_finite false K g ->
  F32.of_Z (- B) = S754_finite true K g ->
  F32.valid (S754_finite false K g) = true ->
  IZR (Z.pos K) * powerRZ 2 g = IZR B ->
  F32.within B x = true ->
  Exact.is_finite x = true /\ Rabs (Exact.value x) <= IZR B.
Proof.
  intros Hpos Hneg HK Hval Hw. unfold F32.within in Hw.
  apply andb_true_iff in Hw. destruct Hw as [Hw Hhi].
  apply andb_true_iff in Hw. destruct Hw as [Hv Hlo].
  rewrite Hpos in Hhi. rewrite Hneg in Hlo. rewrite <- Hval.
  apply (Rounding.within_magnitude F32.prec F32.emax ltac:(reflexivity));
    assumption.
Qed.

(** The integer part of a finite value below [2^31] in magnitude is what
    the conversion to [int] gives. *)
Lemma to_int_trunc (x : spec_float) :
  Exact.is_finite x = true ->
  Rabs (Exact.value x) < 2147483648 ->
  F32.inside_int x.
Proof.
  intros Hf Hlt. unfold F32.inside_int.
  pose proof (Rounding.trunc_magnitude x 2147483648 Hf Hlt) as Ht.
  change (2 ^ 31)%Z with 2147483648%Z. split; [|exact Ht].
  destruct x as [s|s| |s m e]; try discriminate Hf; [reflexivity|].
  unfold F32.to_int, F32.INT32_MIN, F32.INT32_MAX.
  change (2 ^ 31)%Z with 2147483648%Z. lia.
Qed.

(** ** Double precision: the angles of [format_POV_RNY] *)





(** ** Single precision: the values of [format_POV] *)

(** A value within [B], times a constant [C] of the code: inside the
    range of [int] when [B * C] is at most 2000000000. *)
Lemma scaled_inside_int (B C : Z) (K Kc : positive) (g gc : Z) (x : float) :
  F32.of_Z B = S754_finite false K g ->
  F32.of_Z (- B) = S754_finite true K g ->
  F32.valid (S754_finite false K g) = true ->
  IZR (Z.pos K) * powerRZ 2 g = IZR B ->
  F32.of_Z C = S754_finite false Kc gc ->
  (24 <= Z.pos (digits2_pos Kc))%Z ->
  IZR (Z.pos Kc) * powerRZ 2 gc = IZR C ->
  (0 <= B)%Z -> (0 <= C)%Z -> (B * C <= 2000000000)%Z ->
  F32.within B x = true ->
  F32.inside_int (F32.mul x (F32.of_Z C)).
Proof.
  intros HB HnB HvB HBv HC Hd HCv HB0 HC0 HBC Hw.
  destruct (within_value B K g x HB HnB HvB HBv Hw) as [Hf Hb].
  assert (HvC : Exact.value (F32.of_Z C) = IZR C).
  { rewrite HC. cbn [Exact.value]. exact HCv. }
  assert (Hprod : Rabs (Exact.value x * Exact.value (F32.of_Z C))
                  <= 2000000000).
  { rewrite HvC, Rabs_mult, (Rabs_pos_eq (IZR C)) by (apply IZR_le; lia).
    apply Rle_trans with (IZR B * IZR C).
    - apply Rmult_le_compat_r; [apply IZR_le; lia|exact Hb].
    - rewrite <- mult_IZR. apply IZR_le. exact HBC. }
  pose proof (Rounding.mul_error_full F32.prec F32.emax
                ltac:(reflexivity) ltac:(discriminate)
                x (F32.of_Z C) Hf ltac:(rewrite HC; reflexivity)) as Hm.
  specialize (Hm ltac:(rewrite HC; intros s m e [= <- <- <-]; exact Hd)).
  specialize (Hm (Rounding.no_overflow F32.prec F32.emax
                    ltac:(reflexivity) ltac:(discriminate) _
                    (Rounding.below_pow2 F32.emax _ 32
                       ltac:(cbv; split; discriminate)
                       ltac:(apply Rle_trans with (1 := Hprod);
                             change (2 ^ 32)%Z with 4294967296%Z; lra)))).
  fold (F32.mul x (F32.of_Z C)) in Hm.
  pose proof (Rounding.rounds_to_bound_coarse F32.prec F32.emax
                ltac:(reflexivity) ltac:(discriminate) _ _ _
                ltac:(discriminate) Hm Hprod) as Hbs.
  apply to_int_trunc; [exact (proj1 Hm)|lra].
Qed.

Lemma hundredths_inside_int (x : float) :
  F32.within 20000000 x = true -> F32.inside_int (F32.mul x (F32.of_Z 100)).
Proof.
  apply (scaled_inside_int 20000000 100 10000000 13107200 1 (-17));
    try reflexivity; try lia; try discriminate; pow2_numerals; lra.
Qed.

Lemma TAS_inside_int (x : float) :
  F32.within 5000000 x = true -> F32.inside_int (F32.mul x (F32.of_Z 360)).
Proof.
  apply (scaled_inside_int 5000000 360 10000000 11796480 (-1) (-15));
    try reflexivity; try lia; try discriminate; pow2_numerals; lra.
Qed.

Lemma voltage_inside_int (x : float) :
  F32.within 200000000 x = true -> F32.inside_int (F32.mul x (F32.of_Z 10)).
Proof.
  apply (scaled_inside_int 200000000 10 12500000 10485760 4 (-20));
    try reflexivity; try lia; try discriminate; pow2_numerals; lra.
Qed.

Lemma pabs_inside_int (x : float) :
  F32.within 2000000000 x = true -> F32.inside_int x.
Proof.
  intros Hw.
  destruct (within_value 2000000000 15625000 7 x) as [Hf Hb];
    try reflexivity; try exact Hw; [pow2_numerals; lra|].
  apply to_int_trunc; [exact Hf|lra].
Qed.

(** The pitot pressure as it is converted: zero in place of a value below
    zero. *)
Lemma pitot_inside_int (pitot : float) :
  F32.valid pitot && F32.leb pitot (F32.of_Z 2000000000) = true ->
  let clamped := if F32.ltb pitot F32.zero then F32.zero else pitot in
  F32.inside_int clamped /\ (0 <= F32.trunc clamped)%Z.
Proof.
  intros Hw clamped. apply andb_true_iff in Hw. destruct Hw as [Hv Hhi].
  subst clamped. destruct (F32.ltb pitot F32.zero) eqn:E.
  { split; [split|]; cbn; lia. }
  assert (Hc : F32.of_Z 2000000000 = S754_finite false 15625000 7)
    by (vm_compute; reflexivity).
  rewrite Hc in Hhi.
  destruct (Rounding.below_magnitude F32.prec F32.emax ltac:(reflexivity)
              pitot 15625000 7 Hv ltac:(reflexivity) E Hhi)
    as [Hf [H0 Hb]].
  assert (Hval : IZR (Z.pos 15625000) * powerRZ 2 7 = 2000000000)
    by (pow2_numerals; lra).
  rewrite Hval in Hb. split.
  - apply to_int_trunc; [exact Hf|]. rewrite Rabs_pos_eq by lra. lra.
  - destruct pitot as [s|s| |s m e]; try discriminate Hf; [cbn; lia|].
    destruct s; [discriminate E|]. cbn [F32.trunc].
    destruct e; [apply Z.shiftl_nonneg|apply Z.shiftl_nonneg
                |apply Z.shiftr_nonneg]; lia.
Qed.

(** All conversions of [format_POV] for inputs in range. *)
Lemma POV_conversions (TAS pabs pitot TEK_vario voltage : float)
  (airdata_available : bool) (humidity temperature : float) :
  POV_in_range TAS pabs pitot TEK_vario voltage airdata_available
    humidity temperature = true ->
  let clamped := if F32.ltb pitot F32.zero then F32.zero else pitot in
  F32.inside_int (F32.mul TEK_vario (F32.of_Z 100))
  /\ F32.inside_int pabs
  /\ (F32.inside_int clamped /\ (0 <= F32.trunc clamped)%Z)
  /\ F32.inside_int (F32.mul TAS (F32.of_Z 360))
  /\ F32.inside_int (F32.mul voltage (F32.of_Z 10))
  /\ (airdata_available = true ->
      F32.inside_int (F32.mul humidity (F32.of_Z 100))
      /\ F32.inside_int (F32.mul temperature (F32.of_Z 100))).
Proof.
  unfold POV_in_range. intros H. cbv zeta.
  apply andb_true_iff in H. destruct H as [H Hair].
  apply andb_true_iff in H. destruct H as [H Hvoltage].
  apply andb_true_iff in H. destruct H as [H HTAS].
  apply andb_true_iff in H. destruct H as [H Hpitot].
  apply andb_true_iff in H. destruct H as [HTEK Hpabs].
  split; [apply hundredths_inside_int; assumption|].
  split; [apply pabs_inside_int; assumption|].
  split; [apply pitot_inside_int; assumption|].
  split; [apply TAS_inside_int; assumption|].
  split; [apply voltage_inside_int; assumption|].
  intros ->. cbn [negb orb] in Hair. apply andb_true_iff in Hair.
  destruct Hair as [Hh Ht].
  split; apply hundredths_inside_int; assumption.
Qed.
End Ranges.

(* ================================================================== *)
(** * The norm of a normalised quaternion

    The quaternion class is not among the sources; what follows is proved
    on the quaternion modelled from the specification, whose [normalize]
    divides each component by the square root of the sum of the squares,
    in single precision.  Each of the ten operations is within one unit
    of the last place of its exact result; together they leave the norm
    within 1e-6 of one. *)

Module UnitNorm.

Import Stdlib.Reals.Reals Stdlib.micromega.Lra.
Import Bench Norm.

Local Open Scope R_scope.

(** The relative error [2^-23] and the absolute error [2^-149] of one
    operation in single precision. *)
Abbreviation u := (/ 8388608).
Abbreviation eta := (/ 713623846352979940529142984724747568191373312).

Lemma Rabs_le_both (x a : R) : Rabs x <= a -> - a <= x <= a.
Proof.
  intros H. pose proof (Rle_abs x) as H1. pose proof (Rle_abs (- x)) as H2.
  rewrite Rabs_Ropp in H2. lra.
Qed.

Lemma square_abs (a : R) : a * a = Rabs a * Rabs a.
Proof.
  destruct (Rcase_abs a) as [Hn|Hp];
    [rewrite (Rabs_left a Hn)|rewrite (Rabs_right a Hp)]; ring.
Qed.

Lemma square_le (a b : R) : 0 <= a <= b -> a * a <= b * b.
Proof. intros [H0 Hab]. apply Rmult_le_compat; lra. Qed.

Lemma square_lt (a b : R) : 0 <= a < b -> a * a < b * b.
Proof. intros [H0 Hab]. apply Rmult_le_0_lt_compat; lra. Qed.

(** The result of an operation of single precision, with the errors as
    numerals. *)
Lemma rounds32 (z : float) (t : R) :
  Exact.is_finite z = true
  /\ Rabs (Exact.value z - t)
     <= powerRZ 2 (1 - F32.prec) * Rabs t
        + powerRZ 2 (SpecFloat.emin F32.prec F32.emax)
  /\ (0 <= t -> 0 <= Exact.value z)
  /\ (t <= 0 -> Exact.value z <= 0) ->
  Exact.is_finite z = true
  /\ - (u * Rabs t + eta) <= Exact.value z - t <= u * Rabs t + eta
  /\ (0 <= t -> 0 <= Exact.value z).
Proof.
  intros (Hf & Herr & Hpos & _). split; [exact Hf|].
  split; [|exact Hpos].
  change (1 - F32.prec)%Z with (-23)%Z in Herr.
  change (SpecFloat.emin F32.prec F32.emax) with (-149)%Z in Herr.
  rewrite (Ranges.pow2_numeral_neg (-23) 8388608 ltac:(lia) eq_refl),
    (Ranges.pow2_numeral_neg (-149)
       713623846352979940529142984724747568191373312 ltac:(lia) eq_refl)
    in Herr.
  apply Rabs_le_both. exact Herr.
Qed.

(** No overflow in single precision: the exact value is at most
    [2^126]. *)
Lemma no_overflow32 (t : R) :
  Rabs t <= 85070591730234615865843651857942052864 ->
  Rabs t * (1 + powerRZ 2 (1 - F32.prec))
  + powerRZ 2 (SpecFloat.emin F32.prec F32.emax)
  < powerRZ 2 F32.emax.
Proof.
  intros Ht.
  apply (Rounding.no_overflow F32.prec F32.emax ltac:(reflexivity)
           ltac:(discriminate)).
  change (F32.emax - 2)%Z with 126%Z.
  rewrite (Ranges.pow2_numeral_pos 126
             85070591730234615865843651857942052864 ltac:(lia) eq_refl).
  exact Ht.
Qed.

Lemma mul32 (x y : float) :
  F32.valid x = true -> F32.valid y = true ->
  Exact.is_finite x = true -> Exact.is_finite y = true ->
  Rabs (Exact.value x * Exact.value y)
  <= 85070591730234615865843651857942052864 ->
  let t := Exact.value x * Exact.value y in
  Exact.is_finite (F32.mul x y) = true
  /\ - (u * Rabs t + eta) <= Exact.value (F32.mul x y) - t
     <= u * Rabs t + eta
  /\ (0 <= t -> 0 <= Exact.value (F32.mul x y)).
Proof.
  intros Hvx Hvy Hfx Hfy Hb t. apply rounds32.
  apply (Rounding.mul_error_valid F32.prec F32.emax ltac:(reflexivity)
           ltac:(discriminate)); try assumption.
  apply no_overflow32. exact Hb.
Qed.

Lemma add32 (x y : float) :
  Exact.is_finite x = true -> Exact.is_finite y = true ->
  Rabs (Exact.value x + Exact.value y)
  <= 85070591730234615865843651857942052864 ->
  let t := Exact.value x + Exact.value y in
  Exact.is_finite (F32.add x y) = true
  /\ - (u * Rabs t + eta) <= Exact.value (F32.add x y) - t
     <= u * Rabs t + eta
  /\ (0 <= t -> 0 <= Exact.value (F32.add x y)).
Proof.
  intros Hfx Hfy Hb t. apply rounds32.
  apply (Rounding.add_error F32.prec F32.emax ltac:(reflexivity)
           ltac:(discriminate)); try assumption.
  apply no_overflow32. exact Hb.
Qed.

Lemma sqrt32 (x : float) :
  Exact.is_finite x = true -> 0 <= Exact.value x ->
  sqrt (Exact.value x) <= 85070591730234615865843651857942052864 ->
  let t := sqrt (Exact.value x) in
  Exact.is_finite (F32.sqrt x) = true
  /\ - (u * t + eta) <= Exact.value (F32.sqrt x) - t <= u * t + eta
  /\ 0 <= Exact.value (F32.sqrt x).
Proof.
  intros Hfx Hpos Hb t. pose proof (sqrt_pos (Exact.value x)) as Ht.
  fold t in Ht, Hb.
  destruct (rounds32 (F32.sqrt x) t) as (Hf & Herr & Hp).
  - apply (Rounding.sqrt_error F32.prec F32.emax ltac:(reflexivity)
             ltac:(discriminate)); try assumption.
    pose proof (no_overflow32 t) as Hno.
    rewrite (Rabs_pos_eq t Ht) in Hno. apply Hno. exact Hb.
  - rewrite (Rabs_pos_eq t Ht) in Herr.
    split; [exact Hf|]. split; [exact Herr|]. apply Hp. exact Ht.
Qed.

Lemma div32 (x y : float) :
  Exact.is_finite x = true -> Exact.is_finite y = true ->
  0 < Exact.value y ->
  Rabs (Exact.value x / Exact.value y)
  <= 85070591730234615865843651857942052864 ->
  let t := Exact.value x / Exact.value y in
  Exact.is_finite (F32.div x y) = true
  /\ - (u * Rabs t + eta) <= Exact.value (F32.div x y) - t
     <= u * Rabs t + eta.
Proof.
  intros Hfx Hfy Hy Hb t.
  destruct y as [sy|sy| |sy my ey]; try discriminate Hfy;
    [cbn [Exact.value] in Hy; lra|].
  destruct (rounds32 (F32.div x (S754_finite sy my ey)) t) as (Hf & Herr & _).
  - apply (Rounding.div_error F32.prec F32.emax ltac:(reflexivity)
             ltac:(discriminate)); try assumption.
    apply no_overflow32. exact Hb.
  - split; assumption.
Qed.

(** ** Magnitudes read off the digits *)

Lemma magnitude_below_value (k : Z) (x : float) :
  magnitude_below k x = true ->
  Exact.is_finite x = true /\ Rabs (Exact.value x) < powerRZ 2 k.
Proof.
  destruct x as [s|s| |s m e]; try discriminate.
  - intros _. split; [reflexivity|]. cbn [Exact.value]. rewrite Rabs_R0.
    apply Rounding.pow2_pos.
  - cbn [magnitude_below]. intros Hk. apply Z.leb_le in Hk.
    split; [reflexivity|].
    pose proof (Rounding.magnitude_pos m e) as Pm.
    assert (Hmag : Rabs (Exact.value (S754_finite s m e))
                   = IZR (Z.pos m) * powerRZ 2 e).
    { rewrite Rounding.value_finite. destruct s; [rewrite Rabs_Ropp|];
        apply Rabs_pos_eq; lra. }
    rewrite Hmag.
    pose proof (Rounding.Zdigits2_bounds (Z.pos m) ltac:(lia)) as [_ Hhi].
    cbn [Zdigits2] in Hhi.
    apply Rlt_le_trans with (powerRZ 2 (Z.pos (digits2_pos m)) * powerRZ 2 e).
    + apply Rmult_lt_compat_r; [apply Rounding.pow2_pos|].
      rewrite Rounding.pow2_IZR by lia. apply IZR_lt. exact Hhi.
    + rewrite <- Rounding.pow2_add. apply Rounding.pow2_le. exact Hk.
Qed.

Lemma magnitude_from_value (k : Z) (x : float) :
  magnitude_from k x = true -> powerRZ 2 k <= Rabs (Exact.value x).
Proof.
  destruct x as [s|s| |s m e]; try discriminate.
  cbn [magnitude_from]. intros Hk. apply Z.ltb_lt in Hk.
  pose proof (Rounding.magnitude_pos m e) as Pm.
  assert (Hmag : Rabs (Exact.value (S754_finite s m e))
                 = IZR (Z.pos m) * powerRZ 2 e).
  { rewrite Rounding.value_finite. destruct s; [rewrite Rabs_Ropp|];
      apply Rabs_pos_eq; lra. }
  rewrite Hmag.
  pose proof (Rounding.Zdigits2_bounds (Z.pos m) ltac:(lia)) as [Hlo _].
  cbn [Zdigits2] in Hlo.
  apply Rle_trans
    with (powerRZ 2 (Z.pos (digits2_pos m) - 1) * powerRZ 2 e).
  - rewrite <- Rounding.pow2_add. apply Rounding.pow2_le. lia.
  - apply Rmult_le_compat_r; [left; apply Rounding.pow2_pos|].
    rewrite Rounding.pow2_IZR by lia. apply IZR_le. exact Hlo.
Qed.

(** ** The sum of the squares *)

Lemma component_square (x : float) :
  F32.valid x = true -> magnitude_below 60 x = true ->
  let a := Exact.value x in
  Exact.is_finite x = true
  /\ Exact.is_finite (F32.mul x x) = true
  /\ 0 <= a * a < 1329227995784915872903807060280344576
  /\ 0 <= Exact.value (F32.mul x x)
  /\ a * a * (1 - u) - eta <= Exact.value (F32.mul x x)
     <= a * a * (1 + u) + eta.
Proof.
  intros Hv Hb a. destruct (magnitude_below_value 60 x Hb) as [Hf Hlt].
  rewrite (Ranges.pow2_numeral_pos 60 1152921504606846976 ltac:(lia) eq_refl)
    in Hlt.
  fold a in Hlt. pose proof (Rabs_pos a) as Ha.
  assert (Hsq : 0 <= a * a < 1329227995784915872903807060280344576).
  { rewrite (square_abs a). split; [apply Rmult_le_pos; lra|].
    replace 1329227995784915872903807060280344576
      with (1152921504606846976 * 1152921504606846976) by lra.
    apply square_lt. lra. }
  destruct (mul32 x x Hv Hv Hf Hf) as (Hfm & Herr & Hpos).
  { fold a. rewrite Rabs_pos_eq; lra. }
  fold a in Herr, Hpos. rewrite (Rabs_pos_eq (a * a)) in Herr by lra.
  split; [exact Hf|]. split; [exact Hfm|]. split; [exact Hsq|].
  split; [apply Hpos; lra|]. lra.
Qed.

(** The sum of two results that are not negative. *)
Lemma sum_step (x y : float) :
  Exact.is_finite x = true -> Exact.is_finite y = true ->
  0 <= Exact.value x -> 0 <= Exact.value y ->
  Exact.value x + Exact.value y
  <= 85070591730234615865843651857942052864 ->
  let t := Exact.value x + Exact.value y in
  Exact.is_finite (F32.add x y) = true
  /\ 0 <= Exact.value (F32.add x y)
  /\ t * (1 - u) - eta <= Exact.value (F32.add x y) <= t * (1 + u) + eta.
Proof.
  intros Hfx Hfy Hx Hy Hb t.
  destruct (add32 x y Hfx Hfy) as (Hf & Herr & Hpos).
  { rewrite Rabs_pos_eq; lra. }
  fold t in Herr, Hpos. rewrite (Rabs_pos_eq t) in Herr by (unfold t; lra).
  split; [exact Hf|]. split; [apply Hpos; unfold t; lra|]. lra.
Qed.

(** The sum of the squares as [quat_abs] forms it, against the exact sum
    [S] of at least [2^-120]. *)
Lemma sum_of_squares (r : quat) :
  moderate r = true ->
  let S := quat_norm_square r in
  let s :=
    F32.add
      (F32.add (F32.add (F32.mul (q0 r) (q0 r)) (F32.mul (q1 r) (q1 r)))
         (F32.mul (q2 r) (q2 r)))
      (F32.mul (q3 r) (q3 r)) in
  Exact.is_finite s = true
  /\ / 1329227995784915872903807060280344576 <= S
  /\ S <= 5316911983139663491615228241121378304
  /\ S * (1 - 4 * u - / 67108864) <= Exact.value s
     <= S * (1 + 5 * u + / 67108864)
  /\ (forall x : float,
         In x [q0 r; q1 r; q2 r; q3 r] ->
         Exact.is_finite x = true
         /\ 0 <= Exact.value x * Exact.value x <= S).
Proof.
  intros Hm S s. unfold moderate in Hm.
  apply andb_true_iff in Hm. destruct Hm as [Hm Hfrom].
  apply andb_true_iff in Hm. destruct Hm as [Hm Hb3].
  apply andb_true_iff in Hm. destruct Hm as [Hm Hb2].
  apply andb_true_iff in Hm. destruct Hm as [Hm Hb1].
  apply andb_true_iff in Hm. destruct Hm as [Hm Hb0].
  apply andb_true_iff in Hm. destruct Hm as [Hm Hv3].
  apply andb_true_iff in Hm. destruct Hm as [Hm Hv2].
  apply andb_true_iff in Hm. destruct Hm as [Hv0 Hv1].
  destruct (component_square (q0 r) Hv0 Hb0) as (Hf0 & Hm0 & HA0 & Hp0 & He0).
  destruct (component_square (q1 r) Hv1 Hb1) as (Hf1 & Hm1 & HA1 & Hp1 & He1).
  destruct (component_square (q2 r) Hv2 Hb2) as (Hf2 & Hm2 & HA2 & Hp2 & He2).
  destruct (component_square (q3 r) Hv3 Hb3) as (Hf3 & Hm3 & HA3 & Hp3 & He3).
  cbv zeta in HA0, HA1, HA2, HA3, He0, He1, He2, He3.
  set (A0 := Exact.value (q0 r) * Exact.value (q0 r)) in *.
  set (A1 := Exact.value (q1 r) * Exact.value (q1 r)) in *.
  set (A2 := Exact.value (q2 r) * Exact.value (q2 r)) in *.
  set (A3 := Exact.value (q3 r) * Exact.value (q3 r)) in *.
  assert (HS : S = A0 + A1 + A2 + A3) by reflexivity.
  (* one component is of [2^-60] at least *)
  assert (Hlow : / 1329227995784915872903807060280344576 <= S).
  { assert (Hone : forall x : float,
               magnitude_from (-60) x = true ->
               / 1329227995784915872903807060280344576
               <= Exact.value x * Exact.value x).
    { intros x Hx. apply magnitude_from_value in Hx.
      rewrite (Ranges.pow2_numeral_neg (-60) 1152921504606846976
                 ltac:(lia) eq_refl) in Hx.
      rewrite (square_abs (Exact.value x)).
      replace (/ 1329227995784915872903807060280344576)
        with (/ 1152921504606846976 * / 1152921504606846976) by lra.
      apply square_le. lra. }
    apply orb_true_iff in Hfrom. destruct Hfrom as [Hfrom|H3];
      [|pose proof (Hone _ H3) as Hx; fold A3 in Hx; lra].
    apply orb_true_iff in Hfrom. destruct Hfrom as [Hfrom|H2];
      [|pose proof (Hone _ H2) as Hx; fold A2 in Hx; lra].
    apply orb_true_iff in Hfrom. destruct Hfrom as [H0|H1];
      [pose proof (Hone _ H0) as Hx; fold A0 in Hx; lra
      |pose proof (Hone _ H1) as Hx; fold A1 in Hx; lra]. }
  destruct (sum_step _ _ Hm0 Hm1 Hp0 Hp1 ltac:(lra))
    as (Hg1 & Hq1 & Hs1).
  cbv zeta in Hs1.
  set (t1 := F32.add (F32.mul (q0 r) (q0 r)) (F32.mul (q1 r) (q1 r))) in *.
  destruct (sum_step _ _ Hg1 Hm2 Hq1 Hp2 ltac:(lra))
    as (Hg2 & Hq2 & Hs2).
  cbv zeta in Hs2.
  set (t2 := F32.add t1 (F32.mul (q2 r) (q2 r))) in *.
  destruct (sum_step _ _ Hg2 Hm3 Hq2 Hp3 ltac:(lra))
    as (Hg3 & Hq3 & Hs3).
  cbv zeta in Hs3. fold s in Hg3, Hq3, Hs3.
  split; [exact Hg3|]. split; [exact Hlow|].
  split; [lra|]. split; [split; lra|].
  intros x [<-|[<-|[<-|[<-|[]]]]]; (split; [assumption|]);
    try fold A0; try fold A1; try fold A2; try fold A3; lra.
Qed.

(** ** The norm in single precision *)

Lemma abs_error (r : quat) :
  moderate r = true ->
  let S := quat_norm_square r in
  let N := Exact.value (quat_abs r) in
  Exact.is_finite (quat_abs r) = true
  /\ 0 < N
  /\ S * ((1 - 4 * u - / 67108864)
          * ((1 - u - / 1208925819614629174706176)
             * (1 - u - / 1208925819614629174706176)))
     <= N * N
     <= S * ((1 + 5 * u + / 67108864)
             * ((1 + u + / 1208925819614629174706176)
                * (1 + u + / 1208925819614629174706176))).
Proof.
  intros Hm S N.
  destruct (sum_of_squares r Hm) as (Hfs & Hlow & Hhigh & [Hylo Hyhi] & _).
  fold S in Hlow, Hhigh, Hylo, Hyhi.
  unfold quat_abs in N |- *.
  change F32.add with (SFadd F32.prec F32.emax) in *.
  change F32.mul with (SFmul F32.prec F32.emax) in *.
  set (s := SFadd F32.prec F32.emax _ (SFmul F32.prec F32.emax (q3 r) (q3 r)))
    in *.
  set (y := Exact.value s) in *.
  assert (Hy : / 5316911983139663491615228241121378304 <= y) by lra.
  set (w := sqrt y).
  assert (Hww : w * w = y) by (apply sqrt_sqrt; lra).
  assert (Hw0 : 0 <= w) by apply sqrt_pos.
  assert (Hwhi : w <= 4611686018427387904).
  { destruct (Rle_lt_dec w 4611686018427387904) as [|Hgt]; [assumption|].
    exfalso.
    assert (4611686018427387904 * 4611686018427387904 < w * w)
      by (apply square_lt; lra).
    lra. }
  assert (Hwlo : / 2305843009213693952 <= w).
  { destruct (Rle_lt_dec (/ 2305843009213693952) w) as [|Hlt]; [assumption|].
    exfalso.
    assert (w * w < / 2305843009213693952 * / 2305843009213693952)
      by (apply square_lt; lra).
    lra. }
  destruct (sqrt32 s Hfs ltac:(fold y; lra)) as (Hfn & Herr & Hn0).
  { fold y. fold w. lra. }
  fold y in Herr, Hn0. fold w in Herr.
  change (SFsqrt F32.prec F32.emax s) with (F32.sqrt s) in *.
  fold N in Herr, Hn0.
  split; [exact Hfn|].
  assert (Hlo : 0 <= w * (1 - u - / 1208925819614629174706176) <= N)
    by (split; lra).
  assert (Hhi : 0 <= N <= w * (1 + u + / 1208925819614629174706176))
    by (split; lra).
  split; [lra|].
  apply square_le in Hlo. apply square_le in Hhi.
  replace (w * (1 - u - / 1208925819614629174706176)
           * (w * (1 - u - / 1208925819614629174706176)))
    with (w * w * ((1 - u - / 1208925819614629174706176)
                   * (1 - u - / 1208925819614629174706176))) in Hlo by ring.
  replace (w * (1 + u + / 1208925819614629174706176)
           * (w * (1 + u + / 1208925819614629174706176)))
    with (w * w * ((1 + u + / 1208925819614629174706176)
                   * (1 + u + / 1208925819614629174706176))) in Hhi by ring.
  rewrite Hww in Hlo, Hhi. split; lra.
Qed.

(** ** The components of the normalised quaternion *)

Lemma component_error (r : quat) (x : float) :
  moderate r = true ->
  In x [q0 r; q1 r; q2 r; q3 r] ->
  let N := Exact.value (quat_abs r) in
  let b := Exact.value x / N in
  let c := Exact.value (F32.div x (quat_abs r)) in
  Exact.is_finite (F32.div x (quat_abs r)) = true
  /\ b * b * ((1 - u) * (1 - u)) - 4 * eta <= c * c
     <= b * b * ((1 + u) * (1 + u)) + 5 * eta.
Proof.
  intros Hm Hin N b c.
  destruct (abs_error r Hm) as (Hfn & HN & [HNlo HNhi]).
  destruct (sum_of_squares r Hm) as (_ & Hlow & _ & _ & Hcomp).
  destruct (Hcomp x Hin) as (Hfx & HA0 & HAS).
  fold N in HN, HNlo, HNhi.
  set (S := quat_norm_square r) in *.
  set (A := Exact.value x * Exact.value x) in *.
  assert (HNN : 0 < N * N) by (apply Rmult_lt_0_compat; assumption).
  assert (Hbb : b * b = A / (N * N)) by (unfold b, A; field; lra).
  assert (Hbb4 : b * b <= 4).
  { rewrite Hbb. apply Rounding.Rle_div_mult; [exact HNN|]. lra. }
  set (p := Rabs b).
  assert (Hp0 : 0 <= p) by apply Rabs_pos.
  assert (Hpp : p * p = b * b) by (symmetry; apply square_abs).
  assert (Hp2 : p <= 2).
  { destruct (Rle_lt_dec p 2) as [|Hgt]; [assumption|]. exfalso.
    assert (2 * 2 < p * p) by (apply square_lt; lra). lra. }
  destruct (div32 x (quat_abs r) Hfx Hfn HN) as (Hfc & Herr).
  { fold N. fold b. fold p. lra. }
  fold N in Herr. fold b in Herr. fold c in Herr. fold p in Herr.
  split; [exact Hfc|].
  set (q := Rabs c).
  assert (Hq0 : 0 <= q) by apply Rabs_pos.
  assert (Hqq : q * q = c * c) by (symmetry; apply square_abs).
  assert (Hqp : - (u * p + eta) <= q - p <= u * p + eta).
  { apply Rabs_le_both. eapply Rle_trans; [apply Rabs_triang_inv2|].
    apply Rabs_le. lra. }
  rewrite <- Hqq, <- Hpp. split.
  - destruct (Rle_lt_dec 0 (p * (1 - u) - eta)) as [HL|HL].
    + assert (Hsq : (p * (1 - u) - eta) * (p * (1 - u) - eta) <= q * q)
        by (apply square_le; lra).
      replace ((p * (1 - u) - eta) * (p * (1 - u) - eta))
        with (p * p * ((1 - u) * (1 - u)) - 2 * (1 - u) * eta * p
              + eta * eta) in Hsq by ring.
      assert (0 <= eta * eta) by lra.
      lra.
    + assert (Hpe : p * p <= 2 * p)
        by (replace (2 * p) with (p * 2) by ring;
            apply Rmult_le_compat_l; lra).
      assert (0 <= q * q) by (apply Rmult_le_pos; lra).
      assert (Hsmall : p <= 2 * eta) by lra.
      assert (p * p * ((1 - u) * (1 - u)) <= p * p).
      { rewrite <- (Rmult_1_r (p * p)) at 2.
        apply Rmult_le_compat_l; [apply Rmult_le_pos; lra|lra]. }
      lra.
  - assert (Hsq : q * q
                  <= (p * (1 + u) + eta) * (p * (1 + u) + eta))
      by (apply square_le; lra).
    replace ((p * (1 + u) + eta) * (p * (1 + u) + eta))
      with (p * p * ((1 + u) * (1 + u)) + 2 * (1 + u) * eta * p
            + eta * eta) in Hsq by ring.
    lra.
Qed.

(** The quaternion that [normalize] returns for a moderate quaternion is
    a unit quaternion. *)
Lemma quat_normalize_unit (r : quat) :
  moderate r = true -> unit_quaternion (quat_normalize r).
Proof.
  intros Hm.
  destruct (abs_error r Hm) as (Hfn & HN & [HNlo HNhi]).
  destruct (sum_of_squares r Hm) as (_ & Hlow & _ & _ & _).
  destruct (component_error r (q0 r) Hm ltac:(cbn [In]; auto))
    as (Hf0 & Hc0).
  destruct (component_error r (q1 r) Hm ltac:(cbn [In]; auto))
    as (Hf1 & Hc1).
  destruct (component_error r (q2 r) Hm ltac:(cbn [In]; auto))
    as (Hf2 & Hc2).
  destruct (component_error r (q3 r) Hm ltac:(cbn [In]; tauto))
    as (Hf3 & Hc3).
  cbv zeta in Hc0, Hc1, Hc2, Hc3.
  set (N := Exact.value (quat_abs r)) in *.
  set (S := quat_norm_square r) in *.
  assert (HNN : 0 < N * N) by (apply Rmult_lt_0_compat; assumption).
  set (B := S / (N * N)).
  assert (HB : Exact.value (q0 r) / N * (Exact.value (q0 r) / N)
               + Exact.value (q1 r) / N * (Exact.value (q1 r) / N)
               + Exact.value (q2 r) / N * (Exact.value (q2 r) / N)
               + Exact.value (q3 r) / N * (Exact.value (q3 r) / N)
               = B).
  { unfold B, S, quat_norm_square. field. lra. }
  assert (HBhi : B <= 1 + 8 / 10000000).
  { unfold B. apply Rounding.Rle_div_mult; [exact HNN|]. lra. }
  assert (HBlo : 1 - 9 / 10000000 <= B).
  { unfold B. apply Rounding.Rle_mult_div; [exact HNN|]. lra. }
  unfold unit_quaternion. split.
  { cbn [quat_normalize q0 q1 q2 q3]. fold (F32.div (q0 r) (quat_abs r)).
    rewrite Hf0, Hf1, Hf2, Hf3. reflexivity. }
  unfold quat_norm.
  set (Q := quat_norm_square (quat_normalize r)).
  assert (HQ : (1 - / 1000000) * (1 - / 1000000) < Q
               < (1 + / 1000000) * (1 + / 1000000)).
  { unfold Q, quat_norm_square. cbn [quat_normalize q0 q1 q2 q3].
    split; lra. }
  assert (Hlo : 1 - / 1000000 < sqrt Q).
  { rewrite <- (sqrt_square (1 - / 1000000)) by lra.
    apply sqrt_lt_1_alt. lra. }
  assert (Hhi : sqrt Q < 1 + / 1000000).
  { rewrite <- (sqrt_square (1 + / 1000000)) by lra.
    apply sqrt_lt_1_alt. split; [|lra].
    apply Rle_trans with ((1 - / 1000000) * (1 - / 1000000)); lra. }
  apply Rabs_def1; lra.
Qed.
End UnitNorm.

(* ================================================================== *)
(** * The rotated quaternion

    [rotate], as modelled from the specification, adds to each component
    three products of a component and an increment.  For a unit
    quaternion and increments of at most 1000 in magnitude each computed
    component is within 0.006 of the exact one, and the exact ones are
    the quaternion product with [(1, p, q, r)], whose norm is not below
    the norm of the quaternion: the rotated quaternion is one that
    [normalize] handles without overflow and without loss of
    precision. *)

Module Rotation.

Import Stdlib.Reals.Reals Stdlib.micromega.Lra.
Import Bench Norm UnitNorm.

Local Open Scope R_scope.

Lemma sub32 (x y : float) :
  Exact.is_finite x = true -> Exact.is_finite y = true ->
  Rabs (Exact.value x - Exact.value y)
  <= 85070591730234615865843651857942052864 ->
  let t := Exact.value x - Exact.value y in
  Exact.is_finite (F32.sub x y) = true
  /\ - (u * Rabs t + eta) <= Exact.value (F32.sub x y) - t
     <= u * Rabs t + eta
  /\ (0 <= t -> 0 <= Exact.value (F32.sub x y)).
Proof.
  intros Hfx Hfy Hb t. apply rounds32.
  apply (Rounding.sub_error F32.prec F32.emax ltac:(reflexivity)
           ltac:(discriminate)); try assumption.
  apply no_overflow32. exact Hb.
Qed.

Lemma within_increment (x : float) :
  F32.within 1000 x = true ->
  F32.valid x = true /\ Exact.is_finite x = true
  /\ Rabs (Exact.value x) <= 1000.
Proof.
  intros Hw. split.
  - unfold F32.within in Hw. apply andb_true_iff in Hw.
    destruct Hw as [Hw _]. apply andb_true_iff in Hw. tauto.
  - revert Hw.
    apply (Ranges.within_value 1000 16384000 (-14)); try reflexivity.
    Ranges.pow2_numerals. lra.
Qed.

(** One product of a component and an increment. *)
Lemma product (x p : float) :
  F32.valid x = true -> F32.valid p = true ->
  Exact.is_finite x = true -> Exact.is_finite p = true ->
  Rabs (Exact.value x) <= 2 -> Rabs (Exact.value p) <= 1000 ->
  F32.valid (F32.mul x p) = true
  /\ Exact.is_finite (F32.mul x p) = true
  /\ Rabs (Exact.value x * Exact.value p) <= 2000
  /\ - / 1000 <= Exact.value (F32.mul x p) - Exact.value x * Exact.value p
     <= / 1000.
Proof.
  intros Hvx Hvp Hfx Hfp Hx Hp.
  assert (Hb : Rabs (Exact.value x * Exact.value p) <= 2000).
  { rewrite Rabs_mult. replace 2000 with (2 * 1000) by lra.
    apply Rmult_le_compat; try apply Rabs_pos; lra. }
  destruct (mul32 x p Hvx Hvp Hfx Hfp) as (Hf & Herr & _); [lra|].
  split; [apply (Rounding.mul_valid F32.prec F32.emax ltac:(reflexivity)
                  ltac:(discriminate)); assumption|].
  split; [exact Hf|]. split; [exact Hb|]. lra.
Qed.

(** One sum or difference of two computed terms [a] and [b], which
    stand for the exact terms [A] and [B]. *)
Lemma term_step (a b : float) (A B Ea Eb MA MB : R) :
  F32.valid a = true -> F32.valid b = true ->
  Exact.is_finite a = true -> Exact.is_finite b = true ->
  - Ea <= Exact.value a - A <= Ea -> - Eb <= Exact.value b - B <= Eb ->
  Rabs A <= MA -> Rabs B <= MB -> MA + MB + Ea + Eb <= 8000 ->
  (F32.valid (F32.add a b) = true
   /\ Exact.is_finite (F32.add a b) = true
   /\ - (Ea + Eb + / 1000) <= Exact.value (F32.add a b) - (A + B)
      <= Ea + Eb + / 1000)
  /\ (F32.valid (F32.sub a b) = true
      /\ Exact.is_finite (F32.sub a b) = true
      /\ - (Ea + Eb + / 1000) <= Exact.value (F32.sub a b) - (A - B)
         <= Ea + Eb + / 1000).
Proof.
  intros Hva Hvb Hfa Hfb Ha Hb HA HB HM.
  apply Rabs_le_both in HA. apply Rabs_le_both in HB.
  split.
  - assert (Ht : Rabs (Exact.value a + Exact.value b) <= 8000)
      by (apply Rabs_le; lra).
    destruct (add32 a b Hfa Hfb) as (Hf & Herr & _); [lra|].
    split; [apply (Rounding.add_valid F32.prec F32.emax ltac:(reflexivity)
                  ltac:(discriminate)); assumption|].
    split; [exact Hf|]. lra.
  - assert (Ht : Rabs (Exact.value a - Exact.value b) <= 8000)
      by (apply Rabs_le; lra).
    destruct (sub32 a b Hfa Hfb) as (Hf & Herr & _); [lra|].
    split; [apply (Rounding.sub_valid F32.prec F32.emax ltac:(reflexivity)
                  ltac:(discriminate)); assumption|].
    split; [exact Hf|]. lra.
Qed.

(** One component of the rotated quaternion: [x] plus the three products
    [a * p], [b * q] and [c * r], the second and the third added or
    subtracted. *)
Lemma component (minus2 minus3 : bool) (x a p b q c r : float) :
  F32.valid x = true -> Exact.is_finite x = true ->
  Rabs (Exact.value x) <= 2 ->
  F32.valid a = true -> Exact.is_finite a = true ->
  Rabs (Exact.value a) <= 2 ->
  F32.valid b = true -> Exact.is_finite b = true ->
  Rabs (Exact.value b) <= 2 ->
  F32.valid c = true -> Exact.is_finite c = true ->
  Rabs (Exact.value c) <= 2 ->
  F32.within 1000 p = true -> F32.within 1000 q = true ->
  F32.within 1000 r = true ->
  let z :=
    F32.add x
      ((if minus3 then F32.sub else F32.add)
         ((if minus2 then F32.sub else F32.add) (F32.mul a p) (F32.mul b q))
         (F32.mul c r)) in
  let exact :=
    Exact.value x
    + (Exact.value a * Exact.value p
       + (if minus2 then - 1 else 1) * (Exact.value b * Exact.value q)
       + (if minus3 then - 1 else 1) * (Exact.value c * Exact.value r)) in
  F32.valid z = true /\ Exact.is_finite z = true
  /\ - (6 / 1000) <= Exact.value z - exact <= 6 / 1000.
Proof.
  intros Hvx Hfx Hx Hva Hfa Ha Hvb Hfb Hb Hvc Hfc Hc Hp Hq Hr z exact.
  destruct (within_increment p Hp) as (Hvp & Hfp & Hpm).
  destruct (within_increment q Hq) as (Hvq & Hfq & Hqm).
  destruct (within_increment r Hr) as (Hvr & Hfr & Hrm).
  destruct (product a p Hva Hvp Hfa Hfp Ha Hpm) as (V1 & F1 & M1 & E1).
  destruct (product b q Hvb Hvq Hfb Hfq Hb Hqm) as (V2 & F2 & M2 & E2).
  destruct (product c r Hvc Hvr Hfc Hfr Hc Hrm) as (V3 & F3 & M3 & E3).
  assert (Hin : exists (s : float) (S : R),
             s = (if minus2 then F32.sub else F32.add)
                   (F32.mul a p) (F32.mul b q)
             /\ S = Exact.value a * Exact.value p
                    + (if minus2 then - 1 else 1)
                      * (Exact.value b * Exact.value q)
             /\ F32.valid s = true /\ Exact.is_finite s = true
             /\ - (3 / 1000) <= Exact.value s - S <= 3 / 1000
             /\ Rabs S <= 4000).
  { destruct (term_step (F32.mul a p) (F32.mul b q) _ _ (/ 1000) (/ 1000)
                2000 2000 V1 V2 F1 F2 E1 E2 M1 M2 ltac:(lra))
      as [(Va & Fa & Ea) (Vs & Fs & Es)].
    apply Rabs_le_both in M1. apply Rabs_le_both in M2.
    destruct minus2; eexists; eexists;
      (split; [reflexivity|]); (split; [reflexivity|]);
      (split; [assumption|]); (split; [assumption|]);
      (split; [lra|]); apply Rabs_le; lra. }
  destruct Hin as (s & S & Hs & HS & Vs & Fs & Es & Ms).
  assert (Hout : exists (t : float) (T : R),
             t = (if minus3 then F32.sub else F32.add) s (F32.mul c r)
             /\ T = S + (if minus3 then - 1 else 1)
                        * (Exact.value c * Exact.value r)
             /\ F32.valid t = true /\ Exact.is_finite t = true
             /\ - (5 / 1000) <= Exact.value t - T <= 5 / 1000
             /\ Rabs T <= 6000).
  { destruct (term_step s (F32.mul c r) _ _ (3 / 1000) (/ 1000)
                4000 2000 Vs V3 Fs F3 Es E3 Ms M3 ltac:(lra))
      as [(Va & Fa & Ea) (Vd & Fd & Ed)].
    apply Rabs_le_both in Ms. apply Rabs_le_both in M3.
    destruct minus3; eexists; eexists;
      (split; [reflexivity|]); (split; [reflexivity|]);
      (split; [assumption|]); (split; [assumption|]);
      (split; [lra|]); apply Rabs_le; lra. }
  destruct Hout as (t & T & Ht & HT & Vt & Ft & Et & Mt).
  assert (Ex : - 0 <= Exact.value x - Exact.value x <= 0) by lra.
  destruct (term_step x t _ _ 0 (5 / 1000) 2 6000 Hvx Vt Hfx Ft Ex Et Hx Mt
              ltac:(lra)) as [(Vz & Fz & Ez) _].
  unfold z, exact. rewrite <- Hs, <- Ht, <- HS, <- HT.
  split; [exact Vz|]. split; [exact Fz|]. lra.
Qed.


Lemma neg_value (x : float) :
  Exact.value (F32.neg x) = - Exact.value x
  /\ Exact.is_finite (F32.neg x) = Exact.is_finite x
  /\ F32.valid (F32.neg x) = F32.valid x.
Proof.
  destruct x as [s|s| |s m e]; cbn [F32.neg SFopp Exact.value Exact.is_finite];
    repeat split; try lra.
  destruct s; cbn [negb]; lra.
Qed.

Lemma value_magnitude_below (x : float) :
  Exact.is_finite x = true ->
  Rabs (Exact.value x) < 1152921504606846976 ->
  magnitude_below 60 x = true.
Proof.
  intros Hf Hb. destruct x as [s|s| |s m e]; try discriminate Hf;
    [reflexivity|].
  cbn [magnitude_below]. apply Z.leb_le.
  apply Rounding.magnitude_of_value with (s := s).
  rewrite (Ranges.pow2_numeral_pos 60 1152921504606846976 ltac:(lia) eq_refl).
  exact Hb.
Qed.

Lemma magnitude_from_false (x : float) :
  Exact.is_finite x = true -> magnitude_from (-60) x = false ->
  Rabs (Exact.value x) < / 1152921504606846976.
Proof.
  intros Hf Hm.
  assert (Hb : magnitude_below (-60) x = true).
  { destruct x as [s|s| |s m e]; try discriminate Hf; [reflexivity|].
    cbn [magnitude_from] in Hm. cbn [magnitude_below].
    apply Z.ltb_ge in Hm. apply Z.leb_le. exact Hm. }
  destruct (magnitude_below_value (-60) x Hb) as [_ Hlt].
  rewrite (Ranges.pow2_numeral_neg (-60) 1152921504606846976 ltac:(lia)
             eq_refl) in Hlt.
  exact Hlt.
Qed.

(** The components of a unit quaternion are at most 2 in magnitude, and
    the square of its norm is within 3e-6 of one. *)
Lemma unit_components (q : quat) :
  unit_quaternion q ->
  (Exact.is_finite (q0 q) = true /\ Exact.is_finite (q1 q) = true
   /\ Exact.is_finite (q2 q) = true /\ Exact.is_finite (q3 q) = true)
  /\ (99 / 100 < quat_norm_square q < 101 / 100)
  /\ (Rabs (Exact.value (q0 q)) <= 2 /\ Rabs (Exact.value (q1 q)) <= 2
      /\ Rabs (Exact.value (q2 q)) <= 2 /\ Rabs (Exact.value (q3 q)) <= 2).
Proof.
  intros [Hfin Hunit].
  apply andb_true_iff in Hfin. destruct Hfin as [Hfin F3].
  apply andb_true_iff in Hfin. destruct Hfin as [Hfin F2].
  apply andb_true_iff in Hfin. destruct Hfin as [F0 F1].
  split; [tauto|].
  unfold quat_norm in Hunit.
  set (S := quat_norm_square q) in *.
  pose proof (Rle_0_sqr (Exact.value (q0 q))) as P0.
  pose proof (Rle_0_sqr (Exact.value (q1 q))) as P1.
  pose proof (Rle_0_sqr (Exact.value (q2 q))) as P2.
  pose proof (Rle_0_sqr (Exact.value (q3 q))) as P3.
  unfold Rsqr in P0, P1, P2, P3.
  assert (HS : 0 <= S) by (unfold S, quat_norm_square; lra).
  pose proof (sqrt_sqrt S HS) as Hsq.
  pose proof (sqrt_pos S) as Hpos.
  apply Rabs_def2 in Hunit. destruct Hunit as [Hhi Hlo].
  assert (Hlow : (1 - / 1000000) * (1 - / 1000000) < sqrt S * sqrt S)
    by (apply square_lt; lra).
  assert (Hupp : sqrt S * sqrt S < (1 + / 1000000) * (1 + / 1000000))
    by (apply square_lt; lra).
  assert (Hrange : 99 / 100 < S < 101 / 100) by lra.
  split; [exact Hrange|].
  assert (Hone : forall a : R, a * a <= S -> Rabs a <= 2).
  { intros a Ha. destruct (Rle_lt_dec (Rabs a) 2) as [|Hgt]; [assumption|].
    exfalso. pose proof (square_lt 2 (Rabs a) ltac:(lra)) as Hbig.
    rewrite <- square_abs in Hbig. lra. }
  unfold S, quat_norm_square in Hone.
  repeat split; apply Hone; lra.
Qed.

(** For a unit quaternion and increments of at most 1000 in magnitude,
    the rotated quaternion is moderate. *)
Lemma rotated_moderate (q : quat) (p_ q_ r_ : float) :
  unit_quaternion q -> quat_valid q = true ->
  F32.within 1000 p_ = true -> F32.within 1000 q_ = true ->
  F32.within 1000 r_ = true ->
  moderate (quat_rotate q p_ q_ r_) = true.
Proof.
  intros Hunit Hvalid Hp Hq Hr.
  destruct (unit_components q Hunit)
    as ((F0 & F1 & F2 & F3) & HS & (B0 & B1 & B2 & B3)).
  unfold quat_valid in Hvalid.
  apply andb_true_iff in Hvalid. destruct Hvalid as [Hvalid V3].
  apply andb_true_iff in Hvalid. destruct Hvalid as [Hvalid V2].
  apply andb_true_iff in Hvalid. destruct Hvalid as [V0 V1].
  destruct (neg_value (q1 q)) as (Nv & Nf & Nvalid).
  pose proof (component true true (q0 q) (F32.neg (q1 q)) p_ (q2 q) q_
                (q3 q) r_ V0 F0 B0
                ltac:(rewrite Nvalid; exact V1) ltac:(rewrite Nf; exact F1)
                ltac:(rewrite Nv, Rabs_Ropp; exact B1)
                V2 F2 B2 V3 F3 B3 Hp Hq Hr) as C0.
  pose proof (component false true (q1 q) (q0 q) p_ (q2 q) r_ (q3 q) q_
                V1 F1 B1 V0 F0 B0 V2 F2 B2 V3 F3 B3 Hp Hr Hq) as C1.
  pose proof (component true false (q2 q) (q0 q) q_ (q1 q) r_ (q3 q) p_
                V2 F2 B2 V0 F0 B0 V1 F1 B1 V3 F3 B3 Hq Hr Hp) as C2.
  pose proof (component false true (q3 q) (q0 q) r_ (q1 q) q_ (q2 q) p_
                V3 F3 B3 V0 F0 B0 V1 F1 B1 V2 F2 B2 Hr Hq Hp) as C3.
  cbv beta iota zeta in C0, C1, C2, C3. rewrite Nv in C0.
  destruct (within_increment p_ Hp) as (_ & _ & Mp).
  destruct (within_increment q_ Hq) as (_ & _ & Mq).
  destruct (within_increment r_ Hr) as (_ & _ & Mr).
  set (a0 := Exact.value (q0 q)) in *. set (a1 := Exact.value (q1 q)) in *.
  set (a2 := Exact.value (q2 q)) in *. set (a3 := Exact.value (q3 q)) in *.
  set (hp := Exact.value p_) in *. set (hq := Exact.value q_) in *.
  set (hr := Exact.value r_) in *.
  set (rot := quat_rotate q p_ q_ r_).
  change (F32.add (q0 q)
            (F32.sub (F32.sub (F32.mul (F32.neg (q1 q)) p_)
                        (F32.mul (q2 q) q_)) (F32.mul (q3 q) r_)))
    with (q0 rot) in C0.
  change (F32.add (q1 q)
            (F32.sub (F32.add (F32.mul (q0 q) p_) (F32.mul (q2 q) r_))
               (F32.mul (q3 q) q_)))
    with (q1 rot) in C1.
  change (F32.add (q2 q)
            (F32.add (F32.sub (F32.mul (q0 q) q_) (F32.mul (q1 q) r_))
               (F32.mul (q3 q) p_)))
    with (q2 rot) in C2.
  change (F32.add (q3 q)
            (F32.sub (F32.add (F32.mul (q0 q) r_) (F32.mul (q1 q) q_))
               (F32.mul (q2 q) p_)))
    with (q3 rot) in C3.
  destruct C0 as (W0 & G0 & E0). destruct C1 as (W1 & G1 & E1).
  destruct C2 as (W2 & G2 & E2). destruct C3 as (W3 & G3 & E3).
  set (e0 := a0 + (- a1 * hp + - 1 * (a2 * hq) + - 1 * (a3 * hr))) in *.
  set (e1 := a1 + (a0 * hp + 1 * (a2 * hr) + - 1 * (a3 * hq))) in *.
  set (e2 := a2 + (a0 * hq + - 1 * (a1 * hr) + 1 * (a3 * hp))) in *.
  set (e3 := a3 + (a0 * hr + 1 * (a1 * hq) + - 1 * (a2 * hp))) in *.
  (* the exact components are at most 6002 in magnitude *)
  assert (Hprod : forall a b : R, Rabs a <= 2 -> Rabs b <= 1000 ->
                                  - 2000 <= a * b <= 2000).
  { intros a b Ha Hb. apply Rabs_le_both. rewrite Rabs_mult.
    replace 2000 with (2 * 1000) by lra.
    apply Rmult_le_compat; try apply Rabs_pos; lra. }
  pose proof (Hprod a0 hp B0 Mp). pose proof (Hprod a0 hq B0 Mq).
  pose proof (Hprod a0 hr B0 Mr). pose proof (Hprod a1 hp B1 Mp).
  pose proof (Hprod a1 hq B1 Mq). pose proof (Hprod a1 hr B1 Mr).
  pose proof (Hprod a2 hp B2 Mp). pose proof (Hprod a2 hq B2 Mq).
  pose proof (Hprod a2 hr B2 Mr). pose proof (Hprod a3 hp B3 Mp).
  pose proof (Hprod a3 hq B3 Mq). pose proof (Hprod a3 hr B3 Mr).
  apply Rabs_le_both in B0. apply Rabs_le_both in B1.
  apply Rabs_le_both in B2. apply Rabs_le_both in B3.
  assert (U0 : Rabs (Exact.value (q0 rot)) < 1152921504606846976)
    by (apply Rabs_def1; unfold e0 in E0; lra).
  assert (U1 : Rabs (Exact.value (q1 rot)) < 1152921504606846976)
    by (apply Rabs_def1; unfold e1 in E1; lra).
  assert (U2 : Rabs (Exact.value (q2 rot)) < 1152921504606846976)
    by (apply Rabs_def1; unfold e2 in E2; lra).
  assert (U3 : Rabs (Exact.value (q3 rot)) < 1152921504606846976)
    by (apply Rabs_def1; unfold e3 in E3; lra).
  unfold moderate. rewrite W0, W1, W2, W3.
  rewrite (value_magnitude_below _ G0 U0), (value_magnitude_below _ G1 U1),
    (value_magnitude_below _ G2 U2), (value_magnitude_below _ G3 U3).
  cbn [andb].
  destruct (magnitude_from (-60) (q0 rot)) eqn:L0; [reflexivity|].
  destruct (magnitude_from (-60) (q1 rot)) eqn:L1; [reflexivity|].
  destruct (magnitude_from (-60) (q2 rot)) eqn:L2; [reflexivity|].
  destruct (magnitude_from (-60) (q3 rot)) eqn:L3; [reflexivity|].
  exfalso.
  apply (magnitude_from_false _ G0) in L0.
  apply (magnitude_from_false _ G1) in L1.
  apply (magnitude_from_false _ G2) in L2.
  apply (magnitude_from_false _ G3) in L3.
  apply Rabs_def2 in L0. apply Rabs_def2 in L1.
  apply Rabs_def2 in L2. apply Rabs_def2 in L3.
  assert (Hsmall : forall e : R, - (7 / 1000) <= e <= 7 / 1000 ->
                                 e * e <= 49 / 1000000).
  { intros e He. rewrite (square_abs e).
    replace (49 / 1000000) with (7 / 1000 * (7 / 1000)) by lra.
    apply square_le. split; [apply Rabs_pos|apply Rabs_le; lra]. }
  pose proof (Hsmall e0 ltac:(lra)) as S0.
  pose proof (Hsmall e1 ltac:(lra)) as S1.
  pose proof (Hsmall e2 ltac:(lra)) as S2.
  pose proof (Hsmall e3 ltac:(lra)) as S3.
  assert (Hid : e0 * e0 + e1 * e1 + e2 * e2 + e3 * e3
                = quat_norm_square q * (1 + (hp * hp + hq * hq + hr * hr))).
  { unfold e0, e1, e2, e3, quat_norm_square. fold a0 a1 a2 a3. ring. }
  pose proof (Rle_0_sqr hp) as PP. pose proof (Rle_0_sqr hq) as QQ.
  pose proof (Rle_0_sqr hr) as RR. unfold Rsqr in PP, QQ, RR.
  assert (Hgrow : 0 <= quat_norm_square q * (hp * hp + hq * hq + hr * hr))
    by (apply Rmult_le_pos; lra).
  lra.
Qed.

(** The components of a normalised quaternion are values of the format,
    whatever the quaternion. *)
Lemma quat_normalize_valid (r : quat) : quat_valid (quat_normalize r) = true.
Proof.
  unfold quat_valid, quat_normalize, F32.valid. cbn [q0 q1 q2 q3].
  unfold F32.div.
  rewrite !(Rounding.div_valid F32.prec F32.emax ltac:(reflexivity)).
  reflexivity.
Qed.

(** A unit quaternion, rotated by increments of at most 1000 in magnitude
    and normalised, is a unit quaternion. *)
Lemma rotate_normalize_unit (q : quat) (p_ q_ r_ : float) :
  unit_quaternion q -> quat_valid q = true ->
  F32.within 1000 p_ = true -> F32.within 1000 q_ = true ->
  F32.within 1000 r_ = true ->
  unit_quaternion (quat_normalize (quat_rotate q p_ q_ r_)).
Proof.
  intros Hunit Hvalid Hp Hq Hr.
  apply quat_normalize_unit. apply rotated_moderate; assumption.
Qed.

End Rotation.

(* ================================================================== *)
(** * NMEA formatter: concrete sentences *)

Module BenchNMEA.

Local Open Scope string_scope.

(** The heading sentence for 359.5 degrees gets the checksum 23 (hex). *)
Lemma NMEA_append_tail_checksum_witness :
  NMEA_append_tail "$HCHDT,359.5,T"
  = Some ("$HCHDT,359.5,T*23" ++ String CR (String LF EmptyString))
  /\ NMEA_checksum "$HCHDT,359.5,T*23" = true.
Proof.
  destruct (NMEA_append_tail_checksum "HCHDT,359.5,T")
    as (_ & _ & Htail & Hsum & _); [reflexivity|].
  split; [exact Htail|exact Hsum].
Defined.

(** Counterexample to C8 as stated: the sentence as [NMEA_append_tail]
    leaves it, with CR LF, does not pass [NMEA_checksum]. *)
Lemma NMEA_checksum_rejects_appended_tail :
  option_map NMEA_checksum (NMEA_append_tail "$HCHDT,359.5,T") = Some false.
Proof. vm_compute. reflexivity. Qed.

(** A sentence of [format_POV] with a pitot pressure of -3 Pa and one with
    1234.7 Pa. *)
Example format_POV_negative_pitot :
  format_POV (F32.of_Z 30) (F32.of_Z 95000) (F32.of_Z (-3))
    (F32.decimal 15 1) (F32.decimal 125 1) false F32.zero F32.zero
  = "$POV,E,1.50,P,950.00,R,0.00,S,108.00,V,12.5".
Proof. vm_compute. reflexivity. Qed.

Example format_POV_positive_pitot :
  format_POV (F32.of_Z 30) (F32.of_Z 95000) (F32.decimal 12347 1)
    (F32.decimal 15 1) (F32.decimal 125 1) false F32.zero F32.zero
  = "$POV,E,1.50,P,950.00,R,12.34,S,108.00,V,12.5".
Proof. vm_compute. reflexivity. Qed.

End BenchNMEA.

(* ================================================================== *)
(** * Headings on the test bench *)

Module BenchHeading.

Import Bench.
#[local] Existing Instance Bench.tuning.
#[local] Existing Instance Bench.collaborators.

Local Open Scope f32_scope.

(** The stored heading difference of a tick of [straight] with the given
    GNSS heading: the yaw and the antenna corrections of [straight] are
    zero, the raw difference is the GNSS heading. *)
Lemma heading_difference_range_witness :
  let stored :=
    heading_difference_AHRS_DGNSS
      (update_diff_GNSS straight vzero gravity mag_north vzero (F32.of_Z 4)) in
  heading_difference_raw straight (F32.of_Z 4) = F32.of_Z 4
  /\ F32.leb (- M_PI_F) stored = true
  /\ F32.leb stored M_PI_F = true
  /\ stored = F32.of_Z 4 - TWO_PI_F.
Proof.
  cbv zeta.
  destruct (heading_difference_range straight vzero gravity mag_north vzero
              (F32.of_Z 4)) as (_ & _ & _ & _ & Hrange).
  destruct Hrange as (Hlo & Hhi & Habove).
  - vm_compute. reflexivity.
  - vm_compute. reflexivity.
  - vm_compute. reflexivity.
  - split; [vm_compute; reflexivity|].
    split; [exact Hlo|]. split; [exact Hhi|].
    rewrite Habove; [|vm_compute; reflexivity].
    vm_compute. reflexivity.
Defined.

(** Counterexample to C5 as stated.  A GNSS heading of ten radians leaves
    a stored difference of ten less [TWO_PI_F], which is above [M_PI_F]:
    one step is taken, not as many as the range needs.  And a raw
    difference of [-M_PI_F] is stored as it is, at the end of the interval
    that the statement excludes. *)
Lemma heading_difference_outside_range :
  let stored (GNSS_heading : float) :=
    heading_difference_AHRS_DGNSS
      (update_diff_GNSS straight vzero gravity mag_north vzero GNSS_heading) in
  heading_difference_raw straight (F32.of_Z 10) = F32.of_Z 10
  /\ stored (F32.of_Z 10) = F32.of_Z 10 - TWO_PI_F
  /\ F32.gtb (stored (F32.of_Z 10)) M_PI_F = true
  /\ F32.leb (stored (F32.of_Z 10)) M_PI_F = false
  /\ heading_difference_raw straight (- M_PI_F) = - M_PI_F
  /\ stored (- M_PI_F) = - M_PI_F
  /\ F32.ltb (- M_PI_F) (stored (- M_PI_F)) = false.
Proof.
  vm_compute. repeat split; reflexivity.
Qed.

Local Open Scope Z_scope.
Local Open Scope string_scope.

(** A yaw of -0.01 rad: the product with 573 is -5.73, the conversion to
    an integer gives -5, and 3600 are added. *)
Lemma format_HCHDT_heading_witness :
  let yaw := F32.neg (F32.decimal 1 2) in
  F32.to_int (F32.mul yaw (F32.of_Z 573)) = -5
  /\ HCHDT_heading yaw = 3595
  /\ 0 <= HCHDT_heading yaw < 3600
  /\ nth 1 (split_fields (format_HCHDT yaw)) "" = "359.5"
  /\ is_unsigned_decimal (nth 1 (split_fields (format_HCHDT yaw)) "") = true.
Proof.
  cbv zeta.
  destruct (proj1 format_HCHDT_heading (F32.neg (F32.decimal 1 2)))
    as (_ & Hrange & _ & _ & Hunsigned & _).
  - vm_compute. reflexivity.
  - vm_compute. reflexivity.
  - vm_compute. reflexivity.
  - split; [vm_compute; reflexivity|].
    split; [vm_compute; reflexivity|].
    split; [exact Hrange|].
    split; [vm_compute; reflexivity|exact Hunsigned].
Defined.

End BenchHeading.

(* ================================================================== *)
(** * NMEA formatter: numbers *)

Section Numbers.

Local Open Scope Z_scope.
Local Open Scope string_scope.

Lemma length_append (a b : string) :
  String.length (a ++ b) = (String.length a + String.length b)%nat.
Proof. induction a as [|x a IH]; simpl; [reflexivity|now rewrite IH]. Qed.

(** The number of digits [format_integer_rec] writes. *)
Lemma format_integer_rec_length (depth : nat) :
  forall value : Z,
    0 <= value < 10 ^ Z.of_nat depth -> (0 < depth)%nat ->
    let n := String.length (format_integer_rec depth value) in
    (1 <= n <= depth)%nat
    /\ (value < 10 -> n = 1%nat)
    /\ (0 < value -> 10 ^ (Z.of_nat n - 1) <= value).
Proof.
  induction depth as [|depth IH]; intros value Hv Hd; [lia|].
  destruct (Z_lt_dec value 10) as [Hs|Hl].
  - rewrite format_integer_rec_small by lia. cbn [String.length].
    split; [lia|]. split; [reflexivity|]. intros Hpos.
    change (10 ^ (Z.of_nat 1 - 1)) with 1. lia.
  - assert (Hdepth : (0 < depth)%nat).
    { destruct depth; [|lia]. change (10 ^ Z.of_nat 1) with 10 in Hv. lia. }
    cbn [format_integer_rec].
    destruct (value <? 10)%Z eqn:E; [apply Z.ltb_lt in E; lia|].
    assert (Hq : 0 <= value / 10 < 10 ^ Z.of_nat depth).
    { split; [apply Z.div_pos; lia|].
      apply Z.div_lt_upper_bound; [lia|].
      rewrite Nat2Z.inj_succ, Z.pow_succ_r in Hv by lia. lia. }
    assert (Hr : 0 <= value mod 10 < 10) by (apply Z.mod_pos_bound; lia).
    destruct (IH (value / 10) Hq Hdepth) as (Hlen & _ & Hlow).
    rewrite length_append.
    destruct depth as [|depth']; [lia|].
    rewrite (format_integer_rec_small depth' (value mod 10) Hr).
    cbn [String.length].
    set (n := String.length (format_integer_rec (S depth') (value / 10))) in *.
    split; [lia|]. split; [lia|]. intros _.
    assert (Hq1 : 0 < value / 10).
    { apply Z.div_str_pos; lia. }
    specialize (Hlow Hq1).
    replace (Z.of_nat (n + 1) - 1) with (Z.succ (Z.of_nat n - 1)) by lia.
    rewrite Z.pow_succ_r by lia.
    pose proof (Z.div_mod value 10 ltac:(lia)). lia.
Qed.

(** A [uint32_t] has ten decimal digits at most. *)
Lemma format_integer_length (value : Z) :
  let v := wrap_uint32 value in
  let n := String.length (format_integer value) in
  (1 <= n <= 10)%nat
  /\ (v < 10 -> n = 1%nat)
  /\ (0 < v -> 10 ^ (Z.of_nat n - 1) <= v).
Proof.
  intros v n.
  assert (Hv : 0 <= v < 10 ^ Z.of_nat 10).
  { subst v. unfold wrap_uint32.
    pose proof (Z.mod_pos_bound value (2 ^ 32) ltac:(lia)) as Hb.
    change (10 ^ Z.of_nat 10) with 10000000000.
    change (2 ^ 32) with 4294967296 in *. lia. }
  assert (Hs : format_integer value = format_integer_rec 10 v).
  { subst v. unfold format_integer.
    apply (format_integer_rec_depth 10 _ 1); [exact Hv|lia]. }
  subst n. rewrite Hs.
  apply (format_integer_rec_length 10 v Hv). lia.
Qed.

(** X1.  [format_integer] writes the decimal notation of its argument as
    a [uint32_t]: between one and ten digits and nothing else, which read
    as a decimal number give the argument back; zero is written as the
    one digit 0, and any other number without a leading zero. *)
Theorem format_integer_decimal (value : Z) :
  let v := wrap_uint32 value in
  let s := format_integer value in
  all_chars is_digit s = true
  /\ digits_value s 0 = v
  /\ (1 <= String.length s <= 10)%nat
  /\ (v = 0 -> s = "0")
  /\ (0 < v -> 10 ^ (Z.of_nat (String.length s) - 1) <= v).
Proof.
  intros v s.
  destruct (format_integer_digits value) as [Hd Hval].
  destruct (format_integer_length value) as (Hlen & _ & Hlow).
  split; [exact Hd|]. split; [exact Hval|]. split; [exact Hlen|].
  split; [|exact Hlow].
  intros Hz. subst s. unfold format_integer. fold v. rewrite Hz. reflexivity.
Qed.

Lemma split_at_point_digits (i f : string) :
  all_chars is_digit i = true ->
  split_at_point (i ++ String "." f) = Some (i, f).
Proof.
  induction i as [|c i IH]; intros Hi; [reflexivity|].
  cbn [all_chars] in Hi. apply andb_true_iff in Hi. destruct Hi as [Hc Hi].
  cbn [append split_at_point]. rewrite (IH Hi).
  destruct (Ascii.eqb_spec c "."); [subst c; discriminate Hc|reflexivity].
Qed.

(** What is read back from the digits of an integer part, a decimal
    point and the digits of a fraction, with or without a minus sign. *)
Lemma read_fixed_point_digits (decimals : nat) (negative : bool)
  (i f : string) :
  all_chars is_digit i = true -> all_chars is_digit f = true ->
  (1 <= String.length i)%nat -> String.length f = decimals ->
  read_fixed_point decimals
    ((if negative then "-" else "") ++ i ++ String "." f)
  = Some ((if negative then -1 else 1)
          * (digits_value i 0 * 10 ^ Z.of_nat decimals + digits_value f 0)).
Proof.
  intros Hi Hf Hlen Hdec. unfold read_fixed_point.
  assert (Hbody : match split_at_point (i ++ String "." f) with
                  | Some (i', f') =>
                      if all_chars is_digit i' && all_chars is_digit f'
                         && negb (Nat.eqb (String.length i') 0)
                         && Nat.eqb (String.length f') decimals
                      then Some ((if negative then -1 else 1)
                                 * (digits_value i' 0 * 10 ^ Z.of_nat decimals
                                    + digits_value f' 0))
                      else None
                  | None => None
                  end
                  = Some ((if negative then -1 else 1)
                          * (digits_value i 0 * 10 ^ Z.of_nat decimals
                             + digits_value f 0))).
  { rewrite (split_at_point_digits i f Hi), Hi, Hf, Hdec, Nat.eqb_refl.
    destruct (String.length i); [lia|reflexivity]. }
  destruct negative.
  - cbn [append]. change (Ascii.eqb "-" "-") with true. cbv iota.
    exact Hbody.
  - cbn [append]. destruct i as [|c i]; [cbn in Hlen; lia|].
    cbn [append].
    cbn [all_chars] in Hi. apply andb_true_iff in Hi. destruct Hi as [Hc _].
    destruct (Ascii.eqb_spec c "-"); [subst c; discriminate Hc|].
    exact Hbody.
Qed.

(** X2.  [integer_to_ascii_2_decimals] writes a number of hundredths as a
    fixed-point number with exactly two decimals: for every [int32_t]
    except the smallest, the text read back gives the number.  A number
    between -99 and -1 is written with the integer part 0 after the minus
    sign. *)
Theorem integer_to_ascii_2_decimals_round_trip (number : Z) :
  - 2 ^ 31 < number < 2 ^ 31 ->
  read_fixed_point 2 (integer_to_ascii_2_decimals number) = Some number.
Proof.
  intros Hn. unfold integer_to_ascii_2_decimals.
  set (a := if (number <? 0)%Z then wrap_int32 (- number) else number).
  assert (Ha : 0 <= a < 2 ^ 31 /\ number = (if (number <? 0)%Z then -1 else 1) * a).
  { subst a. destruct (number <? 0)%Z eqn:E;
      [apply Z.ltb_lt in E|apply Z.ltb_ge in E]; [|lia].
    unfold wrap_int32. rewrite Z.mod_small; lia. }
  destruct Ha as [Ha Hsign].
  cbv zeta.
  rewrite !Z.quot_div_nonneg, !Z.rem_mod_nonneg by
    (try lia; apply Z.div_pos; lia).
  destruct (format_integer_digits (a / 100)) as (Hd & Hval).
  destruct (format_integer_length (a / 100)) as (Hlen & _).
  assert (Hq : wrap_uint32 (a / 100) = a / 100).
  { unfold wrap_uint32. apply Z.mod_small. split; [apply Z.div_pos; lia|].
    apply Z.div_lt_upper_bound; lia. }
  assert (H1 : 0 <= a / 10 mod 10 < 10) by (apply Z.mod_pos_bound; lia).
  assert (H0 : 0 <= a mod 10 < 10) by (apply Z.mod_pos_bound; lia).
  destruct (HEX_digit _ H1) as [Hd1 Hv1].
  destruct (HEX_digit _ H0) as [Hd0 Hv0].
  change (format_integer (a / 100) ++ "."
          ++ String (char_at HEX (a / 10 mod 10))
               (String (char_at HEX (a mod 10)) ""))
    with (format_integer (a / 100)
          ++ String "." (String (char_at HEX (a / 10 mod 10))
                           (String (char_at HEX (a mod 10)) ""))).
  rewrite (read_fixed_point_digits 2 (number <? 0)%Z);
    [|exact Hd|cbn [all_chars]; rewrite Hd1, Hd0; reflexivity|lia|reflexivity].
  rewrite Hval, Hq. cbn [digits_value].
  rewrite Hv1, Hv0. f_equal.
  change (10 ^ Z.of_nat 2) with 100.
  assert (Hdigits : a / 100 * 100 + (10 * (10 * 0 + a / 10 mod 10) + a mod 10)
                    = a).
  { rewrite (Z.mod_eq (a / 10) 10), (Z.mod_eq a 10) by lia.
    rewrite Z.div_div by lia. change (10 * 10) with 100. lia. }
  rewrite Hdigits. symmetry. exact Hsign.
Qed.

(** X3.  [integer_to_ascii_1_decimal] writes a number of tenths with
    exactly one decimal; read back it gives the number, for every
    [int32_t] except the smallest. *)
Theorem integer_to_ascii_1_decimal_round_trip (number : Z) :
  - 2 ^ 31 < number < 2 ^ 31 ->
  read_fixed_point 1 (integer_to_ascii_1_decimal number) = Some number.
Proof.
  intros Hn. unfold integer_to_ascii_1_decimal.
  set (a := if (number <? 0)%Z then wrap_int32 (- number) else number).
  assert (Ha : 0 <= a < 2 ^ 31 /\ number = (if (number <? 0)%Z then -1 else 1) * a).
  { subst a. destruct (number <? 0)%Z eqn:E;
      [apply Z.ltb_lt in E|apply Z.ltb_ge in E]; [|lia].
    unfold wrap_int32. rewrite Z.mod_small; lia. }
  destruct Ha as [Ha Hsign].
  cbv zeta.
  rewrite !Z.quot_div_nonneg, !Z.rem_mod_nonneg by lia.
  destruct (format_integer_digits (a / 10)) as (Hd & Hval).
  destruct (format_integer_length (a / 10)) as (Hlen & _).
  assert (Hq : wrap_uint32 (a / 10) = a / 10).
  { unfold wrap_uint32. apply Z.mod_small. split; [apply Z.div_pos; lia|].
    apply Z.div_lt_upper_bound; lia. }
  assert (H0 : 0 <= a mod 10 < 10) by (apply Z.mod_pos_bound; lia).
  destruct (HEX_digit _ H0) as [Hd0 Hv0].
  change (format_integer (a / 10) ++ "."
          ++ String (char_at HEX (a mod 10)) "")
    with (format_integer (a / 10)
          ++ String "." (String (char_at HEX (a mod 10)) "")).
  rewrite (read_fixed_point_digits 1 (number <? 0)%Z);
    [|exact Hd|cbn [all_chars]; rewrite Hd0; reflexivity|lia|reflexivity].
  rewrite Hval, Hq. cbn [digits_value].
  rewrite Hv0. f_equal.
  change (10 ^ Z.of_nat 1) with 10.
  assert (Hdigits : a / 10 * 10 + (10 * 0 + a mod 10) = a).
  { rewrite (Z.mod_eq a 10) by lia. lia. }
  rewrite Hdigits. symmetry. exact Hsign.
Qed.

End Numbers.

(* ================================================================== *)
(** * NMEA formatter: what the checksum test accepts *)

Section ChecksumTest.

Local Open Scope Z_scope.
Local Open Scope string_scope.

(** The loop always splits the string into a body and a rest at which it
    stops. *)
Lemma checksum_loop_split (p : string) :
  forall acc : Z, 0 <= acc < 256 ->
    exists body rest : string,
      checksum_loop p acc = (body, xor_bytes body acc, rest)
      /\ p = body ++ rest
      /\ all_chars body_char body = true
      /\ stops rest.
Proof.
  induction p as [|c p IH]; intros acc Ha.
  - exists "", "". repeat split.
  - cbn [checksum_loop].
    destruct (Ascii.eqb c NUL || Ascii.eqb c "*") eqn:E.
    + exists "", (String c p). repeat split. exact E.
    + destruct (lxor_byte acc c Ha) as [Hw Hr].
      destruct (IH _ Hr) as (body & rest & Hl & Hp & Hb & Hs).
      rewrite Hw, Hl.
      exists (String c body), rest. cbn [xor_bytes append all_chars].
      split; [reflexivity|]. split; [rewrite Hp; reflexivity|].
      split; [|exact Hs].
      rewrite Hb. unfold body_char.
      apply orb_false_iff in E. destruct E as [-> ->]. reflexivity.
Qed.

(** The test on a sentence with a body the loop passes over: the two
    characters are compared and the end of the string is required. *)
Lemma NMEA_checksum_with_body (body : string) (hi lo : ascii) (rest : string) :
  all_chars body_char body = true ->
  NMEA_checksum (with_checksum body hi lo rest)
  = Ascii.eqb (checksum_hi body) hi && Ascii.eqb (checksum_lo body) lo
    && ends_here rest.
Proof.
  intros Hb. unfold NMEA_checksum, with_checksum.
  cbn [append next].
  change (negb (Ascii.eqb (char_at (String "$" (body ++ String "*"
            (String hi (String lo rest)))) 0) "$")) with false.
  cbv iota.
  rewrite (checksum_loop_body body _ Hb) by (reflexivity || lia).
  change (char_at (String "*" (String hi (String lo rest))) 0) with "*"%char.
  change (char_at (String "*" (String hi (String lo rest))) 1) with hi.
  change (char_at (String "*" (String hi (String lo rest))) 2) with lo.
  change (char_at (String "*" (String hi (String lo rest))) 3)
    with (char_at rest 0).
  rewrite Ascii.eqb_refl. reflexivity.
Qed.

Lemma char_at_first (s : string) (c : ascii) :
  char_at s 0 = c -> c <> NUL -> exists rest, s = String c rest.
Proof.
  destruct s as [|x s]; cbn; intros Hc Hn; [congruence|].
  exists s. congruence.
Qed.

Lemma hex4_nibble_not_NUL (checksum : Z) :
  0 <= checksum < 256 ->
  hex4 (Z.shiftr checksum 4) <> NUL /\ hex4 (Z.land checksum 15) <> NUL.
Proof.
  intros Hc. destruct (nibbles checksum Hc) as (Hhi & Hlo & _).
  split; intros E.
  - pose proof (hex4_not_NUL _ Hhi) as N. rewrite E in N. discriminate N.
  - pose proof (hex4_not_NUL _ Hlo) as N. rewrite E in N. discriminate N.
Qed.

(** X4.  [NMEA_checksum] accepts exactly the lines that consist of a
    dollar sign, a body without star and NUL, a star, the XOR of the bytes
    of the body as two uppercase hexadecimal digits, high nibble first,
    and then the end of the string. *)
Theorem NMEA_checksum_accepts (line : string) :
  NMEA_checksum line = true
  <-> exists body rest : string,
        all_chars body_char body = true
        /\ ends_here rest = true
        /\ line = with_checksum body (checksum_hi body) (checksum_lo body) rest.
Proof.
  split.
  - unfold NMEA_checksum.
    destruct (Ascii.eqb_spec (char_at line 0) "$") as [H0|]; [|discriminate].
    cbn [negb].
    destruct (char_at_first line "$" H0 ltac:(discriminate)) as (l & ->).
    cbn [next].
    destruct (checksum_loop_split l 0 ltac:(lia))
      as (body & p & -> & -> & Hb & _).
    intros Ht.
    apply andb_true_iff in Ht. destruct Ht as [Ht H3].
    apply andb_true_iff in Ht. destruct Ht as [Ht H2].
    apply andb_true_iff in Ht. destruct Ht as [Hstar H1].
    apply Ascii.eqb_eq in Hstar, H1, H2.
    assert (Hc : 0 <= xor_bytes body 0 < 256) by (apply xor_bytes_range; lia).
    destruct (hex4_nibble_not_NUL _ Hc) as [Nhi Nlo].
    destruct (char_at_first p "*" Hstar ltac:(discriminate)) as (p1 & ->).
    change (char_at (String "*" p1) 1) with (char_at p1 0) in H1.
    symmetry in H1.
    destruct (char_at_first p1 _ H1 Nhi) as (p2 & ->).
    change (char_at (String "*" (String (hex4 (Z.shiftr (xor_bytes body 0) 4))
              p2)) 2) with (char_at p2 0) in H2.
    symmetry in H2.
    destruct (char_at_first p2 _ H2 Nlo) as (p3 & ->).
    exists body, p3. split; [exact Hb|]. split; [exact H3|]. reflexivity.
  - intros (body & rest & Hb & Hend & ->).
    rewrite (NMEA_checksum_with_body body _ _ rest Hb), !Ascii.eqb_refl, Hend.
    reflexivity.
Qed.

(** The XOR over a body. *)
Lemma xor_bytes_append (a b : string) (acc : Z) :
  xor_bytes (a ++ b) acc = xor_bytes b (xor_bytes a acc).
Proof.
  revert acc. induction a as [|c a IH]; intros acc; [reflexivity|].
  cbn [append xor_bytes]. apply IH.
Qed.

Lemma xor_bytes_acc (a : string) (acc : Z) :
  xor_bytes a acc = Z.lxor acc (xor_bytes a 0).
Proof.
  revert acc. induction a as [|c a IH]; intros acc; cbn [xor_bytes].
  - rewrite Z.lxor_0_r. reflexivity.
  - rewrite (IH (Z.lxor acc (Z_of_char c))), (IH (Z.lxor 0 (Z_of_char c))).
    rewrite Z.lxor_0_l, Z.lxor_assoc. reflexivity.
Qed.

Lemma Z_of_char_inj (c c' : ascii) : Z_of_char c = Z_of_char c' -> c = c'.
Proof.
  unfold Z_of_char. intros E. apply N2Z.inj in E.
  rewrite <- (ascii_N_embedding c), <- (ascii_N_embedding c'), E.
  reflexivity.
Qed.

Lemma lxor_cancel_l (a b c : Z) : Z.lxor a b = Z.lxor a c -> b = c.
Proof.
  intros E.
  assert (E' : Z.lxor a (Z.lxor a b) = Z.lxor a (Z.lxor a c)) by (f_equal; exact E).
  rewrite <- !Z.lxor_assoc, Z.lxor_nilpotent, !Z.lxor_0_l in E'. exact E'.
Qed.

(** A byte is determined by its two hexadecimal digits. *)
Lemma hex_digits_inj (x y : Z) :
  0 <= x < 256 -> 0 <= y < 256 ->
  hex4 (Z.shiftr x 4) = hex4 (Z.shiftr y 4) ->
  hex4 (Z.land x 15) = hex4 (Z.land y 15) ->
  x = y.
Proof.
  intros Hx Hy Hhi Hlo.
  destruct (nibbles x Hx) as (Hxh & Hxl & Hxs).
  destruct (nibbles y Hy) as (Hyh & Hyl & Hys).
  assert (Eh : Some (Z.shiftr x 4) = Some (Z.shiftr y 4)).
  { rewrite <- (hex4_value _ Hxh), <- (hex4_value _ Hyh), Hhi. reflexivity. }
  assert (El : Some (Z.land x 15) = Some (Z.land y 15)).
  { rewrite <- (hex4_value _ Hxl), <- (hex4_value _ Hyl), Hlo. reflexivity. }
  injection Eh as Eh. injection El as El. lia.
Qed.

(** X5.  The checksum test notices every change of a single character of
    the body: when a sentence passes, the sentence with one character of
    its body replaced by a different one (not a star, not NUL) and the
    same two checksum characters does not. *)
Theorem NMEA_checksum_detects_substitution
  (a b : string) (c c' : ascii) (hi lo : ascii) (rest : string) :
  all_chars body_char (a ++ String c b) = true ->
  body_char c' = true ->
  Ascii.eqb c c' = false ->
  NMEA_checksum (with_checksum (a ++ String c b) hi lo rest) = true ->
  NMEA_checksum (with_checksum (a ++ String c' b) hi lo rest) = false.
Proof.
  intros Hb Hc' Hne Hpass.
  assert (Hb' : all_chars body_char (a ++ String c' b) = true).
  { rewrite all_chars_append in Hb |- *. cbn [all_chars] in Hb |- *.
    apply andb_true_iff in Hb. destruct Hb as [Ha Hb].
    apply andb_true_iff in Hb. destruct Hb as [_ Hb].
    rewrite Ha, Hc', Hb. reflexivity. }
  rewrite (NMEA_checksum_with_body _ _ _ _ Hb) in Hpass.
  rewrite (NMEA_checksum_with_body _ _ _ _ Hb').
  apply andb_true_iff in Hpass. destruct Hpass as [Hpass Hend].
  apply andb_true_iff in Hpass. destruct Hpass as [Hhi Hlo].
  apply Ascii.eqb_eq in Hhi, Hlo.
  destruct (Ascii.eqb_spec (checksum_hi (a ++ String c' b)) hi) as [Hhi'|];
    [|reflexivity].
  destruct (Ascii.eqb_spec (checksum_lo (a ++ String c' b)) lo) as [Hlo'|];
    [|reflexivity].
  exfalso. apply Ascii.eqb_neq in Hne. apply Hne.
  unfold checksum_hi, checksum_lo in *.
  assert (E : xor_bytes (a ++ String c b) 0 = xor_bytes (a ++ String c' b) 0).
  { apply hex_digits_inj; try (apply xor_bytes_range; lia); congruence. }
  rewrite !xor_bytes_append in E. cbn [xor_bytes] in E.
  rewrite (xor_bytes_acc b (Z.lxor _ (Z_of_char c))),
    (xor_bytes_acc b (Z.lxor _ (Z_of_char c'))) in E.
  rewrite !(Z.lxor_comm _ (xor_bytes b 0)) in E.
  apply lxor_cancel_l in E. apply lxor_cancel_l in E.
  apply Z_of_char_inj. exact E.
Qed.

(** X6.  The checksum does not depend on the order of the bytes: a
    sentence in which two neighbouring parts of the body have changed
    places passes the test exactly when the original does. *)
Theorem NMEA_checksum_misses_transposition
  (x a b y : string) (hi lo : ascii) (rest : string) :
  all_chars body_char (x ++ a ++ b ++ y) = true ->
  NMEA_checksum (with_checksum (x ++ b ++ a ++ y) hi lo rest)
  = NMEA_checksum (with_checksum (x ++ a ++ b ++ y) hi lo rest).
Proof.
  intros Hb.
  assert (Hb' : all_chars body_char (x ++ b ++ a ++ y) = true).
  { rewrite !all_chars_append in Hb |- *.
    destruct (all_chars body_char x), (all_chars body_char a),
      (all_chars body_char b), (all_chars body_char y);
      try discriminate Hb; reflexivity. }
  rewrite (NMEA_checksum_with_body _ _ _ _ Hb),
    (NMEA_checksum_with_body _ _ _ _ Hb').
  assert (E : xor_bytes (x ++ b ++ a ++ y) 0 = xor_bytes (x ++ a ++ b ++ y) 0).
  { rewrite !xor_bytes_append.
    rewrite (xor_bytes_acc y), (xor_bytes_acc a), (xor_bytes_acc b).
    rewrite (xor_bytes_acc y (xor_bytes b _)), (xor_bytes_acc b (xor_bytes a _)),
      (xor_bytes_acc a (xor_bytes x 0)).
    f_equal. rewrite !Z.lxor_assoc. f_equal. apply Z.lxor_comm. }
  unfold checksum_hi, checksum_lo. rewrite E. reflexivity.
Qed.

(** The tail that [NMEA_append_tail] writes after a body. *)
Lemma NMEA_append_tail_body (body p : string) :
  all_chars body_char body = true -> stops p ->
  NMEA_append_tail (String "$" body ++ p)
  = Some (with_checksum body (checksum_hi body) (checksum_lo body)
            (String CR (String LF ""))).
Proof.
  intros Hb Hp. unfold NMEA_append_tail. cbn [append next].
  change (negb (Ascii.eqb (char_at (String "$" (body ++ p)) 0) "$"))
    with false.
  cbv iota.
  rewrite (checksum_loop_body body p Hb Hp) by lia.
  unfold with_checksum. cbn [append]. reflexivity.
Qed.

(** X7.  [NMEA_append_tail] writes its tail at the first star of the
    line: what the line held from there on is discarded.  A line that has
    its tail is therefore left as it is by a second call. *)
Theorem NMEA_append_tail_replaces_tail (body rest : string) :
  all_chars body_char body = true ->
  NMEA_append_tail (String "$" body ++ String "*" rest)
  = NMEA_append_tail (String "$" body)
  /\ (forall r : string,
         NMEA_append_tail (String "$" body) = Some r ->
         NMEA_append_tail r = Some r).
Proof.
  intros Hb.
  assert (Hplain : NMEA_append_tail (String "$" body)
                   = Some (with_checksum body (checksum_hi body)
                             (checksum_lo body) (String CR (String LF "")))).
  { rewrite <- (NMEA_append_tail_body body "" Hb I). cbn [append].
    rewrite append_empty_r. reflexivity. }
  split.
  - rewrite Hplain. apply NMEA_append_tail_body; [exact Hb|reflexivity].
  - intros r Hr. rewrite Hplain in Hr. injection Hr as <-.
    unfold with_checksum at 1.
    apply NMEA_append_tail_body; [exact Hb|reflexivity].
Qed.

End ChecksumTest.

(* ================================================================== *)
(** * NMEA formatter: whole sentences *)

Section Sentences.

Local Open Scope Z_scope.
Local Open Scope string_scope.

Lemma split_fields_last (a : string) :
  all_chars (fun c => negb (Ascii.eqb c ",")) a = true ->
  split_fields a = [a].
Proof.
  induction a as [|x a IH]; [reflexivity|].
  cbn [all_chars split_fields]. intros Hs.
  apply andb_true_iff in Hs. destruct Hs as [Hx Hs].
  apply negb_true_iff in Hx. rewrite Hx, (IH Hs). reflexivity.
Qed.

Lemma is_digit_body_char (c : ascii) : is_digit c = true -> body_char c = true.
Proof.
  unfold is_digit, body_char. intros Hd.
  destruct (Ascii.eqb_spec c NUL); [subst c; discriminate Hd|].
  destruct (Ascii.eqb_spec c "*"); [subst c; discriminate Hd|].
  reflexivity.
Qed.

(** The one-decimal format writes neither star nor NUL. *)
Lemma integer_to_ascii_1_decimal_body (number : Z) :
  - 2 ^ 31 < number < 2 ^ 31 ->
  all_chars body_char (integer_to_ascii_1_decimal number) = true.
Proof.
  intros Hn. unfold integer_to_ascii_1_decimal.
  set (a := if (number <? 0)%Z then wrap_int32 (- number) else number).
  assert (Ha : 0 <= a < 2 ^ 31).
  { subst a. destruct (number <? 0)%Z eqn:E;
      [apply Z.ltb_lt in E|apply Z.ltb_ge in E]; [|lia].
    unfold wrap_int32. rewrite Z.mod_small; lia. }
  cbv zeta. rewrite Z.rem_mod_nonneg by lia.
  assert (H0 : 0 <= a mod 10 < 10) by (apply Z.mod_pos_bound; lia).
  destruct (HEX_digit _ H0) as [Hd0 _].
  destruct (format_integer_digits (Z.quot a 10)) as [Hd _].
  rewrite !all_chars_append.
  rewrite (all_chars_weaken _ _ _ is_digit_body_char Hd).
  cbn [all_chars]. rewrite (is_digit_body_char _ Hd0).
  destruct (number <? 0)%Z; reflexivity.
Qed.

Lemma to_int_range (x : float) : - 2 ^ 31 <= F32.to_int x < 2 ^ 31.
Proof.
  unfold F32.to_int, F32.INT32_MIN, F32.INT32_MAX.
  destruct x as [s|s| |s m e]; try destruct s; lia.
Qed.


(** The two-decimal format writes neither star nor NUL. *)
Lemma integer_to_ascii_2_decimals_body (number : Z) :
  - 2 ^ 31 < number < 2 ^ 31 ->
  all_chars body_char (integer_to_ascii_2_decimals number) = true.
Proof.
  intros Hn. unfold integer_to_ascii_2_decimals.
  set (a := if (number <? 0)%Z then wrap_int32 (- number) else number).
  assert (Ha : 0 <= a < 2 ^ 31).
  { subst a. destruct (number <? 0)%Z eqn:E;
      [apply Z.ltb_lt in E|apply Z.ltb_ge in E]; [|lia].
    unfold wrap_int32. rewrite Z.mod_small; lia. }
  cbv zeta.
  rewrite !Z.quot_div_nonneg, !Z.rem_mod_nonneg by
    (try lia; apply Z.div_pos; lia).
  assert (H1 : 0 <= a / 10 mod 10 < 10) by (apply Z.mod_pos_bound; lia).
  assert (H0 : 0 <= a mod 10 < 10) by (apply Z.mod_pos_bound; lia).
  destruct (HEX_digit _ H1) as [Hd1 _].
  destruct (HEX_digit _ H0) as [Hd0 _].
  destruct (format_integer_digits (a / 100)) as [Hd _].
  rewrite !all_chars_append.
  rewrite (all_chars_weaken _ _ _ is_digit_body_char Hd).
  cbn [all_chars].
  rewrite (is_digit_body_char _ Hd1), (is_digit_body_char _ Hd0).
  destruct (number <? 0)%Z; reflexivity.
Qed.

Lemma body_is_C_string (s : string) :
  all_chars body_char s = true -> is_C_string s = true.
Proof.
  apply all_chars_weaken. intros c Hc. unfold body_char in Hc.
  apply andb_true_iff in Hc. exact (proj1 Hc).
Qed.

(** The two-decimal format of a number that is not negative, read back. *)
Lemma integer_to_ascii_2_decimals_read (number : Z) :
  0 <= number < 2 ^ 31 ->
  read_fixed_point 2 (integer_to_ascii_2_decimals number) = Some number.
Proof.
  intros Hn.
  rewrite (proj1 (integer_to_ascii_2_decimals_unsigned number (proj1 Hn))).
  destruct (format_integer_digits (number / 100)) as (Hd & Hval).
  destruct (format_integer_length (number / 100)) as (Hlen & _).
  assert (Hq : wrap_uint32 (number / 100) = number / 100).
  { unfold wrap_uint32. apply Z.mod_small. split; [apply Z.div_pos; lia|].
    apply Z.div_lt_upper_bound; lia. }
  assert (H1 : 0 <= number / 10 mod 10 < 10) by (apply Z.mod_pos_bound; lia).
  assert (H0 : 0 <= number mod 10 < 10) by (apply Z.mod_pos_bound; lia).
  destruct (HEX_digit _ H1) as [Hd1 Hv1].
  destruct (HEX_digit _ H0) as [Hd0 Hv0].
  change (format_integer (number / 100) ++ "."
          ++ String (char_at HEX (number / 10 mod 10))
               (String (char_at HEX (number mod 10)) ""))
    with ("" ++ format_integer (number / 100)
          ++ String "." (String (char_at HEX (number / 10 mod 10))
                           (String (char_at HEX (number mod 10)) ""))).
  rewrite (read_fixed_point_digits 2 false);
    [|exact Hd|cbn [all_chars]; rewrite Hd1, Hd0; reflexivity|lia|reflexivity].
  rewrite Hval, Hq. cbn [digits_value].
  rewrite Hv1, Hv0. f_equal.
  change (10 ^ Z.of_nat 2) with 100.
  rewrite (Z.mod_eq (number / 10) 10), (Z.mod_eq number 10) by lia.
  rewrite Z.div_div by lia. change (10 * 10) with 100. lia.
Qed.

(** X8.  For inputs in range, so that every value that is converted lies
    inside the range of [int]: the sentence of [format_POV] read at its
    commas is the tag [$POV] and then, each after its letter, the TEK
    vario times 100, the static pressure, the pitot pressure clamped at
    zero, the TAS times 360 and the voltage times 10, and with air data
    also the humidity and the temperature times 100, all converted to
    integers; no value holds a comma, and the fields [H] and [T] are
    there exactly when [airdata_available] is set.  Every conversion
    gives the integer part of its operand, and the sentence holds no NUL:
    it is the C string in the buffer. *)
Theorem format_POV_fields
  (TAS pabs pitot TEK_vario voltage : float) (airdata_available : bool)
  (humidity temperature : float) :
  POV_in_range TAS pabs pitot TEK_vario voltage airdata_available
    humidity temperature = true ->
  let hundredths (x : float) :=
    integer_to_ascii_2_decimals (F32.to_int (F32.mul x (F32.of_Z 100))) in
  let clamped := if F32.ltb pitot F32.zero then F32.zero else pitot in
  let converted :=
    ([ F32.mul TEK_vario (F32.of_Z 100); pabs; clamped;
       F32.mul TAS (F32.of_Z 360); F32.mul voltage (F32.of_Z 10) ]
     ++ (if airdata_available
         then [ F32.mul humidity (F32.of_Z 100);
                F32.mul temperature (F32.of_Z 100) ]
         else []))%list in
  split_fields
    (format_POV TAS pabs pitot TEK_vario voltage airdata_available
       humidity temperature)
  = ([ "$POV"; "E"; hundredths TEK_vario;
      "P"; integer_to_ascii_2_decimals (F32.to_int pabs);
      "R"; integer_to_ascii_2_decimals (F32.to_int clamped);
      "S"; integer_to_ascii_2_decimals
             (F32.to_int (F32.mul TAS (F32.of_Z 360)));
      "V"; integer_to_ascii_1_decimal
             (F32.to_int (F32.mul voltage (F32.of_Z 10))) ]
    ++ (if airdata_available
        then [ "H"; hundredths humidity; "T"; hundredths temperature ]
        else []))%list
  /\ Forall F32.inside_int converted
  /\ is_C_string
       (format_POV TAS pabs pitot TEK_vario voltage airdata_available
          humidity temperature) = true.
Proof.
  intros Hrange hundredths clamped converted.
  destruct (Ranges.POV_conversions _ _ _ _ _ _ _ _ Hrange)
    as (HE & HP & [HR _] & HS & HV & HHT).
  fold clamped in HR.
  split; [|split].
  - subst hundredths clamped.
    unfold format_POV, append_string.
    change (c_str POV) with "$POV".
    change (c_str ",E,") with ",E,".
    change (c_str ",P,") with ",P,".
    change (c_str ",R,") with ",R,".
    change (c_str ",S,") with ",S,".
    change (c_str ",V,") with ",V,".
    change (c_str ",H,") with ",H,".
    change (c_str ",T,") with ",T,".
    destruct airdata_available;
      rewrite !append_assoc; cbn [append split_fields Ascii.eqb Bool.eqb];
      repeat (rewrite (split_fields_first _ _
                         (integer_to_ascii_2_decimals_no_comma _));
              cbn [append split_fields Ascii.eqb Bool.eqb]).
    + rewrite (split_fields_first _ _ (integer_to_ascii_1_decimal_no_comma _)).
      cbn [append split_fields Ascii.eqb Bool.eqb].
      rewrite (split_fields_first _ _ (integer_to_ascii_2_decimals_no_comma _)).
      cbn [append split_fields Ascii.eqb Bool.eqb].
      rewrite (split_fields_last _ (integer_to_ascii_2_decimals_no_comma _)).
      reflexivity.
    + rewrite (split_fields_last _ (integer_to_ascii_1_decimal_no_comma _)).
      reflexivity.
  - subst converted. apply Forall_app. split.
    + repeat (apply Forall_cons; [assumption|]). apply Forall_nil.
    + destruct airdata_available; [|apply Forall_nil].
      destruct (HHT eq_refl) as [HH HT].
      repeat (apply Forall_cons; [assumption|]). apply Forall_nil.
  - assert (Hfield2 : forall x : float,
               F32.inside_int x ->
               is_C_string (integer_to_ascii_2_decimals (F32.to_int x)) = true).
    { intros x [Hx Hr]. rewrite Hx. apply body_is_C_string.
      apply integer_to_ascii_2_decimals_body. exact Hr. }
    assert (Hfield1 : forall x : float,
               F32.inside_int x ->
               is_C_string (integer_to_ascii_1_decimal (F32.to_int x)) = true).
    { intros x [Hx Hr]. rewrite Hx. apply body_is_C_string.
      apply integer_to_ascii_1_decimal_body. exact Hr. }
    unfold format_POV, append_string. fold clamped.
    change (c_str POV) with "$POV".
    change (c_str ",E,") with ",E,".
    change (c_str ",P,") with ",P,".
    change (c_str ",R,") with ",R,".
    change (c_str ",S,") with ",S,".
    change (c_str ",V,") with ",V,".
    change (c_str ",H,") with ",H,".
    change (c_str ",T,") with ",T,".
    unfold is_C_string in *.
    destruct airdata_available; rewrite !all_chars_append;
      rewrite (Hfield2 _ HE), (Hfield2 _ HP), (Hfield2 _ HR),
        (Hfield2 _ HS), (Hfield1 _ HV); [|reflexivity].
    destruct (HHT eq_refl) as [HH HT].
    rewrite (Hfield2 _ HH), (Hfield2 _ HT). reflexivity.
Qed.

(** C10 (as amended).  For inputs in range the field of the sentence of
    [format_POV] that follows the tag [R] carries the pitot pressure
    clamped at zero: the integer part of the pitot pressure, or 0 for a
    pitot pressure below zero of any size, written with two decimals.
    The number is not negative and below [2^31], it is what the
    conversion to [int] gives, and the field read back as a fixed-point
    number with two decimals gives the number; the field consists of
    digits and a decimal point, without a sign, and reads [0.00] for a
    pitot pressure below zero. *)
Theorem format_POV_pitot_field
  (TAS pabs pitot TEK_vario voltage : float) (airdata_available : bool)
  (humidity temperature : float) :
  POV_in_range TAS pabs pitot TEK_vario voltage airdata_available
    humidity temperature = true ->
  let fields :=
    split_fields
      (format_POV TAS pabs pitot TEK_vario voltage airdata_available
         humidity temperature) in
  let field := nth 6 fields "" in
  let clamped := if F32.ltb pitot F32.zero then F32.zero else pitot in
  let number := if F32.ltb pitot F32.zero then 0 else F32.trunc pitot in
  nth 5 fields "" = "R"
  /\ 0 <= number < 2 ^ 31
  /\ F32.to_int clamped = number
  /\ field = integer_to_ascii_2_decimals number
  /\ read_fixed_point 2 field = Some number
  /\ field
     = format_integer (number / 100) ++ "."
       ++ String (char_at HEX (number / 10 mod 10))
            (String (char_at HEX (number mod 10)) EmptyString)
  /\ is_unsigned_decimal field = true
  /\ (if F32.ltb pitot F32.zero then field = "0.00" else True).
Proof.
  intros Hrange fields field clamped number.
  destruct (Ranges.POV_conversions _ _ _ _ _ _ _ _ Hrange)
    as (_ & _ & [[Hint Hr] H0] & _).
  fold clamped in Hint, Hr, H0.
  assert (Htrunc : F32.trunc clamped = number).
  { subst clamped number. destruct (F32.ltb pitot F32.zero); reflexivity. }
  rewrite Htrunc in Hint, Hr, H0.
  assert (Hn : 0 <= number < 2 ^ 31) by lia.
  assert (Hfields :
            nth 5 fields "" = "R"
            /\ field = integer_to_ascii_2_decimals number).
  { subst field fields. unfold format_POV, append_string.
    change (c_str POV) with "$POV".
    change (c_str ",E,") with ",E,".
    change (c_str ",P,") with ",P,".
    change (c_str ",R,") with ",R,".
    change (c_str ",S,") with ",S,".
    change (c_str ",V,") with ",V,".
    change (c_str ",H,") with ",H,".
    change (c_str ",T,") with ",T,".
    fold clamped. rewrite Hint.
    destruct airdata_available;
      rewrite !append_assoc; cbn [append split_fields Ascii.eqb Bool.eqb];
      rewrite (split_fields_first _ _
                 (integer_to_ascii_2_decimals_no_comma _));
      cbn [append split_fields Ascii.eqb Bool.eqb];
      rewrite (split_fields_first _ _
                 (integer_to_ascii_2_decimals_no_comma _));
      cbn [append split_fields Ascii.eqb Bool.eqb];
      rewrite (split_fields_first _ _
                 (integer_to_ascii_2_decimals_no_comma _));
      split; reflexivity. }
  destruct Hfields as [HR Hfield].
  destruct (integer_to_ascii_2_decimals_unsigned number (proj1 Hn))
    as [Hshape Hun].
  split; [exact HR|]. split; [exact Hn|]. split; [exact Hint|].
  split; [exact Hfield|].
  split; [rewrite Hfield; apply integer_to_ascii_2_decimals_read; exact Hn|].
  split; [rewrite Hfield; exact Hshape|].
  split; [rewrite Hfield; exact Hun|].
  subst number. destruct (F32.ltb pitot F32.zero); [|exact I].
  rewrite Hfield. reflexivity.
Qed.

(** X9.  Whatever the heading, the sentence of [format_HCHDT] starts with
    a dollar sign and holds neither star nor NUL, so [NMEA_append_tail]
    puts its tail at the end of the sentence, and the sentence with the
    star and the two checksum characters passes [NMEA_checksum]. *)
Theorem format_HCHDT_tail (true_heading : float) :
  exists body : string,
    format_HCHDT true_heading = String "$" body
    /\ all_chars body_char body = true
    /\ NMEA_append_tail (format_HCHDT true_heading)
       = Some (format_HCHDT true_heading
               ++ String "*" (String (checksum_hi body)
                                (String (checksum_lo body)
                                   (String CR (String LF "")))))
    /\ NMEA_checksum
         (format_HCHDT true_heading
          ++ String "*" (String (checksum_hi body)
                           (String (checksum_lo body) "")))
       = true.
Proof.
  set (heading := HCHDT_heading true_heading).
  assert (Hr : - 2 ^ 31 < heading < 2 ^ 31).
  { subst heading. unfold HCHDT_heading.
    pose proof (to_int_range (F32.mul true_heading (F32.of_Z 573))) as Hi.
    destruct (_ <? 0)%Z eqn:E;
      [apply Z.ltb_lt in E|apply Z.ltb_ge in E]; lia. }
  exists ("HCHDT," ++ integer_to_ascii_1_decimal heading ++ ",T").
  assert (Hs : format_HCHDT true_heading
               = String "$" ("HCHDT," ++ integer_to_ascii_1_decimal heading
                             ++ ",T")).
  { unfold format_HCHDT, append_string. fold heading.
    change (c_str HCHDT) with "$HCHDT,". cbn [append]. reflexivity. }
  assert (Hb : all_chars body_char
                 ("HCHDT," ++ integer_to_ascii_1_decimal heading ++ ",T")
               = true).
  { rewrite !all_chars_append, (integer_to_ascii_1_decimal_body _ Hr).
    reflexivity. }
  split; [exact Hs|]. split; [exact Hb|]. rewrite Hs. split.
  - rewrite <- (append_empty_r (String "$" _)) at 1.
    rewrite (NMEA_append_tail_body _ "" Hb I). reflexivity.
  - set (body := "HCHDT," ++ integer_to_ascii_1_decimal heading ++ ",T") in *.
    change (NMEA_checksum
              (with_checksum body (checksum_hi body) (checksum_lo body) "")
            = true).
    rewrite (NMEA_checksum_with_body _ _ _ "" Hb), !Ascii.eqb_refl.
    reflexivity.
Qed.

End Sentences.

(* ================================================================== *)
(** * Signs of rounded results

    Rounding keeps the sign: a sum or a product of values that are not
    below zero is not below zero.  NaN is not below zero either, as no
    comparison with NaN holds.  The lemmas hold for both formats. *)

Section Signs.

Variables prec emax : Z.

Lemma binary_round_aux_not_negative (m e : Z) (l : location) :
  not_negative (binary_round_aux prec emax false m e l).
Proof.
  unfold binary_round_aux.
  destruct (shr_fexp prec emax m e l) as [mrs' e'].
  destruct (shr_fexp prec emax _ e' loc_Exact) as [mrs'' e''].
  destruct (shr_m mrs''); [reflexivity| |reflexivity].
  destruct (e'' <=? emax - prec)%Z; reflexivity.
Qed.

Lemma binary_normalize_not_negative (D e : Z) (szero : bool) :
  (0 <= D)%Z -> not_negative (binary_normalize prec emax D e szero).
Proof.
  intros HD. destruct D as [|p|p]; [reflexivity| |lia].
  cbn [binary_normalize]. unfold binary_round.
  destruct (shl_align _ _ _) as [mz ez].
  apply binary_round_aux_not_negative.
Qed.

Lemma not_negative_cases (x : spec_float) :
  not_negative x ->
  match x with
  | S754_infinity s | S754_finite s _ _ => s = false
  | _ => True
  end.
Proof.
  destruct x as [s|s| |s m e]; try destruct s; try discriminate;
    intros _; reflexivity.
Qed.

Lemma SFmul_not_negative (x y : spec_float) :
  not_negative x -> not_negative y -> not_negative (SFmul prec emax x y).
Proof.
  intros Hx Hy. apply not_negative_cases in Hx, Hy.
  destruct x as [sx|sx| |sx mx ex], y as [sy|sy| |sy my ey];
    try subst sx; try subst sy; try reflexivity.
  cbn [SFmul xorb]. apply binary_round_aux_not_negative.
Qed.

(** A square is not below zero, whatever its argument. *)
Lemma SFmul_square_not_negative (x : spec_float) :
  not_negative (SFmul prec emax x x).
Proof.
  destruct x as [s|s| |s m e]; try destruct s; try reflexivity;
    cbn [SFmul xorb]; apply binary_round_aux_not_negative.
Qed.

Lemma SFadd_not_negative (x y : spec_float) :
  not_negative x -> not_negative y -> not_negative (SFadd prec emax x y).
Proof.
  intros Hx Hy. apply not_negative_cases in Hx, Hy.
  destruct x as [sx|sx| |sx mx ex], y as [sy|sy| |sy my ey];
    try subst sx; try subst sy; try reflexivity;
    try (destruct sx; reflexivity); try (destruct sy; reflexivity);
    try (destruct sx, sy; reflexivity).
  cbn [SFadd]. cbv zeta. apply binary_normalize_not_negative.
  cbn [cond_Zopp]. lia.
Qed.

End Signs.



(* ================================================================== *)
(** * NMEA formatter: the attitude sentence *)

Section AttitudeSentence.

Import F32Round.

Local Open Scope Z_scope.


Local Open Scope string_scope.


End AttitudeSentence.

(* ================================================================== *)
(** * AHRS: what the steps of a tick leave alone *)

Section TickFrames.
Context `{Tuning} `{Collaborators}.

Local Open Scope Z_scope.

Lemma update_attitude_frame (st : AHRS_type) (acc gyro mag : float3vector) :
  let st' := update_attitude st acc gyro mag in
  circling_counter st' = circling_counter st
  /\ circling_state st' = circling_state st
  /\ gyro_integrator st' = gyro_integrator st
  /\ gyro_correction st' = gyro_correction st
  /\ nav_correction st' = nav_correction st
  /\ compass_calibration st' = compass_calibration st
  /\ mag_calibration_data_collector st' = mag_calibration_data_collector st
  /\ earth_induction_data_collector st' = earth_induction_data_collector st
  /\ reports st' = reports st
  /\ expected_nav_induction st' = expected_nav_induction st.
Proof.
  cbv beta delta [update_attitude]. repeat let_step AHRS_type.
  repeat split; reflexivity.
Qed.

Lemma feed_magnetic_induction_observer_frame (st : AHRS_type)
  (mag_sensor : float3vector) :
  let st' := feed_magnetic_induction_observer st mag_sensor in
  circling_counter st' = circling_counter st
  /\ circling_state st' = circling_state st
  /\ body2nav st' = body2nav st
  /\ euler st' = euler st
  /\ acceleration_nav_frame st' = acceleration_nav_frame st
  /\ induction_nav_frame st' = induction_nav_frame st
  /\ nav_correction st' = nav_correction st
  /\ gyro_correction st' = gyro_correction st.
Proof.
  cbv beta delta [feed_magnetic_induction_observer].
  repeat let_step AHRS_type. repeat split; reflexivity.
Qed.

Lemma handle_magnetic_calibration_frame_more (st : AHRS_type) (type : ascii) :
  let st' := handle_magnetic_calibration st type in
  circling_counter st' = circling_counter st
  /\ circling_state st' = circling_state st
  /\ body2nav st' = body2nav st
  /\ euler st' = euler st
  /\ acceleration_nav_frame st' = acceleration_nav_frame st
  /\ induction_nav_frame st' = induction_nav_frame st
  /\ nav_correction st' = nav_correction st
  /\ gyro_correction st' = gyro_correction st.
Proof.
  unfold handle_magnetic_calibration.
  destruct (set_calibration_if_changed _ _ _ _) as [[cal collectors] changed].
  destruct (data_valid _);
    [destruct (automatic_earth_field_parameters _ && _)|];
    destruct changed; repeat split; reflexivity.
Qed.

(** One call of [update_circling_state]: the counter moves by one at
    most and stays within its bounds, and the state is the one that
    belongs to the counter. *)
Lemma update_circling_state_step (st : AHRS_type) :
  let st' := fst (update_circling_state st) in
  circling_counter st - 1 <= circling_counter st' <= circling_counter st + 1
  /\ (0 <= CIRCLE_LIMIT ->
      0 <= circling_counter st <= CIRCLE_LIMIT ->
      0 <= circling_counter st' <= CIRCLE_LIMIT)
  /\ (if DISABLE_CIRCLING_STATE
      then circling_state st' = circling_state st
           /\ circling_counter st' = circling_counter st
      else circling_state st' = reference_state (circling_counter st')).
Proof.
  unfold update_circling_state, reference_state.
  destruct DISABLE_CIRCLING_STATE; [cbn [fst]; repeat split; lia|].
  cbv zeta.
  destruct (circling_counter st <? CIRCLE_LIMIT) eqn:E1;
    [apply Z.ltb_lt in E1|apply Z.ltb_ge in E1];
    destruct (F32.gtb (F32.abs (get_output (turn_rate_averager st)))
                HIGH_TURN_RATE);
    destruct (F32.ltb (F32.abs (get_output (turn_rate_averager st)))
                LOW_TURN_RATE);
    cbn [fst circling_counter circling_state set_circling_counter
           set_circling_state];
    repeat match goal with
      | |- context [(?a >? ?b)] => rewrite (Z.gtb_ltb a b)
      end;
    repeat match goal with
      | |- context [if (?a <? ?b) then _ else _] =>
          let E := fresh "E" in
          destruct (a <? b) eqn:E;
          [apply Z.ltb_lt in E|apply Z.ltb_ge in E];
          cbn [fst circling_counter circling_state set_circling_counter
                 set_circling_state]
      end;
    repeat match goal with
      | |- context [if (?a =? ?b) then _ else _] =>
          let E := fresh "E" in
          destruct (a =? b) eqn:E;
          cbn [fst circling_counter circling_state set_circling_counter
                 set_circling_state];
          rewrite ?E
      end;
    repeat split; try lia; reflexivity.
Qed.

(** The counter does not depend on the correction vector. *)
Lemma update_circling_state_set_nav_correction_counter (st : AHRS_type)
  (v : float3vector) :
  circling_counter (fst (update_circling_state (set_nav_correction v st)))
  = circling_counter (fst (update_circling_state st)).
Proof.
  unfold update_circling_state.
  destruct DISABLE_CIRCLING_STATE; [reflexivity|].
  cbv zeta.
  change (circling_counter (set_nav_correction v st)) with (circling_counter st).
  change (turn_rate_averager (set_nav_correction v st))
    with (turn_rate_averager st).
  destruct (circling_counter st <? CIRCLE_LIMIT)%Z;
    destruct (F32.gtb (F32.abs (get_output (turn_rate_averager st)))
                HIGH_TURN_RATE);
    destruct (F32.ltb (F32.abs (get_output (turn_rate_averager st)))
                LOW_TURN_RATE);
    repeat (cbn [circling_counter set_circling_counter set_nav_correction
                   set_circling_state fst];
            match goal with
            | |- context [if ?b then _ else _] =>
                lazymatch b with
                | context [if _ then _ else _] => fail
                | _ => destruct b
                end
            end); reflexivity.
Qed.

(** In a goal on the counter or the circling state after a tick, taken
    apart into its steps: both are those that [update_circling_state]
    has left. *)
Ltac early_field_of_tick :=
  repeat match goal with
         | |- _ (if ?b then _ else _) = _ => destruct b
         | |- _ (handle_magnetic_calibration ?s ?t) = _ =>
             first
               [ rewrite (proj1 (handle_magnetic_calibration_frame_more s t))
               | rewrite (proj1 (proj2
                            (handle_magnetic_calibration_frame_more s t))) ]
         | fed := feed_magnetic_induction_observer ?s ?m |- _ ?t = _ =>
             constr_eq t fed; unfold fed;
             first
               [ rewrite (proj1 (feed_magnetic_induction_observer_frame s m))
               | rewrite (proj1 (proj2
                            (feed_magnetic_induction_observer_frame s m))) ]
         | attitude_state := update_attitude ?s ?a ?g ?m |- _ ?t = _ =>
             constr_eq t attitude_state; unfold attitude_state;
             first
               [ rewrite (proj1 (update_attitude_frame s a g m))
               | rewrite (proj1 (proj2 (update_attitude_frame s a g m))) ]
         | |- _ (update_attitude ?s ?a ?g ?m) = _ =>
             first
               [ rewrite (proj1 (update_attitude_frame s a g m))
               | rewrite (proj1 (proj2 (update_attitude_frame s a g m))) ]
         end;
  match goal with
  | first_state := fst (update_circling_state ?s0) |- ?f ?s = _ =>
      change (f s) with (f first_state); unfold first_state;
      repeat match goal with
             | |- context [update_circling_state ?x] => is_var x; unfold x
             | |- context [update_circling_state (set_nav_correction _ ?x)] =>
                 is_var x; unfold x
             end;
      rewrite ?update_circling_state_set_nav_correction_counter,
        ?update_circling_state_set_nav_correction;
      reflexivity
  end.

Lemma update_diff_GNSS_counter (st : AHRS_type)
  (gyro acc mag_sensor GNSS_acceleration : float3vector) (GNSS_heading : float) :
  circling_counter
    (update_diff_GNSS st gyro acc mag_sensor GNSS_acceleration GNSS_heading)
  = circling_counter (fst (update_circling_state st)).
Proof.
  cbv beta delta [update_diff_GNSS].
  destruct CROSS_GAIN_ONLY; repeat let_step AHRS_type; early_field_of_tick.
Qed.

Lemma update_compass_counter (st : AHRS_type)
  (gyro acc mag_sensor GNSS_acceleration : float3vector) :
  circling_counter (update_compass st gyro acc mag_sensor GNSS_acceleration)
  = circling_counter (fst (update_circling_state st)).
Proof.
  cbv beta delta [update_compass].
  destruct CROSS_GAIN_ONLY; repeat let_step AHRS_type; early_field_of_tick.
Qed.

Lemma update_ACC_only_counter (st : AHRS_type)
  (gyro acc mag GNSS_acceleration : float3vector) :
  circling_counter (update_ACC_only st gyro acc mag GNSS_acceleration)
  = circling_counter (fst (update_circling_state st))
  /\ circling_state (update_ACC_only st gyro acc mag GNSS_acceleration)
     = circling_state (fst (update_circling_state st)).
Proof.
  cbv beta delta [update_ACC_only].
  repeat let_step AHRS_type. split; early_field_of_tick.
Qed.

End TickFrames.

(* ================================================================== *)
(** * AHRS: the circling counter over the ticks *)

Section CounterOverTicks.
Context `{Tuning} `{Collaborators}.

Local Open Scope Z_scope.

(** X11.  In every fusion mode a tick moves the circling counter by one
    at most and keeps it between 0 and [CIRCLE_LIMIT], and the circling
    state after the tick is the one that belongs to the counter: nothing
    in a tick but [update_circling_state] writes to either. *)
Theorem tick_keeps_counter_and_state (st : AHRS_type)
  (gyro acc mag GNSS_acceleration : float3vector) (GNSS_heading : float) :
  DISABLE_CIRCLING_STATE = false ->
  0 <= CIRCLE_LIMIT ->
  0 <= circling_counter st <= CIRCLE_LIMIT ->
  forall st' : AHRS_type,
    st' = update_diff_GNSS st gyro acc mag GNSS_acceleration GNSS_heading
    \/ st' = update_compass st gyro acc mag GNSS_acceleration
    \/ st' = update_ACC_only st gyro acc mag GNSS_acceleration ->
    0 <= circling_counter st' <= CIRCLE_LIMIT
    /\ circling_counter st - 1 <= circling_counter st' <= circling_counter st + 1
    /\ circling_state st' = reference_state (circling_counter st').
Proof.
  intros Hen Hlim Hc st' Hmode.
  destruct (update_circling_state_step st) as (Hstep & Hrange & Hstate).
  rewrite Hen in Hstate. specialize (Hrange Hlim Hc).
  assert (Hboth : circling_counter st'
                  = circling_counter (fst (update_circling_state st))
                  /\ circling_state st'
                     = circling_state (fst (update_circling_state st))).
  { destruct Hmode as [->|[->| ->]].
    - split; [apply update_diff_GNSS_counter
             |apply update_diff_GNSS_circling_state].
    - split; [apply update_compass_counter
             |apply update_compass_circling_state].
    - apply update_ACC_only_counter. }
  destruct Hboth as [-> ->]. auto.
Qed.

Lemma update_counter_and_state (st : AHRS_type) (i : AHRS_input) :
  let st' :=
    update st (input_gyro i) (input_acc i) (input_mag i)
      (input_GNSS_acceleration i) (input_GNSS_heading i)
      (input_GNSS_heading_valid i) in
  circling_counter st' = circling_counter (fst (update_circling_state st))
  /\ circling_state st' = circling_state (fst (update_circling_state st)).
Proof.
  unfold update. destruct (input_GNSS_heading_valid i).
  - split; [apply update_diff_GNSS_counter
           |apply update_diff_GNSS_circling_state].
  - split; [apply update_compass_counter
           |apply update_compass_circling_state].
Qed.

(** Over [n] ticks the counter moves by [n] at most. *)
Lemma updates_counter (inputs : list AHRS_input) :
  forall st : AHRS_type,
    circling_counter st - Z.of_nat (List.length inputs)
    <= circling_counter (updates st inputs)
    <= circling_counter st + Z.of_nat (List.length inputs).
Proof.
  induction inputs as [|i inputs IH]; intros st; [cbn; lia|].
  cbn [updates List.length]. rewrite Nat2Z.inj_succ.
  destruct (update_counter_and_state st i) as [Hc _].
  destruct (update_circling_state_step st) as (Hstep & _).
  specialize (IH (update st (input_gyro i) (input_acc i) (input_mag i)
                    (input_GNSS_acceleration i) (input_GNSS_heading i)
                    (input_GNSS_heading_valid i))).
  rewrite Hc in IH. lia.
Qed.

(** After one tick or more the state is the one that belongs to the
    counter, or, with the circling state disabled, the state of before. *)
Lemma updates_state (inputs : list AHRS_input) :
  forall st : AHRS_type,
    inputs <> [] ->
    if DISABLE_CIRCLING_STATE
    then circling_state (updates st inputs) = circling_state st
    else circling_state (updates st inputs)
         = reference_state (circling_counter (updates st inputs)).
Proof.
  induction inputs as [|i inputs IH]; intros st Hne; [congruence|].
  cbn [updates].
  set (st1 := update st (input_gyro i) (input_acc i) (input_mag i)
                (input_GNSS_acceleration i) (input_GNSS_heading i)
                (input_GNSS_heading_valid i)).
  destruct (update_counter_and_state st i) as [Hc Hs].
  fold st1 in Hc, Hs.
  destruct (update_circling_state_step st) as (_ & _ & Hstate).
  destruct inputs as [|j inputs].
  - cbn [updates]. destruct DISABLE_CIRCLING_STATE.
    + rewrite Hs. exact (proj1 Hstate).
    + rewrite Hs, Hc. exact Hstate.
  - specialize (IH st1 ltac:(discriminate)).
    destruct DISABLE_CIRCLING_STATE; [|exact IH].
    rewrite IH, Hs. exact (proj1 Hstate).
Qed.

(** X12.  From straight flight, with the counter at 0, the state
    [CIRCLING] is reached after [CIRCLE_LIMIT] calls of [update] at the
    earliest, and from circling, with the counter at [CIRCLE_LIMIT],
    [STRAIGHT_FLIGHT] after as many, whatever the sensor readings. *)
Theorem circling_state_change_takes_CIRCLE_LIMIT_ticks
  (st : AHRS_type) (inputs : list AHRS_input) :
  (circling_counter st = 0 ->
   circling_state st = STRAIGHT_FLIGHT ->
   circling_state (updates st inputs) = CIRCLING ->
   CIRCLE_LIMIT <= Z.of_nat (List.length inputs))
  /\ (circling_counter st = CIRCLE_LIMIT ->
      circling_state st = CIRCLING ->
      circling_state (updates st inputs) = STRAIGHT_FLIGHT ->
      CIRCLE_LIMIT <= Z.of_nat (List.length inputs)).
Proof.
  pose proof (updates_counter inputs st) as Hc.
  destruct inputs as [|i inputs].
  { split; intros _ Hs Hs'; cbn [updates] in Hs'; congruence. }
  pose proof (updates_state (i :: inputs) st ltac:(discriminate)) as Hs.
  destruct DISABLE_CIRCLING_STATE.
  { split; intros _ Hbefore Hafter; congruence. }
  unfold reference_state in Hs.
  split; intros Hstart _ Hfinal; rewrite Hfinal in Hs; rewrite Hstart in Hc.
  - destruct (_ =? 0) eqn:E0; [discriminate Hs|].
    destruct (_ =? CIRCLE_LIMIT) eqn:E1; [|discriminate Hs].
    apply Z.eqb_eq in E1. lia.
  - destruct (_ =? 0) eqn:E0.
    + apply Z.eqb_eq in E0. lia.
    + destruct (_ =? CIRCLE_LIMIT); discriminate Hs.
Qed.

End CounterOverTicks.

(* ================================================================== *)
(** * AHRS: the state derived from the attitude *)

Section DerivedState.
Context `{Tuning} `{Collaborators}.

Lemma update_attitude_derived (st : AHRS_type) (acc gyro mag : float3vector) :
  derived_from_attitude acc (update_attitude st acc gyro mag)
  /\ induction_nav_frame (update_attitude st acc gyro mag)
     = mat_mul (body2nav (update_attitude st acc gyro mag)) mag.
Proof.
  unfold derived_from_attitude.
  cbv beta delta [update_attitude]. repeat let_step AHRS_type.
  repeat split; reflexivity.
Qed.

Lemma feed_magnetic_induction_observer_derived (acc : float3vector)
  (st : AHRS_type) (mag_sensor : float3vector) :
  derived_from_attitude acc st ->
  derived_from_attitude acc (feed_magnetic_induction_observer st mag_sensor).
Proof.
  unfold derived_from_attitude.
  destruct (feed_magnetic_induction_observer_frame st mag_sensor)
    as (_ & _ & -> & -> & -> & _).
  rewrite feed_magnetic_induction_observer_attitude. auto.
Qed.

Lemma handle_magnetic_calibration_derived (acc : float3vector)
  (st : AHRS_type) (type : ascii) :
  derived_from_attitude acc st ->
  derived_from_attitude acc (handle_magnetic_calibration st type).
Proof.
  unfold derived_from_attitude.
  destruct (handle_magnetic_calibration_frame_more st type)
    as (_ & _ & -> & -> & -> & _).
  rewrite handle_magnetic_calibration_attitude. auto.
Qed.

Ltac derived_of_tick :=
  repeat match goal with
         | |- context [if ?b then _ else _] => destruct b
         | |- derived_from_attitude _ (handle_magnetic_calibration _ _) =>
             apply handle_magnetic_calibration_derived
         | fed := feed_magnetic_induction_observer _ _
           |- derived_from_attitude _ ?t =>
             constr_eq t fed; unfold fed;
             apply feed_magnetic_induction_observer_derived
         | attitude_state := update_attitude _ _ _ _
           |- derived_from_attitude _ ?t =>
             constr_eq t attitude_state; unfold attitude_state;
             apply update_attitude_derived
         | |- derived_from_attitude _ (update_attitude _ _ _ _) =>
             apply update_attitude_derived
         | same := ?s |- derived_from_attitude _ ?t =>
             constr_eq t same; is_var s; unfold same
         end.

(** X13.  After a tick of any fusion mode the rotation matrix and the
    Euler angles are those of the attitude quaternion of the same state,
    and the acceleration in the navigation frame is the accelerometer
    reading of the tick under that rotation matrix: what follows
    [update_attitude] in a tick writes to none of them. *)
Theorem tick_keeps_derived_state (st : AHRS_type)
  (gyro acc mag GNSS_acceleration : float3vector) (GNSS_heading : float) :
  derived_from_attitude acc
    (update_diff_GNSS st gyro acc mag GNSS_acceleration GNSS_heading)
  /\ derived_from_attitude acc
       (update_compass st gyro acc mag GNSS_acceleration)
  /\ derived_from_attitude acc
       (update_ACC_only st gyro acc mag GNSS_acceleration).
Proof.
  split; [|split].
  - cbv beta delta [update_diff_GNSS].
    destruct CROSS_GAIN_ONLY; repeat let_step AHRS_type; derived_of_tick.
  - cbv beta delta [update_compass].
    destruct CROSS_GAIN_ONLY; repeat let_step AHRS_type; derived_of_tick.
  - cbv beta delta [update_ACC_only].
    repeat let_step AHRS_type; derived_of_tick.
Qed.

End DerivedState.

(* ================================================================== *)
(** * AHRS: the parts of a tick *)

Section TickParts.
Context `{Tuning} `{Collaborators}.

Local Open Scope f32_scope.

Lemma update_circling_state_frame_more (st : AHRS_type) :
  let st' := fst (update_circling_state st) in
  attitude st' = attitude st
  /\ Ts_div_2 st' = Ts_div_2 st
  /\ mag_calibration_data_collector st' = mag_calibration_data_collector st
  /\ earth_induction_data_collector st' = earth_induction_data_collector st
  /\ expected_nav_induction st' = expected_nav_induction st
  /\ magnetic_control_gain st' = magnetic_control_gain st
  /\ gyro_correction st' = gyro_correction st.
Proof.
  unfold update_circling_state.
  destruct DISABLE_CIRCLING_STATE; [repeat split; reflexivity|].
  cbv zeta.
  repeat match goal with
    | |- context [if ?b then _ else _] =>
        lazymatch b with
        | context [if _ then _ else _] => fail
        | _ => destruct b
        end
    end; repeat split; reflexivity.
Qed.

(** A tick of the D-GNSS mode: the state [pre] in which the corrections
    are set, and the end of the tick from there.  While circling the
    corrections are formed without the heading difference; otherwise the
    heading difference times [H_GAIN] is the correction about the vertical
    axis. *)
Lemma update_diff_GNSS_parts (st : AHRS_type)
  (gyro acc mag_sensor GNSS_acceleration : float3vector) (GNSS_heading : float) :
  let s0 := fst (update_circling_state st) in
  let nav_acceleration := mat_mul (body2nav st) acc in
  let nav_induction := mat_mul (body2nav st) (calibrated st mag_sensor) in
  let cross_correction :=
    get3 nav_acceleration NORTH * get3 GNSS_acceleration EAST
    - get3 nav_acceleration EAST * get3 GNSS_acceleration NORTH in
  let mag_correction :=
    get3 nav_induction NORTH * get3 (expected_nav_induction st) EAST
    - get3 nav_induction EAST * get3 (expected_nav_induction st) NORTH in
  let circling_correction :=
    put3
      (put3
         (put3 (nav_correction st) NORTH
            (- get3 nav_acceleration EAST + get3 GNSS_acceleration EAST))
         EAST (get3 nav_acceleration NORTH - get3 GNSS_acceleration NORTH))
      DOWN
      (if CROSS_GAIN_ONLY then cross_correction * CROSS_GAIN
       else cross_correction * CROSS_GAIN
            + mag_correction * magnetic_control_gain st) in
  exists pre : AHRS_type,
    update_diff_GNSS st gyro acc mag_sensor GNSS_acceleration GNSS_heading
    = finish_tick (circling_state st) "s" pre acc gyro
        (calibrated st mag_sensor) mag_sensor
    /\ circling_state pre = circling_state s0
    /\ automatic_magnetic_calibration pre = automatic_magnetic_calibration st
    /\ attitude pre = attitude st
    /\ Ts_div_2 pre = Ts_div_2 st
    /\ mag_calibration_data_collector pre = mag_calibration_data_collector st
    /\ earth_induction_data_collector pre = earth_induction_data_collector st
    /\ get3 (nav_correction pre) NORTH
       = - get3 nav_acceleration EAST + get3 GNSS_acceleration EAST
    /\ get3 (nav_correction pre) EAST
       = get3 nav_acceleration NORTH - get3 GNSS_acceleration NORTH
    /\ heading_difference_AHRS_DGNSS pre
       = map_into_PI_range (heading_difference_raw st GNSS_heading)
    /\ (if circle_state_eqb (circling_state s0) CIRCLING
        then nav_correction pre = circling_correction
             /\ gyro_integrator pre = gyro_integrator st
             /\ gyro_correction pre
                = vadd (vscale (reverse_map (body2nav st) circling_correction)
                          P_GAIN)
                    (vscale (gyro_integrator st) I_GAIN)
        else get3 (nav_correction pre) DOWN
             = heading_difference_AHRS_DGNSS pre * H_GAIN).
Proof.
  intros s0 nav_acceleration nav_induction cross_correction mag_correction
    circling_correction.
  destruct (update_circling_state_frame st)
    as (Hcal & _ & Haut & Hgi & Hnc & Hb2n & Heul & Hadc & Harc).
  destruct (update_circling_state_frame_more st)
    as (Hatt & Hts & Hmc & Hec & Hexp & Hgain & _).
  fold s0 in Hcal, Haut, Hgi, Hnc, Hb2n, Heul, Hadc, Harc, Hatt, Hts, Hmc,
    Hec, Hexp, Hgain.
  cbv beta delta [update_diff_GNSS finish_tick]. fold s0.
  destruct CROSS_GAIN_ONLY; repeat let_step AHRS_type;
    match goal with
    | pre := _, att := update_attitude ?s _ _ _ |- _ =>
        constr_eq s pre; exists pre
    end;
    (split;
     [ unfold calibrated; rewrite <- Hcal; cbv zeta;
       match goal with
       | att := update_attitude _ _ _ _,
         Hc : _ && (vabs (nav_correction ?a) <? _) = _
         |- context [update_attitude ?p ?c ?g ?m] =>
           constr_eq a att;
           change (update_attitude p c g m) with att; rewrite Hc
       end;
       reflexivity
     | split; [reflexivity|];
       split; [exact Haut|];
       split; [exact Hatt|];
       split; [exact Hts|];
       split; [exact Hmc|];
       split; [exact Hec|];
       subst circling_correction mag_correction cross_correction nav_induction
         nav_acceleration;
       unfold calibrated, heading_difference_raw;
       rewrite <- ?Hcal, <- ?Hgi, <- ?Hnc, <- ?Hb2n, <- ?Heul, <- ?Hadc,
         <- ?Harc, <- ?Hexp, <- ?Hgain;
       split; [reflexivity|];
       split; [reflexivity|];
       split; [reflexivity|];
       match goal with
       | Hs : circle_state_eqb (circling_state _) CIRCLING = ?b |- _ =>
           change (circle_state_eqb (circling_state s0) CIRCLING = b) in Hs;
           rewrite Hs
       end;
       try (match goal with
            | Hf : circle_state_eqb (circling_state _) STRAIGHT_FLIGHT = true,
              Hs : circle_state_eqb (circling_state s0) CIRCLING = true |- _ =>
                change (circle_state_eqb (circling_state s0) STRAIGHT_FLIGHT
                        = true) in Hf;
                destruct (circling_state s0); discriminate
            end);
       repeat split; reflexivity ]).
Qed.

(** A tick of the magnetometer mode, taken apart in the same way. *)
Lemma update_compass_parts (st : AHRS_type)
  (gyro acc mag_sensor GNSS_acceleration : float3vector) :
  let s0 := fst (update_circling_state st) in
  let nav_acceleration := mat_mul (body2nav st) acc in
  exists pre : AHRS_type,
    update_compass st gyro acc mag_sensor GNSS_acceleration
    = finish_tick (circling_state st) "m" pre acc gyro
        (calibrated st mag_sensor) mag_sensor
    /\ circling_state pre = circling_state s0
    /\ automatic_magnetic_calibration pre = automatic_magnetic_calibration st
    /\ attitude pre = attitude st
    /\ Ts_div_2 pre = Ts_div_2 st
    /\ mag_calibration_data_collector pre = mag_calibration_data_collector st
    /\ earth_induction_data_collector pre = earth_induction_data_collector st
    /\ get3 (nav_correction pre) NORTH
       = - get3 nav_acceleration EAST + get3 GNSS_acceleration EAST
    /\ get3 (nav_correction pre) EAST
       = get3 nav_acceleration NORTH - get3 GNSS_acceleration NORTH.
Proof.
  intros s0 nav_acceleration.
  cbv beta delta [update_compass finish_tick].
  destruct CROSS_GAIN_ONLY; repeat let_step AHRS_type;
    match goal with
    | first_state := fst (update_circling_state ?s) |- _ =>
        destruct (update_circling_state_frame s)
          as (_ & _ & Haut & _ & Hnc & _);
        destruct (update_circling_state_frame_more s)
          as (Hatt & Hts & Hmc & Hec & _);
        fold first_state in Haut, Hnc, Hatt, Hts, Hmc, Hec;
        assert (Hcs : circling_state first_state = circling_state s0)
          by (subst s0; unfold first_state;
              repeat match goal with
                     | |- context [update_circling_state ?x] =>
                         is_var x; unfold x
                     | |- context [update_circling_state
                                     (set_nav_correction _ ?x)] =>
                         is_var x; unfold x
                     end;
              rewrite !update_circling_state_set_nav_correction;
              reflexivity)
    end;
    match goal with
    | pre := _, att := update_attitude ?s _ _ _ |- _ =>
        constr_eq s pre; exists pre
    end;
    (split;
     [ unfold calibrated; cbv zeta;
       match goal with
       | att := update_attitude _ _ _ _,
         Hc : _ && (vabs (nav_correction ?a) <? _) = _
         |- context [update_attitude ?p ?c ?g ?m] =>
           constr_eq a att;
           change (update_attitude p c g m) with att; rewrite Hc
       end;
       reflexivity
     | split; [exact Hcs|];
       split; [exact Haut|];
       split; [exact Hatt|];
       split; [exact Hts|];
       split; [exact Hmc|];
       split; [exact Hec|];
       match goal with
       | first_state := fst (update_circling_state _) |- _ =>
           split;
           [ transitivity (get3 (nav_correction first_state) NORTH);
             [reflexivity|rewrite Hnc; reflexivity]
           | transitivity (get3 (nav_correction first_state) EAST);
             [reflexivity|rewrite Hnc; reflexivity] ]
       end ]).
Qed.

(** A tick of the acceleration-only mode ends with the attitude update;
    the state it starts from and the rotation do not depend on the
    magnetometer reading. *)
Lemma update_ACC_only_parts (st : AHRS_type)
  (gyro acc GNSS_acceleration : float3vector) :
  let nav_acceleration := mat_mul (body2nav st) acc in
  exists pre : AHRS_type,
    (forall mag : float3vector,
        update_ACC_only st gyro acc mag GNSS_acceleration
        = update_attitude pre acc (vadd gyro (gyro_correction pre)) mag)
    /\ mag_calibration_data_collector pre = mag_calibration_data_collector st
    /\ earth_induction_data_collector pre = earth_induction_data_collector st
    /\ get3 (nav_correction pre) NORTH
       = - get3 nav_acceleration EAST + get3 GNSS_acceleration EAST
    /\ get3 (nav_correction pre) EAST
       = get3 nav_acceleration NORTH - get3 GNSS_acceleration NORTH.
Proof.
  intros nav_acceleration.
  cut (exists pre : AHRS_type,
          update_ACC_only st gyro acc (mk3 F32.zero F32.zero F32.zero)
            GNSS_acceleration
          = update_attitude pre acc (vadd gyro (gyro_correction pre))
              (mk3 F32.zero F32.zero F32.zero)
          /\ (forall mag : float3vector,
                 update_ACC_only st gyro acc mag GNSS_acceleration
                 = update_attitude pre acc (vadd gyro (gyro_correction pre))
                     mag)
          /\ mag_calibration_data_collector pre
             = mag_calibration_data_collector st
          /\ earth_induction_data_collector pre
             = earth_induction_data_collector st
          /\ get3 (nav_correction pre) NORTH
             = - get3 nav_acceleration EAST + get3 GNSS_acceleration EAST
          /\ get3 (nav_correction pre) EAST
             = get3 nav_acceleration NORTH - get3 GNSS_acceleration NORTH).
  { intros (pre & _ & Hrest). exists pre. exact Hrest. }
  cbv beta delta [update_ACC_only].
  repeat let_step AHRS_type.
  match goal with
  | first_state := fst (update_circling_state ?s)
    |- exists _, update_attitude ?p _ _ _ = _ /\ _ =>
      destruct (update_circling_state_frame s) as (_ & _ & _ & _ & Hnc & _);
      destruct (update_circling_state_frame_more s)
        as (_ & _ & Hmc & Hec & _);
      fold first_state in Hnc, Hmc, Hec;
      exists p;
      split; [reflexivity|];
      split; [intros mag; reflexivity|];
      split; [exact Hmc|];
      split; [exact Hec|];
      split;
      [ transitivity (get3 (nav_correction first_state) NORTH);
        [reflexivity|rewrite Hnc; reflexivity]
      | transitivity (get3 (nav_correction first_state) EAST);
        [reflexivity|rewrite Hnc; reflexivity] ]
  end.
Qed.

End TickParts.

(* ================================================================== *)
(** * AHRS: what a tick uses and what it leaves alone *)

Section TickProperties.
Context `{Tuning} `{Collaborators}.

Local Open Scope f32_scope.

Lemma update_attitude_frame_more (st : AHRS_type) (acc gyro mag : float3vector) :
  let st' := update_attitude st acc gyro mag in
  automatic_magnetic_calibration st' = automatic_magnetic_calibration st
  /\ heading_difference_AHRS_DGNSS st' = heading_difference_AHRS_DGNSS st.
Proof.
  cbv beta delta [update_attitude]. repeat let_step AHRS_type.
  split; reflexivity.
Qed.

Lemma feed_magnetic_induction_observer_frame_more (st : AHRS_type)
  (mag_sensor : float3vector) :
  let st' := feed_magnetic_induction_observer st mag_sensor in
  gyro_integrator st' = gyro_integrator st
  /\ heading_difference_AHRS_DGNSS st' = heading_difference_AHRS_DGNSS st.
Proof.
  cbv beta delta [feed_magnetic_induction_observer].
  repeat let_step AHRS_type. split; reflexivity.
Qed.

(** The end of a tick: the attitude is rotated by the corrected gyro
    reading and normalised; the corrections, the integrator, the circling
    state and the heading difference stay as they are set; and outside
    circling and its end the data collectors are not touched. *)
Lemma finish_tick_fields (old_circle_state : circle_state_t) (type : ascii)
  (pre : AHRS_type) (acc gyro mag mag_sensor : float3vector) :
  let st' := finish_tick old_circle_state type pre acc gyro mag mag_sensor in
  attitude st' = rotated_and_normalized pre (vadd gyro (gyro_correction pre))
  /\ nav_correction st' = nav_correction pre
  /\ gyro_correction st' = gyro_correction pre
  /\ gyro_integrator st' = gyro_integrator pre
  /\ heading_difference_AHRS_DGNSS st' = heading_difference_AHRS_DGNSS pre
  /\ derived_from_attitude acc st'
  /\ (circle_state_eqb (circling_state pre) CIRCLING = false ->
      automatic_magnetic_calibration pre
      && circle_state_eqb old_circle_state CIRCLING
      && circle_state_eqb (circling_state pre) TRANSITION = false ->
      mag_calibration_data_collector st' = mag_calibration_data_collector pre
      /\ earth_induction_data_collector st'
         = earth_induction_data_collector pre).
Proof.
  cbv beta delta [finish_tick].
  set (att := update_attitude pre acc (vadd gyro (gyro_correction pre)) mag).
  destruct (update_attitude_frame pre acc (vadd gyro (gyro_correction pre)) mag)
    as (_ & Hcs & Hgi & Hgc & Hnc & _ & Hmc & Hec & _).
  destruct (update_attitude_frame_more pre acc
              (vadd gyro (gyro_correction pre)) mag) as (Haut & Hhd).
  pose proof (update_attitude_attitude pre acc
                (vadd gyro (gyro_correction pre)) mag) as Hatt.
  pose proof (proj1 (update_attitude_derived pre acc
                       (vadd gyro (gyro_correction pre)) mag)) as Hder.
  fold att in Hcs, Hgi, Hgc, Hnc, Hmc, Hec, Haut, Hhd, Hatt, Hder.
  cbv zeta.
  assert (Hfed : forall fed : AHRS_type,
            fed = att \/ fed = feed_magnetic_induction_observer att mag_sensor ->
            attitude fed = attitude att
            /\ nav_correction fed = nav_correction att
            /\ gyro_correction fed = gyro_correction att
            /\ gyro_integrator fed = gyro_integrator att
            /\ heading_difference_AHRS_DGNSS fed
               = heading_difference_AHRS_DGNSS att
            /\ circling_state fed = circling_state att
            /\ derived_from_attitude acc fed).
  { intros fed [->| ->].
    { split; [reflexivity|]. split; [reflexivity|]. split; [reflexivity|].
      split; [reflexivity|]. split; [reflexivity|]. split; [reflexivity|].
      exact Hder. }
    destruct (feed_magnetic_induction_observer_frame att mag_sensor)
      as (_ & -> & _ & _ & _ & _ & -> & ->).
    destruct (feed_magnetic_induction_observer_frame_more att mag_sensor)
      as (-> & ->).
    rewrite feed_magnetic_induction_observer_attitude.
    split; [reflexivity|]. split; [reflexivity|]. split; [reflexivity|].
    split; [reflexivity|]. split; [reflexivity|]. split; [reflexivity|].
    apply feed_magnetic_induction_observer_derived. exact Hder. }
  set (fed := if circle_state_eqb (circling_state att) CIRCLING
                 && (vabs (nav_correction att) <? NAV_CORRECTION_LIMIT)
              then feed_magnetic_induction_observer att mag_sensor
              else att).
  assert (Hcase : fed = att
                  \/ fed = feed_magnetic_induction_observer att mag_sensor)
    by (unfold fed;
        destruct (circle_state_eqb (circling_state att) CIRCLING
                  && (vabs (nav_correction att) <? NAV_CORRECTION_LIMIT));
        [right|left]; reflexivity).
  destruct (Hfed fed Hcase) as (Fatt & Fnc & Fgc & Fgi & Fhd & Fcs & Fder).
  assert (Hend : forall st' : AHRS_type,
            st' = fed \/ st' = handle_magnetic_calibration fed type ->
            attitude st' = attitude fed
            /\ nav_correction st' = nav_correction fed
            /\ gyro_correction st' = gyro_correction fed
            /\ gyro_integrator st' = gyro_integrator fed
            /\ heading_difference_AHRS_DGNSS st'
               = heading_difference_AHRS_DGNSS fed
            /\ derived_from_attitude acc st').
  { intros st' [->| ->].
    { split; [reflexivity|]. split; [reflexivity|]. split; [reflexivity|].
      split; [reflexivity|]. split; [reflexivity|]. exact Fder. }
    destruct (handle_magnetic_calibration_frame fed type)
      as (_ & _ & -> & _ & ->).
    destruct (handle_magnetic_calibration_frame_more fed type)
      as (_ & _ & _ & _ & _ & _ & -> & ->).
    rewrite handle_magnetic_calibration_attitude.
    split; [reflexivity|]. split; [reflexivity|]. split; [reflexivity|].
    split; [reflexivity|]. split; [reflexivity|].
    apply handle_magnetic_calibration_derived. exact Fder. }
  set (st' := if automatic_magnetic_calibration fed
                 && circle_state_eqb old_circle_state CIRCLING
                 && circle_state_eqb (circling_state fed) TRANSITION
              then handle_magnetic_calibration fed type
              else fed).
  assert (Hcase' : st' = fed \/ st' = handle_magnetic_calibration fed type)
    by (unfold st';
        destruct (automatic_magnetic_calibration fed
                  && circle_state_eqb old_circle_state CIRCLING
                  && circle_state_eqb (circling_state fed) TRANSITION);
        [right|left]; reflexivity).
  destruct (Hend st' Hcase') as (Eatt & Enc & Egc & Egi & Ehd & Eder).
  split; [rewrite Eatt, Fatt; exact Hatt|].
  split; [rewrite Enc, Fnc; exact Hnc|].
  split; [rewrite Egc, Fgc; exact Hgc|].
  split; [rewrite Egi, Fgi; exact Hgi|].
  split; [rewrite Ehd, Fhd; exact Hhd|].
  split; [exact Eder|].
  intros Hnot Hedge.
  assert (Efed : fed = att).
  { subst fed. rewrite Hcs, Hnot. reflexivity. }
  assert (Est : st' = att).
  { subst st'. rewrite Efed, Haut, Hcs, Hedge. reflexivity. }
  rewrite Est. split; [exact Hmc|exact Hec].
Qed.

(** X14.  The data collectors of the magnetometer calibration and of
    the earth induction are written only while circling or when circling
    ends with the automatic calibration on: a tick of the D-GNSS or of the
    magnetometer mode that does not end in [CIRCLING] and is not the tick
    from [CIRCLING] to [TRANSITION] with the automatic calibration on
    leaves both as they are, and a tick of the acceleration-only mode
    always does. *)
Theorem collectors_written_only_around_circling (st : AHRS_type)
  (gyro acc mag GNSS_acceleration : float3vector) (GNSS_heading : float) :
  (let st' :=
     update_diff_GNSS st gyro acc mag GNSS_acceleration GNSS_heading in
   circle_state_eqb (circling_state st') CIRCLING = false ->
   automatic_magnetic_calibration st
   && circle_state_eqb (circling_state st) CIRCLING
   && circle_state_eqb (circling_state st') TRANSITION = false ->
   mag_calibration_data_collector st' = mag_calibration_data_collector st
   /\ earth_induction_data_collector st' = earth_induction_data_collector st)
  /\ (let st' := update_compass st gyro acc mag GNSS_acceleration in
      circle_state_eqb (circling_state st') CIRCLING = false ->
      automatic_magnetic_calibration st
      && circle_state_eqb (circling_state st) CIRCLING
      && circle_state_eqb (circling_state st') TRANSITION = false ->
      mag_calibration_data_collector st' = mag_calibration_data_collector st
      /\ earth_induction_data_collector st'
         = earth_induction_data_collector st)
  /\ (let st' := update_ACC_only st gyro acc mag GNSS_acceleration in
      mag_calibration_data_collector st' = mag_calibration_data_collector st
      /\ earth_induction_data_collector st'
         = earth_induction_data_collector st).
Proof.
  split; [|split].
  - cbv zeta.
    rewrite !update_diff_GNSS_circling_state.
    destruct (update_diff_GNSS_parts st gyro acc mag GNSS_acceleration
                GNSS_heading)
      as (pre & -> & Hcs & Haut & _ & _ & Hmc & Hec & _).
    rewrite <- Hcs, <- Haut, <- Hmc, <- Hec. intros Hnot Hedge.
    apply (finish_tick_fields (circling_state st) "s" pre); assumption.
  - cbv zeta.
    rewrite !update_compass_circling_state.
    destruct (update_compass_parts st gyro acc mag GNSS_acceleration)
      as (pre & -> & Hcs & Haut & _ & _ & Hmc & Hec & _).
    rewrite <- Hcs, <- Haut, <- Hmc, <- Hec. intros Hnot Hedge.
    apply (finish_tick_fields (circling_state st) "m" pre); assumption.
  - cbv zeta.
    destruct (update_ACC_only_parts st gyro acc GNSS_acceleration)
      as (pre & Heq & Hmc & Hec & _).
    rewrite (Heq mag), <- Hmc, <- Hec.
    destruct (update_attitude_frame pre acc (vadd gyro (gyro_correction pre))
                mag) as (_ & _ & _ & _ & _ & _ & Hm & He & _).
    split; [exact Hm|exact He].
Qed.

(** X15.  The levelling error is the same in all three fusion modes: after
    a tick the north and east components of the correction vector are the
    east and north components of the difference between the GNSS
    acceleration and the measured acceleration in the navigation frame,
    taken with the rotation matrix of before the tick. *)
Theorem levelling_error_in_every_mode (st : AHRS_type)
  (gyro acc mag GNSS_acceleration : float3vector) (GNSS_heading : float) :
  let nav_acceleration := mat_mul (body2nav st) acc in
  forall st' : AHRS_type,
    st' = update_diff_GNSS st gyro acc mag GNSS_acceleration GNSS_heading
    \/ st' = update_compass st gyro acc mag GNSS_acceleration
    \/ st' = update_ACC_only st gyro acc mag GNSS_acceleration ->
    get3 (nav_correction st') NORTH
    = - get3 nav_acceleration EAST + get3 GNSS_acceleration EAST
    /\ get3 (nav_correction st') EAST
       = get3 nav_acceleration NORTH - get3 GNSS_acceleration NORTH.
Proof.
  intros nav_acceleration st' [->|[->| ->]].
  - destruct (update_diff_GNSS_parts st gyro acc mag GNSS_acceleration
                GNSS_heading)
      as (pre & -> & _ & _ & _ & _ & _ & _ & Hn & He & _).
    destruct (finish_tick_fields (circling_state st) "s" pre acc gyro
                (calibrated st mag) mag) as (_ & -> & _).
    split; [exact Hn|exact He].
  - destruct (update_compass_parts st gyro acc mag GNSS_acceleration)
      as (pre & -> & _ & _ & _ & _ & _ & _ & Hn & He).
    destruct (finish_tick_fields (circling_state st) "m" pre acc gyro
                (calibrated st mag) mag) as (_ & -> & _).
    split; [exact Hn|exact He].
  - destruct (update_ACC_only_parts st gyro acc GNSS_acceleration)
      as (pre & Heq & _ & _ & Hn & He).
    rewrite (Heq mag).
    destruct (update_attitude_frame pre acc (vadd gyro (gyro_correction pre))
                mag) as (_ & _ & _ & _ & -> & _).
    split; [exact Hn|exact He].
Qed.

(** X16.  The D-GNSS heading in a tick of the D-GNSS mode.  Outside
    circling the correction about the vertical axis is the stored heading
    difference times [H_GAIN].  While circling the heading is stored but
    not used: two ticks from the same state with the same sensor readings
    and different D-GNSS headings leave the same attitude, Euler angles,
    rotation matrix, corrections and gyro integrator. *)
Theorem DGNSS_heading_not_used_while_circling (st : AHRS_type)
  (gyro acc mag GNSS_acceleration : float3vector) :
  let tick := update_diff_GNSS st gyro acc mag GNSS_acceleration in
  (forall GNSS_heading : float,
      circle_state_eqb (circling_state (tick GNSS_heading)) CIRCLING = false ->
      get3 (nav_correction (tick GNSS_heading)) DOWN
      = heading_difference_AHRS_DGNSS (tick GNSS_heading) * H_GAIN)
  /\ (forall heading heading' : float,
         circle_state_eqb (circling_state (tick heading)) CIRCLING = true ->
         attitude (tick heading) = attitude (tick heading')
         /\ euler (tick heading) = euler (tick heading')
         /\ body2nav (tick heading) = body2nav (tick heading')
         /\ nav_correction (tick heading) = nav_correction (tick heading')
         /\ gyro_correction (tick heading) = gyro_correction (tick heading')
         /\ gyro_integrator (tick heading) = gyro_integrator (tick heading')).
Proof.
  intros tick. subst tick. split.
  - intros GNSS_heading.
    rewrite update_diff_GNSS_circling_state.
    destruct (update_diff_GNSS_parts st gyro acc mag GNSS_acceleration
                GNSS_heading)
      as (pre & -> & _ & _ & _ & _ & _ & _ & _ & _ & _ & Hdown).
    intros Hnot. rewrite Hnot in Hdown.
    destruct (finish_tick_fields (circling_state st) "s" pre acc gyro
                (calibrated st mag) mag) as (_ & -> & _ & _ & -> & _).
    exact Hdown.
  - intros heading heading'.
    rewrite update_diff_GNSS_circling_state.
    destruct (update_diff_GNSS_parts st gyro acc mag GNSS_acceleration
                heading)
      as (pre & -> & _ & _ & Hatt & Hts & _ & _ & _ & _ & _ & Hc).
    destruct (update_diff_GNSS_parts st gyro acc mag GNSS_acceleration
                heading')
      as (pre' & -> & _ & _ & Hatt' & Hts' & _ & _ & _ & _ & _ & Hc').
    intros Hcirc. rewrite Hcirc in Hc, Hc'.
    destruct Hc as (Hnc & Hgi & Hgc). destruct Hc' as (Hnc' & Hgi' & Hgc').
    destruct (finish_tick_fields (circling_state st) "s" pre acc gyro
                (calibrated st mag) mag)
      as (Fatt & -> & -> & -> & _ & (Fb & Fe & _) & _).
    destruct (finish_tick_fields (circling_state st) "s" pre' acc gyro
                (calibrated st mag) mag)
      as (Fatt' & -> & -> & -> & _ & (Fb' & Fe' & _) & _).
    assert (Eatt : attitude
                     (finish_tick (circling_state st) "s" pre acc gyro
                        (calibrated st mag) mag)
                   = attitude
                       (finish_tick (circling_state st) "s" pre' acc gyro
                          (calibrated st mag) mag)).
    { rewrite Fatt, Fatt'. unfold rotated_and_normalized.
      rewrite Hatt, Hatt', Hts, Hts', Hgc, Hgc'. reflexivity. }
    split; [exact Eatt|].
    split; [rewrite Fe, Fe', Eatt; reflexivity|].
    split; [rewrite Fb, Fb', Eatt; reflexivity|].
    split; [rewrite Hnc, Hnc'; reflexivity|].
    split; [rewrite Hgc, Hgc'; reflexivity|].
    rewrite Hgi, Hgi'. reflexivity.
Qed.

(** X17.  The acceleration-only mode does not use the magnetometer: two
    ticks from the same state that differ in the magnetometer reading
    only leave the same attitude, Euler angles, rotation matrix,
    corrections, gyro integrator and circling state. *)
Theorem ACC_only_ignores_magnetometer (st : AHRS_type)
  (gyro acc GNSS_acceleration : float3vector) (mag mag' : float3vector) :
  let st1 := update_ACC_only st gyro acc mag GNSS_acceleration in
  let st2 := update_ACC_only st gyro acc mag' GNSS_acceleration in
  attitude st1 = attitude st2
  /\ euler st1 = euler st2
  /\ body2nav st1 = body2nav st2
  /\ nav_correction st1 = nav_correction st2
  /\ gyro_correction st1 = gyro_correction st2
  /\ gyro_integrator st1 = gyro_integrator st2
  /\ circling_state st1 = circling_state st2.
Proof.
  cbv zeta.
  destruct (update_ACC_only_parts st gyro acc GNSS_acceleration)
    as (pre & Heq & _).
  rewrite (Heq mag), (Heq mag').
  set (rotation := vadd gyro (gyro_correction pre)).
  destruct (update_attitude_frame pre acc rotation mag)
    as (_ & -> & -> & -> & -> & _).
  destruct (update_attitude_frame pre acc rotation mag')
    as (_ & -> & -> & -> & -> & _).
  destruct (update_attitude_derived pre acc rotation mag)
    as ((Hb & He & _) & _).
  destruct (update_attitude_derived pre acc rotation mag')
    as ((Hb' & He' & _) & _).
  assert (Eatt : attitude (update_attitude pre acc rotation mag)
                 = attitude (update_attitude pre acc rotation mag'))
    by (rewrite !update_attitude_attitude; reflexivity).
  split; [exact Eatt|].
  split; [rewrite He, He', Eatt; reflexivity|].
  split; [rewrite Hb, Hb', Eatt; reflexivity|].
  repeat split; reflexivity.
Qed.

End TickProperties.

(* ================================================================== *)
(** * AHRS: the handling of the magnetic calibration *)

Section CalibrationHandling.
Context `{Tuning} `{Collaborators}.

Local Open Scope f32_scope.

(** X18.  One call of [handle_magnetic_calibration] stores the
    calibration and the collectors that [set_calibration_if_changed]
    returns, resets the earth induction collector exactly when it holds
    valid data, and leaves the expected induction and the magnetic
    control gain alone unless the automatic setting of the earth field
    parameters is on.  It issues one report at most, with the letter of
    the calling mode, the calibration and the expected induction as they
    are after the call, and it does issue one when the calibration has
    changed. *)
Theorem handle_magnetic_calibration_effects (st : AHRS_type) (type : ascii) :
  let st' := handle_magnetic_calibration st type in
  let result :=
    set_calibration_if_changed (compass_calibration st)
      (mag_calibration_data_collector st) MAG_SCALE
      (get_output (turn_rate_averager st) >? F32.zero) in
  compass_calibration st' = fst (fst result)
  /\ mag_calibration_data_collector st' = snd (fst result)
  /\ earth_induction_data_collector st'
     = (if data_valid (earth_induction_data_collector st)
        then reset (earth_induction_data_collector st)
        else earth_induction_data_collector st)
  /\ (automatic_earth_field_parameters st = false ->
      expected_nav_induction st' = expected_nav_induction st
      /\ magnetic_control_gain st' = magnetic_control_gain st)
  /\ (reports st' = reports st
      \/ exists deviation : float,
           reports st'
           = ({| calibration := get_calibration (compass_calibration st');
                 nav_induction := expected_nav_induction st';
                 nav_induction_std_deviation := deviation |}, type)
             :: reports st)
  /\ (snd result = true -> reports st' <> reports st).
Proof.
  cbv zeta. unfold handle_magnetic_calibration.
  destruct (set_calibration_if_changed _ _ _ _) as [[cal collectors] changed].
  cbn [fst snd].
  change (earth_induction_data_collector
            (set_mag_calibration_data_collector collectors
               (set_compass_calibration cal st)))
    with (earth_induction_data_collector st).
  change (automatic_earth_field_parameters
            (set_mag_calibration_data_collector collectors
               (set_compass_calibration cal st)))
    with (automatic_earth_field_parameters st).
  assert (Hcons : forall (A : Type) (x : A) (l : list A), x :: l <> l).
  { intros A x l. induction l as [|y l IH]; [discriminate|].
    intros E. injection E as E1 E2. subst y. exact (IH E2). }
  destruct (data_valid (earth_induction_data_collector st));
    [destruct (automatic_earth_field_parameters st
               && (F32.sqrt (get_variance (earth_induction_data_collector st))
                   <? INDUCTION_STD_DEVIATION_LIMIT)) eqn:Eauto|];
    destruct changed;
    (split; [reflexivity|]);
    (split; [reflexivity|]);
    (split; [reflexivity|]);
    (split;
     [ intros Hoff; try (rewrite Hoff in Eauto; discriminate Eauto);
       split; reflexivity|]);
    (split;
     [ first [left; reflexivity | right; eexists; reflexivity]
     | first [intros _; apply Hcons | intros E; discriminate E] ]).
Qed.

End CalibrationHandling.

(* ================================================================== *)
(** * Flight observer: the pressure side and the specific energy *)

Section FlightObserverMore.
Context `{ObserverCollaborators}.

Local Open Scope f32_scope.

(** The pressure side of a tick, with or without a GNSS fix, and the
    specific energy with a fix. *)
Lemma update_every_10ms_fields (st : flight_observer_t)
  (gnss_velocity gnss_acceleration ahrs_acceleration heading_vector
     : float3vector)
  (GNSS_negative_altitude pressure_altitude TAS IAS : float)
  (circle_state : circle_state_t) (wind_average : float3vector)
  (GNSS_fix_avaliable : bool) :
  let vario :=
    KalmanVario_update2 (KalmanVario_pressure st) pressure_altitude
      (get3 ahrs_acceleration DOWN) in
  let kinetic :=
    differentiator_respond (kinetic_energy_differentiator st)
      (IAS * IAS * ONE_DIV_BY_GRAVITY_TIMES_2) in
  exists st' : flight_observer_t,
    update_every_10ms st gnss_velocity gnss_acceleration ahrs_acceleration
      heading_vector GNSS_negative_altitude pressure_altitude TAS IAS
      circle_state wind_average GNSS_fix_avaliable
    = st'
    /\ KalmanVario_pressure st' = fst vario
    /\ vario_uncompensated_pressure st' = snd vario
    /\ kinetic_energy_differentiator st' = fst kinetic
    /\ speed_compensation_IAS st' = snd kinetic
    /\ vario_averager_pressure st'
       = vario_averager_respond (vario_averager_pressure st)
           (snd kinetic - snd vario)
    /\ vertical_energy_tuning_factor st' = vertical_energy_tuning_factor st
    /\ (GNSS_fix_avaliable = true ->
        specific_energy st'
        = (SQR (get3 gnss_velocity NORTH - get3 wind_average NORTH)
           + SQR (get3 gnss_velocity EAST - get3 wind_average EAST)
           + SQR (get3 gnss_velocity DOWN) * vertical_energy_tuning_factor st)
          * ONE_DIV_BY_GRAVITY_TIMES_2)
    /\ (GNSS_fix_avaliable = false ->
        specific_energy st' = specific_energy st).
Proof.
  intros vario kinetic.
  destruct GNSS_fix_avaliable;
    cbv beta iota delta [update_every_10ms negb];
    repeat first [pair_step | let_step flight_observer_t];
    (eexists; split; [reflexivity|]);
    match goal with
    | Hk : differentiator_respond (kinetic_energy_differentiator _) ?x = ?r
      |- _ =>
        change (differentiator_respond (kinetic_energy_differentiator st) x = r)
          in Hk;
        subst vario kinetic; rewrite Hk
    end;
    repeat split; try reflexivity; intros; discriminate.
Qed.

(** X19.  The pressure side of a tick does not depend on the GNSS: the
    pressure variometer, the airspeed compensation and the filters behind
    them after [update_every_10ms] are the same for any two calls from
    the same state with the same pressure altitude, vertical acceleration
    and IAS, whatever the GNSS data, the wind and the fix flag. *)
Theorem pressure_side_independent_of_GNSS (st : flight_observer_t)
  (gnss_velocity gnss_acceleration ahrs_acceleration heading_vector
     : float3vector)
  (GNSS_negative_altitude pressure_altitude TAS IAS : float)
  (circle_state : circle_state_t) (wind_average : float3vector)
  (GNSS_fix_avaliable : bool)
  (gnss_velocity' gnss_acceleration' ahrs_acceleration' heading_vector'
     : float3vector)
  (GNSS_negative_altitude' TAS' : float)
  (circle_state' : circle_state_t) (wind_average' : float3vector)
  (GNSS_fix_avaliable' : bool) :
  get3 ahrs_acceleration' DOWN = get3 ahrs_acceleration DOWN ->
  let st1 :=
    update_every_10ms st gnss_velocity gnss_acceleration ahrs_acceleration
      heading_vector GNSS_negative_altitude pressure_altitude TAS IAS
      circle_state wind_average GNSS_fix_avaliable in
  let st2 :=
    update_every_10ms st gnss_velocity' gnss_acceleration' ahrs_acceleration'
      heading_vector' GNSS_negative_altitude' pressure_altitude TAS' IAS
      circle_state' wind_average' GNSS_fix_avaliable' in
  KalmanVario_pressure st1 = KalmanVario_pressure st2
  /\ vario_uncompensated_pressure st1 = vario_uncompensated_pressure st2
  /\ kinetic_energy_differentiator st1 = kinetic_energy_differentiator st2
  /\ speed_compensation_IAS st1 = speed_compensation_IAS st2
  /\ vario_averager_pressure st1 = vario_averager_pressure st2.
Proof.
  intros Hdown st1 st2.
  destruct (update_every_10ms_fields st gnss_velocity gnss_acceleration
              ahrs_acceleration heading_vector GNSS_negative_altitude
              pressure_altitude TAS IAS circle_state wind_average
              GNSS_fix_avaliable)
    as (s1 & E1 & K1 & V1 & D1 & S1 & A1 & _).
  destruct (update_every_10ms_fields st gnss_velocity' gnss_acceleration'
              ahrs_acceleration' heading_vector' GNSS_negative_altitude'
              pressure_altitude TAS' IAS circle_state' wind_average'
              GNSS_fix_avaliable')
    as (s2 & E2 & K2 & V2 & D2 & S2 & A2 & _).
  subst st1 st2. rewrite E1, E2, K1, K2, V1, V2, D1, D2, S1, S2, A1, A2, Hdown.
  repeat split; reflexivity.
Qed.

(** X20.  With a GNSS fix and a vertical energy tuning factor that is not
    below zero, the specific energy after a tick is not below zero: a sum
    of squares, rounded. *)
Theorem specific_energy_not_negative (st : flight_observer_t)
  (gnss_velocity gnss_acceleration ahrs_acceleration heading_vector
     : float3vector)
  (GNSS_negative_altitude pressure_altitude TAS IAS : float)
  (circle_state : circle_state_t) (wind_average : float3vector) :
  F32.ltb (vertical_energy_tuning_factor st) F32.zero = false ->
  F32.ltb
    (specific_energy
       (update_every_10ms st gnss_velocity gnss_acceleration
          ahrs_acceleration heading_vector GNSS_negative_altitude
          pressure_altitude TAS IAS circle_state wind_average true))
    F32.zero
  = false.
Proof.
  intros Hk.
  destruct (update_every_10ms_fields st gnss_velocity gnss_acceleration
              ahrs_acceleration heading_vector GNSS_negative_altitude
              pressure_altitude TAS IAS circle_state wind_average true)
    as (s1 & -> & _ & _ & _ & _ & _ & _ & Henergy & _).
  rewrite (Henergy eq_refl). unfold SQR.
  apply SFmul_not_negative; [|reflexivity].
  apply SFadd_not_negative; [apply SFadd_not_negative|].
  - apply SFmul_square_not_negative.
  - apply SFmul_square_not_negative.
  - apply SFmul_not_negative; [apply SFmul_square_not_negative|exact Hk].
Qed.

End FlightObserverMore.

(* ================================================================== *)
(** * AHRS: the norm of the attitude after an update

    The quaternion class is not among the sources.  Its [rotate] and
    [normalize] are taken as modelled from the specification: the
    quaternion of the collaborators is read through [components], and the
    two functions act on the four components as [Bench.quat_rotate] and
    [Bench.quat_normalize] do. *)

Section UnitAttitude.
Context `{Tuning} `{Collaborators}.

Variable components : quaternion -> Bench.quat.

Hypothesis rotate_components :
  forall (q : quaternion) (p_ q_ r_ : float),
    components (q_rotate q p_ q_ r_)
    = Bench.quat_rotate (components q) p_ q_ r_.

Hypothesis normalize_components :
  forall q : quaternion,
    components (q_normalize q) = Bench.quat_normalize (components q).

Local Open Scope f32_scope.

(** The rotation rate of a tick is the gyro reading plus the correction
    that the tick has set. *)
Lemma update_diff_GNSS_rotation (st : AHRS_type)
  (gyro acc mag GNSS_acceleration : float3vector) (GNSS_heading : float) :
  let st' := update_diff_GNSS st gyro acc mag GNSS_acceleration GNSS_heading in
  attitude st' = rotated_and_normalized st (vadd gyro (gyro_correction st')).
Proof.
  intros st'.
  destruct (update_diff_GNSS_parts st gyro acc mag GNSS_acceleration
              GNSS_heading)
    as (pre & Heq & _ & _ & Hatt & Hts & _).
  destruct (finish_tick_fields (circling_state st) "s" pre acc gyro
              (calibrated st mag) mag) as (Ha & _ & Hgc & _).
  unfold st'. rewrite Heq, Ha, Hgc.
  unfold rotated_and_normalized. rewrite Hatt, Hts. reflexivity.
Qed.

Lemma update_compass_rotation (st : AHRS_type)
  (gyro acc mag GNSS_acceleration : float3vector) :
  let st' := update_compass st gyro acc mag GNSS_acceleration in
  attitude st' = rotated_and_normalized st (vadd gyro (gyro_correction st')).
Proof.
  intros st'.
  destruct (update_compass_parts st gyro acc mag GNSS_acceleration)
    as (pre & Heq & _ & _ & Hatt & Hts & _).
  destruct (finish_tick_fields (circling_state st) "m" pre acc gyro
              (calibrated st mag) mag) as (Ha & _ & Hgc & _).
  unfold st'. rewrite Heq, Ha, Hgc.
  unfold rotated_and_normalized. rewrite Hatt, Hts. reflexivity.
Qed.

Lemma update_ACC_only_pre (st : AHRS_type)
  (gyro acc mag GNSS_acceleration : float3vector) :
  exists pre : AHRS_type,
    update_ACC_only st gyro acc mag GNSS_acceleration
    = update_attitude pre acc (vadd gyro (gyro_correction pre)) mag
    /\ attitude pre = attitude st
    /\ Ts_div_2 pre = Ts_div_2 st.
Proof.
  cbv beta delta [update_ACC_only].
  repeat let_step AHRS_type.
  match goal with
  | first_state := fst (update_circling_state ?s0)
    |- exists _, update_attitude ?p _ _ _ = _ /\ _ =>
      destruct (update_circling_state_attitude s0) as [Hatt Hts];
      exists p;
      split; [reflexivity|];
      split;
      [ transitivity (attitude first_state); [reflexivity|exact Hatt]
      | transitivity (Ts_div_2 first_state); [reflexivity|exact Hts] ]
  end.
Qed.

Lemma update_ACC_only_rotation (st : AHRS_type)
  (gyro acc mag GNSS_acceleration : float3vector) :
  let st' := update_ACC_only st gyro acc mag GNSS_acceleration in
  attitude st' = rotated_and_normalized st (vadd gyro (gyro_correction st')).
Proof.
  intros st'.
  destruct (update_ACC_only_pre st gyro acc mag GNSS_acceleration)
    as (pre & Heq & Hatt & Hts).
  destruct (update_attitude_frame pre acc (vadd gyro (gyro_correction pre))
              mag) as (_ & _ & _ & Hgc & _).
  unfold st'. rewrite Heq, Hgc, update_attitude_attitude.
  unfold rotated_and_normalized. rewrite Hatt, Hts. reflexivity.
Qed.

(** C1 (as amended).  After an update in any of the three fusion modes
    the attitude is the quaternion of before, rotated by the increments
    of the tick (the gyro reading plus the gyro correction, times half the
    sample time) and then normalised, and its components are values of
    the format.  It is a unit quaternion, with finite components and
    [| ||q|| - 1 | < 1e-6], when the rotated quaternion, the argument of
    [normalize], has components that are values of the format, each below
    [2^60] in magnitude and one of them of [2^-60] at least; and that is
    so whenever the attitude before the update is a unit quaternion of
    values of the format and each of the three increments is at most 1000
    in magnitude. *)
Theorem attitude_unit_after_update (st : AHRS_type)
  (gyro acc mag GNSS_acceleration : float3vector) (GNSS_heading : float)
  (st' : AHRS_type) :
  st' = update_diff_GNSS st gyro acc mag GNSS_acceleration GNSS_heading
  \/ st' = update_compass st gyro acc mag GNSS_acceleration
  \/ st' = update_ACC_only st gyro acc mag GNSS_acceleration ->
  let rotation := vadd gyro (gyro_correction st') in
  let p_ := get3 rotation ROLL * Ts_div_2 st in
  let q_ := get3 rotation NICK * Ts_div_2 st in
  let r_ := get3 rotation YAW * Ts_div_2 st in
  let rotated := Bench.quat_rotate (components (attitude st)) p_ q_ r_ in
  components (attitude st') = Bench.quat_normalize rotated
  /\ Norm.quat_valid (components (attitude st')) = true
  /\ (Norm.moderate rotated = true ->
      Norm.unit_quaternion (components (attitude st')))
  /\ (Norm.unit_quaternion (components (attitude st)) ->
      Norm.quat_valid (components (attitude st)) = true ->
      F32.within 1000 p_ = true -> F32.within 1000 q_ = true ->
      F32.within 1000 r_ = true ->
      Norm.moderate rotated = true
      /\ Norm.unit_quaternion (components (attitude st'))).
Proof.
  intros Hmode rotation p_ q_ r_ rotated.
  assert (Hatt : attitude st'
                 = rotated_and_normalized st (vadd gyro (gyro_correction st'))).
  { destruct Hmode as [->|[->| ->]].
    - apply update_diff_GNSS_rotation.
    - apply update_compass_rotation.
    - apply update_ACC_only_rotation. }
  assert (Hc : components (attitude st') = Bench.quat_normalize rotated).
  { rewrite Hatt. unfold rotated_and_normalized.
    rewrite normalize_components, rotate_components. reflexivity. }
  split; [exact Hc|]. rewrite Hc.
  split; [apply Rotation.quat_normalize_valid|].
  split; [apply UnitNorm.quat_normalize_unit|].
  intros Hunit Hvalid Hp Hq Hr.
  assert (Hmod : Norm.moderate rotated = true)
    by (apply Rotation.rotated_moderate; assumption).
  split; [exact Hmod|]. apply UnitNorm.quat_normalize_unit. exact Hmod.
Qed.

End UnitAttitude.

(* ================================================================== *)
(** * Further properties on concrete inputs *)

Module BenchSentences.

Local Open Scope Z_scope.
Local Open Scope string_scope.

(** Five hundredths below zero are written with the integer part 0. *)
Lemma integer_to_ascii_2_decimals_round_trip_witness :
  integer_to_ascii_2_decimals (-5) = "-0.05"
  /\ read_fixed_point 2 (integer_to_ascii_2_decimals (-5)) = Some (-5).
Proof.
  split; [reflexivity|].
  apply integer_to_ascii_2_decimals_round_trip. split; reflexivity.
Defined.

Lemma integer_to_ascii_1_decimal_round_trip_witness :
  integer_to_ascii_1_decimal 3595 = "359.5"
  /\ read_fixed_point 1 (integer_to_ascii_1_decimal 3595) = Some 3595.
Proof.
  split; [reflexivity|].
  apply integer_to_ascii_1_decimal_round_trip. split; reflexivity.
Defined.

(** The heading sentence for 359.5 degrees with its checksum, and the
    same sentence with 358.5 in place of 359.5. *)
Lemma NMEA_checksum_detects_substitution_witness :
  NMEA_checksum "$HCHDT,359.5,T*23" = true
  /\ NMEA_checksum "$HCHDT,358.5,T*23" = false.
Proof.
  split; [reflexivity|].
  apply (NMEA_checksum_detects_substitution "HCHDT,35" ".5,T" "9" "8" "2" "3"
           ""); reflexivity.
Defined.

(** The same sentence with 395.5 in place of 359.5 has the same
    checksum. *)
Lemma NMEA_checksum_misses_transposition_witness :
  NMEA_checksum "$HCHDT,395.5,T*23" = NMEA_checksum "$HCHDT,359.5,T*23"
  /\ NMEA_checksum "$HCHDT,395.5,T*23" = true.
Proof.
  split; [|reflexivity].
  apply (NMEA_checksum_misses_transposition "HCHDT,3" "5" "9" ".5,T" "2" "3"
           "").
  reflexivity.
Defined.

(** A line that already has a star and text behind it. *)
Lemma NMEA_append_tail_replaces_tail_witness :
  NMEA_append_tail "$HCHDT,359.5,T*00 and more"
  = NMEA_append_tail "$HCHDT,359.5,T"
  /\ NMEA_append_tail
       ("$HCHDT,359.5,T*23" ++ String CR (String LF EmptyString))
     = Some ("$HCHDT,359.5,T*23" ++ String CR (String LF EmptyString)).
Proof.
  destruct (NMEA_append_tail_replaces_tail "HCHDT,359.5,T" "00 and more")
    as [Hcut Hagain]; [reflexivity|].
  split; [exact Hcut|].
  apply Hagain. reflexivity.
Defined.


(** A sentence of [format_POV] with air data: 30 m/s, 950 hPa, a pitot
    pressure of 1234.7 Pa, a climb of 1.5 m/s, 12.5 V, 40 percent and
    21.5 degrees. *)
Lemma format_POV_fields_witness :
  let sentence :=
    format_POV (F32.of_Z 30) (F32.of_Z 95000) (F32.decimal 12347 1)
      (F32.decimal 15 1) (F32.decimal 125 1) true (F32.of_Z 40)
      (F32.decimal 215 1) in
  sentence = "$POV,E,1.50,P,950.00,R,12.34,S,108.00,V,12.5,H,40.00,T,21.50"
  /\ List.length (split_fields sentence) = 15%nat
  /\ is_C_string sentence = true.
Proof.
  cbv zeta.
  destruct (format_POV_fields (F32.of_Z 30) (F32.of_Z 95000)
              (F32.decimal 12347 1) (F32.decimal 15 1) (F32.decimal 125 1)
              true (F32.of_Z 40) (F32.decimal 215 1))
    as (Hfields & _ & Hstring).
  - vm_compute. reflexivity.
  - split; [vm_compute; reflexivity|].
    split; [rewrite Hfields; reflexivity|exact Hstring].
Defined.

(** A pitot pressure of 1234.7 Pa is written as 12.34, and one of -3 Pa
    as 0.00. *)
Lemma format_POV_pitot_field_witness :
  let field (pitot : float) :=
    nth 6
      (split_fields
         (format_POV (F32.of_Z 30) (F32.of_Z 95000) pitot
            (F32.decimal 15 1) (F32.decimal 125 1) false F32.zero F32.zero))
      "" in
  F32.trunc (F32.decimal 12347 1) = 1234
  /\ field (F32.decimal 12347 1) = "12.34"
  /\ read_fixed_point 2 (field (F32.decimal 12347 1)) = Some 1234
  /\ field (F32.of_Z (-3)) = "0.00".
Proof.
  cbv zeta.
  destruct (format_POV_pitot_field (F32.of_Z 30) (F32.of_Z 95000)
              (F32.decimal 12347 1) (F32.decimal 15 1) (F32.decimal 125 1)
              false F32.zero F32.zero)
    as (_ & _ & _ & _ & Hread & _).
  - vm_compute. reflexivity.
  - destruct (format_POV_pitot_field (F32.of_Z 30) (F32.of_Z 95000)
                (F32.of_Z (-3)) (F32.decimal 15 1) (F32.decimal 125 1)
                false F32.zero F32.zero)
      as (_ & _ & _ & _ & _ & _ & _ & Hzero).
    + vm_compute. reflexivity.
    + split; [vm_compute; reflexivity|].
      split; [vm_compute; reflexivity|].
      split; [exact Hread|exact Hzero].
Defined.

(** Counterexample to C10 as stated.  A pitot pressure of 3000000000 Pa
    is not below zero, and its integer part is above the largest [int].
    The field that the statement asks for is [30000000.00]; no [int]
    whatever is written so by [integer_to_ascii_2_decimals], so the field
    is not the notation of the truncated pitot value, whatever the
    conversion leaves.  With the conversion of the target, which
    saturates, the field reads [21474836.47]. *)
Lemma format_POV_pitot_beyond_int :
  let pitot := F32.of_Z 3000000000 in
  let field :=
    nth 6
      (split_fields
         (format_POV (F32.of_Z 30) (F32.of_Z 95000) pitot
            (F32.decimal 15 1) (F32.decimal 125 1) false F32.zero F32.zero))
      "" in
  F32.ltb pitot F32.zero = false
  /\ F32.trunc pitot = 3000000000
  /\ F32.INT32_MAX < F32.trunc pitot
  /\ read_fixed_point 2 "30000000.00" = Some (F32.trunc pitot)
  /\ (forall number : Z,
         F32.INT32_MIN <= number <= F32.INT32_MAX ->
         integer_to_ascii_2_decimals number <> "30000000.00")
  /\ field = "21474836.47"
  /\ read_fixed_point 2 field = Some 2147483647
  /\ read_fixed_point 2 field <> Some (F32.trunc pitot).
Proof.
  cbv zeta.
  split; [vm_compute; reflexivity|].
  split; [vm_compute; reflexivity|].
  split; [vm_compute; reflexivity|].
  split; [vm_compute; reflexivity|].
  split.
  { intros number [Hlo Hhi] Heq.
    change F32.INT32_MAX with 2147483647 in Hhi.
    destruct (Z.ltb_spec number 0) as [Hneg|Hpos].
    - unfold integer_to_ascii_2_decimals in Heq.
      apply Z.ltb_lt in Hneg. rewrite Hneg in Heq. cbv zeta in Heq.
      apply (f_equal (fun s => match s with
                               | String c _ => c
                               | EmptyString => "0"%char
                               end)) in Heq.
      cbn [append] in Heq. discriminate Heq.
    - pose proof (integer_to_ascii_2_decimals_read number ltac:(lia)) as Hread.
      rewrite Heq in Hread. vm_compute in Hread.
      injection Hread as Hn. lia. }
  vm_compute. repeat split; try reflexivity. discriminate.
Qed.
(** A yaw angle just below zero is reported as 360.0 degrees. *)
Example format_POV_RNY_yaw_below_zero :
  format_POV_RNY F32.zero F32.zero (F32.neg (F32.decimal 1 6))
  = "$POV,B,0.0,N,0.0,Y,360.0".
Proof. vm_compute. reflexivity. Qed.

End BenchSentences.

Module BenchTicks.

Import Bench.
#[local] Existing Instance Bench.tuning.
#[local] Existing Instance Bench.collaborators.

Local Open Scope Z_scope.

(** A turn begins: from straight flight with a filtered turn rate of
    0.3 rad/s the counter goes to 1 and the state to [TRANSITION]. *)
Lemma tick_keeps_counter_and_state_witness :
  let st := level_state (F32.decimal 3 1) 0 STRAIGHT_FLIGHT in
  let st' := update_compass st vzero gravity mag_north vzero in
  circling_counter st' = 1
  /\ 0 <= circling_counter st' <= CIRCLE_LIMIT
  /\ circling_state st' = reference_state (circling_counter st')
  /\ circling_state st' = TRANSITION.
Proof.
  cbv zeta.
  destruct (tick_keeps_counter_and_state
              (level_state (F32.decimal 3 1) 0 STRAIGHT_FLIGHT)
              vzero gravity mag_north vzero F32.zero)
    with (st' := update_compass
                   (level_state (F32.decimal 3 1) 0 STRAIGHT_FLIGHT)
                   vzero gravity mag_north vzero)
    as (Hrange & _ & Hstate).
  - reflexivity.
  - vm_compute. discriminate.
  - vm_compute. split; discriminate.
  - right. left. reflexivity.
  - split; [vm_compute; reflexivity|].
    split; [exact Hrange|].
    split; [exact Hstate|].
    vm_compute. reflexivity.
Defined.

(** The levelling error with one m/s^2 of forward acceleration that the
    GNSS does not show: after a tick of the D-GNSS mode the east
    component of the correction is one, the north component zero. *)
Lemma levelling_error_in_every_mode_witness :
  let st' := update_diff_GNSS circling vzero acc_forward mag_north vzero
               F32.zero in
  get3 (nav_correction st') NORTH = F32.zero
  /\ get3 (nav_correction st') EAST = one.
Proof.
  cbv zeta.
  destruct (levelling_error_in_every_mode circling vzero acc_forward mag_north
              vzero F32.zero
              (update_diff_GNSS circling vzero acc_forward mag_north vzero
                 F32.zero))
    as [Hn He].
  - left. reflexivity.
  - split; [rewrite Hn|rewrite He]; vm_compute; reflexivity.
Defined.

(** While circling, a heading of one radian and a heading of two leave
    the same attitude; the stored heading difference differs. *)
Example DGNSS_heading_while_circling :
  let tick := update_diff_GNSS circling vzero acc_forward mag_north vzero in
  circling_state (tick one) = CIRCLING
  /\ attitude (tick one) = attitude (tick two)
  /\ heading_difference_AHRS_DGNSS (tick one) = one
  /\ heading_difference_AHRS_DGNSS (tick two) = two.
Proof. vm_compute. repeat split. Qed.

End BenchTicks.

Module BenchObserverMore.

Import Bench.
#[local] Existing Instance Bench.observer_collaborators.

(** The tick [first_tick], with a fix and 10 m/s to the north, and the
    same tick without a fix and without GNSS data. *)
Lemma pressure_side_independent_of_GNSS_witness :
  let without_fix :=
    update_every_10ms observer_at_rest vzero vzero gravity vzero F32.zero
      F32.zero F32.zero (F32.of_Z 10) CIRCLING vzero false in
  vario_uncompensated_pressure first_tick
  = vario_uncompensated_pressure without_fix
  /\ speed_compensation_IAS first_tick = speed_compensation_IAS without_fix
  /\ F32.ltb (specific_energy without_fix) (specific_energy first_tick) = true.
Proof.
  cbv zeta.
  destruct (pressure_side_independent_of_GNSS observer_at_rest north_10 vzero
              gravity (mk3 one F32.zero F32.zero) F32.zero F32.zero
              (F32.of_Z 10) (F32.of_Z 10) STRAIGHT_FLIGHT vzero true
              vzero vzero gravity vzero F32.zero F32.zero CIRCLING vzero false)
    as (_ & Hv & _ & Hs & _).
  - reflexivity.
  - split; [exact Hv|]. split; [exact Hs|]. vm_compute. reflexivity.
Defined.

Lemma specific_energy_not_negative_witness :
  F32.ltb (specific_energy first_tick) F32.zero = false
  /\ specific_energy first_tick
     = F32.mul (F32.of_Z 100) ONE_DIV_BY_GRAVITY_TIMES_2.
Proof.
  split; [|vm_compute; reflexivity].
  apply (specific_energy_not_negative observer_at_rest north_10 vzero gravity
           (mk3 one F32.zero F32.zero) F32.zero F32.zero (F32.of_Z 10)
           (F32.of_Z 10) STRAIGHT_FLIGHT vzero).
  reflexivity.
Defined.

End BenchObserverMore.

Module BenchUnit.

Import Bench.
Import Stdlib.Reals.Reals Stdlib.micromega.Lra.

#[local] Existing Instance Bench.tuning.
#[local] Existing Instance Bench.collaborators.

(** The attitude of level flight, (1, 0, 0, 0), is a unit quaternion. *)
Lemma straight_unit : Norm.unit_quaternion (attitude straight).
Proof.
  assert (Hq : attitude straight
               = mk_quat (S754_finite false 8388608 (-23)) (S754_zero false)
                   (S754_zero false) (S754_zero false))
    by (vm_compute; reflexivity).
  rewrite Hq. split; [reflexivity|].
  unfold Norm.quat_norm, Norm.quat_norm_square.
  cbn [q0 q1 q2 q3 Exact.value].
  rewrite (Ranges.pow2_numeral_neg (-23) 8388608 ltac:(lia) eq_refl).
  replace (8388608 * / 8388608 * (8388608 * / 8388608) + 0 * 0 + 0 * 0
           + 0 * 0)%R with 1%R by lra.
  rewrite sqrt_1. apply Rabs_def1; lra.
Qed.

(** In level flight, with the aircraft turning at 0.1, -0.05 and 0.2 rad/s
    about its three axes, a tick of each mode leaves a unit quaternion:
    the attitude before is one, and the increments are small. *)
Lemma attitude_unit_after_update_witness :
  let gyro :=
    mk3 (F32.decimal 1 1) (F32.neg (F32.decimal 5 2)) (F32.decimal 2 1) in
  Norm.unit_quaternion
    (attitude
       (update_diff_GNSS straight gyro gravity mag_north vzero F32.zero))
  /\ Norm.unit_quaternion
       (attitude (update_compass straight gyro gravity mag_north vzero))
  /\ Norm.unit_quaternion
       (attitude (update_ACC_only straight gyro gravity mag_north vzero)).
Proof.
  intros gyro.
  split; [|split].
  - apply (@attitude_unit_after_update tuning collaborators (fun q => q)
             (fun _ _ _ _ => eq_refl) (fun _ => eq_refl)
             straight gyro gravity mag_north vzero F32.zero
             (update_diff_GNSS straight gyro gravity mag_north vzero F32.zero)
             (or_introl eq_refl)).
    + exact straight_unit.
    + vm_compute. reflexivity.
    + vm_compute. reflexivity.
    + vm_compute. reflexivity.
    + vm_compute. reflexivity.
  - apply (@attitude_unit_after_update tuning collaborators (fun q => q)
             (fun _ _ _ _ => eq_refl) (fun _ => eq_refl)
             straight gyro gravity mag_north vzero F32.zero
             (update_compass straight gyro gravity mag_north vzero)
             (or_intror (or_introl eq_refl))).
    + exact straight_unit.
    + vm_compute. reflexivity.
    + vm_compute. reflexivity.
    + vm_compute. reflexivity.
    + vm_compute. reflexivity.
  - apply (@attitude_unit_after_update tuning collaborators (fun q => q)
             (fun _ _ _ _ => eq_refl) (fun _ => eq_refl)
             straight gyro gravity mag_north vzero F32.zero
             (update_ACC_only straight gyro gravity mag_north vzero)
             (or_intror (or_intror eq_refl))).
    + exact straight_unit.
    + vm_compute. reflexivity.
    + vm_compute. reflexivity.
    + vm_compute. reflexivity.
    + vm_compute. reflexivity.
Defined.

(** Counterexample to C1 as stated.  The attitude before the tick is the
    quaternion (1, 0, 0, 0), which is not zero, and the gyro reads
    [2^100] about the roll axis, a value of the format.  The square of
    the rotated roll component is beyond the format, the norm is computed
    as infinity, and [normalize] leaves the zero quaternion in each of
    the three modes: its norm is 0, not within 1e-6 of 1. *)
Lemma update_attitude_not_unit :
  attitude straight = mk_quat one F32.zero F32.zero F32.zero
  /\ F32.valid (F32.of_bits 1 100) = true
  /\ attitude
       (update_diff_GNSS straight (mk3 (F32.of_bits 1 100) F32.zero F32.zero)
          gravity mag_north vzero F32.zero)
     = mk_quat F32.zero F32.zero F32.zero F32.zero
  /\ attitude
       (update_compass straight (mk3 (F32.of_bits 1 100) F32.zero F32.zero)
          gravity mag_north vzero)
     = mk_quat F32.zero F32.zero F32.zero F32.zero
  /\ attitude
       (update_ACC_only straight (mk3 (F32.of_bits 1 100) F32.zero F32.zero)
          gravity mag_north vzero)
     = mk_quat F32.zero F32.zero F32.zero F32.zero
  /\ Norm.quat_norm (mk_quat F32.zero F32.zero F32.zero F32.zero) = 0%R
  /\ ~ Norm.unit_quaternion
         (attitude
            (update_compass straight
               (mk3 (F32.of_bits 1 100) F32.zero F32.zero)
               gravity mag_north vzero)).
Proof.
  assert (Hnorm : Norm.quat_norm (mk_quat F32.zero F32.zero F32.zero F32.zero)
                  = 0%R).
  { unfold Norm.quat_norm, Norm.quat_norm_square.
    cbn [q0 q1 q2 q3 F32.zero Exact.value].
    replace (0 * 0 + 0 * 0 + 0 * 0 + 0 * 0)%R with 0%R by ring.
    apply sqrt_0. }
  assert (Hcompass :
            attitude
              (update_compass straight
                 (mk3 (F32.of_bits 1 100) F32.zero F32.zero)
                 gravity mag_north vzero)
            = mk_quat F32.zero F32.zero F32.zero F32.zero)
    by (vm_compute; reflexivity).
  split; [vm_compute; reflexivity|].
  split; [vm_compute; reflexivity|].
  split; [vm_compute; reflexivity|].
  split; [exact Hcompass|].
  split; [vm_compute; reflexivity|].
  split; [exact Hnorm|].
  rewrite Hcompass. intros [_ Hunit]. rewrite Hnorm in Hunit.
  rewrite Rabs_left in Hunit by lra. lra.
Qed.

End BenchUnit.
